(** * Layered layout of clustered node graphs: crossing minimisation and
      linear-segment placement

    Shallow embedding of [arrange/ordering.py],
    [arrange/placement/linear_segments.py] and the entry points of
    [arrange/sugiyama.py], followed by the properties established for them.

    Conventions of the embedding.
    - Graph nodes, clusters and segments are Python objects compared by
      identity; they are modelled by natural-number handles.
    - Python [float] values are modelled by exact rationals [Q]; [math.inf]
      is a separate constructor.  Rounding is not modelled.
    - A Python exception ([KeyError], [ValueError], [StopIteration]) is the
      [None] of an [option] result; a [while] loop is a fuelled fixpoint that
      returns [None] when the fuel runs out, together with a lemma giving a
      fuel that always suffices where a result is claimed.
    - [networkx.DiGraph] keeps nodes and adjacency in insertion order; it is
      modelled by a node list and an edge list in insertion order.
    - The process-wide generator of the [random] module is an explicit state
      threaded through the functions that draw from it. *)

From Stdlib Require Import ZArith QArith Qabs Qround List Lia Lqa Permutation Sorted Bool Arith.
From stdpp Require Import gmap list sorting.
Import ListNotations.

(** ** Python containers and sorting *)

Module Py.

(** A [dict] in insertion order.  [dict_set] overwrites the value of a key
    that is present (keeping its place) and appends a new key otherwise. *)
Fixpoint dict_get {K V : Type} `{EqDecision K} (k : K) (d : list (K * V)) : option V :=
  match d with
  | [] => None
  | (k', v) :: d' => if decide (k = k') then Some v else dict_get k d'
  end.

Fixpoint dict_set {K V : Type} `{EqDecision K} (k : K) (v : V) (d : list (K * V)) : list (K * V) :=
  match d with
  | [] => [(k, v)]
  | (k', v') :: d' => if decide (k = k') then (k, v) :: d' else (k', v') :: dict_set k v d'
  end.

(** The distinct elements of [l] in the order of their first occurrence: the
    keys of a [dict] filled from [l].  For a [set] the order is the one the
    hashes give; the model takes the same list. *)
Fixpoint unique_from {A : Type} `{EqDecision A} (seen l : list A) : list A :=
  match l with
  | [] => []
  | x :: l' =>
      if bool_decide (x ∈ seen) then unique_from seen l' else x :: unique_from (x :: seen) l'
  end.

Definition unique {A : Type} `{EqDecision A} (l : list A) : list A := unique_from [] l.

(** [l.index(x)]: position of the first occurrence; [None] is [ValueError]. *)
Fixpoint index {A : Type} `{EqDecision A} (x : A) (l : list A) : option nat :=
  match l with
  | [] => None
  | y :: l' => if decide (x = y) then Some O else S <$> index x l'
  end.

(** [l.remove(x)]: drops the first occurrence; [None] is [ValueError]. *)
Fixpoint remove {A : Type} `{EqDecision A} (x : A) (l : list A) : option (list A) :=
  match l with
  | [] => None
  | y :: l' => if decide (x = y) then Some l' else cons y <$> remove x l'
  end.

(** [sorted] and [list.sort] are stable.  The result of a stable sort is
    determined by the input and the order on keys, so insertion sort, which
    puts an element in front of the first one that is not smaller, models
    them.  [le x y] is the comparison of the keys of [x] and [y]. *)
Fixpoint insert_by {A : Type} (le : A -> A -> bool) (x : A) (l : list A) : list A :=
  match l with
  | [] => [x]
  | y :: l' => if le x y then x :: y :: l' else y :: insert_by le x l'
  end.

Definition sort_by {A : Type} (le : A -> A -> bool) (l : list A) : list A :=
  foldr (insert_by le) [] l.

(** [sorted(l, key=key)] for rational, natural and integer keys, and
    [sorted(l, key=key, reverse=True)], which keeps equal keys in their
    original order as well. *)
Definition sorted_Q {A : Type} (key : A -> Q) : list A -> list A :=
  sort_by (fun x y => Qle_bool (key x) (key y)).

Definition sorted_nat {A : Type} (key : A -> nat) : list A -> list A :=
  sort_by (fun x y => (key x <=? key y)%nat).

Definition sorted_nat_rev {A : Type} (key : A -> nat) : list A -> list A :=
  sort_by (fun x y => (key y <=? key x)%nat).

(** The order that a stable sort by [key] makes of a list in the order
    [R2]: by key, and by [R2] among equal keys. *)
Definition lex {A : Type} (key : A -> nat) (R2 : A -> A -> Prop) (a b : A) : Prop :=
  (key a < key b)%nat \/ (key a = key b /\ R2 a b).

(** [pairwise(l)] of [itertools]. *)
Fixpoint pairwise {A : Type} (l : list A) : list (A * A) :=
  match l with
  | x :: (y :: _) as l' => (x, y) :: pairwise l'
  | _ => []
  end.

End Py.

(** ** ordering.py: working data of the crossing reduction *)

Module Ordering.
Import Py.

(** [Socket] of [graph.py] as the call sites build it:
    [Socket(owner, idx, is_output)], compared by value. *)
Record Socket : Type := mkSocket { owner : nat; idx : nat; is_output : bool }.

#[global] Instance Socket_eq_dec : EqDecision Socket.
Proof. solve_decision. Defined.

#[global] Instance Socket_countable : Countable Socket.
Proof.
  refine (inj_countable' (fun s => (owner s, idx s, is_output s))
                         (fun t => mkSocket t.1.1 t.1.2 t.2) _).
  intros []; reflexivity.
Defined.

(** [ClusterCrossingsData].  [graph] holds the edges of the contracted graph
    [G_h]; the dictionaries are kept in insertion order; the fields [N] and
    [S] are [H_N] and [H_S] here. *)
Record ClusterCrossingsData : Type := mkH {
  free_col : list nat;
  fixed_sockets : list (nat * list Socket);
  free_sockets : list (nat * list Socket);
  constrained_clusters : list nat;
  graph : list (nat * nat);
  H_N : list Socket;
  H_S : list Socket;
  bipartite_edges : list (Socket * Socket * Z)
}.

(** The attributes of nodes and clusters that the crossing reduction reads
    and writes: the columns ([v.col] is the column that holds [v]),
    [v.cr.barycenter] (absent is [None]) and [v.cr.socket_ranks]. *)
Record Store : Type := mkStore {
  columns : list (list nat);
  barycenter : gmap nat Q;
  socket_ranks : gmap (nat * Socket) Q
}.

Definition set_barycenter (v : nat) (b : Q) (st : Store) : Store :=
  mkStore (columns st) (<[v := b]> (barycenter st)) (socket_ranks st).

Definition set_socket_ranks (sr : gmap (nat * Socket) Q) (st : Store) : Store :=
  mkStore (columns st) (barycenter st) sr.

(** [v.col.index(v)] *)
Definition col_index (st : Store) (v : nat) : option nat :=
  c ← List.find (fun c => bool_decide (v ∈ c)) (columns st); index v c.

Definition Q_of_nat (n : nat) : Q := inject_Z (Z.of_nat n).

(** The [random] module: a generator state, [seed] and [uniform(0, 1)], whose
    values lie between 0 and 1. *)
Class RandomSource : Type := {
  rng : Type;
  seed : Z -> rng;
  uniform01 : rng -> Q * rng;
  uniform01_range : forall g, (0 <= fst (uniform01 g) <= 1)%Q
}.

Definition _RANDOM_AMOUNT : Q := 7 # 100.

(** *** calc_socket_ranks *)

(** The inner loop [for socket in sockets: rank += incr; ...]. *)
Fixpoint assign_socket_ranks (v : nat) (incr rank : Q) (sockets : list Socket)
    (sr : gmap (nat * Socket) Q) : gmap (nat * Socket) Q :=
  match sockets with
  | [] => sr
  | s :: rest =>
      let rank' := (rank + incr)%Q in
      assign_socket_ranks v incr rank' rest (<[(v, s) := rank']> sr)
  end.

Definition socket_incr (forwards : bool) (sockets : list Socket) : Q :=
  let incr := (1 / Q_of_nat (length sockets + 1))%Q in
  if forwards then (- incr)%Q else incr.

Fixpoint calc_socket_ranks_items (items : list (nat * list Socket)) (forwards : bool)
    (st : Store) : option Store :=
  match items with
  | [] => Some st
  | (v, sockets) :: items' =>
      i ← col_index st v;
      let rank := Q_of_nat (i + 1) in
      let sr := assign_socket_ranks v (socket_incr forwards sockets) rank sockets (socket_ranks st) in
      calc_socket_ranks_items items' forwards (set_socket_ranks sr st)
  end.

Definition calc_socket_ranks (H : ClusterCrossingsData) (forwards : bool) (st : Store)
  : option Store :=
  calc_socket_ranks_items (fixed_sockets H) forwards st.

(** Line 93 of [crossing_reduction_data]: the order in which the sockets of a
    fixed node are stored, [sorted(sockets, key=idx, reverse=not backwards)]. *)
Definition fixed_socket_order (backwards : bool) (sockets : list Socket) : list Socket :=
  if backwards then sorted_nat idx sockets else sorted_nat_rev idx sockets.

(** *** calc_barycenters *)

(** [sum([s.owner.cr.socket_ranks[s] for s in sockets])] *)
Fixpoint sum_socket_ranks (st : Store) (sockets : list Socket) : option Q :=
  match sockets with
  | [] => Some 0%Q
  | s :: rest =>
      r ← socket_ranks st !! (owner s, s);
      t ← sum_socket_ranks st rest;
      Some (r + t)%Q
  end.

(** The summed weight after the random shift of line 154. *)
Definition perturbed (weight u : Q) : Q :=
  (weight + (u * _RANDOM_AMOUNT - _RANDOM_AMOUNT / 2))%Q.

Section Random.
Context {R : RandomSource}.

Fixpoint calc_barycenters_col (free_sockets : list (nat * list Socket)) (col : list nat)
    (st : Store) (g : rng) : option (Store * rng) :=
  match col with
  | [] => Some (st, g)
  | w :: col' =>
      sockets ← dict_get w free_sockets;
      match sockets with
      | [] => calc_barycenters_col free_sockets col' st g
      | _ =>
          weight ← sum_socket_ranks st sockets;
          let '(u, g') := uniform01 g in
          let b := (perturbed weight u / Q_of_nat (length sockets))%Q in
          calc_barycenters_col free_sockets col' (set_barycenter w b st) g'
      end
  end.

Definition calc_barycenters (H : ClusterCrossingsData) (st : Store) (g : rng)
  : option (Store * rng) :=
  calc_barycenters_col (free_sockets H) (free_col H) st g.

(** *** fill_in_unknown_barycenters *)

Definition Qmax_list (default : Q) (l : list Q) : Q :=
  match l with
  | [] => default
  | x :: l' => foldl (fun m y => if Qle_bool m y then y else m) x l'
  end.

Definition known_barycenters (st : Store) (col : list nat) : list Q :=
  omap (fun v => barycenter st !! v) col.

Fixpoint fill_random (max_b : Q) (col : list nat) (st : Store) (g : rng) : Store * rng :=
  match col with
  | [] => (st, g)
  | v :: col' =>
      match barycenter st !! v with
      | Some _ => fill_random max_b col' st g
      | None =>
          let '(u, g') := uniform01 g in
          fill_random max_b col' (set_barycenter v (u * max_b - 1)%Q st) g'
      end
  end.

(** The later iterations: [prev] is [col[i - 1]] when [i != 0]; [None] of the
    result is the [TypeError] of an arithmetic on a missing barycenter. *)
Fixpoint fill_between (prev : option nat) (col : list nat) (st : Store) : option Store :=
  match col with
  | [] => Some st
  | v :: col' =>
      match barycenter st !! v with
      | Some _ => fill_between (Some v) col' st
      | None =>
          prev_b ← match prev with
                   | None => Some 0%Q
                   | Some p => barycenter st !! p
                   end;
          let next_b := match known_barycenters st col' with
                        | b :: _ => b
                        | [] => (prev_b + 1)%Q
                        end in
          fill_between (Some v) col' (set_barycenter v ((prev_b + next_b) / 2)%Q st)
      end
  end.

Definition fill_in_unknown_barycenters (col : list nat) (is_first_iter : bool)
    (st : Store) (g : rng) : option (Store * rng) :=
  if is_first_iter then
    let max_b := (Qmax_list 0 (known_barycenters st col) + 2)%Q in
    Some (fill_random max_b col st g)
  else
    st' ← fill_between None col st; Some (st', g).

End Random.

(** A generator for worked examples: the [n]-th draw after seeding is
    [1 / (n + 1)], so the first draw is 1. *)
Definition harmonic_source : RandomSource.
Proof.
  refine {| rng := nat;
            seed := fun z => Z.to_nat z;
            uniform01 := fun n => ((1 / Q_of_nat (n + 1))%Q, Datatypes.S n) |}.
  intros n. cbn.
  assert (H : (1 <= Q_of_nat (n + 1))%Q).
  { unfold Q_of_nat. change 1%Q with (inject_Z 1). rewrite <- Zle_Qle. lia. }
  split.
  - apply Qle_shift_div_l; lra.
  - apply Qle_shift_div_r; lra.
Defined.

(** The smallest input that separates the two passes: one fixed node, first
    in its column, with one socket. *)
Definition one_socket : Socket := mkSocket 0 0 true.
Definition one_node_H : ClusterCrossingsData :=
  mkH [1%nat] [(0%nat, [one_socket])] [(1%nat, [one_socket])] [] [(0%nat, 1%nat)]
      [one_socket] [mkSocket 1 0 false] [(one_socket, mkSocket 1 0 false, 1%Z)].
Definition one_node_store : Store := mkStore [[0%nat]; [1%nat]] ∅ ∅.


(** A free element (handle 2) with two incident sockets of ranks 1 and 2,
    owned by the fixed nodes 0 and 1. *)
Definition socket_a : Socket := mkSocket 0 0 true.
Definition socket_b : Socket := mkSocket 1 0 true.
Definition two_socket_H : ClusterCrossingsData :=
  mkH [2%nat; 3%nat]
      [(0%nat, [socket_a]); (1%nat, [socket_b])]
      [(2%nat, [socket_a; socket_b]); (3%nat, [])]
      [] [(0%nat, 2%nat); (1%nat, 2%nat)]
      [socket_a; socket_b] [mkSocket 2 0 false]
      [(socket_a, mkSocket 2 0 false, 1%Z); (socket_b, mkSocket 2 0 false, 1%Z)].
Definition two_socket_store : Store :=
  mkStore [[0%nat; 1%nat]; [2%nat; 3%nat]] ∅
          (<[(0%nat, socket_a) := 1%Q]> (<[(1%nat, socket_b) := 2%Q]> ∅)).


(** What [calc_barycenters] leaves in [w.cr.barycenter] when it assigns it:
    the summed ranks, shifted by the draw [u], divided by the socket count. *)
Definition assigned_from (fs : list (nat * list Socket)) (st0 st' : Store) (w : nat) : Prop :=
  exists sockets weight u,
    dict_get w fs = Some sockets /\ sockets <> []
    /\ sum_socket_ranks st0 sockets = Some weight
    /\ (0 <= u <= 1)%Q
    /\ barycenter st' !! w = Some (perturbed weight u / Q_of_nat (length sockets))%Q.

Definition has_sockets (fs : list (nat * list Socket)) (w : nat) : Prop :=
  exists s sockets, dict_get w fs = Some (s :: sockets).


(** The state of the generator after [n] draws from the state [g], and the
    value of the draw number [i] (counted from 0) made from [g]. *)
Fixpoint after_draws {R : RandomSource} (n : nat) (g : rng) : rng :=
  match n with
  | O => g
  | Datatypes.S n' => after_draws n' (uniform01 g).2
  end.

Definition drawn {R : RandomSource} (g : rng) (i : nat) : Q := (uniform01 (after_draws i g)).1.

(** The entries of the free column that have a socket, in column order. *)
Definition has_socketsb (fs : list (nat * list Socket)) (w : nat) : bool :=
  match dict_get w fs with
  | Some (_ :: _) => true
  | _ => false
  end.

Definition drawing_elements (fs : list (nat * list Socket)) (col : list nat) : list nat :=
  filter (fun w => has_socketsb fs w = true) col.

(** *** networkx.DiGraph *)

(** Nodes and edges in insertion order; [GC[v]] and [GC.pred[v]] list the
    neighbours in the order in which their edges were added. *)
Record DiGraph : Type := mkG { nodes : list nat; edges : list (nat * nat) }.

Definition empty_graph : DiGraph := mkG [] [].

Definition add_node (v : nat) (G : DiGraph) : DiGraph :=
  if bool_decide (v ∈ nodes G) then G else mkG (nodes G ++ [v]) (edges G).

Definition add_edge (u v : nat) (G : DiGraph) : DiGraph :=
  let G' := add_node v (add_node u G) in
  if bool_decide ((u, v) ∈ edges G') then G' else mkG (nodes G') (edges G' ++ [(u, v)]).

Definition add_edges_from (l : list (nat * nat)) (G : DiGraph) : DiGraph :=
  foldl (fun G e => add_edge e.1 e.2 G) G l.

Definition remove_node (v : nat) (G : DiGraph) : DiGraph :=
  mkG (filter (fun w => w <> v) (nodes G))
      (filter (fun e => e.1 <> v /\ e.2 <> v) (edges G)).

Definition remove_nodes_from (l : list nat) (G : DiGraph) : DiGraph :=
  foldl (fun G v => remove_node v G) G l.

Definition remove_edge (u v : nat) (G : DiGraph) : DiGraph :=
  mkG (nodes G) (filter (fun e => e <> (u, v)) (edges G)).

Definition succs (G : DiGraph) (v : nat) : list nat :=
  (filter (fun e => e.1 = v) (edges G)).*2.

Definition preds (G : DiGraph) (v : nat) : list nat :=
  (filter (fun e => e.2 = v) (edges G)).*1.

Definition in_degree (G : DiGraph) (v : nat) : nat := length (preds G v).

(** [H.graph.degree[v]]: in-degree plus out-degree in [G_h]. *)
Definition degree (g : list (nat * nat)) (v : nat) : nat :=
  length (filter (fun e => e.1 = v) g) + length (filter (fun e => e.2 = v) g).

(** *** find_violated_constraint *)

(** [incoming_constraints[t]] of a [defaultdict(list)]. *)
Definition incoming_of (inc : gmap nat (list (nat * nat))) (t : nat) : list (nat * nat) :=
  default [] (inc !! t).

(** [for c in incoming_constraints[v]: if c[0].cr.barycenter >= v.cr.barycenter:
    return c].  The outer [None] is the [TypeError] of comparing a missing
    barycenter. *)
Fixpoint first_violated (b : gmap nat Q) (v : nat) (cs : list (nat * nat))
  : option (option (nat * nat)) :=
  match cs with
  | [] => Some None
  | c :: cs' =>
      bs ← b !! c.1;
      bv ← b !! v;
      if Qle_bool bv bs then Some (Some c) else first_violated b v cs'
  end.

(** [for t in GC[v]: incoming_constraints[t].insert(0, (v, t)); ...] *)
Fixpoint push_constraints (GC : DiGraph) (v : nat) (ts : list nat)
    (active : list nat) (inc : gmap nat (list (nat * nat)))
  : list nat * gmap nat (list (nat * nat)) :=
  match ts with
  | [] => (active, inc)
  | t :: ts' =>
      let cs := (v, t) :: incoming_of inc t in
      let active' := if decide (length cs = in_degree GC t) then active ++ [t] else active in
      push_constraints GC v ts' active' (<[t := cs]> inc)
  end.

(** The [while active] loop; one unit of fuel per [active.pop(0)]. *)
Fixpoint find_violated_loop (fuel : nat) (GC : DiGraph) (b : gmap nat Q)
    (active : list nat) (inc : gmap nat (list (nat * nat)))
  : option (option (nat * nat)) :=
  match active with
  | [] => Some None
  | v :: active' =>
      match fuel with
      | O => None
      | Datatypes.S fuel' =>
          r ← first_violated b v (incoming_of inc v);
          match r with
          | Some c => Some (Some c)
          | None =>
              let '(active'', inc') := push_constraints GC v (succs GC v) active' inc in
              find_violated_loop fuel' GC b active'' inc'
          end
      end
  end.

(** Every node is popped at most once (lemma [find_violated_constraint_total]),
    so as many units of fuel as there are nodes suffice. *)
Definition find_violated_constraint (GC : DiGraph) (b : gmap nat Q)
  : option (option (nat * nat)) :=
  let active := filter (fun v => succs GC v <> [] /\ preds GC v = []) (nodes GC) in
  find_violated_loop (length (nodes GC)) GC b active ∅.

(** *** handle_constraints *)

(** The local variables of [handle_constraints].  The barycenters read and
    written inside the loop are those of the clusters and of the merged
    nodes [v_c]; [bary] starts as a copy of the stored barycenters and the
    merged nodes are fresh handles counted from [fresh]. *)
Record Resolution : Type := mkRes {
  GC : DiGraph;
  unconstrained : list nat;
  L : gmap nat (list nat);
  deg : gmap nat nat;
  bary : gmap nat Q;
  fresh : nat
}.

(** One pass through the body of the [while] loop for the violated
    constraint [(s, t)]. *)
Definition merge_constraint (c : nat * nat) (r : Resolution) : option Resolution :=
  let '(s, t) := c in
  let v_c := fresh r in
  ds ← deg r !! s;
  dt ← deg r !! t;
  bs ← bary r !! s;
  bt ← bary r !! t;
  ls ← L r !! s;
  lt ← L r !! t;
  let dc := (ds + dt)%nat in
  let bc := if decide (0 < dc)%nat
            then ((bs * Q_of_nat ds + bt * Q_of_nat dt) / Q_of_nat dc)%Q
            else ((bs + bt) / 2)%Q in
  let G1 := foldl (fun G u => add_edge u v_c G) (GC r) (preds (GC r) s ++ preds (GC r) t) in
  let G2 := remove_nodes_from [s; t] G1 in
  let G3 := if bool_decide ((v_c, v_c) ∈ edges G2) then remove_edge v_c v_c G2 else G2 in
  let unc := if bool_decide (v_c ∈ nodes G3) then unconstrained r else unconstrained r ++ [v_c] in
  Some (mkRes G3 unc (<[v_c := ls ++ lt]> (L r)) (<[v_c := dc]> (deg r))
              (<[v_c := bc]> (bary r)) (Datatypes.S v_c)).

(** [while c := find_violated_constraint(GC): ...]; the result carries the
    number of merges. *)
Fixpoint resolve_constraints (fuel : nat) (r : Resolution) : option (Resolution * nat) :=
  c ← find_violated_constraint (GC r) (bary r);
  match c with
  | None => Some (r, O)
  | Some c =>
      match fuel with
      | O => None
      | Datatypes.S fuel' =>
          r' ← merge_constraint c r;
          '(r'', n) ← resolve_constraints fuel' r';
          Some (r'', Datatypes.S n)
      end
  end.

Definition list_max_nat (l : list nat) : nat := foldr Nat.max O l.

Definition resolution_init (H : ClusterCrossingsData) (st : Store) : Resolution :=
  let G0 := add_edges_from (pairwise (constrained_clusters H)) empty_graph in
  mkRes G0
        (filter (fun v => v ∉ nodes G0) (free_col H))
        (list_to_map ((fun v => (v, [v])) <$> free_col H))
        (list_to_map ((fun v => (v, degree (graph H) v)) <$> nodes G0))
        (barycenter st)
        (Datatypes.S (list_max_nat (free_col H ++ nodes G0))).

(** [for i, v in enumerate(...): v.cr.barycenter = i] *)
Fixpoint assign_ranks (i : nat) (order : list nat) (st : Store) : Store :=
  match order with
  | [] => st
  | v :: order' => assign_ranks (Datatypes.S i) order' (set_barycenter v (Q_of_nat i) st)
  end.

(** [sorted(unconstrained | GC.nodes, key=...)] sorts a set, whose iteration
    order decides between equal barycenters; here the unconstrained elements
    come first, in free-column order.  [None] is a [KeyError] or
    [TypeError] on a missing entry.  Each merge removes a node from [GC]
    (theorem [constraint_loop_terminates]), so the fuel given suffices. *)
Definition handle_constraints (H : ClusterCrossingsData) (st : Store) : option Store :=
  let r0 := resolution_init H st in
  '(r, _) ← resolve_constraints (length (nodes (GC r0))) r0;
  let members := unconstrained r ++ nodes (GC r) in
  keyed ← mapM (fun v => b ← bary r !! v; Some (v, b)) members;
  let groups := (sorted_Q snd keyed).*1 in
  order ← mapM (fun v => L r !! v) groups;
  Some (assign_ranks O (concat order) st).

(** The forced order A < B < C (handles 0, 1, 2) with barycenters 3, 2, 1. *)
Definition abc_H : ClusterCrossingsData :=
  mkH [0%nat; 1%nat; 2%nat] [] [(0%nat, []); (1%nat, []); (2%nat, [])]
      [0%nat; 1%nat; 2%nat] [] [] [] [].
Definition abc_store : Store :=
  mkStore [[0%nat; 1%nat; 2%nat]]
          (<[0%nat := 3%Q]> (<[1%nat := 2%Q]> (<[2%nat := 1%Q]> ∅))) ∅.

(** Well-formed graphs and resolution states: the invariants of the loop of
    [handle_constraints]. *)
Definition wf_graph (G : DiGraph) : Prop :=
  NoDup (nodes G) /\ forall u v, (u, v) ∈ edges G -> u ∈ nodes G /\ v ∈ nodes G.

Definition wf_resolution (r : Resolution) : Prop :=
  wf_graph (GC r)
  /\ (forall v, v ∈ nodes (GC r) ->
        is_Some (bary r !! v) /\ is_Some (deg r !! v) /\ is_Some (L r !! v))
  /\ (forall v, v ∈ nodes (GC r) -> (v < fresh r)%nat).

(** Invariant of the worklist of [find_violated_constraint]; [done] lists the
    nodes popped so far. *)
Definition worklist_inv (G : DiGraph) (done active : list nat)
    (inc : gmap nat (list (nat * nat))) : Prop :=
  NoDup (active ++ done)
  /\ (forall v, v ∈ active ++ done -> v ∈ nodes G)
  /\ (forall t, t ∈ active ++ done -> (in_degree G t <= length (incoming_of inc t))%nat)
  /\ (forall t c, c ∈ incoming_of inc t -> c.2 = t /\ c.1 ∈ done /\ c ∈ edges G).

(** *** get_cross_count *)

(** [key] computes the sort key of an element ([None] when the key function
    raises); [list.sort(key=...)] computes all keys first. *)
Definition sort_key {A K : Type} (leb : K -> K -> bool) (key : A -> option K) (l : list A)
  : option (list A) :=
  keyed ← mapM (fun x => k ← key x; Some (x, k)) l;
  Some (sort_by (fun a b => leb a.2 b.2) keyed).*1.

(** [pos]: the barycenter of a free owner, the column index of a fixed one. *)
Definition pos (H : ClusterCrossingsData) (st : Store) (w : Socket) : option Q :=
  let v := owner w in
  if bool_decide (v ∈ free_col H) then barycenter st !! v
  else Q_of_nat <$> col_index st v.

(** [{k: i for i, k in enumerate(l)}] *)
Fixpoint index_map_from (i : nat) (l : list Socket) (m : gmap Socket nat) : gmap Socket nat :=
  match l with
  | [] => m
  | k :: l' => index_map_from (Datatypes.S i) l' (<[k := i]> m)
  end.

Definition index_map (l : list Socket) : gmap Socket nat := index_map_from O l ∅.

(** [first_idx = 1; while first_idx < n: first_idx *= 2].  Doubling [n]
    times exceeds [n], so [n] units of fuel let the loop run to its exit. *)
Fixpoint grow_first_idx (fuel first_idx n : nat) : nat :=
  match fuel with
  | O => first_idx
  | Datatypes.S fuel' =>
      if (first_idx <? n)%nat then grow_first_idx fuel' (2 * first_idx) n else first_idx
  end.

(** The inner [while idx > 0] loop.  [None] is an [IndexError] or, with too
    little fuel, a loop that has not come to its end; [idx] shrinks in every
    round, so [idx] units of fuel suffice. *)
Fixpoint climb (fuel : nat) (weight : Z) (idx : nat) (tree : list Z) (weight_sum : Z)
  : option (list Z * Z) :=
  if decide (idx = O) then Some (tree, weight_sum)
  else
    match fuel with
    | O => None
    | Datatypes.S fuel' =>
        ws ← (if decide (idx mod 2 = 1)%nat
              then x ← tree !! (idx + 1)%nat; Some (weight_sum + x)%Z
              else Some weight_sum);
        let idx' := ((idx - 1) / 2)%nat in
        y ← tree !! idx';
        climb fuel' weight idx' (<[idx' := (y + weight)%Z]> tree) ws
    end.

(** The body of [for _, v, weight in edges]. *)
Definition sweep_step (south_indicies : gmap Socket nat) (first_idx : nat)
    (acc : list Z * Z) (e : Socket * Socket * Z) : option (list Z * Z) :=
  let '(tree, cross_weight) := acc in
  let '(_, v, weight) := e in
  i ← south_indicies !! v;
  let idx := (i + first_idx)%nat in
  x ← tree !! idx;
  '(tree', weight_sum) ← climb idx weight idx (<[idx := (x + weight)%Z]> tree) 0%Z;
  Some (tree', (cross_weight + weight * weight_sum)%Z).

Fixpoint sweep (south_indicies : gmap Socket nat) (first_idx : nat)
    (acc : list Z * Z) (es : list (Socket * Socket * Z)) : option (list Z * Z) :=
  match es with
  | [] => Some acc
  | e :: es' =>
      acc' ← sweep_step south_indicies first_idx acc e;
      sweep south_indicies first_idx acc' es'
  end.

(** Lines 237-273: the sweep over the sorted edges. *)
Definition cross_count_sweep (H : ClusterCrossingsData) (st : Store)
  : option (Z * ClusterCrossingsData) :=
  N' ← sort_key Qle_bool (pos H st) (H_N H);
  S' ← sort_key Qle_bool (pos H st) (H_S H);
  let south_indicies := index_map S' in
  let north_indicies := index_map N' in
  es1 ← sort_key Nat.leb (fun e => south_indicies !! e.1.2) (bipartite_edges H);
  es2 ← sort_key Nat.leb (fun e => north_indicies !! e.1.1) es1;
  let first_idx := grow_first_idx (length S') 1 (length S') in
  let tree := replicate (2 * first_idx - 1) 0%Z in
  '(_, cross_weight) ← sweep south_indicies (first_idx - 1) (tree, 0%Z) es2;
  Some (cross_weight,
        mkH (free_col H) (fixed_sockets H) (free_sockets H) (constrained_clusters H)
            (graph H) N' S' es2).

(** [get_cross_count] returns the count; it also leaves [H.N], [H.S] and
    [H.bipartite_edges] sorted, which the result records. *)
Definition get_cross_count (H : ClusterCrossingsData) (st : Store)
  : option (Z * ClusterCrossingsData) :=
  match bipartite_edges H with
  | [] => Some (0%Z, H)
  | _ :: _ => cross_count_sweep H st
  end.

(** *** The reference count *)

(** Modelled from the spec: the brute-force reference counter of the
    testable properties, which is not part of the sources.  Two edges cross
    when their north ends and their south ends are in opposite order; the
    count sums the products of the weights over all crossing pairs. *)
Definition crossing (north south : Socket -> nat) (e1 e2 : Socket * Socket * Z) : bool :=
  ((north e1.1.1 <? north e2.1.1)%nat && (south e2.1.2 <? south e1.1.2)%nat)
  || ((north e2.1.1 <? north e1.1.1)%nat && (south e1.1.2 <? south e2.1.2)%nat).

Definition crossing_weight (north south : Socket -> nat) (e1 e2 : Socket * Socket * Z) : Z :=
  if crossing north south e1 e2 then (e1.2 * e2.2)%Z else 0%Z.

Definition sumZ {A : Type} (f : A -> Z) (l : list A) : Z :=
  foldr (fun x acc => (f x + acc)%Z) 0%Z l.

(** Sum of [g a b] over the pairs with [a] before [b] in the list. *)
Fixpoint sum_pairs {A : Type} (g : A -> A -> Z) (l : list A) : Z :=
  match l with
  | [] => 0%Z
  | a :: l' => (sumZ (g a) l' + sum_pairs g l')%Z
  end.

Definition brute_force_cross_count (north south : Socket -> nat)
    (es : list (Socket * Socket * Z)) : Z :=
  sum_pairs (crossing_weight north south) es.

(** Position of a socket in a sorted side, as the dictionaries
    [north_indicies] and [south_indicies] give it. *)
Definition index_in (l : list Socket) (k : Socket) : nat := default O (index_map l !! k).

(** Bookkeeping for the accumulator tree.  The tree is a complete binary
    tree in an array: the node with 1-based number [m] sits at index
    [m - 1], its children are [2m] and [2m + 1], and with [2^k] leaves the
    leaf of south index [s] has number [s + 2^k].  A node of depth [d]
    covers the leaves numbered from [m * 2^(k-d)] up to, not including,
    [(m + 1) * 2^(k-d)].  [leaf_weight k l a b] is the weight of the edges
    (south index, weight) of [l] whose leaf number lies in [a, b). *)
Definition leaf_weight (k : nat) (l : list (nat * Z)) (a b : nat) : Z :=
  foldr (fun e acc => if decide (a <= e.1 + 2 ^ k < b)%nat then (e.2 + acc)%Z else acc) 0%Z l.

Definition node_lo (k d m : nat) : nat := m * 2 ^ (k - d).
Definition node_hi (k d m : nat) : nat := (m + 1) * 2 ^ (k - d).

Definition is_node (d m : nat) : Prop := (2 ^ d <= m < 2 ^ (d + 1))%nat.

(** All nodes hold the weight of the edges of [l] below them. *)
Definition tree_inv (k : nat) (l : list (nat * Z)) (tree : list Z) : Prop :=
  forall d m, (d <= k)%nat -> is_node d m ->
    tree !! (m - 1)%nat = Some (leaf_weight k l (node_lo k d m) (node_hi k d m)).

(** While the edge [e] is climbing: the nodes of depth [d0] and deeper
    account for it already, the nodes above do not yet. *)
Definition climb_inv (k : nat) (l : list (nat * Z)) (e : nat * Z) (d0 : nat) (tree : list Z) : Prop :=
  forall d m, (d <= k)%nat -> is_node d m ->
    tree !! (m - 1)%nat
    = Some (leaf_weight k (if decide (d0 <= d)%nat then e :: l else l)
                        (node_lo k d m) (node_hi k d m)).

(** The weight that an edge adds when it is swept after the edges [a] of a
    list: those with a larger south index. *)
Definition passes (a b : nat * Z) : Z :=
  if decide (b.1 < a.1)%nat then (a.2 * b.2)%Z else 0%Z.

(** What the sweep adds for the edges [bs] after the edges [l]. *)
Fixpoint cross_from (l bs : list (nat * Z)) : Z :=
  match bs with
  | [] => 0%Z
  | b :: bs' => (sumZ (fun a => passes a b) l + cross_from (b :: l) bs')%Z
  end.

(** South index and weight of an edge. *)
Definition south_entry (south : gmap Socket nat) (e : Socket * Socket * Z) : nat * Z :=
  (default O (south !! e.1.2), e.2).

(** What [get_cross_count] needs of its input: a position for every socket
    of both sides, and both ends of every edge among them. *)
Definition wf_crossings (H : ClusterCrossingsData) (st : Store) : Prop :=
  (forall w, w ∈ H_N H ++ H_S H -> is_Some (pos H st w))
  /\ (forall e, e ∈ bipartite_edges H -> e.1.1 ∈ H_N H /\ e.1.2 ∈ H_S H).

(** The sides come out of [get_cross_count] sorted by position. *)
Definition sorted_by_pos (H : ClusterCrossingsData) (st : Store) (l : list Socket) : Prop :=
  StronglySorted (fun a b => forall pa pb, pos H st a = Some pa -> pos H st b = Some pb ->
                                           (pa <= pb)%Q) l.


(** *** crossing_reduction_data: the data of one cluster *)

(** An edge [(s, t, d)] of [G.in_edges(TC[h], data=True)] with the sockets
    [d['from_socket']] and [d['to_socket']]. *)
Record GEdge : Type := mkGEdge { e_s : nat; e_t : nat; d_from : Socket; d_to : Socket }.

(** The attributes of an edge of the contracted graph [G_h]. *)
Record HEdge : Type := mkHEdge { weight : Z; from_socket : Socket; to_socket : Socket }.

(** [replace(d, owner=v)] *)
Definition replace_owner (d : Socket) (v : nat) : Socket := mkSocket v (idx d) (is_output d).

Section Contract.
(** [next(c for c in TC.pred[t] if c in LT[h])]: the child of the cluster [h]
    that contains [t]; [None] is [StopIteration].  The closure [TC] is
    computed by networkx. *)
Variable child_of : nat -> option nat.

(** Lines 72-85, for one edge. *)
Definition contract_edge (G_h : list (nat * nat * HEdge)) (e : GEdge)
  : option (list (nat * nat * HEdge)) :=
  c ← child_of (e_t e);
  let s := e_s e in
  match dict_get (s, c) G_h with
  | Some a => Some (dict_set (s, c) (mkHEdge (weight a + 1) (from_socket a) (to_socket a)) G_h)
  | None =>
      let '(k1, k2) := if decide (owner (d_from e) = s) then (d_from e, d_to e)
                       else (d_to e, d_from e) in
      Some (dict_set (s, c) (mkHEdge 1 (replace_owner k1 s) (replace_owner k2 c)) G_h)
  end.

Fixpoint contract_edges (G_h : list (nat * nat * HEdge)) (es : list GEdge)
  : option (list (nat * nat * HEdge)) :=
  match es with
  | [] => Some G_h
  | e :: es' => G_h' ← contract_edge G_h e; contract_edges G_h' es'
  end.

(** Number of original edges from [s] into the child [c]. *)
Definition multiplicity (es : list GEdge) (s c : nat) : Z :=
  sumZ (fun e => if decide (e_s e = s /\ child_of (e_t e) = Some c) then 1%Z else 0%Z) es.

(** Lines 89-119.  [children] is [LT[h]] and [prev_clusters] the clusters of
    the previous tree.  Where the source iterates over a [set] (of sockets)
    the elements are taken in order of first occurrence; the sorts by socket
    index that follow fix the order of the sockets of one node. *)
Definition cluster_crossings_data (children : list nat) (in_edges : list GEdge)
    (prev_clusters : list nat) (backwards : bool) : option ClusterCrossingsData :=
  G_h ← contract_edges [] in_edges;
  let pred_of v := (filter (fun x => x.1.2 = v) G_h).*1.*1 in
  let out_sockets u := from_socket <$> (filter (fun x => x.1.1 = u) G_h).*2 in
  let in_sockets v := from_socket <$> (filter (fun x => x.1.2 = v) G_h).*2 in
  let fixed := foldl (fun d u => dict_set u (fixed_socket_order backwards
                                               (unique (out_sockets u))) d)
                     [] (concat (pred_of <$> children)) in
  let free := foldl (fun d v => dict_set v (in_sockets v) d) [] children in
  let B := (fun x => (from_socket x.2, to_socket x.2, weight x.2)) <$> G_h in
  let N0 := unique (B.*1.*1) in
  let S0 := unique (B.*1.*2) in
  let swap := (length N0 <? length S0)%nat in
  let N1 := if swap then S0 else N0 in
  let S1 := if swap then N0 else S0 in
  let edges := if swap then (fun x => (x.1.2, x.1.1, x.2)) <$> B else B in
  Some (mkH children fixed free
            (filter (fun v => v ∈ prev_clusters) children)
            (G_h.*1)
            (sorted_nat idx N1) (sorted_nat idx S1) edges).

End Contract.

(** Invariant of the contraction: the keys of [G_h] are distinct, every
    contracted edge carries the owners of its key, and its weight is the
    count [m] of the original edges seen so far. *)
Definition contracted (G_h : list (nat * nat * HEdge)) (m : nat -> nat -> Z) : Prop :=
  NoDup G_h.*1
  /\ forall s c,
       match dict_get (s, c) G_h with
       | Some a => weight a = m s c /\ owner (from_socket a) = s /\ owner (to_socket a) = c
       | None => m s c = 0%Z
       end.

(** Three sockets north, three south, four weighted edges. *)
Definition north0 : Socket := mkSocket 0 0 true.
Definition north1 : Socket := mkSocket 1 0 true.
Definition north1b : Socket := mkSocket 1 1 true.
Definition south0 : Socket := mkSocket 2 0 false.
Definition south1 : Socket := mkSocket 3 0 false.
Definition south2 : Socket := mkSocket 4 0 false.
Definition four_edge_H : ClusterCrossingsData :=
  mkH [2%nat; 3%nat; 4%nat] [] [] [] []
      [north1b; north0; north1] [south2; south1; south0]
      [(north0, south1, 2%Z); (north1, south0, 3%Z); (north1b, south2, 5%Z); (north0, south2, 7%Z)].
Definition four_edge_store : Store :=
  mkStore [[0%nat; 1%nat]; [2%nat; 3%nat; 4%nat]]
          (<[2%nat := 0%Q]> (<[3%nat := 1%Q]> (<[4%nat := 2%Q]> ∅))) ∅.

(** Two parallel edges from the socket 0 of node 0 into the nodes 5 and 6,
    which both lie in the child cluster 7. *)
Definition parallel_child_of (t : nat) : option nat :=
  if decide (t = 5%nat \/ t = 6%nat) then Some 7%nat else None.
Definition parallel_edges : list GEdge :=
  [mkGEdge 0 5 (mkSocket 0 0 true) (mkSocket 5 0 false);
   mkGEdge 0 6 (mkSocket 0 0 true) (mkSocket 6 1 false)].

(** *** The optimisation loop *)

(** [inf] or a crossing count. *)
Inductive count : Type := Infinite | Finite (n : Z).

(** [a < b] *)
Definition count_lt (a b : count) : bool :=
  match a, b with
  | Finite x, Finite y => (x <? y)%Z
  | Finite _, Infinite => true
  | Infinite, _ => false
  end.

(** [a == 0] *)
Definition count_is_zero (a : count) : bool :=
  match a with
  | Finite n => (n =? 0)%Z
  | Infinite => false
  end.

(** One entry [(base_free_col, LT, data)] of [forward_items] or
    [backward_items].  [base_free_col] is one of the lists of [columns], so
    the entry holds its place in [columns]. *)
Record FreeColumn : Type := mkItem {
  base_free_col : nat;
  LT : DiGraph;
  data : list ClusterCrossingsData
}.

Definition set_column (k : nat) (col : list nat) (st : Store) : Store :=
  mkStore (<[k := col]> (columns st)) (barycenter st) (socket_ranks st).

Definition set_columns (cols : list (list nat)) (st : Store) : Store :=
  mkStore cols (barycenter st) (socket_ranks st).

Definition set_constrained_clusters (cs : list nat) (H : ClusterCrossingsData)
  : ClusterCrossingsData :=
  mkH (free_col H) (fixed_sockets H) (free_sockets H) cs (graph H) (H_N H) (H_S H)
      (bipartite_edges H).

Definition set_free_col (fc : list nat) (H : ClusterCrossingsData) : ClusterCrossingsData :=
  mkH fc (fixed_sockets H) (free_sockets H) (constrained_clusters H) (graph H) (H_N H) (H_S H)
      (bipartite_edges H).

(** Modelled from the spec: [v.cr.reset()] is defined in [graph.py]; the
    working data of the crossing reduction (barycenter and socket ranks of
    [v]) are discarded in every round of the optimiser. *)
Definition cr_reset (v : nat) (st : Store) : Store :=
  mkStore (columns st) (delete v (barycenter st))
          (filter (fun kv => kv.1.1 <> v) (socket_ranks st)).

(** A sort whose key may be [None] (an absent barycenter): comparing [None]
    is a [TypeError], and a list of fewer than two elements is sorted
    without a comparison. *)
Definition sort_key_opt {A : Type} (key : A -> option Q) (l : list A) : option (list A) :=
  match l with
  | [] | [_] => Some l
  | _ => sort_key Qle_bool key l
  end.

(** The two sort keys of line 328 and line 330. *)
Inductive ClusterKey : Type :=
  | ByFixedColumn (clusters : list nat)
  | ByBarycenter.

Definition sort_constrained (key : ClusterKey) (st : Store) (cs : list nat)
  : option (list nat) :=
  match key with
  | ByFixedColumn clusters => sort_key Nat.leb (fun c => index c clusters) cs
  | ByBarycenter => sort_key_opt (fun c => barycenter st !! c) cs
  end.

(** [for col, best_col in zip(columns, best_columns):
      col.sort(key=best_col.index)] *)
Definition restore_columns (best_columns : list (list nat)) (st : Store) : option Store :=
  cols ← mapM (fun cb => sort_key Nat.leb (fun v => index v cb.2) cb.1)
              (zip (columns st) best_columns);
  Some (set_columns (cols ++ drop (length cols) (columns st)) st).

Definition _ITERATIONS : nat := 15.

(** [G.in_edges(nbunch, data=True)] of a multigraph: for every node of
    [nbunch] its incoming edges, grouped by predecessor. *)
Definition in_edges_of (G : list GEdge) (nbunch : list nat) : list GEdge :=
  concat ((fun t =>
             let es := filter (fun e => e_t e = t) G in
             concat ((fun s => filter (fun e => e_s e = s) es) <$> unique (e_s <$> es)))
          <$> nbunch).

(** [nx.reverse_view(G)] *)
Definition reverse_view (G : list GEdge) : list GEdge :=
  (fun e => mkGEdge (e_t e) (e_s e) (d_from e) (d_to e)) <$> G.

Section Minimize.
Context {R : RandomSource}.

(** Everything the optimisation reads and writes: the attributes of the
    nodes, the two item lists (whose [ClusterCrossingsData] are sorted in
    place) and the state of the generator of the [random] module. *)
Record Reduction : Type := mkRed {
  red_store : Store;
  red_forward : list FreeColumn;
  red_backward : list FreeColumn;
  red_rng : rng
}.

(** Attributes that [graph.py] defines: [v.type == GNodeType.CLUSTER] and
    [v.cluster]. *)
Variable is_cluster : nat -> bool.
Variable cluster_of : nat -> nat.

(** Functions of networkx: [nx.ancestors], [nx.descendants],
    [nx.topological_sort], and the adjacency [TC[v]] and [TC.pred[v]] of
    [nx.transitive_closure(LT, reflexive=True)]. *)
Variable nx_ancestors : DiGraph -> nat -> list nat.
Variable nx_descendants : DiGraph -> nat -> list nat.
Variable nx_topological_sort : DiGraph -> list nat.
Variable TC_succ : DiGraph -> nat -> list nat.
Variable TC_pred : DiGraph -> nat -> list nat.

(** The order in which a [set] of nodes and clusters built from the list
    [l] is iterated.  These objects are hashed by identity, so the order
    follows from their addresses and not from the input of the call. *)
Variable set_order : list nat -> list nat.

(** Line 29 builds the [set] that line 30 iterates. *)
Definition get_col_nesting_trees (columns : list (list nat)) (T : DiGraph) : list DiGraph :=
  (fun col =>
     let nodes := set_order (col ++ concat (nx_ancestors T <$> col)) in
     add_edges_from
       (concat ((fun u => (fun v => (u, v)) <$> filter (fun v => v ∈ nodes) (succs T u))
                <$> nodes))
       empty_graph)
  <$> columns.

Definition topologically_sorted_clusters (LT : DiGraph) : list nat :=
  filter (fun h => is_cluster h = true) (nx_topological_sort LT).

(** [crossing_reduction_data]: for every tree but the first, the data of
    its clusters.  [G_nodes] are the nodes of [G]. *)
Definition crossing_reduction_data (G : list GEdge) (G_nodes : list nat)
    (trees : list DiGraph) (backwards : bool) : option (list (list ClusterCrossingsData)) :=
  mapM (fun iLT : nat * DiGraph =>
          let LT := iLT.2 in
          prev ← trees !! iLT.1;
          let prev_clusters := filter (fun v => v ∉ G_nodes) (nodes prev) in
          mapM (fun h =>
                  cluster_crossings_data
                    (fun t => head (filter (fun c => c ∈ succs LT h) (TC_pred LT t)))
                    (succs LT h) (in_edges_of G (TC_succ LT h)) prev_clusters backwards)
               (topologically_sorted_clusters LT))
       (imap pair (drop 1 trees)).

(** [get_new_col_order]: the leaves below [v], the children of every cluster
    in order of barycenter.  One unit of fuel per level of the tree. *)
Fixpoint get_new_col_order (fuel : nat) (st : Store) (LT : DiGraph) (v : nat)
  : option (list nat) :=
  match fuel with
  | O => None
  | Datatypes.S fuel' =>
      if is_cluster v then
        ws ← sort_key_opt (fun w => barycenter st !! w) (succs LT v);
        orders ← mapM (get_new_col_order fuel' st LT) ws;
        Some (concat orders)
      else Some [v]
  end.

(** The key of [sort_internal_columns]. *)
Definition internal_key (base : list nat) (LT : DiGraph) (v : nat) : option nat :=
  w ← (if is_cluster v then head (filter (fun w => w ∈ nx_descendants LT v) base)
       else Some v);
  index w base.

Definition sort_internal_item (st : Store) (item : FreeColumn) : option FreeColumn :=
  base ← columns st !! base_free_col item;
  data' ← mapM (fun H => fc ← sort_key Nat.leb (internal_key base (LT item)) (free_col H);
                         Some (set_free_col fc H))
               (data item);
  Some (mkItem (base_free_col item) (LT item) data').

Definition sort_internal_columns (st : Store) (items : list FreeColumn)
  : option (list FreeColumn) :=
  mapM (sort_internal_item st) items.

(** The body of [for H in data], lines 332-338. *)
Definition reduce_cluster (key : ClusterKey) (forwards is_first_iter : bool)
    (H : ClusterCrossingsData) (st : Store) (g : rng)
  : option (Z * ClusterCrossingsData * Store * rng) :=
  cs ← sort_constrained key st (constrained_clusters H);
  let H1 := set_constrained_clusters cs H in
  st1 ← calc_socket_ranks H1 forwards st;
  '(st2, g2) ← calc_barycenters H1 st1 g;
  '(st3, g3) ← fill_in_unknown_barycenters (free_col H1) is_first_iter st2 g2;
  st4 ← handle_constraints H1 st3;
  '(n, H2) ← get_cross_count H1 st4;
  Some (n, H2, st4, g3).

Fixpoint reduce_data (key : ClusterKey) (forwards is_first_iter : bool)
    (data : list ClusterCrossingsData) (cross_count : Z) (st : Store) (g : rng)
  : option (Z * list ClusterCrossingsData * Store * rng) :=
  match data with
  | [] => Some (cross_count, [], st, g)
  | H :: data' =>
      '(n, H', st1, g1) ← reduce_cluster key forwards is_first_iter H st g;
      '(cc, data'', st2, g2) ←
        reduce_data key forwards is_first_iter data' (cross_count + n)%Z st1 g1;
      Some (cc, H' :: data'', st2, g2)
  end.

(** The body of [for j, (base_free_col, LT, data) in enumerate(items)]. *)
Definition reduce_column (j : nat) (forwards is_first_iter : bool) (item : FreeColumn)
    (cross_count : Z) (st : Store) (g : rng) : option (Z * FreeColumn * Store * rng) :=
  key ← (if decide (j = O) then
           fixed_col ← (if forwards then head (columns st) else last (columns st));
           Some (ByFixedColumn (cluster_of <$> fixed_col))
         else Some ByBarycenter);
  '(cc, data', st1, g1) ← reduce_data key forwards is_first_iter (data item) cross_count st g;
  root ← head (topologically_sorted_clusters (LT item));
  new_order ← get_new_col_order (Datatypes.S (length (nodes (LT item)))) st1 (LT item) root;
  col ← columns st1 !! base_free_col item;
  col' ← sort_key Nat.leb (fun v => index v new_order) col;
  Some (cc, mkItem (base_free_col item) (LT item) data',
        set_column (base_free_col item) col' st1, g1).

Fixpoint reduce_columns (j : nat) (forwards is_first_iter : bool) (items : list FreeColumn)
    (cross_count : Z) (st : Store) (g : rng)
  : option (Z * list FreeColumn * Store * rng) :=
  match items with
  | [] => Some (cross_count, [], st, g)
  | item :: items' =>
      '(cc1, item', st1, g1) ← reduce_column j forwards is_first_iter item cross_count st g;
      '(cc2, items'', st2, g2) ←
        reduce_columns (Datatypes.S j) forwards is_first_iter items' cc1 st1 g1;
      Some (cc2, item' :: items'', st2, g2)
  end.

(** The [while True] loop of [minimized_cross_count]; [i] is the value of
    the counter after [i += 1], [best_columns] is unbound before the first
    improvement.  One unit of fuel per round: a further round needs a
    strictly smaller count than the one before. *)
Fixpoint minimized_loop (fuel : nat) (nodes_and_clusters : list nat) (i : nat)
    (cross_count : count) (best_columns : option (list (list nat))) (r : Reduction)
  : option (count * Reduction) :=
  match fuel with
  | O => None
  | Datatypes.S fuel' =>
      let st0 := foldl (fun st v => cr_reset v st) (red_store r) nodes_and_clusters in
      let old_cross_count := cross_count in
      if count_is_zero cross_count then
        Some (old_cross_count, mkRed st0 (red_forward r) (red_backward r) (red_rng r))
      else
        let forwards := Nat.even i in
        let items := if forwards then red_forward r else red_backward r in
        '(cc, items', st1, g1) ←
          reduce_columns O forwards (bool_decide (i = O)) items 0%Z st0 (red_rng r);
        let fwd := if forwards then items' else red_forward r in
        let bwd := if forwards then red_backward r else items' in
        if count_lt (Finite cc) old_cross_count then
          fwd' ← sort_internal_columns st1 fwd;
          bwd' ← sort_internal_columns st1 bwd;
          minimized_loop fuel' nodes_and_clusters (Datatypes.S i) (Finite cc)
                         (Some (columns st1)) (mkRed st1 fwd' bwd' g1)
        else
          best ← best_columns;
          st2 ← restore_columns best st1;
          Some (old_cross_count, mkRed st2 fwd bwd g1)
  end.

Definition minimized_cross_count (fuel : nat) (r : Reduction) : option (count * Reduction) :=
  minimized_loop fuel (concat ((fun item => nodes (LT item)) <$> red_forward r))
                 O Infinite None r.

(** [for _ in range(_ITERATIONS)] with [n] rounds to go. *)
Fixpoint restarts (n fuel : nat) (best_cross_count : count) (best_columns : list (list nat))
    (r : Reduction) : option Reduction :=
  match n with
  | O => Some r
  | Datatypes.S n' =>
      '(cross_count, r1) ← minimized_cross_count fuel r;
      if count_lt cross_count best_cross_count then
        if count_is_zero cross_count then Some r1
        else restarts n' fuel cross_count (columns (red_store r1)) r1
      else
        st ← restore_columns best_columns (red_store r1);
        restarts n' fuel best_cross_count best_columns
                 (mkRed st (red_forward r1) (red_backward r1) (red_rng r1))
  end.

(** Lines 357-366: the trees and the two item lists. *)
Definition crossing_items (G : list GEdge) (G_nodes : list nat) (T : DiGraph)
    (columns : list (list nat)) : option (list FreeColumn * list FreeColumn) :=
  let trees := get_col_nesting_trees columns T in
  forward_data ← crossing_reduction_data G G_nodes trees false;
  let n := length columns in
  let forward_items :=
    (fun x => mkItem x.1.1 x.1.2 x.2) <$> zip (zip (seq 1 (n - 1)) (drop 1 trees)) forward_data in
  let trees' := rev trees in
  backward_data ← crossing_reduction_data (reverse_view G) G_nodes trees' true;
  let backward_items :=
    (fun x => mkItem x.1.1 x.1.2 x.2)
    <$> zip (zip (rev (seq 0 (n - 1))) (drop 1 trees')) backward_data in
  Some (forward_items, backward_items).

(** [minimize_crossings(G, T)].  [st] holds [G.graph['columns']] and the
    attributes of the nodes, [g] is the state in which the call finds the
    generator of the [random] module; the result is what the call leaves
    of both.  [fuel] bounds the rounds of [minimized_cross_count]. *)
Definition minimize_crossings (fuel : nat) (G : list GEdge) (G_nodes : list nat) (T : DiGraph)
    (st : Store) (g : rng) : option (Store * rng) :=
  '(forward_items, backward_items) ← crossing_items G G_nodes T (columns st);
  let g0 := seed 0 in
  r ← restarts _ITERATIONS fuel Infinite (columns st)
               (mkRed st forward_items backward_items g0);
  Some (red_store r, red_rng r).

(** The loop of [minimize_crossings] without the call of [seed]: the
    generator goes on from the state [g]. *)
Definition minimize_crossings_unseeded (fuel : nat) (G : list GEdge) (G_nodes : list nat)
    (T : DiGraph) (st : Store) (g : rng) : option (Store * rng) :=
  '(forward_items, backward_items) ← crossing_items G G_nodes T (columns st);
  r ← restarts _ITERATIONS fuel Infinite (columns st)
               (mkRed st forward_items backward_items g);
  Some (red_store r, red_rng r).

End Minimize.

(** *** Worked examples: one root cluster (handle 10) around all nodes *)

Definition flat_is_cluster (v : nat) : bool := (10 <=? v)%nat.
Definition flat_cluster_of (_ : nat) : nat := 10%nat.
Definition flat_ancestors (_ : DiGraph) (v : nat) : list nat :=
  if flat_is_cluster v then [] else [10%nat].
Definition flat_descendants (LT : DiGraph) (v : nat) : list nat :=
  if flat_is_cluster v then filter (fun w => w <> v) (nodes LT) else [].
Definition flat_topological_sort (LT : DiGraph) : list nat := nodes LT.
Definition flat_TC_succ (LT : DiGraph) (v : nat) : list nat :=
  if flat_is_cluster v then nodes LT else [v].
Definition flat_TC_pred (_ : DiGraph) (v : nat) : list nat :=
  if flat_is_cluster v then [v] else [v; 10%nat].

(** The cluster tree [T] over the nodes [0 .. n-1]. *)
Definition flat_T (n : nat) : DiGraph :=
  add_edges_from ((fun v => (10%nat, v)) <$> seq 0 n) empty_graph.

Definition flat_minimize_crossings {R : RandomSource} (unseeded : bool) (fuel : nat)
    (G : list GEdge) (n : nat) (st : Store) (g : rng) : option (Store * rng) :=
  (if unseeded then minimize_crossings_unseeded else minimize_crossings)
    flat_is_cluster flat_cluster_of flat_ancestors flat_descendants flat_topological_sort
    flat_TC_succ flat_TC_pred unique fuel G (seq 0 n) (flat_T n) st g.

(** Columns [A, B] and [C, D] (handles 0 to 3) with the edges [A -> D],
    [A -> C] and [B -> C] from the sockets 0 and 1 of [A] and 0 of [B]. *)
Definition abcd_G : list GEdge :=
  [ mkGEdge 0 3 (mkSocket 0 0 true) (mkSocket 3 0 false);
    mkGEdge 0 2 (mkSocket 0 1 true) (mkSocket 2 0 false);
    mkGEdge 1 2 (mkSocket 1 0 true) (mkSocket 2 1 false) ].
Definition abcd_store : Store := mkStore [[0%nat; 1%nat]; [2%nat; 3%nat]] ∅ ∅.

(** A column [A] and a column [B, C] whose nodes hang on the same socket of
    [A]: the perturbation alone decides between [B] and [C]. *)
Definition fork_G : list GEdge :=
  [ mkGEdge 0 1 (mkSocket 0 0 true) (mkSocket 1 0 false);
    mkGEdge 0 2 (mkSocket 0 0 true) (mkSocket 2 0 false) ].
Definition fork_store : Store := mkStore [[0%nat]; [1%nat; 2%nat]] ∅ ∅.

(** A generator whose draws alternate between 0 and 1. *)
Definition alternating_source : RandomSource.
Proof.
  refine {| rng := nat;
            seed := fun z => Z.to_nat z;
            uniform01 := fun n => (if Nat.even n then 0%Q else 1%Q, Datatypes.S n) |}.
  intros n. cbn. destruct (Nat.even n); split; discriminate.
Defined.

(** *** Worked example: a frame inside the root cluster *)

(** What networkx computes on a forest.  [reach next n l] lists [l], then
    the nodes one step from [l], and so on: the order of a breadth-first
    walk. *)
Fixpoint reach (next : nat -> list nat) (fuel : nat) (frontier : list nat) : list nat :=
  match fuel, frontier with
  | O, _ | _, [] => []
  | Datatypes.S fuel', _ => frontier ++ reach next fuel' (concat (next <$> frontier))
  end.

(** [nx.ancestors(G, v)] and [nx.descendants(G, v)] (sets, here as lists). *)
Definition forest_ancestors (G : DiGraph) (v : nat) : list nat :=
  reach (preds G) (length (nodes G)) (preds G v).
Definition forest_descendants (G : DiGraph) (v : nat) : list nat :=
  reach (succs G) (length (nodes G)) (succs G v).

(** [nx.topological_sort(G)]: the nodes without predecessor, then
    generation after generation the nodes whose predecessors are listed. *)
Definition forest_topological_sort (G : DiGraph) : list nat :=
  reach (succs G) (length (nodes G)) (filter (fun v => preds G v = []) (nodes G)).

(** [TC[v]] in [TC = nx.transitive_closure(LT, reflexive=True)]: [TC]
    starts as a copy of [LT]; then networkx adds, for every node [v], the
    edges [(v, u) for u in nx.descendants(LT, v) | {v} if u not in TC[v]],
    iterating over a [set] of nodes. *)
Definition closure_succ (set_order : list nat -> list nat) (LT : DiGraph) (v : nat)
  : list nat :=
  succs LT v
  ++ filter (fun u => u ∉ succs LT v) (set_order (forest_descendants LT v ++ [v])).

(** [TC.pred[t]]: the predecessors in [LT], then every other node from
    which networkx has added an edge to [t], in the order of the nodes. *)
Definition closure_pred (LT : DiGraph) (t : nat) : list nat :=
  preds LT t
  ++ filter (fun v => (v ∉ preds LT t) /\ (t ∈ forest_descendants LT v \/ v = t)) (nodes LT).

(** A [set] whose elements are hashed by address is iterated in the order
    of the hashes: the objects listed in [addr] in that order (then any
    other element). *)
Definition by_address (addr : list nat) (l : list nat) : list nat :=
  filter (fun v => v ∈ l) addr ++ unique (filter (fun v => v ∉ addr) l).

(** A node [S] (handle 0) in the first column; in the second column the
    nodes [A1] and [A2] (handles 1 and 2) of a frame (the cluster 11) and
    the node [B] (handle 3) beside the frame.  The outputs 0, 1 and 2 of [S]
    are linked to [A1], [B] and [A2].  Handle 10 is the root cluster. *)
Definition framed_G : list GEdge :=
  [ mkGEdge 0 1 (mkSocket 0 0 true) (mkSocket 1 0 false);
    mkGEdge 0 3 (mkSocket 0 1 true) (mkSocket 3 0 false);
    mkGEdge 0 2 (mkSocket 0 2 true) (mkSocket 2 0 false) ].
Definition framed_store : Store := mkStore [[0%nat]; [1%nat; 2%nat; 3%nat]] ∅ ∅.
Definition framed_cluster_of (v : nat) : nat :=
  if bool_decide (v ∈ [1%nat; 2%nat]) then 11%nat else 10%nat.

(** The cluster tree as [ClusterGraph.__init__] builds it from the nesting
    relations of the nodes 0, 1, 2, 3. *)
Definition framed_T : DiGraph :=
  add_edges_from [(10, 0); (11, 1); (10, 11); (11, 2); (10, 11); (10, 3)]%nat empty_graph.

(** [minimize_crossings] on this input when the sets of nodes iterate in
    the order [addr]. *)
Definition framed_minimize_crossings {R : RandomSource} (addr : list nat) (fuel : nat)
    (g : rng) : option (Store * rng) :=
  minimize_crossings flat_is_cluster framed_cluster_of forest_ancestors forest_descendants
    forest_topological_sort (closure_succ (by_address addr)) closure_pred (by_address addr)
    fuel framed_G (seq 0 4) framed_T framed_store g.

(** The first values of [uniform(0, 1)] after [seed(0)] in CPython, to
    four places; the later draws (not reached in the examples) are 1/2. *)
Definition seed0_draws : list Q :=
  [8444 # 10000; 7580 # 10000; 4206 # 10000; 2589 # 10000; 5113 # 10000]%Q.

Definition seed0_source : RandomSource.
Proof.
  refine {| rng := nat;
            seed := fun z => Z.to_nat z;
            uniform01 := fun n => (nth n seed0_draws (1 # 2)%Q, Datatypes.S n) |}.
  intros n. cbn [fst].
  do 5 (destruct n as [|n]; [split; discriminate|]).
  destruct n; split; discriminate.
Defined.

(** *** Notions for the properties of the optimisation loop *)

(** [b] is a child of the cluster [a] in the tree [LT]. *)
Definition LT_child (is_cluster : nat -> bool) (LT : DiGraph) (a b : nat) : Prop :=
  is_cluster a = true /\ b ∈ succs LT a.

(** A tree of two levels: the root cluster 10 holds the cluster 11 and the
    node 0, the cluster 11 holds the nodes 1 and 2. *)
Definition nested_LT : DiGraph :=
  add_edges_from [(10, 11); (10, 0); (11, 1); (11, 2)]%nat empty_graph.
Definition nested_store : Store :=
  mkStore [[0; 1; 2]]%nat
          (<[11%nat := 0%Q]> (<[0%nat := 1%Q]> (<[1%nat := 1%Q]> (<[2%nat := 0%Q]> ∅)))) ∅.

(** The members [L[v]] of a group of [handle_constraints] and the groups
    that the final sort takes: [unconstrained | GC.nodes]. *)
Definition Lget (r : Resolution) (v : nat) : list nat := default [] (L r !! v).
Definition members (r : Resolution) : list nat := unconstrained r ++ nodes (GC r).

(** The groups hold the elements of the free column, each once, and the
    unconstrained groups have what the final sort reads. *)
Definition groups_inv (free : list nat) (r : Resolution) : Prop :=
  (forall v, v ∈ unconstrained r ->
     is_Some (bary r !! v) /\ is_Some (L r !! v) /\ (v < fresh r)%nat)
  /\ Permutation (concat (Lget r <$> members r)) free.

(** The barycenters that are known do not decrease along the column. *)
Definition sorted_in (st : Store) (col : list nat) : Prop :=
  forall i j a b x y, (i < j)%nat -> col !! i = Some a -> col !! j = Some b ->
    barycenter st !! a = Some x -> barycenter st !! b = Some y -> (x <= y)%Q.

(** A constraint [(s, t)] is violated when the barycenter of [s] is not
    below that of [t], and satisfied when it is. *)
Definition violated (b : gmap nat Q) (c : nat * nat) : Prop :=
  exists bs bt, b !! c.1 = Some bs /\ b !! c.2 = Some bt /\ (bt <= bs)%Q.

Definition satisfied (b : gmap nat Q) (c : nat * nat) : Prop :=
  exists bs bt, b !! c.1 = Some bs /\ b !! c.2 = Some bt /\ (bs < bt)%Q.

(** The worklist of [find_violated_constraint] has seen every constraint
    that leaves a popped node, once, and has checked every constraint that
    enters one. *)
Definition checked_inv (G : DiGraph) (b : gmap nat Q) (done active : list nat)
    (inc : gmap nat (list (nat * nat))) : Prop :=
  worklist_inv G done active inc
  /\ (forall t, NoDup (incoming_of inc t))
  /\ (forall p t, p ∈ done -> (p, t) ∈ edges G -> (p, t) ∈ incoming_of inc t)
  /\ (forall t, (0 < in_degree G t)%nat -> length (incoming_of inc t) = in_degree G t ->
                t ∈ active ++ done)
  /\ (forall s t, t ∈ done -> (s, t) ∈ edges G -> satisfied b (s, t)).

(** A constraint graph with three constraints, two of them into node 2. *)
Definition diamond_GC : DiGraph :=
  mkG [0%nat; 1%nat; 2%nat] [(0%nat, 1%nat); (0%nat, 2%nat); (1%nat, 2%nat)].

Definition diamond_barycenters : gmap nat Q :=
  <[0%nat := 1%Q]> (<[1%nat := 3%Q]> (<[2%nat := 2%Q]> ∅)).

End Ordering.

(** ** linear_segments.py *)

Module Placement.
Import Py.

(** *** The control loop of [balance_placement] *)

Inductive Mode : Type := FORW_PENDULUM | BACKW_PENDULUM | RUBBER.

(** A [float] that may be [math.inf] ([prev_total_deflection]). *)
Inductive xfloat : Type := Fin (q : Q) | Inf.

Definition _ITERS : Z := 10.
Definition _PENDULUM_ITERS : Z := 4.
Definition _FINAL_ITERS : Z := 3.
Definition _THRESH_FAC : Z := 20.

(** [total < prev] *)
Definition lt_prev (total : Q) (prev : xfloat) : bool :=
  match prev with
  | Inf => true
  | Fin p => negb (Qle_bool p total)
  end.

(** [total >= prev] *)
Definition ge_prev (total : Q) (prev : xfloat) : bool :=
  match prev with
  | Inf => false
  | Fin p => Qle_bool p total
  end.

(** [prev - total < _THRESH_FAC / _ITERS]; [inf - total] is [inf]. *)
Definition below_thresh (total : Q) (prev : xfloat) : bool :=
  match prev with
  | Inf => false
  | Fin p => negb (Qle_bool (inject_Z _THRESH_FAC / inject_Z _ITERS) (p - total))
  end.

(** The local variables of [balance_placement] that steer the loop. *)
Record Ctl : Type := mkCtl {
  pendulum_iters : Z;
  final_iters : Z;
  ready : bool;
  mode : Mode;
  prev_total_deflection : xfloat
}.

Definition ctl_init : Ctl :=
  mkCtl _PENDULUM_ITERS _FINAL_ITERS false FORW_PENDULUM Inf.

(** Lines 260-273: the update of the control variables once the segments have
    been moved and [total_deflection] is known. *)
Definition advance (total : Q) (c : Ctl) : Ctl :=
  match mode c with
  | RUBBER =>
      let rdy := ge_prev total (prev_total_deflection c) || below_thresh total (prev_total_deflection c) in
      mkCtl (pendulum_iters c)
            (if rdy then final_iters c - 1 else final_iters c)
            rdy RUBBER (Fin total)
  | m =>
      let p := (pendulum_iters c - 1)%Z in
      if (p <=? 0)%Z && (lt_prev total (prev_total_deflection c) || (_ITERS <? - p)%Z)
      then mkCtl p (final_iters c) (ready c) RUBBER Inf
      else mkCtl p (final_iters c) (ready c)
                 (match m with FORW_PENDULUM => BACKW_PENDULUM | _ => FORW_PENDULUM end)
                 (Fin total)
  end.

(** Line 275: [if ready and final_iters > 0: break]. *)
Definition exits (c : Ctl) : bool := ready c && (0 <? final_iters c)%Z.

Section Loop.
(** Lines 247-258 (deflections, region merging, moving the nodes) act on the
    segments and nodes only and hand [total_deflection] to the control part;
    they are a parameter [relax] on an abstract placement state. *)
Variable World : Type.
Variable relax : Mode -> World -> World * Q.

(** The [while True] loop; the result carries the number of iterations run and
    the number of rubber iterations on which [ready] came out true. *)
Fixpoint balance_loop (fuel : nat) (c : Ctl) (w : World) (iters confirms : nat)
  : option (Ctl * World * nat * nat) :=
  match fuel with
  | O => None
  | S fuel' =>
      let '(w', total) := relax (mode c) w in
      let c' := advance total c in
      let confirms' :=
        match mode c with
        | RUBBER => if ready c' then S confirms else confirms
        | _ => confirms
        end in
      if exits c' then Some (c', w', S iters, confirms')
      else balance_loop fuel' c' w' (S iters) confirms'
  end.

Definition balance_placement (fuel : nat) (w : World) : option (Ctl * World * nat * nat) :=
  balance_loop fuel ctl_init w 0 0.

End Loop.

(** A run on recorded total deflections: the placement state is the index of
    the next recorded value. *)
Definition replay (totals : list Q) (_ : Mode) (i : nat) : nat * Q :=
  (S i, nth i totals 0%Q).


(** *** get_linear_segments *)

(** What [get_linear_segments] reads of a [ClusterGraph]: the multigraph [G]
    (one pair per edge, parallel edges repeated), its columns, the cluster
    of every node, the clusters [CG.S] with the nodes of [G] that [T] puts
    directly below them and their nesting levels, and [nx.has_path(T, _, _)]. *)
Record ClusterGraph : Type := mkCG {
  G_edges : list (nat * nat);
  columns : list (list nat);
  cluster : nat -> nat;
  CG_S : list nat;
  T_children : nat -> list nat;
  nesting_level : nat -> nat;
  has_path : nat -> nat -> bool
}.

Definition out_degree (es : list (nat * nat)) (v : nat) : nat :=
  length (filter (fun e => e.1 = v) es).

Definition in_degree (es : list (nat * nat)) (v : nat) : nat :=
  length (filter (fun e => e.2 = v) es).

(** [G[v]]: the distinct successors, in the order of their first edge. *)
Definition successors (es : list (nat * nat)) (v : nat) : list nat :=
  unique (filter (fun e => e.1 = v) es).*2.

(** Depth-first preorder with an explicit stack, as [nx.dfs_preorder_nodes]
    produces it; [visited] is kept in reverse.  One unit of fuel per node
    taken from the stack. *)
Fixpoint dfs (fuel : nat) (es : list (nat * nat)) (stack visited : list nat)
  : option (list nat) :=
  match stack with
  | [] => Some (rev visited)
  | v :: stack' =>
      match fuel with
      | O => None
      | S fuel' =>
          if bool_decide (v ∈ visited) then dfs fuel' es stack' visited
          else dfs fuel' es (successors es v ++ stack') (v :: visited)
      end
  end.

(** Every edge is pushed at most once, so [1 + |E|] units suffice (lemma
    [dfs_preorder_nodes_total]). *)
Definition dfs_preorder_nodes (es : list (nat * nat)) (u : nat) : option (list nat) :=
  dfs (S (length es)) es [u] [].

Definition complex_clusters (CG : ClusterGraph) : list nat :=
  filter (fun c => Exists (fun v => (1 < in_degree (G_edges CG) v)%nat
                                    \/ (1 < out_degree (G_edges CG) v)%nat)
                          (T_children CG c))
         (CG_S CG).

(** The tests of lines 86-97 that end the chain of [u] before [v]. *)
Definition chain_breaks (CG : ClusterGraph) (complex : list nat) (u v : nat) : bool :=
  bool_decide (1 < in_degree (G_edges CG) v)%nat
  || bool_decide (1 < out_degree (G_edges CG) v)%nat
  || (let c1 := cluster CG u in
      let c2 := cluster CG v in
      if decide (c1 = c2) then false
      else
        let '(cu, cv) := if (nesting_level CG c1 <=? nesting_level CG c2)%nat
                         then (c1, c2) else (c2, c1) in
        if has_path CG cu cv then bool_decide (cv ∈ complex)
        else bool_decide (c1 ∈ complex \/ c2 ∈ complex)).

(** [for v in succ: ... break ... nodes.append(v)] *)
Fixpoint chain_members (CG : ClusterGraph) (complex : list nat) (u : nat) (succ : list nat)
  : list nat :=
  match succ with
  | [] => []
  | v :: succ' =>
      if chain_breaks CG complex u v then [] else v :: chain_members CG complex u succ'
  end.

(** The body of the loop over the nodes of the columns; the state is
    [(seen, linear_segments)], a segment being its node list. *)
Definition segment_step (CG : ClusterGraph) (complex : list nat)
    (acc : list nat * list (list nat)) (u : nat) : option (list nat * list (list nat)) :=
  let '(seen, segments) := acc in
  if bool_decide (u ∈ seen) then Some acc
  else if bool_decide (1 < out_degree (G_edges CG) u)%nat then Some (seen, segments ++ [[u]])
  else
    order ← dfs_preorder_nodes (G_edges CG) u;
    match order with
    | [] => None
    | first :: succ =>
        let nodes := first :: chain_members CG complex u succ in
        Some (nodes ++ seen, segments ++ [nodes])
    end.

Fixpoint segment_loop (CG : ClusterGraph) (complex : list nat)
    (acc : list nat * list (list nat)) (us : list nat) : option (list nat * list (list nat)) :=
  match us with
  | [] => Some acc
  | u :: us' => acc' ← segment_step CG complex acc u; segment_loop CG complex acc' us'
  end.

Definition get_linear_segments (CG : ClusterGraph) : option (list (list nat)) :=
  snd <$> segment_loop CG (complex_clusters CG) ([], []) (concat (columns CG)).

(** *** Segment.split *)

(** [for w in new_segment: ... nodes.remove(w)] *)
Fixpoint remove_all (ws nodes : list nat) : option (list nat) :=
  match ws with
  | [] => Some nodes
  | w :: ws' => nodes' ← remove w nodes; remove_all ws' nodes'
  end.

(** [self.split(v)] on the node list of [self]: what is left in
    [self.nodes], and the nodes of the new segment. *)
Definition split (nodes : list nat) (v : nat) : option (list nat * list nat) :=
  i ← index v nodes;
  let new_segment := drop i nodes in
  nodes' ← remove_all new_segment nodes;
  Some (nodes', new_segment).

(** The segments of a layout: [linear_segments] (a segment is known by its
    place in that list) and the [segment] attribute of the nodes. *)
Record Segments : Type := mkSegs {
  linear_segments : list (list nat);
  segment : gmap nat nat
}.

(** [linear_segments.append(s.split(v))] for the segment [s] at place [i]:
    the nodes of the new segment are pointed to it. *)
Definition split_segment (i v : nat) (sg : Segments) : option Segments :=
  nodes ← linear_segments sg !! i;
  '(nodes', new_segment) ← split nodes v;
  let j := length (linear_segments sg) in
  Some (mkSegs (<[i := nodes']> (linear_segments sg) ++ [new_segment])
               (foldl (fun m w => <[w := j]> m) (segment sg) new_segment)).

(** Columns that respect the edges: the nodes of the columns are distinct
    and every predecessor of a node comes before it in column order. *)
Definition layered (CG : ClusterGraph) : Prop :=
  NoDup (concat (columns CG))
  /\ (forall a b, (a, b) ∈ G_edges CG -> a ∈ concat (columns CG) /\ b ∈ concat (columns CG))
  /\ forall l1 x l2, concat (columns CG) = l1 ++ x :: l2 ->
       forall a, (a, x) ∈ G_edges CG -> a ∈ l1.

(** A path 0 -> 1 -> 2 over three columns and a node 3 with two successors. *)
Definition path_CG : ClusterGraph :=
  mkCG [(0, 1); (1, 2); (3, 1); (3, 4)]
       [[0; 3]; [1; 4]; [2]]
       (fun _ => 9) [9] (fun _ => [0; 1; 2; 3; 4]) (fun _ => 0) (fun _ _ => true).

(** Columns in an order that contradicts the only edge 0 -> 1. *)
Definition inverted_CG : ClusterGraph :=
  mkCG [(0, 1)] [[1]; [0]] (fun _ => 9) [9] (fun _ => [0; 1]) (fun _ => 0) (fun _ _ => true).

(** Every node visited by the search is a root or has a predecessor among
    the nodes visited before it ([visited] is in reverse order). *)
Fixpoint search_tree (es : list (nat * nat)) (roots visited : list nat) : Prop :=
  match visited with
  | [] => True
  | v :: visited' =>
      (v ∈ roots \/ exists p, p ∈ visited' /\ (p, v) ∈ es) /\ search_tree es roots visited'
  end.

(** Invariant of the loop of [get_linear_segments] after the nodes
    [processed] of the column order. *)
Definition segments_inv (CG : ClusterGraph) (processed seen : list nat)
    (segments : list (list nat)) : Prop :=
  NoDup (concat segments)
  /\ (forall v, v ∈ concat segments -> v ∈ concat (columns CG))
  /\ (forall v, v ∈ processed -> v ∈ concat segments)
  /\ (forall v, v ∈ seen -> v ∈ concat segments)
  /\ (forall v, v ∈ concat segments ->
        v ∈ seen \/ (v ∈ processed /\ (1 < out_degree (G_edges CG) v)%nat))
  /\ (forall v, v ∈ seen ->
        v ∈ processed \/ exists p, p ∈ concat segments /\ (p, v) ∈ G_edges CG).

(** *** sort_linear_segments and prevent_cycles *)

(** [for segment in linear_segments: for v in segment: v.segment = segment] *)
Definition assign_segments (segs : list (list nat)) : Segments :=
  mkSegs segs
         (foldl (fun m js => foldl (fun m w => <[w := js.1]> m) m js.2) ∅ (imap pair segs)).

(** [[w.segment for w in col]]; [None] is a node without segment. *)
Definition segments_of (sg : Segments) (col : list nat) : option (list nat) :=
  mapM (fun w => segment sg !! w) col.

(** [for s in cycle_segments:
      linear_segments.append(s.split(col1[segments1.index(s)]))] *)
Fixpoint split_cycle_segments (col1 segments1 : list nat) (cycle_segments : list nat)
    (sg : Segments) : option Segments :=
  match cycle_segments with
  | [] => Some sg
  | s :: rest =>
      k ← index s segments1;
      w ← col1 !! k;
      sg' ← split_segment s w sg;
      split_cycle_segments col1 segments1 rest sg'
  end.

(** The body of [for i, v in enumerate(col1)]; [is_border v] is
    [v.type == GNodeType.VERTICAL_BORDER]. *)
Definition prevent_step (is_border : nat -> bool) (col1 col2 : list nat)
    (i v : nat) (sg : Segments) : option Segments :=
  segments2 ← segments_of sg col2;
  sv ← segment sg !! v;
  match index sv segments2 with
  | None => Some sg
  | Some j =>
      segments1 ← segments_of sg col1;
      let below := drop (S j) segments2 in
      let cycle_segments := filter (fun s => s ∈ below) (take i segments1) in
      match cycle_segments with
      | [] => Some sg
      | _ :: _ =>
          if is_border v then split_cycle_segments col1 segments1 cycle_segments sg
          else split_segment sv v sg
      end
  end.

Fixpoint prevent_column (is_border : nat -> bool) (col1 col2 : list nat)
    (i : nat) (vs : list nat) (sg : Segments) : option Segments :=
  match vs with
  | [] => Some sg
  | v :: vs' =>
      sg' ← prevent_step is_border col1 col2 i v sg;
      prevent_column is_border col1 col2 (S i) vs' sg'
  end.

Fixpoint prevent_pairs (is_border : nat -> bool) (pairs : list (list nat * list nat))
    (sg : Segments) : option Segments :=
  match pairs with
  | [] => Some sg
  | (col1, col2) :: pairs' =>
      sg' ← prevent_column is_border col1 col2 O col1 sg;
      prevent_pairs is_border pairs' sg'
  end.

Definition prevent_cycles (is_border : nat -> bool) (columns : list (list nat))
    (sg : Segments) : option Segments :=
  prevent_pairs is_border (pairwise (rev columns)) sg.

(** The edges of the segment graph [SG] of [sort_linear_segments]. *)
Definition segment_edges (sg : Segments) (columns : list (list nat)) : option (list (nat * nat)) :=
  ess ← mapM (fun col => mapM (fun vw => s ← segment sg !! vw.1;
                                         t ← segment sg !! vw.2; Some (s, t))
                              (pairwise col)) columns;
  Some (concat ess).

(** [sort_linear_segments] up to the topological sort: the segments after
    [prevent_cycles] and the edges of [SG]. *)
Definition segment_graph (is_border : nat -> bool) (segs : list (list nat))
    (columns : list (list nat)) : option (Segments * list (nat * nat)) :=
  sg ← prevent_cycles is_border columns (assign_segments segs);
  es ← segment_edges sg columns;
  Some (sg, es).

(** Two segments that cross between two columns: [0, 3] is above [1, 2] in
    the first column and below it in the second. *)
Definition crossed_columns : list (list nat) := [[0; 1]; [2; 3]].
Definition crossed_segments : list (list nat) := [[0; 3]; [1; 2]].

(** Node [v] is in column number [k]. *)
Definition in_col (columns : list (list nat)) (k v : nat) : Prop :=
  exists c, columns !! k = Some c /\ v ∈ c.

(** Every edge of the graph leads from a column to the next one. *)
Definition proper (CG : ClusterGraph) : Prop :=
  forall a b, (a, b) ∈ G_edges CG ->
              exists k, in_col (columns CG) k a /\ in_col (columns CG) (S k) b.

(** A segment runs through consecutive columns, one node in each. *)
Definition runs_through (columns : list (list nat)) (nodes : list nat) : Prop :=
  exists k0, forall t v, nodes !! t = Some v -> in_col columns (k0 + t) v.

(** The segments partition the nodes of the columns, the [segment]
    attributes agree with the node lists, every segment is a chain through
    consecutive columns. *)
Record wf_segments (columns : list (list nat)) (sg : Segments) : Prop := mk_wf_segments {
  wf_cols : NoDup (concat columns);
  wf_perm : Permutation (concat (linear_segments sg)) (concat columns);
  wf_ptr : forall v j, segment sg !! v = Some j <->
                       exists nodes, linear_segments sg !! j = Some nodes /\ v ∈ nodes;
  wf_chain : forall j nodes, linear_segments sg !! j = Some nodes -> runs_through columns nodes
}.

(** [sg'] only separates nodes that [sg] had in one segment. *)
Definition refines (sg sg' : Segments) : Prop :=
  forall x y, segment sg' !! x = segment sg' !! y -> segment sg !! x = segment sg !! y.

(** [a] comes before [b] in the column [c]. *)
Definition before (c : list nat) (a b : nat) : Prop :=
  exists i j, i < j /\ c !! i = Some a /\ c !! j = Some b.

(** The segments of [a] and [b] (of the later column) are in the opposite
    order in the earlier column [c2]. *)
Definition inverted (sg : Segments) (c2 : list nat) (a b : nat) : Prop :=
  exists a' b',
    before c2 a' b'
    /\ segment sg !! a = segment sg !! b' /\ segment sg !! b = segment sg !! a'.

(** No pair of nodes of [c1] whose lower node is among the first [n] is
    inverted. *)
Definition no_inversion_upto (sg : Segments) (c1 c2 : list nat) (n : nat) : Prop :=
  forall i j a b, i < j -> j < n -> c1 !! i = Some a -> c1 !! j = Some b ->
                  ~ inverted sg c2 a b.

Definition no_inversion (sg : Segments) (c1 c2 : list nat) : Prop :=
  no_inversion_upto sg c1 c2 (length c1).

(** Segment [X] lies above segment [Y] in column number [k]. *)
Definition above_at (columns : list (list nat)) (sg : Segments) (k X Y : nat) : Prop :=
  exists c a b, columns !! k = Some c /\ before c a b
                /\ segment sg !! a = Some X /\ segment sg !! b = Some Y.

Definition present_at (columns : list (list nat)) (sg : Segments) (k X : nat) : Prop :=
  exists v, in_col columns k v /\ segment sg !! v = Some X.

(** Segment [X] reaches column number [t] or beyond. *)
Definition reaches (columns : list (list nat)) (sg : Segments) (t X : nat) : Prop :=
  exists k, t <= k /\ present_at columns sg k X.

(** The relation of the segment graph among the segments that reach column
    [t]: [X] is above [Y] in some column. *)
Definition above_from (columns : list (list nat)) (sg : Segments) (t X Y : nat) : Prop :=
  (exists k, above_at columns sg k X Y) /\ reaches columns sg t X /\ reaches columns sg t Y.

(** A relation restricted to the elements that satisfy [G]. *)
Definition among_good {A : Type} (E : relation A) (G : A -> Prop) : relation A :=
  fun x y => E x y /\ G x /\ G y.

(** Two segments side by side through two columns. *)
Definition parallel_columns : list (list nat) := [[0; 1]; [2; 3]].
Definition parallel_segments : list (list nat) := [[0; 2]; [1; 3]].

(** *** create_unbalanced_placement *)

(** [max] and [min] of two floats as the built-ins fold them: the earlier
    value stays on a tie. *)
Definition fmax (a b : Q) : Q := if Qle_bool b a then a else b.
Definition fmin (a b : Q) : Q := if Qle_bool a b then a else b.

(** [v.col]: the column that holds [v]. *)
Definition col_of (columns : list (list nat)) (v : nat) : option (list nat) :=
  snd <$> list_find (fun c => v ∈ c) columns.

Section Unbalanced.
(** [v.height] and [config.MARGIN.y]. *)
Variable height : nat -> Q.
Variable margin_y : Q.

(** [max([v.height for v in s])]; [None] is the [ValueError] of [max] on an
    empty segment. *)
Definition max_height (nodes : list nat) : option Q :=
  match nodes with
  | [] => None
  | v :: vs => Some (foldl fmax (height v) (height <$> vs))
  end.

(** [heights = {s: max(...) for s in linear_segments}]; a segment is known
    by its place in [linear_segments sg]. *)
Definition segment_heights (sg : Segments) (order : list nat) : option (gmap nat Q) :=
  hs ← mapM (fun s => nodes ← linear_segments sg !! s;
                      h ← max_height nodes; Some (s, h)) order;
  Some (list_to_map hs).

(** The term [w.y - heights[w.segment]] of a node [w] that has a [y]; a node
    without one is skipped ([Some None]). *)
Definition value_of (heights : gmap nat Q) (sg : Segments) (y : gmap nat Q) (w : nat)
  : option (option Q) :=
  match y !! w with
  | None => Some None
  | Some yw => s ← segment sg !! w; h ← heights !! s; Some (Some (yw - h)%Q)
  end.

(** [[w.y - heights[w.segment] for v in segment for w in v.col
       if w.y is not None]] *)
Definition values (heights : gmap nat Q) (columns : list (list nat)) (sg : Segments)
    (y : gmap nat Q) (nodes : list nat) : option (list Q) :=
  cols ← mapM (col_of columns) nodes;
  vals ← mapM (value_of heights sg y) (concat cols);
  Some (omap id vals).

(** [min(values, default=0) - config.MARGIN.y] *)
Definition lowest_y (vals : list Q) : Q :=
  (match vals with [] => 0 | x :: xs => foldl fmin x xs end - margin_y)%Q.

(** The body of [for segment in linear_segments]. *)
Definition place_segment (heights : gmap nat Q) (columns : list (list nat)) (sg : Segments)
    (y : gmap nat Q) (s : nat) : option (gmap nat Q) :=
  nodes ← linear_segments sg !! s;
  vals ← values heights columns sg y nodes;
  Some (foldl (fun y v => <[v := lowest_y vals]> y) y nodes).

Fixpoint place_segments (heights : gmap nat Q) (columns : list (list nat)) (sg : Segments)
    (order : list nat) (y : gmap nat Q) : option (gmap nat Q) :=
  match order with
  | [] => Some y
  | s :: rest => y' ← place_segment heights columns sg y s;
                 place_segments heights columns sg rest y'
  end.

(** [create_unbalanced_placement(linear_segments)]: [order] is the list as
    [sort_linear_segments] left it, every segment named by the place it had
    before the sort; [y] holds the [y] attributes that are not [None]. *)
Definition create_unbalanced_placement (columns : list (list nat)) (sg : Segments)
    (order : list nat) (y : gmap nat Q) : option (gmap nat Q) :=
  heights ← segment_heights sg order;
  place_segments heights columns sg order y.

(** The placement after the segments [done]: their nodes, and only they,
    have a [y]; a node is below every placed node that is above it in its
    column, by the height of that node and the margin; the nodes of a
    segment are level. *)
Definition placed_inv (columns : list (list nat)) (sg : Segments) (done : list nat)
    (y : gmap nat Q) : Prop :=
  (forall v, v ∈ concat columns ->
     (is_Some (y !! v) <-> exists s, s ∈ done /\ segment sg !! v = Some s))
  /\ (forall k c a b ya yb, columns !! k = Some c -> before c a b ->
        y !! a = Some ya -> y !! b = Some yb -> (yb <= ya - height a - margin_y)%Q)
  /\ (forall v w s, segment sg !! v = Some s -> segment sg !! w = Some s -> y !! v = y !! w).

End Unbalanced.

(** A chain of the graph: distinct nodes, each joined to the next by an
    edge, with no other edge leaving a node that has a successor in the
    chain or entering or leaving a node that has a predecessor in it. *)
Definition is_chain (CG : ClusterGraph) (nodes : list nat) : Prop :=
  nodes <> [] /\ NoDup nodes
  /\ forall t a b, nodes !! t = Some a -> nodes !! (S t) = Some b ->
       (a, b) ∈ G_edges CG
       /\ out_degree (G_edges CG) a <= 1
       /\ in_degree (G_edges CG) b <= 1 /\ out_degree (G_edges CG) b <= 1.

(** *** Segment.region and merge_regions *)

(** The attributes of the segments that [balance_placement] works on.  A
    [Segment] is created with [deflection = 0], [weight = 0] and
    [ref_segment = None]: an absent key stands for the default. *)
Record Regions : Type := mkRegions {
  deflection : gmap nat Q;
  weight : gmap nat Z;
  ref_segment : gmap nat nat
}.

Definition deflection_of (st : Regions) (s : nat) : Q := default 0%Q (deflection st !! s).
Definition weight_of (st : Regions) (s : nat) : Z := default 0%Z (weight st !! s).

(** [segment.region()]: one unit of fuel per pointer followed; [None] is a
    walk that has not ended when the fuel is used up. *)
Fixpoint region (fuel : nat) (ref : gmap nat nat) (s : nat) : option nat :=
  match fuel with
  | O => None
  | S fuel' =>
      match ref !! s with
      | None => Some s
      | Some t => region fuel' ref t
      end
  end.

Section MergeRegions.
(** [v.y], [v.height], [v.cluster], the truth value of [v.cluster.node],
    [config.MARGIN.y] and [v.segment]. *)
Variable y : nat -> Q.
Variable height : nat -> Q.
Variable cluster : nat -> nat.
Variable cluster_has_node : nat -> bool.
Variable margin_y : Q.
Variable seg : gmap nat nat.

(** [v.segment.region()].  A walk along pointers without a cycle takes at
    most as many steps as there are pointers. *)
Definition region_of (st : Regions) (v : nat) : option nat :=
  s ← seg !! v; region (S (size (ref_segment st))) (ref_segment st) s.

(** The body of [for v, w in pairwise(col)]; the state is
    [(prev_region, changed)] and the attributes of the segments. *)
Definition merge_pair (acc : nat * bool * Regions) (vw : nat * nat)
  : option (nat * bool * Regions) :=
  let '(prev_region, changed, st) := acc in
  let '(v, w) := vw in
  let region1 := prev_region in
  region2 ← region_of st w;
  let weight_sum := (weight_of st region1 + weight_of st region2)%Z in
  if bool_decide (weight_sum = 0%Z) || bool_decide (region1 = region2)
  then Some (region2, changed, st)
  else if (negb (cluster_has_node v) || negb (bool_decide (cluster v = cluster w)))
          && Qle_bool (y w + deflection_of st region2)
                      (y v + deflection_of st region1 - height v - margin_y)
  then Some (region2, changed, st)
  else
    Some (region2, true,
          mkRegions
            (<[region2 := ((inject_Z (weight_of st region2) * deflection_of st region2
                            + inject_Z (weight_of st region1) * deflection_of st region1)
                           / inject_Z weight_sum)%Q]> (deflection st))
            (<[region2 := weight_sum]> (weight st))
            (<[region1 := region2]> (ref_segment st))).

Fixpoint merge_pairs (acc : nat * bool * Regions) (pairs : list (nat * nat))
  : option (nat * bool * Regions) :=
  match pairs with
  | [] => Some acc
  | vw :: pairs' => acc' ← merge_pair acc vw; merge_pairs acc' pairs'
  end.

(** The body of [for col in columns]. *)
Definition merge_column (changed : bool) (st : Regions) (col : list nat)
  : option (bool * Regions) :=
  v0 ← head col;
  prev_region ← region_of st v0;
  '(_, changed', st') ← merge_pairs (prev_region, changed, st) (pairwise col);
  Some (changed', st').

Fixpoint merge_columns (changed : bool) (st : Regions) (columns : list (list nat))
  : option (bool * Regions) :=
  match columns with
  | [] => Some (changed, st)
  | col :: columns' =>
      '(changed', st') ← merge_column changed st col;
      merge_columns changed' st' columns'
  end.

(** [merge_regions(columns)]: one unit of fuel per round of the
    [while True] loop. *)
Fixpoint merge_regions (fuel : nat) (st : Regions) (columns : list (list nat))
  : option Regions :=
  match fuel with
  | O => None
  | S fuel' =>
      match merge_columns false st columns with
      | None => None
      | Some (changed, st') =>
          if changed then merge_regions fuel' st' columns else Some st'
      end
  end.

(** What a round without a change has checked for two neighbours of a
    column: they are in one region, or their regions have no weight, or
    they are not in one frame and stay apart when their regions move. *)
Definition settled (st : Regions) (v w : nat) : Prop :=
  exists r1 r2,
    region_of st v = Some r1 /\ region_of st w = Some r2
    /\ (r1 = r2
        \/ (weight_of st r1 + weight_of st r2 = 0)%Z
        \/ ((cluster_has_node v = false \/ cluster v <> cluster w)
            /\ (y w + deflection_of st r2
                <= y v + deflection_of st r1 - height v - margin_y)%Q)).

End MergeRegions.

(** The [ref_segment] pointers of the segments below [n] form a forest:
    [rk] rises along them and is bounded by their number. *)
Definition forest (n : nat) (ref : gmap nat nat) : Prop :=
  exists rk : nat -> nat,
    (forall s t, ref !! s = Some t -> s < n /\ t < n /\ rk s < rk t)
    /\ forall s, rk s <= size ref.

(** Two nodes in one column, each a segment of its own, pushed towards
    each other. *)
Definition facing_segments : gmap nat nat := <[0 := 0]> (<[1 := 1]> ∅).
Definition facing_regions : Regions :=
  mkRegions (<[0 := (-3)%Q]> (<[1 := 3%Q]> ∅)) (<[0 := 1%Z]> (<[1 := 1%Z]> ∅)) ∅.

(** *** calc_deflection *)

Definition _DEFLECTION_DAMPENING : Q := 1 # 10.

Section Deflection.
(** [v.y], the [y] of a socket relative to its node, the edges of [G] with
    their sockets, and [v.segment]. *)
Variable y : nat -> Q.
Variable socket_y : Ordering.Socket -> Q.
Variable G : list Ordering.GEdge.
Variable seg : gmap nat nat.

(** [get_out_edges(G, v)] and [get_in_edges(G, v)]: the sockets of the
    edges that join [v] to another segment. *)
Definition get_out_edges (v : nat) : list (Ordering.Socket * Ordering.Socket) :=
  (fun e => (Ordering.d_from e, Ordering.d_to e))
  <$> filter (fun e => Ordering.e_s e = v /\ seg !! Ordering.e_t e <> seg !! v) G.

Definition get_in_edges (v : nat) : list (Ordering.Socket * Ordering.Socket) :=
  (fun e => (Ordering.d_from e, Ordering.d_to e))
  <$> filter (fun e => Ordering.e_t e = v /\ seg !! Ordering.e_s e <> seg !! v) G.

(** [to_socket.owner.y + to_socket.y - (v.y + from_socket.y)] *)
Definition out_term (v : nat) (p : Ordering.Socket * Ordering.Socket) : Q :=
  (y (Ordering.owner p.2) + socket_y p.2 - (y v + socket_y p.1))%Q.

(** [from_socket.owner.y + from_socket.y - (v.y + to_socket.y)] *)
Definition in_term (v : nat) (p : Ordering.Socket * Ordering.Socket) : Q :=
  (y (Ordering.owner p.1) + socket_y p.1 - (y v + socket_y p.2))%Q.

(** One of the two inner loops: [node_deflection += term] and
    [edge_weight_sum += 1]. *)
Definition add_terms (term : Ordering.Socket * Ordering.Socket -> Q) (acc : Q * Z)
    (ps : list (Ordering.Socket * Ordering.Socket)) : Q * Z :=
  foldl (fun acc p => ((acc.1 + term p)%Q, (acc.2 + 1)%Z)) acc ps.

(** [(node_deflection, edge_weight_sum)] of a node. *)
Definition node_deflection (mode : Mode) (v : nat) : Q * Z :=
  let acc1 :=
    match mode with
    | FORW_PENDULUM => (0%Q, 0%Z)
    | _ => add_terms (out_term v) (0%Q, 0%Z) (get_out_edges v)
    end in
  match mode with
  | BACKW_PENDULUM => acc1
  | _ => add_terms (in_term v) acc1 (get_in_edges v)
  end.

(** The loop over the nodes: [(segment_deflection, node_weight_sum)]. *)
Definition segment_deflection (mode : Mode) (nodes : list nat) : Q * Z :=
  foldl (fun acc v =>
           let nd := node_deflection mode v in
           if (0 <? nd.2)%Z then ((acc.1 + nd.1 / inject_Z nd.2)%Q, (acc.2 + 1)%Z) else acc)
        (0%Q, 0%Z) nodes.

(** [calc_deflection(G, segment, mode)] for the segment [s] with the nodes
    [nodes]: the new [deflection] and [weight] of the segment. *)
Definition calc_deflection (mode : Mode) (s : nat) (nodes : list nat) (st : Regions)
  : Regions :=
  let sd := segment_deflection mode nodes in
  mkRegions
    (<[s := if (0 <? sd.2)%Z then (_DEFLECTION_DAMPENING * sd.1 / inject_Z sd.2)%Q else 0%Q]>
       (deflection st))
    (<[s := sd.2]> (weight st))
    (ref_segment st).

(** The terms that [calc_deflection] adds up for a node in a mode. *)
Definition counted_terms (mode : Mode) (v : nat) : list Q :=
  match mode with
  | FORW_PENDULUM => []
  | _ => out_term v <$> get_out_edges v
  end
  ++ match mode with
     | BACKW_PENDULUM => []
     | _ => in_term v <$> get_in_edges v
     end.

End Deflection.

(** An edge from node 0 to node 1, five units lower, in another segment. *)
Definition slanted_edge : list Ordering.GEdge :=
  [Ordering.mkGEdge 0 1 (Ordering.mkSocket 0 0 true) (Ordering.mkSocket 1 0 false)].
Definition slanted_y (v : nat) : Q := if (v =? 0)%nat then 0%Q else (-5)%Q.

End Placement.

(** ** sugiyama.py: the nesting relations of [ClusterGraph.__init__] *)

Module Sugiyama.

(** [get_nesting_relations(v)] follows the [cluster] attribute ([None] at a
    root) and yields [(c, v)] for every cluster [c] above [v].  The
    recursion is as deep as the chain of clusters; [None] of the result is a
    recursion that is still going on when the budget is used up. *)
Fixpoint get_nesting_relations (budget : nat) (cluster_of : nat -> option nat) (v : nat)
  : option (list (nat * nat)) :=
  match budget with
  | O => None
  | S budget' =>
      match cluster_of v with
      | None => Some []
      | Some c => rest ← get_nesting_relations budget' cluster_of c; Some ((c, v) :: rest)
      end
  end.

(** [self.T], the graph of the nesting relations of all nodes of [G], and
    [self.S = {v for v in self.T if v.type == GNodeType.CLUSTER}]. *)
Definition cluster_graph_init (budget : nat) (cluster_of : nat -> option nat)
    (is_cluster : nat -> bool) (G_nodes : list nat)
  : option (Ordering.DiGraph * list nat) :=
  relations ← mapM (get_nesting_relations budget cluster_of) G_nodes;
  let T := Ordering.add_edges_from (concat relations) Ordering.empty_graph in
  Some (T, List.filter is_cluster (Ordering.nodes T)).

(** [b] is the cluster of [a]. *)
Definition nests (cluster_of : nat -> option nat) (a b : nat) : Prop :=
  cluster_of a = Some b.

(** Two nodes 0 and 1, node 1 in the frame 11, everything in the root
    cluster 10. *)
Definition framed_cluster_of (v : nat) : option nat :=
  if (v =? 0)%nat then Some 10%nat
  else if (v =? 1)%nat then Some 11%nat
  else if (v =? 11)%nat then Some 10%nat
  else None.

Definition framed_level (v : nat) : nat :=
  if (v =? 10)%nat then 0%nat else if (v =? 11)%nat then 1%nat else 2%nat.

(** *** assign_x_coords_and_route_edges: the x coordinates *)

Definition _EDGE_SPACING : Q := 10.
Definition _FRAME_PADDING : Q := 149 # 5.
Definition _COL_SPACE_FAC : Q := 2 # 5.

(** [max(l)]; [None] is the [ValueError] on an empty list. *)
Definition max_of (l : list Q) : option Q :=
  match l with
  | [] => None
  | a :: l' => Some (foldl Placement.fmax a l')
  end.

(** [s1 ^ s2] is not empty. *)
Definition sets_differ (l1 l2 : list nat) : bool :=
  existsb (fun c => bool_decide (c ∉ l2)) l1 || existsb (fun c => bool_decide (c ∉ l1)) l2.

Section XCoords.
(** [v.width], [v.cluster], for every edge that leaves [v] the difference
    [d['to_socket'].y - d['from_socket'].y], and [config.MARGIN.x]. *)
Variable width : nat -> Q.
Variable cluster_of : nat -> nat.
Variable socket_y_diffs : nat -> list Q.
Variable margin_x : Q.

(** [min(1, _EDGE_SPACING / config.MARGIN.x)]; [None] is the
    [ZeroDivisionError]. *)
Definition edge_space_fac : option Q :=
  if Qeq_bool margin_x 0 then None
  else Some (Placement.fmin 1 (_EDGE_SPACING / margin_x)).

(** The loop over the columns (lines 399-417) as far as it writes the [x]
    of the nodes of the columns.  [route_edges] only reads them: it fills
    [bend_points] with new nodes and is left out.  [rest] are the columns
    from number [i] on, [x] is the running coordinate. *)
Fixpoint assign_x_loop (esf : Q) (columns : list (list nat)) (i : nat)
    (rest : list (list nat)) (x : Q) (xs : gmap nat Q) : option (gmap nat Q) :=
  match rest with
  | [] => Some xs
  | col :: rest' =>
      max_width ← max_of (width <$> col);
      let xs1 := foldl (fun m v => <[v := (x - (width v - max_width) / 2)%Q]> m) xs col in
      let y_diffs := concat ((fun v => Qabs <$> socket_y_diffs v) <$> col) in
      let max_y_diff := default 0%Q (max_of y_diffs) in
      let x1 := (x + (max_width + _COL_SPACE_FAC * esf * max_y_diff + margin_x))%Q in
      last_col ← last columns;
      if bool_decide (col = last_col) then assign_x_loop esf columns (S i) rest' x1 xs1
      else
        next ← columns !! S i;
        let x2 := if sets_differ (cluster_of <$> col) (cluster_of <$> next)
                  then (x1 + _FRAME_PADDING)%Q else x1 in
        assign_x_loop esf columns (S i) rest' x2 xs1
  end.

Definition assign_x_coords (columns : list (list nat)) (xs : gmap nat Q)
  : option (gmap nat Q) :=
  esf ← edge_space_fac;
  assign_x_loop esf columns 0 columns 0%Q xs.

End XCoords.

(** *** Dummy nodes on long edges *)

(** An edge [(u, v, k)] of the multigraph [G] with its data. *)
Record MEdge : Type := mkMEdge {
  m_s : nat;
  m_t : nat;
  m_key : nat;
  m_from : Ordering.Socket;
  m_to : Ordering.Socket
}.

Definition triple (e : MEdge) : nat * nat * nat := (m_s e, m_t e, m_key e).

(** [nx.MultiDiGraph]: nodes and edges in insertion order. *)
Record MultiGraph : Type := mkMG { mg_nodes : list nat; mg_edges : list MEdge }.

(** [while key in keydict: key += 1] *)
Fixpoint first_free (fuel k : nat) (keys : list nat) : nat :=
  match fuel with
  | O => k
  | S fuel' => if bool_decide (k ∈ keys) then first_free fuel' (S k) keys else k
  end.

(** [MultiDiGraph.new_edge_key]: the number of edges from [u] to [v], or the
    next number that is not in use. *)
Definition new_edge_key (es : list MEdge) (u v : nat) : nat :=
  let keys := m_key <$> filter (fun e => m_s e = u /\ m_t e = v) es in
  first_free (S (length keys)) (length keys) keys.

(** [G.add_edge(u, v, from_socket=..., to_socket=...)] *)
Definition mg_add_edge (u v : nat) (from to : Ordering.Socket) (G : MultiGraph) : MultiGraph :=
  let nodes1 := if bool_decide (u ∈ mg_nodes G) then mg_nodes G else mg_nodes G ++ [u] in
  let nodes2 := if bool_decide (v ∈ nodes1) then nodes1 else nodes1 ++ [v] in
  mkMG nodes2 (mg_edges G ++ [mkMEdge u v (new_edge_key (mg_edges G) u v) from to]).

Definition add_dummy_edge (u v : nat) (G : MultiGraph) : MultiGraph :=
  mg_add_edge u v (Ordering.mkSocket u 0 true) (Ordering.mkSocket v 0 false) G.

(** [G.remove_edge(u, v, k)] for an edge that is there. *)
Definition mg_remove_edge (t : nat * nat * nat) (G : MultiGraph) : MultiGraph :=
  mkMG (mg_nodes G) (filter (fun e => triple e <> t) (mg_edges G)).

(** [add_dummy_nodes_to_edge(G, edge, dummy_nodes)] on the graph; [None] is
    the [KeyError] of [G.edges[edge]].  The removal of a link of the edited
    tree (lines 95-100) acts on Blender's data only and is left out. *)
Definition add_dummy_nodes_to_edge (G : MultiGraph) (edge : nat * nat * nat)
    (dummy_nodes : list nat) : option MultiGraph :=
  match dummy_nodes with
  | [] => Some G
  | w :: _ =>
      let G1 := foldl (fun G p => add_dummy_edge p.1 p.2 G) G (Py.pairwise dummy_nodes) in
      d ← List.find (fun e => bool_decide (triple e = edge)) (mg_edges G1);
      z ← last dummy_nodes;
      let G2 := mg_add_edge edge.1.1 w (m_from d) (Ordering.mkSocket w 0 false) G1 in
      let G3 := mg_add_edge z edge.1.2 (Ordering.mkSocket z 0 true) (m_to d) G2 in
      Some (mg_remove_edge edge G3)
  end.

Inductive GNodeType : Type := NODE | DUMMY | CLUSTER | VERTICAL_BORDER.

(** What [insert_dummy_nodes] works on: [G], [T], the attributes [rank],
    [cluster] and [type] of the nodes, and the next unused handle: a new
    [GNode] is a handle that no node has. *)
Record Layering : Type := mkLayering {
  lay_G : MultiGraph;
  lay_T : Ordering.DiGraph;
  lay_rank : nat -> Z;
  lay_cluster : nat -> nat;
  lay_type : nat -> GNodeType;
  lay_fresh : nat
}.

Definition set_G (G : MultiGraph) (st : Layering) : Layering :=
  mkLayering G (lay_T st) (lay_rank st) (lay_cluster st) (lay_type st) (lay_fresh st).

(** [range(a, b)] *)
Definition range (a b : Z) : list Z := (fun i => (a + Z.of_nat i)%Z) <$> seq 0 (Z.to_nat (b - a)).

(** [for i in range(...): w = GNode(None, c, GNodeType.DUMMY, i);
     T.add_edge(c, w); dummy_nodes.append(w)] *)
Fixpoint make_dummies (c : nat) (ranks : list Z) (st : Layering) : list nat * Layering :=
  match ranks with
  | [] => ([], st)
  | i :: rest =>
      let w := lay_fresh st in
      let st1 :=
        mkLayering (lay_G st) (Ordering.add_edge c w (lay_T st))
                   (fun x => if decide (x = w) then i else lay_rank st x)
                   (fun x => if decide (x = w) then c else lay_cluster st x)
                   (fun x => if decide (x = w) then DUMMY else lay_type st x)
                   (S w) in
      let '(ws, st2) := make_dummies c rest st1 in
      (w :: ws, st2)
  end.

Definition span (st : Layering) (e : MEdge) : Z := (lay_rank st (m_t e) - lay_rank st (m_s e))%Z.

(** [[(u, v, k) for u, v, k in G.edges(keys=True) if v.rank - u.rank > 1]] *)
Definition long_edges (st : Layering) : list (nat * nat * nat) :=
  triple <$> filter (fun e => (1 < span st e)%Z) (mg_edges (lay_G st)).

(** The body of [for u, v, k in long_edges]; [lca] is the dictionary of
    [nx.tree_all_pairs_lowest_common_ancestor], [pairs] its keys. *)
Definition insert_step (lca : gmap (nat * nat) nat) (pairs : list (nat * nat))
    (st : Layering) (e : nat * nat * nat) : option Layering :=
  let u := e.1.1 in
  let v := e.1.2 in
  c ← (if bool_decide ((u, v) ∈ pairs) then lca !! (u, v) else Some (lay_cluster st u));
  let '(dummy_nodes, st1) :=
    make_dummies c (range (lay_rank st u + 1) (lay_rank st v)) st in
  G' ← add_dummy_nodes_to_edge (lay_G st1) e dummy_nodes;
  Some (set_G G' st1).

Fixpoint insert_steps (lca : gmap (nat * nat) nat) (pairs : list (nat * nat))
    (st : Layering) (es : list (nat * nat * nat)) : option Layering :=
  match es with
  | [] => Some st
  | e :: es' => st' ← insert_step lca pairs st e; insert_steps lca pairs st' es'
  end.

(** The first loop of [ClusterGraph.insert_dummy_nodes] (lines 146-159). *)
Definition insert_dummy_nodes (lca : gmap (nat * nat) nat) (st : Layering) : option Layering :=
  let long := long_edges st in
  let pairs :=
    (fun e : nat * nat * nat => (e.1.1, e.1.2))
    <$> filter (fun e : nat * nat * nat => lay_cluster st e.1.1 <> lay_cluster st e.1.2) long in
  insert_steps lca pairs st long.

(** The edges that touch a node made after [fresh0]. *)
Definition new_edge (fresh0 : nat) (G : MultiGraph) (a b : nat) : Prop :=
  exists e, e ∈ mg_edges G /\ m_s e = a /\ m_t e = b /\ (fresh0 <= a \/ fresh0 <= b).

(** A graph 0 -> 1 over three ranks, with a short edge 0 -> 2. *)
Definition long_edge_layering : Layering :=
  mkLayering
    (mkMG [0; 1; 2]
          [mkMEdge 0 1 0 (Ordering.mkSocket 0 0 true) (Ordering.mkSocket 1 0 false);
           mkMEdge 0 2 0 (Ordering.mkSocket 0 1 true) (Ordering.mkSocket 2 0 false)])
    Ordering.empty_graph
    (fun v => if (v =? 0)%nat then 0%Z else if (v =? 1)%nat then 3%Z else 1%Z)
    (fun _ => 9) (fun _ => NODE) 10.

(** The loop over the long edges after some of them: [todo] are the long
    edges still to come, [st0] is the state before the loop. *)
Definition dummy_inv (st0 st : Layering) (todo : list (nat * nat * nat)) : Prop :=
  (forall e, e ∈ mg_edges (lay_G st) -> m_s e < lay_fresh st /\ m_t e < lay_fresh st)
  /\ (forall e, e ∈ mg_edges (lay_G st) -> (1 < span st e)%Z -> triple e ∈ todo)
  /\ (forall t, t ∈ todo ->
        exists e, e ∈ mg_edges (lay_G st) /\ triple e = t
                  /\ t.1.1 < lay_fresh st0 /\ t.1.2 < lay_fresh st0 /\ (1 < span st e)%Z)
  /\ (forall x, x < lay_fresh st0 ->
        lay_rank st x = lay_rank st0 x /\ lay_cluster st x = lay_cluster st0 x)
  /\ lay_fresh st0 <= lay_fresh st
  /\ (forall e, e ∈ mg_edges (lay_G st0) -> (span st0 e <= 1)%Z -> e ∈ mg_edges (lay_G st))
  /\ (forall e, e ∈ mg_edges (lay_G st) ->
        e ∈ mg_edges (lay_G st0)
        \/ (span st e = 1%Z /\ (lay_fresh st0 <= m_s e \/ lay_fresh st0 <= m_t e)))
  /\ (forall e, e ∈ mg_edges (lay_G st0) -> (1 < span st0 e)%Z -> triple e ∉ todo ->
        tc (new_edge (lay_fresh st0) (lay_G st)) (m_s e) (m_t e)).

End Sugiyama.

(** * Properties *)

(** ** Python containers and sorting *)

Module PyFacts.
Import Py.

Lemma elem_of_unique_from {A : Type} `{EqDecision A} (l : list A) :
  forall seen x, x ∈ unique_from seen l <-> x ∈ l /\ x ∉ seen.
Proof.
  induction l as [|y l IH]; intros seen x; cbn [unique_from].
  - split; [intros H; inversion H|intros [H _]; inversion H].
  - case_bool_decide as Hy.
    + rewrite IH, elem_of_cons. split; [tauto|]. intros [[->|H] Hx]; [contradiction|tauto].
    + rewrite !elem_of_cons, IH, elem_of_cons. split.
      * intros [->|[H1 H2]]; [tauto|]. split; [tauto|]. intros H3. apply H2. now right.
      * intros [[->|H1] H2]; [now left|].
        destruct (decide (x = y)) as [->|Hne]; [now left|right]. split; [exact H1|].
        intros [?|?]; contradiction.
Qed.

Lemma elem_of_unique {A : Type} `{EqDecision A} (l : list A) (x : A) : x ∈ unique l <-> x ∈ l.
Proof.
  unfold unique. rewrite elem_of_unique_from. split; [tauto|].
  intros H. split; [exact H|]. intros H'. inversion H'.
Qed.

Lemma length_unique_from {A : Type} `{EqDecision A} (l : list A) :
  forall seen, length (unique_from seen l) <= length l.
Proof.
  induction l as [|y l IH]; intros seen; cbn [unique_from length]; [lia|].
  case_bool_decide; cbn [length]; [specialize (IH seen)|specialize (IH (y :: seen))]; lia.
Qed.

Lemma NoDup_unique_from {A : Type} `{EqDecision A} (l : list A) :
  forall seen, NoDup (unique_from seen l).
Proof.
  induction l as [|y l IH]; intros seen; cbn [unique_from]; [constructor|].
  case_bool_decide; [apply IH|]. apply NoDup_cons. split; [|apply IH].
  rewrite elem_of_unique_from. intros [_ H']. apply H'. left.
Qed.

Section Sorting.
Context {A : Type} (le : A -> A -> bool).

Lemma insert_by_perm (x : A) (l : list A) : Permutation (insert_by le x l) (x :: l).
Proof.
  induction l as [|y l IH]; cbn; [reflexivity|].
  destruct (le x y); [reflexivity|].
  rewrite IH. apply perm_swap.
Qed.

Lemma sort_by_perm (l : list A) : Permutation (sort_by le l) l.
Proof.
  induction l as [|x l IH]; cbn; [reflexivity|].
  rewrite insert_by_perm. now constructor.
Qed.

Hypothesis le_total : forall x y, le x y = true \/ le y x = true.
Hypothesis le_trans : forall x y z, le x y = true -> le y z = true -> le x z = true.

Lemma insert_by_sorted (x : A) (l : list A) :
  StronglySorted (fun a b => le a b = true) l ->
  StronglySorted (fun a b => le a b = true) (insert_by le x l).
Proof.
  induction 1 as [|y l Hs IH Hy]; cbn.
  - constructor; constructor.
  - destruct (le x y) eqn:E.
    + constructor; [constructor; assumption|].
      constructor; [assumption|].
      eapply Forall_impl; [exact Hy|]. intros z Hz. cbn in Hz. eauto.
    + constructor; [assumption|].
      eapply Permutation_Forall; [symmetry; apply insert_by_perm|].
      constructor; [|assumption].
      destruct (le_total x y); congruence.
Qed.

Lemma sort_by_sorted (l : list A) :
  StronglySorted (fun a b => le a b = true) (sort_by le l).
Proof.
  induction l as [|x l IH]; cbn; [constructor|].
  now apply insert_by_sorted.
Qed.

End Sorting.

Lemma index_Some_lookup {A : Type} `{EqDecision A} (x : A) (l : list A) (i : nat) :
  index x l = Some i -> l !! i = Some x.
Proof.
  revert i. induction l as [|y l IH]; intros i; cbn; [discriminate|].
  destruct (decide (x = y)) as [->|Hne].
  - intros [= <-]. reflexivity.
  - destruct (index x l) as [j|]; cbn; [|discriminate].
    intros [= <-]. cbn. now apply IH.
Qed.

Lemma index_is_Some {A : Type} `{EqDecision A} (x : A) (l : list A) :
  x ∈ l -> is_Some (index x l).
Proof.
  induction l as [|y l IH]; cbn; [intros Hin; inversion Hin|].
  intros Hin. destruct (decide (x = y)); [eauto|].
  destruct IH as [j ->]; [|cbn; eauto].
  apply elem_of_cons in Hin as [?|?]; congruence.
Qed.

Lemma dict_get_elem_of {K V : Type} `{EqDecision K} (k : K) (v : V) (d : list (K * V)) :
  dict_get k d = Some v -> (k, v) ∈ d.
Proof.
  induction d as [|[k' v'] d IH]; cbn; [discriminate|].
  destruct (decide (k = k')) as [->|]; [intros [= ->]; left|intros; right; auto].
Qed.

Lemma elem_of_dict_get {K V : Type} `{EqDecision K} (k : K) (v : V) (d : list (K * V)) :
  NoDup d.*1 -> (k, v) ∈ d -> dict_get k d = Some v.
Proof.
  induction d as [|[k' v'] d IH]; cbn; [intros _ Hin; inversion Hin|].
  intros Hnd Hin. apply NoDup_cons in Hnd as [Hk Hnd].
  destruct (decide (k = k')) as [->|Hne].
  - apply elem_of_cons in Hin as [[= ->]|Hin]; [reflexivity|].
    exfalso. apply Hk. apply list_elem_of_fmap. now exists (k', v).
  - apply elem_of_cons in Hin as [[= -> ->]|Hin]; [congruence|auto].
Qed.


Lemma sort_by_cons {A : Type} (le : A -> A -> bool) (x : A) (l : list A) :
  sort_by le (x :: l) = insert_by le x (sort_by le l).
Proof. reflexivity. Qed.

Lemma insert_by_fmap {A B : Type} (g : A -> B) (le1 : A -> A -> bool) (le2 : B -> B -> bool)
    (x : A) (l : list A) :
  (forall a b, le2 (g a) (g b) = le1 a b) ->
  insert_by le2 (g x) (g <$> l) = g <$> insert_by le1 x l.
Proof.
  intros Hle. induction l as [|y l IH]; [reflexivity|].
  cbn [fmap list_fmap insert_by]. rewrite Hle. destruct (le1 x y); [reflexivity|].
  fold (fmap (M := list) g l). rewrite IH. reflexivity.
Qed.

Lemma sort_by_fmap {A B : Type} (g : A -> B) (le1 : A -> A -> bool) (le2 : B -> B -> bool)
    (l : list A) :
  (forall a b, le2 (g a) (g b) = le1 a b) ->
  sort_by le2 (g <$> l) = g <$> sort_by le1 l.
Proof.
  intros Hle. induction l as [|x l IH]; [reflexivity|].
  rewrite fmap_cons, !sort_by_cons, IH. now apply insert_by_fmap.
Qed.

(** Stability: sorting by a key keeps the earlier order among equal keys. *)
Section Stable.
Context {A : Type} (key : A -> nat) (R2 : A -> A -> Prop).

Local Abbreviation lex := (lex key R2).

Lemma insert_by_lex (x : A) (l : list A) :
  StronglySorted lex l -> (forall y, y ∈ l -> R2 x y) ->
  StronglySorted lex (insert_by (fun a b => (key a <=? key b)%nat) x l).
Proof.
  induction 1 as [|y l Hs IH Hy]; intros Hx; cbn [insert_by].
  - constructor; constructor.
  - rewrite Forall_forall in Hy. destruct (key x <=? key y)%nat eqn:E.
    + apply Nat.leb_le in E. constructor; [constructor; [assumption|now apply Forall_forall]|].
      apply Forall_forall. intros z Hz.
      assert (Hyz : (key y <= key z)%nat).
      { apply elem_of_cons in Hz as [->|Hz]; [lia|]. destruct (Hy z Hz) as [?|[? _]]; lia. }
      pose proof (Hx z Hz). unfold lex.
      destruct (decide (key x = key z)); [right; split; assumption|left; lia].
    + apply Nat.leb_gt in E. constructor.
      * apply IH. intros z Hz. apply Hx. now right.
      * apply Forall_forall. intros z Hz.
        rewrite insert_by_perm in Hz.
        apply elem_of_cons in Hz as [->|Hz]; [left; exact E|now apply Hy].
Qed.

Lemma sort_by_lex (l : list A) :
  StronglySorted R2 l ->
  StronglySorted lex (sort_by (fun a b => (key a <=? key b)%nat) l).
Proof.
  induction 1 as [|x l Hs IH Hx]; [constructor|]. rewrite sort_by_cons.
  apply insert_by_lex; [exact IH|].
  rewrite Forall_forall in Hx. intros y Hy. apply Hx.
  now rewrite sort_by_perm in Hy.
Qed.

End Stable.

Lemma StronglySorted_weaken {A : Type} (R1 R2 : A -> A -> Prop) (l : list A) :
  (forall a b, R1 a b -> R2 a b) -> StronglySorted R1 l -> StronglySorted R2 l.
Proof.
  intros HR. induction 1 as [|x l Hs IH Hx]; constructor; [assumption|].
  eapply Forall_impl; [exact Hx|]. intros y. apply HR.
Qed.

Lemma sort_by_nat_sorted {A : Type} (key : A -> nat) (l : list A) :
  StronglySorted (fun a b => (key a <= key b)%nat)
                 (sort_by (fun a b => (key a <=? key b)%nat) l).
Proof.
  eapply StronglySorted_weaken; [|apply sort_by_sorted].
  - intros a b Hab. cbn in Hab. now apply Nat.leb_le.
  - intros x y. destruct (Nat.le_ge_cases (key x) (key y)) as [H|H];
      [left|right]; now apply Nat.leb_le.
  - intros x y z Hxy Hyz. apply Nat.leb_le in Hxy, Hyz. apply Nat.leb_le. lia.
Qed.

End PyFacts.

(** ** linear_segments.py *)

Module PlacementFacts.
Import Py PyFacts Placement.

(** *** Depth-first search *)

Lemma elem_of_successors (es : list (nat * nat)) (v w : nat) :
  w ∈ successors es v <-> (v, w) ∈ es.
Proof.
  unfold successors. rewrite elem_of_unique, list_elem_of_fmap. split.
  - intros ([a b] & -> & Hin). apply list_elem_of_filter in Hin as [E Hin]. cbn in E. now subst a.
  - intros Hin. exists (v, w). split; [reflexivity|]. apply list_elem_of_filter. now split.
Qed.

Lemma length_successors (es : list (nat * nat)) (v : nat) :
  length (successors es v) <= out_degree es v.
Proof.
  unfold successors, out_degree. etransitivity; [apply length_unique_from|].
  now rewrite length_fmap.
Qed.

Lemma unvisited_edges_step (es : list (nat * nat)) (visited : list nat) (v : nat) :
  v ∉ visited ->
  length (filter (fun e => e.1 ∉ v :: visited) es) + out_degree es v
  = length (filter (fun e => e.1 ∉ visited) es).
Proof.
  intros Hv. unfold out_degree. induction es as [|e es IH]; [reflexivity|].
  rewrite !filter_cons. 
  destruct (decide (e.1 = v)) as [E|E].
  - rewrite decide_False by (rewrite E; intros H; apply H; left).
    rewrite decide_True by (rewrite E; exact Hv). cbn [length]. lia.
  - destruct (decide (e.1 ∈ visited)) as [Hin|Hin].
    + rewrite decide_False by (intros H; apply H; now right).
      rewrite decide_False by (intros H; contradiction). exact IH.
    + rewrite decide_True by (rewrite not_elem_of_cons; split; assumption).
      rewrite decide_True by exact Hin. cbn [length]. lia.
Qed.

Lemma dfs_total (es : list (nat * nat)) :
  forall fuel stack visited,
    length stack + length (filter (fun e => e.1 ∉ visited) es) <= fuel ->
    is_Some (dfs fuel es stack visited).
Proof.
  induction fuel as [|fuel IH]; intros stack visited Hfuel.
  - destruct stack; cbn in *; [eauto|lia].
  - destruct stack as [|v stack]; cbn [dfs]; [eauto|].
    case_bool_decide as Hv.
    + apply IH. cbn in Hfuel. lia.
    + apply IH. rewrite length_app.
      pose proof (unvisited_edges_step es visited v Hv).
      pose proof (length_successors es v). cbn in Hfuel. lia.
Qed.

Lemma dfs_preorder_nodes_total (es : list (nat * nat)) (u : nat) :
  is_Some (dfs_preorder_nodes es u).
Proof.
  apply dfs_total. cbn [length]. pose proof (length_filter (fun e => e.1 ∉ []) es). lia.
Qed.

Lemma dfs_spec (es : list (nat * nat)) (roots : list nat) :
  forall fuel stack visited res,
    dfs fuel es stack visited = Some res ->
    NoDup visited -> search_tree es roots visited ->
    (forall s, s ∈ stack -> s ∈ roots \/ exists p, p ∈ visited /\ (p, s) ∈ es) ->
    exists final ext,
      res = rev final /\ final = ext ++ visited /\ NoDup final /\ search_tree es roots final.
Proof.
  induction fuel as [|fuel IH]; intros stack visited res Hrun Hnd Htree Hstack.
  - destruct stack; cbn in Hrun; [|discriminate]. injection Hrun as <-.
    exists visited, []. auto.
  - destruct stack as [|v stack]; cbn [dfs] in Hrun.
    + injection Hrun as <-. exists visited, []. auto.
    + case_bool_decide as Hv.
      * apply (IH stack visited res Hrun Hnd Htree).
        intros s Hs. apply Hstack. now right.
      * destruct (IH _ (v :: visited) res Hrun) as (final & ext & E1 & E2 & Hnd' & Htree').
        -- apply NoDup_cons. split; assumption.
        -- split; [apply Hstack; left|exact Htree].
        -- intros s Hs. apply elem_of_app in Hs as [Hs|Hs].
           ++ right. exists v. split; [left|]. now apply elem_of_successors.
           ++ destruct (Hstack s) as [Hr|(p & Hp & Hps)]; [now right|now left|].
              right. exists p. split; [now right|exact Hps].
        -- exists final, (ext ++ [v]). split; [exact E1|]. split; [|split; assumption].
           rewrite E2, <- app_assoc. reflexivity.
Qed.

Lemma search_tree_app (es : list (nat * nat)) (roots l1 l2 : list nat) :
  search_tree es roots (l1 ++ l2) -> search_tree es roots l2.
Proof. induction l1 as [|x l1 IH]; cbn; [auto|]. intros [_ H]. now apply IH. Qed.

(** The preorder starts with the root, has no repetition, and every later
    node has an edge from a node before it. *)
Lemma dfs_preorder_nodes_spec (es : list (nat * nat)) (u : nat) (order : list nat) :
  dfs_preorder_nodes es u = Some order ->
  exists rest,
    order = u :: rest /\ NoDup order
    /\ forall l1 v l2, rest = l1 ++ v :: l2 -> exists p, p ∈ u :: l1 /\ (p, v) ∈ es.
Proof.
  unfold dfs_preorder_nodes. cbn [dfs]. rewrite bool_decide_eq_false_2 by (intros H; inversion H).
  intros Hrun.
  destruct (dfs_spec es [u] _ _ [u] order Hrun) as (final & ext & E1 & E2 & Hnd & Htree).
  - apply NoDup_singleton.
  - cbn. split; [left; left|exact I].
  - intros s Hs. rewrite app_nil_r in Hs. right. exists u. split; [left|].
    now apply elem_of_successors.
  - exists (rev ext). subst final order. rewrite rev_app_distr. cbn.
    split; [reflexivity|]. split.
    + change (u :: rev ext) with ([u] ++ rev ext). rewrite <- (rev_involutive [u]) at 1.
      rewrite <- rev_app_distr. apply NoDup_ListNoDup, NoDup_rev, NoDup_ListNoDup. exact Hnd.
    + intros l1 v l2 E.
      assert (Eext : ext = rev l2 ++ v :: rev l1).
      { rewrite <- (rev_involutive ext), E, rev_app_distr. cbn. rewrite <- app_assoc. reflexivity. }
      rewrite Eext, <- app_assoc in Htree. apply search_tree_app in Htree.
      cbn in Htree. destruct Htree as [[Hroot|(p & Hp & Hpv)] _].
      * exfalso. apply list_elem_of_singleton in Hroot. subst v.
        rewrite Eext in Hnd. rewrite <- app_assoc in Hnd.
        apply NoDup_app in Hnd as (_ & _ & Hnd). cbn in Hnd.
        apply NoDup_cons in Hnd as [Hu _]. apply Hu. apply elem_of_app. right. left.
      * exists p. split; [|exact Hpv].
        apply elem_of_app in Hp as [Hp|Hp].
        -- right. apply list_elem_of_In. apply in_rev. now apply list_elem_of_In.
        -- apply list_elem_of_singleton in Hp. subst p. left.
Qed.

(** *** The control loop of balance_placement *)

(** Whenever a rubber iteration finds the deflection stable, the loop ends
    right there: [final_iters] has just gone from 3 to 2, which is positive. *)
Lemma advance_ready_exits (total : Q) (c : Ctl) :
  mode c = RUBBER -> final_iters c = _FINAL_ITERS ->
  ready (advance total c) = true -> exits (advance total c) = true.
Proof.
  intros Hm Hf. unfold advance, exits. rewrite Hm. cbn [ready final_iters].
  intros ->. rewrite Hf. reflexivity.
Qed.

(** Until the loop exits, no confirming iteration has been counted. *)
Lemma advance_keeps_final (total : Q) (c : Ctl) :
  final_iters c = _FINAL_ITERS -> ready c = false ->
  exits (advance total c) = false ->
  final_iters (advance total c) = _FINAL_ITERS /\ ready (advance total c) = false.
Proof.
  intros Hf Hr. unfold advance.
  destruct (mode c).
  - destruct ((_ <=? 0)%Z && _); cbn [ready final_iters]; intros _; split; assumption.
  - destruct ((_ <=? 0)%Z && _); cbn [ready final_iters]; intros _; split; assumption.
  - cbv zeta. destruct (ge_prev _ _ || below_thresh _ _); unfold exits; cbn [ready final_iters andb].
    + rewrite Hf. discriminate.
    + intros _; split; [assumption | reflexivity].
Qed.

Lemma balance_loop_one_confirm (World : Type) (relax : Mode -> World -> World * Q) :
  forall fuel c w iters c' w' n k,
    final_iters c = _FINAL_ITERS -> ready c = false ->
    balance_loop World relax fuel c w iters 0 = Some (c', w', n, k) ->
    k = 1%nat /\ final_iters c' = 2%Z.
Proof.
  induction fuel as [|fuel IH]; intros c w iters c' w' n k Hf Hr; [discriminate|].
  cbn [balance_loop]. destruct (relax (mode c) w) as [w1 total].
  destruct (exits (advance total c)) eqn:Hex.
  - intros [= <- <- <- <-].
    unfold exits in Hex. apply andb_true_iff in Hex as [Hrd _].
    revert Hrd. unfold advance.
    destruct (mode c).
    + destruct ((_ <=? 0)%Z && _); cbn [ready]; congruence.
    + destruct ((_ <=? 0)%Z && _); cbn [ready]; congruence.
    + cbv zeta. destruct (ge_prev _ _ || below_thresh _ _); cbn [ready final_iters]; [|discriminate].
      intros _. rewrite Hf. split; reflexivity.
  - destruct (advance_keeps_final total c Hf Hr Hex) as [Hf' Hr'].
    assert (Hk : match mode c with
                 | RUBBER => if ready (advance total c) then 1%nat else 0%nat
                 | _ => 0%nat end = 0%nat).
    { rewrite Hr'. destruct (mode c); reflexivity. }
    rewrite Hk. intros H. eapply IH; eauto.
Qed.

(** C9 (evaluation of the code at the failing input).  On the recorded total
    deflections 100, 90, 80, 70 (pendulum) and 60, 50, 99/2 (rubber), the loop
    of [balance_placement] ends after the seventh iteration with a single
    confirming rubber iteration and [final_iters = 2]; moreover every run that
    ends at all ends with exactly one confirming iteration, never three. *)
Theorem balance_placement_stops_at_first_confirmation :
  balance_placement nat (replay [100; 90; 80; 70; 60; 50; 99 # 2]%Q) 20 0%nat
    = Some (mkCtl 0 2 true RUBBER (Fin (99 # 2)), 7%nat, 7%nat, 1%nat)
  /\ forall (World : Type) (relax : Mode -> World -> World * Q) fuel w c' w' n k,
       balance_placement World relax fuel w = Some (c', w', n, k) ->
       k = 1%nat /\ final_iters c' = 2%Z.
Proof.
  split.
  - vm_compute. reflexivity.
  - intros World relax fuel w c' w' n k H.
    unfold balance_placement in H.
    eapply balance_loop_one_confirm in H; eauto.
Qed.


(** *** get_linear_segments *)

Lemma chain_members_prefix (CG : ClusterGraph) (complex : list nat) (u : nat) (succ : list nat) :
  exists rest, succ = chain_members CG complex u succ ++ rest.
Proof.
  induction succ as [|v succ [rest IH]]; cbn; [now exists []|].
  destruct (chain_breaks CG complex u v); [now exists (v :: succ)|].
  exists rest. cbn. now rewrite <- IH.
Qed.

Lemma chain_members_degree (CG : ClusterGraph) (complex : list nat) (u : nat) (succ : list nat)
    (v : nat) :
  v ∈ chain_members CG complex u succ ->
  in_degree (G_edges CG) v <= 1 /\ out_degree (G_edges CG) v <= 1.
Proof.
  induction succ as [|w succ IH]; cbn; [intros H; inversion H|].
  destruct (chain_breaks CG complex u w) eqn:E; [intros H; inversion H|].
  intros H. apply elem_of_cons in H as [->|H]; [|now apply IH].
  unfold chain_breaks in E. apply orb_false_elim in E as [E _].
  apply orb_false_elim in E as [E1 E2].
  apply bool_decide_eq_false in E1, E2. lia.
Qed.

Lemma in_degree_unique (es : list (nat * nat)) (v p q : nat) :
  in_degree es v <= 1 -> (p, v) ∈ es -> (q, v) ∈ es -> p = q.
Proof.
  unfold in_degree. intros Hdeg Hp Hq.
  assert (Hp' : (p, v) ∈ filter (fun e => e.2 = v) es) by (apply list_elem_of_filter; now split).
  assert (Hq' : (q, v) ∈ filter (fun e => e.2 = v) es) by (apply list_elem_of_filter; now split).
  destruct (filter (fun e => e.2 = v) es) as [|e [|e' l]]; cbn in Hdeg; [inversion Hp'| |lia].
  apply list_elem_of_singleton in Hp', Hq'. congruence.
Qed.

Lemma layered_closed (CG : ClusterGraph) (P R : list nat) (a b : nat) :
  layered CG -> concat (columns CG) = P ++ R ->
  (a, b) ∈ G_edges CG -> b ∈ P -> a ∈ P.
Proof.
  intros (_ & _ & Hpred) Horder Hab Hb.
  apply list_elem_of_split in Hb as (l1 & l2 & ->).
  rewrite <- app_assoc in Horder. cbn in Horder.
  apply elem_of_app. left. exact (Hpred l1 b (l2 ++ R) Horder a Hab).
Qed.

Lemma segment_step_inv (CG : ClusterGraph) (complex P R seen : list nat)
    (segments : list (list nat)) (u : nat) :
  layered CG -> concat (columns CG) = P ++ u :: R ->
  segments_inv CG P seen segments ->
  exists seen' segments',
    segment_step CG complex (seen, segments) u = Some (seen', segments')
    /\ segments_inv CG (P ++ [u]) seen' segments'.
Proof.
  intros Hlay Horder (I1 & I2 & I3 & I4 & I5 & I7).
  pose proof Hlay as (Hnd & Hends & Hpred).
  assert (HuP : u ∉ P).
  { rewrite Horder in Hnd. apply NoDup_app in Hnd as (_ & Hd & _).
    intros Hin. apply (Hd u Hin). left. }
  assert (Huo : u ∈ concat (columns CG)) by (rewrite Horder; apply elem_of_app; right; left).
  unfold segment_step. case_bool_decide as Hseen.
  - exists seen, segments. split; [reflexivity|].
    split; [exact I1|]. split; [exact I2|]. split; [|split; [exact I4|split]].
    + intros v Hv. apply elem_of_app in Hv as [Hv|Hv]; [now apply I3|].
      apply list_elem_of_singleton in Hv as ->. now apply I4.
    + intros v Hv. destruct (I5 v Hv) as [?|[? ?]]; [now left|right].
      split; [apply elem_of_app; now left|assumption].
    + intros v Hv. destruct (I7 v Hv) as [?|?]; [left; apply elem_of_app; now left|now right].
  - assert (Huc : u ∉ concat segments).
    { intros Hin. destruct (I5 u Hin) as [?|[? _]]; contradiction. }
    case_bool_decide as Hout.
    + exists seen, (segments ++ [[u]]). split; [reflexivity|].
      unfold segments_inv. rewrite concat_app. cbn [concat]. rewrite app_nil_r.
      split; [|split; [|split; [|split; [|split]]]].
      * apply NoDup_app. split; [exact I1|]. split; [|apply NoDup_singleton].
        intros v Hv Hv'. apply list_elem_of_singleton in Hv' as ->. contradiction.
      * intros v Hv. apply elem_of_app in Hv as [Hv|Hv]; [now apply I2|].
        apply list_elem_of_singleton in Hv as ->. exact Huo.
      * intros v Hv. apply elem_of_app. apply elem_of_app in Hv as [Hv|Hv]; [left; now apply I3|now right].
      * intros v Hv. apply elem_of_app. left. now apply I4.
      * intros v Hv. apply elem_of_app in Hv as [Hv|Hv].
        -- destruct (I5 v Hv) as [?|[? ?]]; [now left|right].
           split; [apply elem_of_app; now left|assumption].
        -- apply list_elem_of_singleton in Hv as ->. right.
           split; [apply elem_of_app; right; left|exact Hout].
      * intros v Hv. destruct (I7 v Hv) as [?|(p & Hp & Hpv)];
          [left; apply elem_of_app; now left|right].
        exists p. split; [apply elem_of_app; now left|exact Hpv].
    + destruct (dfs_preorder_nodes_total (G_edges CG) u) as [order Hdfs].
      rewrite Hdfs. cbn [mbind option_bind].
      destruct (dfs_preorder_nodes_spec _ _ _ Hdfs) as (rest & -> & Hndo & Hreach).
      destruct (chain_members_prefix CG complex u rest) as [tail Htail].
      set (members := chain_members CG complex u rest) in *.
      exists ((u :: members) ++ seen), (segments ++ [u :: members]).
      split; [reflexivity|].
      assert (Hpredm : forall l1 v l2, members = l1 ++ v :: l2 ->
                exists p, p ∈ u :: l1 /\ (p, v) ∈ G_edges CG).
      { intros l1 v l2 E. apply (Hreach l1 v (l2 ++ tail)).
        rewrite Htail, E, <- app_assoc. reflexivity. }
      assert (Hgood : forall l1 l2, members = l1 ++ l2 ->
                Forall (fun x => (x ∉ concat segments) /\ (x ∉ P)) l1).
      { induction l1 as [|x l1 IH] using rev_ind; intros l2 E; [constructor|].
        rewrite <- app_assoc in E. cbn in E.
        specialize (IH _ E). apply Forall_app. split; [exact IH|].
        constructor; [|constructor].
        destruct (Hpredm l1 x l2 E) as (p & Hp & Hpx).
        assert (Hpgood : (p ∉ concat segments) /\ (p ∉ P)).
        { apply elem_of_cons in Hp as [->|Hp]; [now split|].
          rewrite Forall_forall in IH. now apply IH. }
        assert (HxP : x ∉ P).
        { intros HxP. apply (proj2 Hpgood).
          exact (layered_closed CG P (u :: R) p x Hlay Horder Hpx HxP). }
        split; [|exact HxP].
        intros Hxc. destruct (I5 x Hxc) as [Hxs|[? _]]; [|contradiction].
        destruct (I7 x Hxs) as [?|(q & Hq & Hqx)]; [contradiction|].
        assert (Hdeg : in_degree (G_edges CG) x <= 1).
        { apply (chain_members_degree CG complex u rest x). fold members.
          rewrite E. apply elem_of_app. right. left. }
        rewrite (in_degree_unique _ x p q Hdeg Hpx Hqx) in Hpgood. now apply (proj1 Hpgood). }
      specialize (Hgood members [] (eq_sym (app_nil_r _))). rewrite Forall_forall in Hgood.
      assert (Hnodes_good : forall x, x ∈ u :: members -> x ∉ concat segments).
      { intros x Hx. apply elem_of_cons in Hx as [->|Hx]; [exact Huc|now apply Hgood]. }
      assert (Hndn : NoDup (u :: members)).
      { rewrite Htail in Hndo. rewrite app_comm_cons in Hndo.
        now apply NoDup_app in Hndo as (? & _ & _). }
      assert (Hmem_pred : forall x, x ∈ members ->
                exists p, p ∈ u :: members /\ (p, x) ∈ G_edges CG).
      { intros x Hx. apply list_elem_of_split in Hx as (l1 & l2 & E).
        destruct (Hpredm l1 x l2 E) as (p & Hp & Hpx). exists p. split; [|exact Hpx].
        apply elem_of_cons in Hp as [->|Hp]; [left|right].
        rewrite E. apply elem_of_app. now left. }
      unfold segments_inv. rewrite concat_app. cbn [concat]. rewrite app_nil_r.
      split; [|split; [|split; [|split; [|split]]]].
      * apply NoDup_app. split; [exact I1|]. split; [|exact Hndn].
        intros v Hv Hv'. now apply (Hnodes_good v Hv').
      * intros v Hv. apply elem_of_app in Hv as [Hv|Hv]; [now apply I2|].
        apply elem_of_cons in Hv as [->|Hv]; [exact Huo|].
        destruct (Hmem_pred v Hv) as (p & _ & Hpv). now apply Hends in Hpv.
      * intros v Hv. apply elem_of_app. apply elem_of_app in Hv as [Hv|Hv]; [left; now apply I3|].
        apply list_elem_of_singleton in Hv as ->. right. left.
      * intros v Hv. apply elem_of_app. apply elem_of_app in Hv as [Hv|Hv]; [now right|].
        left. now apply I4.
      * intros v Hv. apply elem_of_app in Hv as [Hv|Hv].
        -- destruct (I5 v Hv) as [?|[? ?]].
           ++ left. apply elem_of_app. now right.
           ++ right. split; [apply elem_of_app; now left|assumption].
        -- left. apply elem_of_app. now left.
      * intros v Hv. apply elem_of_app in Hv as [Hv|Hv].
        -- apply elem_of_cons in Hv as [->|Hv].
           ++ left. apply elem_of_app. right. left.
           ++ right. destruct (Hmem_pred v Hv) as (p & Hp & Hpv).
              exists p. split; [apply elem_of_app; now right|exact Hpv].
        -- destruct (I7 v Hv) as [?|(p & Hp & Hpv)];
             [left; apply elem_of_app; now left|right].
           exists p. split; [apply elem_of_app; now left|exact Hpv].
Qed.

Lemma segment_loop_inv (CG : ClusterGraph) (complex : list nat) (us : list nat) :
  forall P seen segments,
    layered CG -> concat (columns CG) = P ++ us ->
    segments_inv CG P seen segments ->
    exists seen' segments',
      segment_loop CG complex (seen, segments) us = Some (seen', segments')
      /\ segments_inv CG (concat (columns CG)) seen' segments'.
Proof.
  induction us as [|u us IH]; intros P seen segments Hlay Horder Hinv.
  - exists seen, segments. split; [reflexivity|]. rewrite Horder, app_nil_r. exact Hinv.
  - destruct (segment_step_inv CG complex P us seen segments u Hlay Horder Hinv)
      as (seen1 & segs1 & Hstep & Hinv1).
    cbn [segment_loop]. rewrite Hstep. cbn [mbind option_bind].
    apply (IH (P ++ [u])); [exact Hlay| |exact Hinv1].
    rewrite <- app_assoc. exact Horder.
Qed.

(** *** Segment.split *)

Lemma remove_middle (w : nat) (l1 l2 : list nat) :
  w ∉ l1 -> remove w (l1 ++ w :: l2) = Some (l1 ++ l2).
Proof.
  induction l1 as [|x l1 IH]; intros Hw; cbn.
  - now rewrite decide_True.
  - apply not_elem_of_cons in Hw as [Hne Hw].
    rewrite decide_False by congruence. rewrite IH by exact Hw. reflexivity.
Qed.

Lemma remove_all_suffix (l2 : list nat) :
  forall l1, NoDup (l1 ++ l2) -> remove_all l2 (l1 ++ l2) = Some l1.
Proof.
  induction l2 as [|w l2 IH]; intros l1 Hnd; cbn [remove_all].
  - now rewrite app_nil_r.
  - assert (Hw : w ∉ l1).
    { apply NoDup_app in Hnd as (_ & Hd & _). intros Hin. apply (Hd w Hin). left. }
    rewrite remove_middle by exact Hw. cbn [mbind option_bind]. apply IH.
    apply NoDup_app in Hnd as (H1 & Hd & H2). apply NoDup_cons in H2 as [_ H2].
    apply NoDup_app. split; [exact H1|]. split; [|exact H2].
    intros x Hx Hx'. apply (Hd x Hx). now right.
Qed.

Lemma split_spec (nodes : list nat) (v : nat) :
  NoDup nodes -> v ∈ nodes ->
  exists old rest,
    split nodes v = Some (old, v :: rest) /\ nodes = old ++ v :: rest.
Proof.
  intros Hnd Hv. destruct (index_is_Some v nodes Hv) as [i Hi].
  pose proof (index_Some_lookup v nodes i Hi) as Hlook.
  pose proof (take_drop_middle nodes i v Hlook) as E.
  exists (take i nodes), (drop (S i) nodes). split; [|now rewrite E].
  unfold split. rewrite Hi. cbn [mbind option_bind].
  assert (Ed : drop i nodes = v :: drop (S i) nodes).
  { rewrite <- E at 1. rewrite drop_app_length'; [reflexivity|].
    rewrite length_take. apply lookup_lt_Some in Hlook. lia. }
  rewrite Ed.
  assert (Hrem : forall old rest, nodes = old ++ v :: rest ->
                   remove_all (v :: rest) nodes = Some old).
  { intros old rest E'. rewrite E'. apply remove_all_suffix. now rewrite <- E'. }
  rewrite (Hrem _ _ (eq_sym E)). reflexivity.
Qed.

Lemma foldl_point_lookup (j : nat) (new : list nat) :
  forall (m : gmap nat nat) (w : nat),
    foldl (fun m w => <[w := j]> m) m new !! w
    = if decide (w ∈ new) then Some j else m !! w.
Proof.
  induction new as [|x new IH]; intros m w; cbn [foldl].
  - rewrite decide_False by (intros H; inversion H). reflexivity.
  - rewrite IH. destruct (decide (w ∈ new)) as [Hin|Hnin].
    + rewrite decide_True by now right. reflexivity.
    + destruct (decide (w = x)) as [->|Hne].
      * rewrite decide_True by left. apply lookup_insert_eq.
      * rewrite decide_False by (rewrite elem_of_cons; tauto). now apply lookup_insert_ne.
Qed.

Lemma split_segment_spec (sg : Segments) (i : nat) (nodes : list nat) (v : nat) :
  NoDup (concat (linear_segments sg)) ->
  linear_segments sg !! i = Some nodes -> v ∈ nodes ->
  exists sg' old rest,
    split_segment i v sg = Some sg'
    /\ nodes = old ++ v :: rest
    /\ linear_segments sg' = <[i := old]> (linear_segments sg) ++ [v :: rest]
    /\ Permutation (concat (linear_segments sg')) (concat (linear_segments sg))
    /\ forall w, segment sg' !! w
                 = if decide (w ∈ v :: rest) then Some (length (linear_segments sg))
                   else segment sg !! w.
Proof.
  intros Hnd Hi Hv.
  pose proof (take_drop_middle _ _ _ Hi) as Esegs.
  assert (Hndn : NoDup nodes).
  { rewrite <- Esegs, concat_app in Hnd. apply NoDup_app in Hnd as (_ & _ & Hnd).
    cbn [concat] in Hnd. now apply NoDup_app in Hnd as (? & _ & _). }
  destruct (split_spec nodes v Hndn Hv) as (old & rest & Hsplit & E).
  unfold split_segment. rewrite Hi. cbn [mbind option_bind]. rewrite Hsplit.
  cbn [mbind option_bind].
  eexists. exists old, rest. split; [reflexivity|]. cbn [linear_segments segment].
  split; [exact E|]. split; [reflexivity|]. split; [|apply foldl_point_lookup].
  rewrite insert_take_drop by (eapply lookup_lt_Some; exact Hi).
  rewrite <- Esegs at 3. rewrite E.
  rewrite !concat_app. cbn [concat]. rewrite app_nil_r, <- !app_assoc.
  apply Permutation_app_head. apply Permutation_app_head.
  apply Permutation_app_comm.
Qed.

(** C6.  When the columns are duplicate-free and every predecessor of a node
    comes before it in column order (edges lead to later columns),
    [get_linear_segments] returns segments whose node lists, put together,
    are a rearrangement of the nodes of the columns: every node is in
    exactly one segment, once.  Whenever the segments partition the nodes,
    [Segment.split] succeeds at any node [v] of a segment, leaves the part
    before [v] in the old segment, puts [v] and what follows it into the new
    one, points exactly those nodes to the new segment, and the segments
    partition the nodes as before. *)
Theorem linear_segments_partition (CG : ClusterGraph) :
  layered CG ->
  exists segs,
    get_linear_segments CG = Some segs
    /\ Permutation (concat segs) (concat (columns CG))
    /\ forall sg i nodes v,
         Permutation (concat (linear_segments sg)) (concat segs) ->
         linear_segments sg !! i = Some nodes -> v ∈ nodes ->
         exists sg' old rest,
           split_segment i v sg = Some sg'
           /\ nodes = old ++ v :: rest
           /\ linear_segments sg' = <[i := old]> (linear_segments sg) ++ [v :: rest]
           /\ Permutation (concat (linear_segments sg')) (concat segs)
           /\ forall w, segment sg' !! w
                        = if decide (w ∈ v :: rest) then Some (length (linear_segments sg))
                          else segment sg !! w.
Proof.
  intros Hlay.
  destruct (segment_loop_inv CG (complex_clusters CG) (concat (columns CG)) [] [] [] Hlay)
    as (seen & segs & Hrun & Hinv).
  { reflexivity. }
  { split; [constructor|]. repeat split; intros v Hv; inversion Hv. }
  destruct Hinv as (I1 & I2 & I3 & _).
  exists segs. unfold get_linear_segments. rewrite Hrun. split; [reflexivity|].
  assert (Hperm : Permutation (concat segs) (concat (columns CG))).
  { apply NoDup_Permutation; [exact I1|apply Hlay|].
    intros v. split; [apply I2|apply I3]. }
  split; [exact Hperm|].
  intros sg i nodes v Hsg Hi Hv.
  assert (Hnd : NoDup (concat (linear_segments sg))) by (rewrite Hsg; exact I1).
  destruct (split_segment_spec sg i nodes v Hnd Hi Hv)
    as (sg' & old & rest & H1 & H2 & H3 & H4 & H5).
  exists sg', old, rest. repeat split; try assumption.
  now rewrite H4.
Qed.

Lemma linear_segments_partition_witness :
  exists segs,
    get_linear_segments path_CG = Some segs
    /\ Permutation (concat segs) (concat (columns path_CG))
    /\ forall sg i nodes v,
         Permutation (concat (linear_segments sg)) (concat segs) ->
         linear_segments sg !! i = Some nodes -> v ∈ nodes ->
         exists sg' old rest,
           split_segment i v sg = Some sg'
           /\ nodes = old ++ v :: rest
           /\ linear_segments sg' = <[i := old]> (linear_segments sg) ++ [v :: rest]
           /\ Permutation (concat (linear_segments sg')) (concat segs)
           /\ forall w, segment sg' !! w
                        = if decide (w ∈ v :: rest) then Some (length (linear_segments sg))
                          else segment sg !! w.
Proof.
  apply (linear_segments_partition path_CG).
  split; [|split].
  - apply (bool_decide_unpack (NoDup _)). vm_compute. exact I.
  - intros a b Hab. cbn in Hab |- *.
    repeat (apply elem_of_cons in Hab as [[= -> ->]|Hab]); [..|inversion Hab]; set_solver.
  - intros l1 x l2 E a Ha. cbn in E, Ha.
    repeat (destruct l1 as [|? l1]; cbn in E;
            [injection E as <- <-|injection E as <- E]);
      try (destruct l1; discriminate);
      repeat (apply elem_of_cons in Ha as [[= ->]|Ha]); try inversion Ha; set_solver.
Defined.

Example path_segments : get_linear_segments path_CG = Some [[0]; [3]; [1; 2]; [4]].
Proof. vm_compute. reflexivity. Qed.

Lemma segment_step_total (CG : ClusterGraph) (complex : list nat)
    (acc : list nat * list (list nat)) (u : nat) :
  is_Some (segment_step CG complex acc u).
Proof.
  destruct acc as [seen segments]. unfold segment_step.
  case_bool_decide; [eauto|]. case_bool_decide; [eauto|].
  destruct (dfs_preorder_nodes_total (G_edges CG) u) as [order Hdfs].
  rewrite Hdfs. cbn [mbind option_bind].
  destruct (dfs_preorder_nodes_spec _ _ _ Hdfs) as (rest & -> & _). eauto.
Qed.

Lemma segment_loop_total (CG : ClusterGraph) (complex : list nat) (us : list nat) :
  forall acc, is_Some (segment_loop CG complex acc us).
Proof.
  induction us as [|u us IH]; intros acc; cbn [segment_loop]; [eauto|].
  destruct (segment_step_total CG complex acc u) as [acc' ->]. cbn [mbind option_bind].
  apply IH.
Qed.

(** C10 as stated fails: the columns of [inverted_CG] contradict its edge,
    and [get_linear_segments] does not reject them but returns two segments
    that both hold node 1. *)
Lemma malformed_columns_are_not_rejected :
  ~ layered inverted_CG
  /\ get_linear_segments inverted_CG = Some [[1]; [0; 1]].
Proof.
  split; [|vm_compute; reflexivity].
  intros (_ & _ & Hpred).
  specialize (Hpred [] 1 [0] eq_refl 0 ltac:(left)). inversion Hpred.
Qed.

(** C10 (amended).  The layout computation makes no contract check:
    [get_linear_segments] returns segments for every cluster graph, whatever
    its columns, and [get_nesting_relations] follows the cluster pointers
    without a test for a forest, so that on a cluster that contains itself
    the recursion has no end within any budget. *)
Theorem layout_makes_no_contract_check :
  (forall CG, is_Some (get_linear_segments CG))
  /\ (forall budget, Sugiyama.get_nesting_relations budget (fun _ => Some 0) 0 = None).
Proof.
  split.
  - intros CG. unfold get_linear_segments.
    destruct (segment_loop_total CG (complex_clusters CG) (concat (columns CG)) ([], []))
      as [acc ->].
    cbn. eauto.
  - induction budget as [|budget IH]; [reflexivity|].
    cbn [Sugiyama.get_nesting_relations]. rewrite IH. reflexivity.
Qed.

(** *** Segments as chains through the columns *)

Lemma elem_of_concat {A : Type} (ls : list (list A)) (x : A) :
  x ∈ concat ls <-> exists l, x ∈ l /\ l ∈ ls.
Proof.
  induction ls as [|l0 ls IH]; cbn [concat].
  - split; [intros H; inversion H|intros (l & _ & H); inversion H].
  - rewrite elem_of_app, IH. split.
    + intros [H|(l & H1 & H2)]; [exists l0; split; [exact H|left]|exists l; split; [exact H1|now right]].
    + intros (l & H1 & H2). apply elem_of_cons in H2 as [-> | H2]; [now left|right; now exists l].
Qed.

Lemma in_col_concat (columns : list (list nat)) (k v : nat) :
  in_col columns k v -> v ∈ concat columns.
Proof.
  intros (c & Hc & Hv). apply elem_of_concat. exists c. split; [exact Hv|].
  eapply list_elem_of_lookup_2; exact Hc.
Qed.

Lemma concat_in_col (columns : list (list nat)) (v : nat) :
  v ∈ concat columns -> exists k, in_col columns k v.
Proof.
  intros Hv. apply elem_of_concat in Hv as (c & Hv & Hc).
  apply list_elem_of_lookup_1 in Hc as [k Hk]. exists k, c. now split.
Qed.

Lemma in_col_unique (columns : list (list nat)) (k k' v : nat) :
  NoDup (concat columns) -> in_col columns k v -> in_col columns k' v -> k = k'.
Proof.
  revert k k'. induction columns as [|c0 columns IH]; intros k k' Hnd (c & Hc & Hv) (c' & Hc' & Hv').
  - discriminate.
  - cbn [concat] in Hnd. apply NoDup_app in Hnd as (_ & Hdisj & Hnd).
    destruct k as [|k], k' as [|k']; cbn in Hc, Hc'.
    + reflexivity.
    + injection Hc as <-. exfalso. apply (Hdisj v Hv).
      apply (in_col_concat columns k'). now exists c'.
    + injection Hc' as <-. exfalso. apply (Hdisj v Hv').
      apply (in_col_concat columns k). now exists c.
    + f_equal. apply IH; [exact Hnd|now exists c|now exists c'].
Qed.

Lemma NoDup_column (columns : list (list nat)) (k : nat) (c : list nat) :
  NoDup (concat columns) -> columns !! k = Some c -> NoDup c.
Proof.
  revert k. induction columns as [|c0 columns IH]; intros k Hnd Hc; [discriminate|].
  cbn [concat] in Hnd. apply NoDup_app in Hnd as (Hnd0 & _ & Hnd).
  destruct k as [|k]; cbn in Hc; [now injection Hc as <-|eauto].
Qed.

Section WellFormed.
Variable columns : list (list nat).
Variable sg : Segments.
Hypothesis Hwf : wf_segments columns sg.

Lemma wf_has_segment (k v : nat) :
  in_col columns k v -> exists j, segment sg !! v = Some j.
Proof.
  intros Hv. apply in_col_concat in Hv. rewrite <- (wf_perm _ _ Hwf) in Hv.
  apply elem_of_concat in Hv as (nodes & Hv & Hn).
  apply list_elem_of_lookup_1 in Hn as [j Hj]. exists j.
  apply (wf_ptr _ _ Hwf). now exists nodes.
Qed.

Lemma wf_segment_bound (v j : nat) :
  segment sg !! v = Some j -> j < length (linear_segments sg).
Proof.
  intros Hv. apply (wf_ptr _ _ Hwf) in Hv as (nodes & Hn & _).
  eapply lookup_lt_Some; exact Hn.
Qed.

Lemma wf_NoDup_segment (j : nat) (nodes : list nat) :
  linear_segments sg !! j = Some nodes -> NoDup nodes.
Proof.
  intros Hj. pose proof (wf_cols _ _ Hwf) as Hnd. rewrite <- (wf_perm _ _ Hwf) in Hnd.
  rewrite <- (take_drop_middle _ _ _ Hj), concat_app in Hnd.
  apply NoDup_app in Hnd as (_ & _ & Hnd). cbn [concat] in Hnd.
  now apply NoDup_app in Hnd as (? & _ & _).
Qed.

(** A segment has at most one node in a column. *)
Lemma wf_one_per_column (k a b s : nat) :
  in_col columns k a -> in_col columns k b ->
  segment sg !! a = Some s -> segment sg !! b = Some s -> a = b.
Proof.
  intros Ha Hb Hsa Hsb.
  apply (wf_ptr _ _ Hwf) in Hsa as (nodes & Hn & Hna).
  apply (wf_ptr _ _ Hwf) in Hsb as (nodes' & Hn' & Hnb).
  rewrite Hn in Hn'. injection Hn' as <-.
  destruct (wf_chain _ _ Hwf _ _ Hn) as [k0 Hk0].
  apply list_elem_of_lookup_1 in Hna as [ta Hta]. apply list_elem_of_lookup_1 in Hnb as [tb Htb].
  pose proof (in_col_unique _ _ _ _ (wf_cols _ _ Hwf) Ha (Hk0 _ _ Hta)).
  pose proof (in_col_unique _ _ _ _ (wf_cols _ _ Hwf) Hb (Hk0 _ _ Htb)).
  assert (ta = tb) by lia. subst tb. congruence.
Qed.

(** A segment is present in all columns between two columns it is in. *)
Lemma wf_contiguous (X p q k : nat) :
  present_at columns sg p X -> present_at columns sg q X -> p <= k <= q ->
  present_at columns sg k X.
Proof.
  intros (a & Ha & Hsa) (b & Hb & Hsb) Hk.
  apply (wf_ptr _ _ Hwf) in Hsa as (nodes & Hn & Hna).
  apply (wf_ptr _ _ Hwf) in Hsb as (nodes' & Hn' & Hnb).
  rewrite Hn in Hn'. injection Hn' as <-.
  destruct (wf_chain _ _ Hwf _ _ Hn) as [k0 Hk0].
  apply list_elem_of_lookup_1 in Hna as [ta Hta]. apply list_elem_of_lookup_1 in Hnb as [tb Htb].
  pose proof (in_col_unique _ _ _ _ (wf_cols _ _ Hwf) Ha (Hk0 _ _ Hta)).
  pose proof (in_col_unique _ _ _ _ (wf_cols _ _ Hwf) Hb (Hk0 _ _ Htb)).
  assert (Hlt : k - k0 < length nodes).
  { apply lookup_lt_Some in Htb. lia. }
  apply lookup_lt_is_Some in Hlt as [v Hv].
  exists v. split.
  - replace k with (k0 + (k - k0)) by lia. now apply Hk0.
  - apply (wf_ptr _ _ Hwf). exists nodes. split; [exact Hn|].
    eapply list_elem_of_lookup_2; exact Hv.
Qed.

Lemma wf_segments_of (k : nat) (c : list nat) :
  columns !! k = Some c ->
  exists l, segments_of sg c = Some l /\ Forall2 (fun v s => segment sg !! v = Some s) c l.
Proof.
  intros Hc.
  assert (Hall : Forall (fun v => is_Some (segment sg !! v)) c).
  { apply Forall_forall. intros v Hv. destruct (wf_has_segment k v) as [j Hj]; [now exists c|].
    rewrite Hj. eauto. }
  clear Hc. unfold segments_of. induction Hall as [|v c [s Hs] Hall (l & Hl & HF)].
  - exists []. split; [reflexivity|constructor].
  - exists (s :: l). split.
    + apply mapM_Some_2. constructor; [exact Hs|]. now apply mapM_Some_1.
    + constructor; assumption.
Qed.

End WellFormed.

(** *** The effect of a split on well-formed segments *)

Lemma split_segment_wf (columns : list (list nat)) (sg : Segments) (k w s : nat) :
  wf_segments columns sg -> in_col columns k w -> segment sg !! w = Some s ->
  exists sg',
    split_segment s w sg = Some sg'
    /\ wf_segments columns sg'
    /\ segment sg' !! w = Some (length (linear_segments sg))
    /\ forall x, segment sg' !! x = segment sg !! x
                 \/ (segment sg !! x = Some s
                     /\ segment sg' !! x = Some (length (linear_segments sg))
                     /\ exists k', k <= k' /\ in_col columns k' x).
Proof.
  intros Hwf Hk Hs.
  pose proof (wf_cols _ _ Hwf) as Hndc.
  assert (Hnd : NoDup (concat (linear_segments sg))) by now rewrite (wf_perm _ _ Hwf).
  pose proof Hs as Hs'. apply (wf_ptr _ _ Hwf) in Hs' as (nodes & Hn & Hw).
  destruct (split_segment_spec sg s nodes w Hnd Hn Hw)
    as (sg' & old & rest & Hsplit & E & Esegs & Hperm & Hptr).
  pose proof (wf_NoDup_segment _ _ Hwf _ _ Hn) as Hndn.
  assert (Hdisj : forall x, x ∈ old -> x ∈ w :: rest -> False).
  { rewrite E in Hndn. apply NoDup_app in Hndn as (_ & Hd & _). exact Hd. }
  pose proof (lookup_lt_Some _ _ _ Hn) as Hslt.
  destruct (wf_chain _ _ Hwf _ _ Hn) as [k0 Hk0].
  assert (Ek : k = k0 + length old).
  { apply (in_col_unique columns _ _ w Hndc Hk). apply Hk0.
    rewrite E. now rewrite list_lookup_middle. }
  assert (Hnew : forall x, x ∈ w :: rest ->
            segment sg !! x = Some s /\ exists k', k <= k' /\ in_col columns k' x).
  { intros x Hx. split.
    - apply (wf_ptr _ _ Hwf). exists nodes. split; [exact Hn|].
      rewrite E. apply elem_of_app. now right.
    - apply list_elem_of_lookup_1 in Hx as [t Ht]. exists (k0 + (length old + t)).
      split; [lia|]. apply Hk0. rewrite E. rewrite lookup_app_r by lia.
      now replace (length old + t - length old) with t by lia. }
  exists sg'. split; [exact Hsplit|]. split; [|split].
  - constructor.
    + exact Hndc.
    + now rewrite Hperm, (wf_perm _ _ Hwf).
    + intros v j. rewrite Hptr, Esegs. destruct (decide (v ∈ w :: rest)) as [Hin|Hnin].
      * split.
        -- intros [= <-]. exists (w :: rest). split; [|exact Hin].
           rewrite lookup_app_r by (rewrite length_insert; lia).
           rewrite length_insert, Nat.sub_diag. reflexivity.
        -- intros (nodes' & Hj & Hv). f_equal.
           destruct (decide (j < length (linear_segments sg))) as [Hlt|Hge].
           ++ exfalso. rewrite lookup_app_l in Hj by (rewrite length_insert; lia).
              destruct (decide (j = s)) as [->|Hne].
              ** rewrite list_lookup_insert_eq in Hj by lia. injection Hj as <-.
                 exact (Hdisj v Hv Hin).
              ** rewrite list_lookup_insert_ne in Hj by congruence.
                 assert (Hvj : segment sg !! v = Some j).
                 { apply (wf_ptr _ _ Hwf). now exists nodes'. }
                 destruct (Hnew v Hin) as [Hvs _]. congruence.
           ++ apply lookup_lt_Some in Hj. rewrite length_app, length_insert in Hj.
              cbn [length] in Hj. lia.
      * split.
        -- intros Hv. pose proof Hv as Hv'. apply (wf_ptr _ _ Hwf) in Hv' as (nodes' & Hj & Hvn).
           pose proof (lookup_lt_Some _ _ _ Hj) as Hjlt.
           rewrite lookup_app_l by (rewrite length_insert; lia).
           destruct (decide (j = s)) as [->|Hne].
           ++ rewrite list_lookup_insert_eq by lia. exists old. split; [reflexivity|].
              rewrite Hn in Hj. injection Hj as <-. rewrite E in Hvn.
              apply elem_of_app in Hvn as [Hvn|Hvn]; [exact Hvn|contradiction].
           ++ rewrite list_lookup_insert_ne by congruence. now exists nodes'.
        -- intros (nodes' & Hj & Hv).
           destruct (decide (j < length (linear_segments sg))) as [Hlt|Hge].
           ++ rewrite lookup_app_l in Hj by (rewrite length_insert; lia).
              apply (wf_ptr _ _ Hwf). destruct (decide (j = s)) as [->|Hne].
              ** rewrite list_lookup_insert_eq in Hj by lia. injection Hj as <-.
                 exists nodes. split; [exact Hn|]. rewrite E. apply elem_of_app. now left.
              ** rewrite list_lookup_insert_ne in Hj by congruence. now exists nodes'.
           ++ pose proof (lookup_lt_Some _ _ _ Hj) as Hjlt.
              rewrite length_app, length_insert in Hjlt. cbn [length] in Hjlt.
              assert (j = length (linear_segments sg)) as -> by lia.
              rewrite lookup_app_r in Hj by (rewrite length_insert; lia).
              rewrite length_insert, Nat.sub_diag in Hj. injection Hj as <-. contradiction.
    + intros j nodes'. rewrite Esegs. intros Hj.
      destruct (decide (j < length (linear_segments sg))) as [Hlt|Hge].
      * rewrite lookup_app_l in Hj by (rewrite length_insert; lia).
        destruct (decide (j = s)) as [->|Hne].
        -- rewrite list_lookup_insert_eq in Hj by lia. injection Hj as <-.
           exists k0. intros t v Ht. apply Hk0. rewrite E. now apply lookup_app_l_Some.
        -- rewrite list_lookup_insert_ne in Hj by congruence.
           exact (wf_chain _ _ Hwf _ _ Hj).
      * pose proof (lookup_lt_Some _ _ _ Hj) as Hjlt.
        rewrite length_app, length_insert in Hjlt. cbn [length] in Hjlt.
        assert (j = length (linear_segments sg)) as -> by lia.
        rewrite lookup_app_r in Hj by (rewrite length_insert; lia).
        rewrite length_insert, Nat.sub_diag in Hj. injection Hj as <-.
        exists (k0 + length old). intros t v Ht. rewrite <- Nat.add_assoc. apply Hk0.
        rewrite E. rewrite lookup_app_r by lia.
        now replace (length old + t - length old) with t by lia.
  - rewrite Hptr. rewrite decide_True by left. reflexivity.
  - intros x. rewrite Hptr. destruct (decide (x ∈ w :: rest)) as [Hin|Hnin].
    + right. destruct (Hnew x Hin) as [H1 H2]. now split.
    + now left.
Qed.

Lemma refines_refl (sg : Segments) : refines sg sg.
Proof. intros x y H. exact H. Qed.

Lemma refines_trans (sg1 sg2 sg3 : Segments) :
  refines sg1 sg2 -> refines sg2 sg3 -> refines sg1 sg3.
Proof. intros H12 H23 x y H. apply H12, H23, H. Qed.

Lemma refines_no_inversion (sg sg' : Segments) (c1 c2 : list nat) (n : nat) :
  refines sg sg' -> no_inversion_upto sg c1 c2 n -> no_inversion_upto sg' c1 c2 n.
Proof.
  intros Href Hno i j a b Hij Hj Ha Hb (a' & b' & Hbef & E1 & E2).
  apply (Hno i j a b Hij Hj Ha Hb). exists a', b'. split; [exact Hbef|].
  split; apply Href; assumption.
Qed.

(** A split at a node of column [k]: the result is well formed, separates
    only what was together, gives the node a segment that no node of an
    earlier column has, and leaves the other segments as they were. *)
Lemma split_segment_effect (columns : list (list nat)) (sg : Segments) (k w s : nat) :
  wf_segments columns sg -> in_col columns k w -> segment sg !! w = Some s ->
  exists sg',
    split_segment s w sg = Some sg'
    /\ wf_segments columns sg'
    /\ refines sg sg'
    /\ (forall x k', in_col columns k' x -> k' < k -> segment sg' !! x <> segment sg' !! w)
    /\ (forall x, segment sg !! x <> Some s -> segment sg' !! x = segment sg !! x).
Proof.
  intros Hwf Hk Hs.
  destruct (split_segment_wf columns sg k w s Hwf Hk Hs) as (sg' & Hsplit & Hwf' & Hw & Heff).
  exists sg'. split; [exact Hsplit|]. split; [exact Hwf'|]. split; [|split].
  - intros x y E.
    destruct (Heff x) as [Hx|(Hx & Hx' & _)], (Heff y) as [Hy|(Hy & Hy' & _)].
    + congruence.
    + exfalso. rewrite Hy', Hx in E. apply (wf_segment_bound _ _ Hwf) in E. lia.
    + exfalso. rewrite Hx', Hy in E. symmetry in E. apply (wf_segment_bound _ _ Hwf) in E. lia.
    + congruence.
  - intros x k' Hx Hlt E. rewrite Hw in E.
    destruct (Heff x) as [Hx'|(_ & _ & k'' & Hle & Hx'')].
    + rewrite Hx' in E. apply (wf_segment_bound _ _ Hwf) in E. lia.
    + pose proof (in_col_unique _ _ _ _ (wf_cols _ _ Hwf) Hx Hx''). lia.
  - intros x Hx. destruct (Heff x) as [Hx'|(Hx' & _)]; [exact Hx'|contradiction].
Qed.

(** The border case: every segment of the list is split at its node of
    the column. *)
Lemma split_cycle_segments_spec (columns : list (list nat)) (k : nat)
    (col1 segments1 : list nat) :
  columns !! k = Some col1 ->
  forall (cycle_segments : list nat) (sg : Segments),
    wf_segments columns sg -> NoDup cycle_segments ->
    (forall s, s ∈ cycle_segments ->
       exists i a, index s segments1 = Some i /\ col1 !! i = Some a /\ segment sg !! a = Some s) ->
    exists sg',
      split_cycle_segments col1 segments1 cycle_segments sg = Some sg'
      /\ wf_segments columns sg'
      /\ refines sg sg'
      /\ (forall s a x k', s ∈ cycle_segments -> a ∈ col1 -> segment sg !! a = Some s ->
            in_col columns k' x -> k' < k -> segment sg' !! x <> segment sg' !! a)
      /\ (forall x, (forall s, s ∈ cycle_segments -> segment sg !! x <> Some s) ->
            segment sg' !! x = segment sg !! x).
Proof.
  intros Hcol. induction cycle_segments as [|s rest IH]; intros sg Hwf Hnd Hpos.
  - exists sg. split; [reflexivity|]. split; [exact Hwf|]. split; [apply refines_refl|].
    split; [|reflexivity]. intros s a x k' Hs. inversion Hs.
  - apply NoDup_cons in Hnd as [Hs Hnd].
    destruct (Hpos s) as (i & a & Hi & Ha & Hsa); [left|].
    assert (Hka : in_col columns k a).
    { exists col1. split; [exact Hcol|]. eapply list_elem_of_lookup_2; exact Ha. }
    destruct (split_segment_effect columns sg k a s Hwf Hka Hsa)
      as (sg1 & Hsplit & Hwf1 & Href1 & Hfresh1 & Hsame1).
    assert (Hkeep : forall s' y, s' ∈ rest -> segment sg !! y = Some s' ->
                                 segment sg1 !! y = Some s').
    { intros s' y Hs' Hy. rewrite Hsame1; [exact Hy|]. rewrite Hy. intros [= ->]. contradiction. }
    destruct (IH sg1 Hwf1 Hnd) as (sg' & Hrun & Hwf' & Href' & Hfresh' & Hsame').
    { intros s' Hs'. destruct (Hpos s') as (i' & a' & Hi' & Ha' & Hsa'); [now right|].
      exists i', a'. split; [exact Hi'|]. split; [exact Ha'|]. now apply (Hkeep s'). }
    exists sg'. split.
    { cbn [split_cycle_segments]. rewrite Hi. cbn [mbind option_bind]. rewrite Ha.
      cbn [mbind option_bind]. rewrite Hsplit. cbn [mbind option_bind]. exact Hrun. }
    split; [exact Hwf'|]. split; [exact (refines_trans _ _ _ Href1 Href')|]. split.
    + intros s' a' x k' Hs' Ha' Hsa' Hx Hlt.
      apply elem_of_cons in Hs' as [->|Hs'].
      * assert (a' = a) as ->.
        { apply (wf_one_per_column columns sg Hwf k a' a s); try assumption.
          exists col1. now split. }
        intros E. apply Href' in E. exact (Hfresh1 x k' Hx Hlt E).
      * apply (Hfresh' s' a' x k' Hs' Ha'); [now apply (Hkeep s')|exact Hx|exact Hlt].
    + intros x Hx. rewrite Hsame'.
      * apply Hsame1. apply Hx. left.
      * intros s' Hs'. rewrite Hsame1 by (apply Hx; left). apply Hx. now right.
Qed.

(** *** One node of a column *)

Lemma index_None {A : Type} `{EqDecision A} (x : A) (l : list A) :
  index x l = None -> x ∉ l.
Proof.
  intros Hnone Hin. destruct (index_is_Some x l Hin) as [i Hi]. congruence.
Qed.

Lemma column_segments_NoDup (columns : list (list nat)) (sg : Segments) (k : nat)
    (c l : list nat) :
  wf_segments columns sg -> columns !! k = Some c ->
  Forall2 (fun v s => segment sg !! v = Some s) c l -> NoDup l.
Proof.
  intros Hwf Hc HF. apply NoDup_alt. intros i j x Hi Hj.
  destruct (Forall2_lookup_r _ _ _ _ _ HF Hi) as (a & Ha & Hsa).
  destruct (Forall2_lookup_r _ _ _ _ _ HF Hj) as (b & Hb & Hsb).
  assert (a = b) as ->.
  { apply (wf_one_per_column columns sg Hwf k a b x); try assumption.
    - exists c. split; [exact Hc|]. eapply list_elem_of_lookup_2; exact Ha.
    - exists c. split; [exact Hc|]. eapply list_elem_of_lookup_2; exact Hb. }
  exact (NoDup_lookup _ _ _ _ (NoDup_column _ _ _ (wf_cols _ _ Hwf) Hc) Ha Hb).
Qed.

Lemma no_inversion_step (sg : Segments) (c1 c2 : list nat) (n v : nat) :
  c1 !! n = Some v -> no_inversion_upto sg c1 c2 n ->
  (forall i a, i < n -> c1 !! i = Some a -> ~ inverted sg c2 a v) ->
  no_inversion_upto sg c1 c2 (S n).
Proof.
  intros Hv Hno Hlast i j a b Hij Hj Ha Hb.
  destruct (decide (j = n)) as [->|Hne].
  - rewrite Hv in Hb. injection Hb as <-. now apply (Hlast i).
  - apply (Hno i j); [exact Hij|lia|exact Ha|exact Hb].
Qed.

(** The segment of a node above [v] that is inverted with [v] is among the
    cycle segments that [prevent_cycles] computes for [v]. *)
Lemma inverted_in_cycle_segments (columns : list (list nat)) (sg : Segments) (k : nat)
    (c1 c2 segments1 segments2 : list nat) (v sv j n i a : nat) :
  wf_segments columns sg -> columns !! k = Some c2 ->
  Forall2 (fun v s => segment sg !! v = Some s) c1 segments1 ->
  Forall2 (fun v s => segment sg !! v = Some s) c2 segments2 ->
  segment sg !! v = Some sv -> index sv segments2 = Some j ->
  i < n -> c1 !! i = Some a -> inverted sg c2 a v ->
  exists X, segment sg !! a = Some X
            /\ X ∈ filter (fun s => s ∈ drop (S j) segments2) (take n segments1).
Proof.
  intros Hwf Hc2 F1 F2 Hsv Hidx Hin Ha (a' & b' & (p & q & Hpq & Hp & Hq) & E1 & E2).
  apply index_Some_lookup in Hidx.
  destruct (Forall2_lookup_r _ _ _ _ _ F2 Hidx) as (a0 & Ha0 & Hsa0).
  assert (a' = a0) as ->.
  { apply (wf_one_per_column columns sg Hwf k a' a0 sv).
    - exists c2. split; [exact Hc2|]. eapply list_elem_of_lookup_2; exact Hp.
    - exists c2. split; [exact Hc2|]. eapply list_elem_of_lookup_2; exact Ha0.
    - congruence.
    - exact Hsa0. }
  assert (p = j) as ->
    by exact (NoDup_lookup _ _ _ _ (NoDup_column _ _ _ (wf_cols _ _ Hwf) Hc2) Hp Ha0).
  destruct (Forall2_lookup_l _ _ _ _ _ F2 Hq) as (X & HX & HsX).
  destruct (Forall2_lookup_l _ _ _ _ _ F1 Ha) as (X' & HX' & HsX').
  assert (X' = X) as -> by congruence.
  exists X. split; [exact HsX'|]. apply list_elem_of_filter. split.
  - apply (list_elem_of_lookup_2 _ (q - S j)). rewrite lookup_drop.
    now replace (S j + (q - S j)) with q by lia.
  - apply (list_elem_of_lookup_2 _ i). now rewrite lookup_take_lt.
Qed.

Lemma prevent_step_spec (is_border : nat -> bool) (columns : list (list nat)) (k : nat)
    (c1 c2 : list nat) (n v : nat) (sg : Segments) :
  wf_segments columns sg -> columns !! (S k) = Some c1 -> columns !! k = Some c2 ->
  c1 !! n = Some v -> no_inversion_upto sg c1 c2 n ->
  exists sg',
    prevent_step is_border c1 c2 n v sg = Some sg'
    /\ wf_segments columns sg' /\ refines sg sg' /\ no_inversion_upto sg' c1 c2 (S n).
Proof.
  intros Hwf Hc1 Hc2 Hv Hno.
  destruct (wf_segments_of columns sg Hwf k c2 Hc2) as (segments2 & E2 & F2).
  destruct (wf_segments_of columns sg Hwf (S k) c1 Hc1) as (segments1 & E1 & F1).
  assert (Hkv : in_col columns (S k) v).
  { exists c1. split; [exact Hc1|]. eapply list_elem_of_lookup_2; exact Hv. }
  destruct (wf_has_segment columns sg Hwf (S k) v Hkv) as [sv Hsv].
  unfold prevent_step. rewrite E2. cbn [mbind option_bind]. rewrite Hsv.
  cbn [mbind option_bind].
  destruct (index sv segments2) as [j|] eqn:Hidx.
  2:{ exists sg. split; [reflexivity|]. split; [exact Hwf|]. split; [apply refines_refl|].
      apply (no_inversion_step sg c1 c2 n v Hv Hno).
      intros i a Hi Ha (a' & b' & (p & q & Hpq & Hp & Hq) & Eab & Eva).
      destruct (Forall2_lookup_l _ _ _ _ _ F2 Hp) as (y & Hy & Hsy).
      apply (index_None _ _ Hidx). apply (list_elem_of_lookup_2 _ p).
      rewrite Hy. congruence. }
  rewrite E1. cbn [mbind option_bind].
  pose proof (fun i a => inverted_in_cycle_segments columns sg k c1 c2 segments1 segments2
                            v sv j n i a Hwf Hc2 F1 F2 Hsv Hidx) as Hcyc.
  remember (filter (fun s => s ∈ drop (S j) segments2) (take n segments1)) as cyc eqn:Ecyc.
  destruct cyc as [|s0 cyc'].
  { exists sg. split; [reflexivity|]. split; [exact Hwf|]. split; [apply refines_refl|].
    apply (no_inversion_step sg c1 c2 n v Hv Hno).
    intros i a Hi Ha Hinv. destruct (Hcyc i a Hi Ha Hinv) as (X & _ & HX). inversion HX. }
  destruct (is_border v).
  - destruct (split_cycle_segments_spec columns (S k) c1 segments1 Hc1 (s0 :: cyc') sg Hwf)
      as (sg' & Hrun & Hwf' & Href & Hfresh & _).
    { rewrite Ecyc. apply NoDup_filter. apply (sublist_NoDup (take n segments1) segments1).
      - exact (column_segments_NoDup columns sg (S k) c1 segments1 Hwf Hc1 F1).
      - apply sublist_take. }
    { intros s Hs. rewrite Ecyc in Hs. apply list_elem_of_filter in Hs as [_ Hs].
      apply subseteq_take in Hs. destruct (index_is_Some s segments1 Hs) as [i Hi].
      pose proof (index_Some_lookup _ _ _ Hi) as Hlook.
      destruct (Forall2_lookup_r _ _ _ _ _ F1 Hlook) as (a & Ha & Hsa).
      now exists i, a. }
    exists sg'. split; [exact Hrun|]. split; [exact Hwf'|]. split; [exact Href|].
    apply (no_inversion_step sg' c1 c2 n v Hv (refines_no_inversion _ _ _ _ _ Href Hno)).
    intros i a Hi Ha (a' & b' & Hbef & Eab & Eva).
    destruct (Hcyc i a Hi Ha) as (X & HsX & HX).
    { exists a', b'. split; [exact Hbef|]. split; apply Href; assumption. }
    destruct Hbef as (p & q & Hpq & Hp & Hq).
    apply (Hfresh X a b' k HX); [eapply list_elem_of_lookup_2; exact Ha|exact HsX| |lia|].
    + exists c2. split; [exact Hc2|]. eapply list_elem_of_lookup_2; exact Hq.
    + now symmetry.
  - destruct (split_segment_effect columns sg (S k) v sv Hwf Hkv Hsv)
      as (sg' & Hsplit & Hwf' & Href & Hfresh & _).
    exists sg'. split; [exact Hsplit|]. split; [exact Hwf'|]. split; [exact Href|].
    apply (no_inversion_step sg' c1 c2 n v Hv (refines_no_inversion _ _ _ _ _ Href Hno)).
    intros i a Hi Ha (a' & b' & (p & q & Hpq & Hp & Hq) & Eab & Eva).
    apply (Hfresh a' k); [|lia|now symmetry].
    exists c2. split; [exact Hc2|]. eapply list_elem_of_lookup_2; exact Hp.
Qed.

(** *** All columns *)

Lemma no_inversion_upto_ge (sg : Segments) (c1 c2 : list nat) (n : nat) :
  length c1 <= n -> no_inversion_upto sg c1 c2 n -> no_inversion sg c1 c2.
Proof.
  intros Hn Hno i j a b Hij Hj. apply Hno; lia.
Qed.

Lemma prevent_column_spec (is_border : nat -> bool) (columns : list (list nat)) (k : nat)
    (c1 c2 : list nat) :
  columns !! (S k) = Some c1 -> columns !! k = Some c2 ->
  forall (vs : list nat) (n : nat) (sg : Segments),
    wf_segments columns sg -> drop n c1 = vs -> no_inversion_upto sg c1 c2 n ->
    exists sg',
      prevent_column is_border c1 c2 n vs sg = Some sg'
      /\ wf_segments columns sg' /\ refines sg sg' /\ no_inversion sg' c1 c2.
Proof.
  intros Hc1 Hc2. induction vs as [|v vs IH]; intros n sg Hwf Hdrop Hno.
  - exists sg. split; [reflexivity|]. split; [exact Hwf|]. split; [apply refines_refl|].
    apply (no_inversion_upto_ge sg c1 c2 n); [now apply drop_nil_inv|exact Hno].
  - assert (Hv : c1 !! n = Some v).
    { rewrite <- (Nat.add_0_r n), <- lookup_drop, Hdrop. reflexivity. }
    destruct (prevent_step_spec is_border columns k c1 c2 n v sg Hwf Hc1 Hc2 Hv Hno)
      as (sg1 & Hstep & Hwf1 & Href1 & Hno1).
    destruct (IH (S n) sg1 Hwf1) as (sg' & Hrun & Hwf' & Href' & Hno'); [|exact Hno1|].
    { rewrite (drop_S _ _ _ Hv) in Hdrop. now injection Hdrop. }
    exists sg'. split.
    { cbn [prevent_column]. rewrite Hstep. exact Hrun. }
    split; [exact Hwf'|]. split; [exact (refines_trans _ _ _ Href1 Href')|exact Hno'].
Qed.

Lemma prevent_pairs_spec (is_border : nat -> bool) (columns : list (list nat)) :
  forall (pairs : list (list nat * list nat)) (sg : Segments),
    wf_segments columns sg ->
    (forall c1 c2, (c1, c2) ∈ pairs ->
       exists k, columns !! (S k) = Some c1 /\ columns !! k = Some c2) ->
    exists sg',
      prevent_pairs is_border pairs sg = Some sg'
      /\ wf_segments columns sg' /\ refines sg sg'
      /\ forall c1 c2, (c1, c2) ∈ pairs -> no_inversion sg' c1 c2.
Proof.
  induction pairs as [|[c1 c2] pairs IH]; intros sg Hwf Hadj.
  - exists sg. split; [reflexivity|]. split; [exact Hwf|]. split; [apply refines_refl|].
    intros c1 c2 H. inversion H.
  - destruct (Hadj c1 c2) as (k & Hc1 & Hc2); [left|].
    destruct (prevent_column_spec is_border columns k c1 c2 Hc1 Hc2 c1 0 sg Hwf)
      as (sg1 & Hcol & Hwf1 & Href1 & Hno1); [reflexivity| |].
    { intros i j a b Hij Hj. lia. }
    destruct (IH sg1 Hwf1) as (sg' & Hrun & Hwf' & Href' & Hno').
    { intros d1 d2 Hd. apply Hadj. now right. }
    exists sg'. split.
    { cbn [prevent_pairs]. rewrite Hcol. exact Hrun. }
    split; [exact Hwf'|]. split; [exact (refines_trans _ _ _ Href1 Href')|].
    intros d1 d2 Hd. apply elem_of_cons in Hd as [[= -> ->]|Hd].
    + exact (refines_no_inversion _ _ _ _ _ Href' Hno1).
    + now apply Hno'.
Qed.

Lemma pairwise_lookup {A : Type} (l : list A) (x y : A) :
  (x, y) ∈ pairwise l <-> exists i, l !! i = Some x /\ l !! (S i) = Some y.
Proof.
  induction l as [|a [|b l] IH].
  - split; [intros H; inversion H|intros (i & H & _); discriminate].
  - split; [intros H; inversion H|intros ([|i] & _ & H); discriminate].
  - change (pairwise (a :: b :: l)) with ((a, b) :: pairwise (b :: l)).
    rewrite elem_of_cons, IH. split.
    + intros [[= -> ->]|(i & H1 & H2)]; [now exists 0|now exists (S i)].
    + intros ([|i] & H1 & H2).
      * left. cbn in H1, H2. congruence.
      * right. now exists i.
Qed.

Lemma pairwise_rev_adjacent {A : Type} (l : list A) (x y : A) :
  (x, y) ∈ pairwise (rev l) <-> exists k, l !! (S k) = Some x /\ l !! k = Some y.
Proof.
  rewrite pairwise_lookup, rev_alt. change (rev_append l []) with (reverse l). split.
  - intros (i & H1 & H2). apply reverse_lookup_Some in H1 as [H1 _].
    apply reverse_lookup_Some in H2 as [H2 Hlt]. exists (length l - S (S i)).
    split; [|exact H2]. now replace (S (length l - S (S i))) with (length l - S i) by lia.
  - intros (k & H1 & H2). pose proof (lookup_lt_Some _ _ _ H1) as Hlt.
    exists (length l - S (S k)). split; apply reverse_lookup_Some; split; try lia.
    + now replace (length l - S (length l - S (S k))) with (S k) by lia.
    + now replace (length l - S (S (length l - S (S k)))) with k by lia.
Qed.

(** After [prevent_cycles] no two segments cross between adjacent
    columns. *)
Lemma prevent_cycles_spec (is_border : nat -> bool) (columns : list (list nat))
    (sg : Segments) :
  wf_segments columns sg ->
  exists sg',
    prevent_cycles is_border columns sg = Some sg'
    /\ wf_segments columns sg' /\ refines sg sg'
    /\ forall k c1 c2, columns !! (S k) = Some c1 -> columns !! k = Some c2 ->
                       no_inversion sg' c1 c2.
Proof.
  intros Hwf.
  destruct (prevent_pairs_spec is_border columns (pairwise (rev columns)) sg Hwf)
    as (sg' & Hrun & Hwf' & Href & Hno).
  { intros c1 c2 H. now apply pairwise_rev_adjacent. }
  exists sg'. split; [exact Hrun|]. split; [exact Hwf'|]. split; [exact Href|].
  intros k c1 c2 Hc1 Hc2. apply Hno. apply pairwise_rev_adjacent. now exists k.
Qed.

(** *** Cycles through vertices that can be bypassed *)

Section Shortcut.
Context {A : Type}.
Variables E T : relation A.
Variables B G : A -> Prop.
Hypothesis B_or_G : forall x, B x \/ G x.
Hypothesis E_T : forall x y, E x y -> B x \/ B y -> T x y.
Hypothesis T_trans : forall x y z, T x y -> T y z -> T x z.
Hypothesis T_irrefl : forall x, ~ T x x.
Hypothesis T_E : forall x y, T x y -> E x y.

Lemma bypass (x z y : A) : B z -> E x z -> E z y -> E x y.
Proof.
  intros Hz Hxz Hzy. apply T_E. apply (T_trans x z y); apply E_T; auto.
Qed.

Lemma path_among_good (n : nat) :
  forall x y, nsteps E (S n) x y -> G x -> G y -> tc (among_good E G) x y.
Proof.
  induction n as [n IH] using lt_wf_ind. intros x y Hsteps Hx Hy.
  inversion Hsteps as [|? ? z ? Hxz Hrest]; subst.
  destruct n as [|n].
  - inversion Hrest; subst. apply tc_once. now split.
  - destruct (B_or_G z) as [Hz|Hz].
    + inversion Hrest as [|? ? z' ? Hzz' Hrest']; subst.
      apply (IH n); [lia| |exact Hx|exact Hy].
      apply (nsteps_l _ _ _ z'); [exact (bypass x z z' Hz Hxz Hzz')|exact Hrest'].
    + apply (tc_l _ _ z); [now split|]. apply (IH n); [lia|exact Hrest|exact Hz|exact Hy].
Qed.

Lemma cycle_among_good (n : nat) :
  forall x, nsteps E (S n) x x -> exists y, tc (among_good E G) y y.
Proof.
  induction n as [n IH] using lt_wf_ind. intros x Hsteps.
  destruct (B_or_G x) as [Hx|Hx]; [|exists x; now apply (path_among_good n)].
  inversion Hsteps as [|? ? z ? Hxz Hrest]; subst.
  destruct n as [|n].
  - inversion Hrest; subst. exfalso. apply (T_irrefl x). apply E_T; auto.
  - destruct (B_or_G z) as [Hz|Hz].
    + inversion Hrest as [|? ? z' ? Hzz' Hrest']; subst.
      apply (IH n ltac:(lia) x).
      apply (nsteps_l _ _ _ z'); [exact (bypass x z z' Hz Hxz Hzz')|exact Hrest'].
    + exists z. apply (path_among_good (S n)); [|exact Hz|exact Hz].
      exact (nsteps_r _ _ _ _ Hrest Hxz).
Qed.

Lemma tc_cycle_among_good (x : A) : tc E x x -> exists y, tc (among_good E G) y y.
Proof.
  intros Hc. apply tc_nsteps in Hc as (n & Hn & Hsteps).
  destruct n as [|n]; [lia|]. exact (cycle_among_good n x Hsteps).
Qed.

End Shortcut.

(** *** Segments without crossings are ordered *)

Section NoCrossing.
Variable columns : list (list nat).
Variable sg : Segments.
Hypothesis Hwf : wf_segments columns sg.
Hypothesis Hno : forall k c1 c2, columns !! (S k) = Some c1 -> columns !! k = Some c2 ->
                                 no_inversion sg c1 c2.

Lemma above_at_present (k X Y : nat) :
  above_at columns sg k X Y -> present_at columns sg k X /\ present_at columns sg k Y.
Proof.
  intros (c & a & b & Hc & (i & j & _ & Hi & Hj) & Ha & Hb). split.
  - exists a. split; [|exact Ha]. exists c. split; [exact Hc|].
    eapply list_elem_of_lookup_2; exact Hi.
  - exists b. split; [|exact Hb]. exists c. split; [exact Hc|].
    eapply list_elem_of_lookup_2; exact Hj.
Qed.

(** Positions of the nodes of two segments in a column. *)
Lemma present_positions (k X : nat) :
  present_at columns sg k X ->
  exists c i a, columns !! k = Some c /\ c !! i = Some a /\ segment sg !! a = Some X.
Proof.
  intros (a & (c & Hc & Ha) & Hs). apply list_elem_of_lookup_1 in Ha as [i Hi].
  now exists c, i, a.
Qed.

Lemma column_position_unique (k : nat) (c : list nat) (i j a b X : nat) :
  columns !! k = Some c -> c !! i = Some a -> c !! j = Some b ->
  segment sg !! a = Some X -> segment sg !! b = Some X -> i = j.
Proof.
  intros Hc Hi Hj Ha Hb.
  assert (a = b) as ->.
  { apply (wf_one_per_column columns sg Hwf k a b X); try assumption.
    - exists c. split; [exact Hc|]. eapply list_elem_of_lookup_2; exact Hi.
    - exists c. split; [exact Hc|]. eapply list_elem_of_lookup_2; exact Hj. }
  exact (NoDup_lookup _ _ _ _ (NoDup_column _ _ _ (wf_cols _ _ Hwf) Hc) Hi Hj).
Qed.

Lemma above_at_irrefl (k X : nat) : ~ above_at columns sg k X X.
Proof.
  intros (c & a & b & Hc & (i & j & Hij & Hi & Hj) & Ha & Hb).
  pose proof (column_position_unique k c i j a b X Hc Hi Hj Ha Hb). lia.
Qed.

Lemma above_at_trans (k X Y Z : nat) :
  above_at columns sg k X Y -> above_at columns sg k Y Z -> above_at columns sg k X Z.
Proof.
  intros (c & a & b & Hc & (i & j & Hij & Hi & Hj) & Ha & Hb)
         (c' & b' & d & Hc' & (j' & l & Hjl & Hj' & Hl) & Hb' & Hd).
  rewrite Hc in Hc'. injection Hc' as <-.
  pose proof (column_position_unique k c j j' b b' Y Hc Hj Hj' Hb Hb'). subst j'.
  exists c, a, d. split; [exact Hc|]. split; [|now split].
  exists i, l. split; [lia|now split].
Qed.

(** Two segments keep their order from one column to the next. *)
Lemma above_at_next (k X Y : nat) :
  above_at columns sg k X Y ->
  present_at columns sg (S k) X -> present_at columns sg (S k) Y ->
  above_at columns sg (S k) X Y.
Proof.
  intros Habove HX HY.
  destruct (present_positions _ _ HX) as (c1 & pu & u & Hc1 & Hu & Hsu).
  destruct (present_positions _ _ HY) as (c1' & pw & w & Hc1' & Hw & Hsw).
  rewrite Hc1 in Hc1'. injection Hc1' as <-.
  destruct (lt_eq_lt_dec pu pw) as [[Hlt|Heq]|Hgt].
  - exists c1, u, w. split; [exact Hc1|]. split; [|now split]. now exists pu, pw.
  - exfalso. subst pw. rewrite Hu in Hw. injection Hw as <-.
    assert (X = Y) as -> by congruence. exact (above_at_irrefl k Y Habove).
  - exfalso. destruct Habove as (c2 & a' & b' & Hc2 & Hbef & Ha' & Hb').
    apply (Hno k c1 c2 Hc1 Hc2 pw pu w u Hgt); [eapply lookup_lt_Some; exact Hu|exact Hw|exact Hu|].
    exists a', b'. split; [exact Hbef|]. split; congruence.
Qed.

Lemma above_at_later (d k X Y : nat) :
  above_at columns sg k X Y ->
  present_at columns sg (k + d) X -> present_at columns sg (k + d) Y ->
  above_at columns sg (k + d) X Y.
Proof.
  intros Habove. destruct (above_at_present _ _ _ Habove) as [HXk HYk].
  induction d as [|d IH]; intros HX HY.
  - now rewrite Nat.add_0_r.
  - rewrite Nat.add_succ_r in *. apply above_at_next; [|exact HX|exact HY].
    apply IH.
    + apply (wf_contiguous columns sg Hwf X k (S (k + d))); [exact HXk|exact HX|lia].
    + apply (wf_contiguous columns sg Hwf Y k (S (k + d))); [exact HYk|exact HY|lia].
Qed.

Lemma present_at_column (k X : nat) : present_at columns sg k X -> k < length columns.
Proof.
  intros (v & (c & Hc & _) & _). eapply lookup_lt_Some; exact Hc.
Qed.

(** Whether a segment reaches a column can be told from its node list. *)
Lemma reaches_dec (t X : nat) : ~ reaches columns sg t X \/ reaches columns sg t X.
Proof.
  destruct (linear_segments sg !! X) as [nodes|] eqn:Hn.
  2:{ left. intros (k & _ & v & _ & Hv). apply (wf_ptr _ _ Hwf) in Hv as (nodes & Hn' & _).
      congruence. }
  destruct (wf_chain _ _ Hwf _ _ Hn) as [k0 Hk0].
  destruct (decide (nodes = [])) as [->|Hne].
  { left. intros (k & _ & v & _ & Hv). apply (wf_ptr _ _ Hwf) in Hv as (nodes & Hn' & Hv).
    rewrite Hn in Hn'. injection Hn' as <-. inversion Hv. }
  assert (Hlen : 0 < length nodes) by (destruct nodes; [congruence|cbn; lia]).
  destruct (le_lt_dec t (k0 + (length nodes - 1))) as [Hle|Hlt].
  - right. exists (k0 + (length nodes - 1)). split; [exact Hle|].
    destruct (lookup_lt_is_Some_2 nodes (length nodes - 1)) as [v Hv]; [lia|].
    exists v. split; [now apply Hk0|]. apply (wf_ptr _ _ Hwf). exists nodes.
    split; [exact Hn|]. eapply list_elem_of_lookup_2; exact Hv.
  - left. intros (k & Hk & v & Hkv & Hv).
    apply (wf_ptr _ _ Hwf) in Hv as (nodes' & Hn' & Hv).
    rewrite Hn in Hn'. injection Hn' as <-.
    apply list_elem_of_lookup_1 in Hv as [i Hi].
    pose proof (in_col_unique _ _ _ _ (wf_cols _ _ Hwf) Hkv (Hk0 _ _ Hi)).
    apply lookup_lt_Some in Hi. lia.
Qed.

(** An edge at a segment that ends in column [t] is visible in column
    [t]. *)
Lemma above_from_at (t X Y : nat) :
  above_from columns sg t X Y ->
  ~ reaches columns sg (S t) X \/ ~ reaches columns sg (S t) Y ->
  above_at columns sg t X Y.
Proof.
  intros ((p & Habove) & (kx & Hkx & HX) & (ky & Hky & HY)) Hends.
  destruct (above_at_present _ _ _ Habove) as [HXp HYp].
  assert (Hp : p <= t).
  { destruct (le_lt_dec p t) as [Hle|Hlt]; [exact Hle|exfalso].
    destruct Hends as [Hend|Hend]; apply Hend; exists p; (split; [lia|assumption]). }
  replace t with (p + (t - p)) by lia. apply above_at_later; [exact Habove| |].
  - apply (wf_contiguous columns sg Hwf X p kx); [exact HXp|exact HX|lia].
  - apply (wf_contiguous columns sg Hwf Y p ky); [exact HYp|exact HY|lia].
Qed.

Lemma above_at_from (t X Y : nat) : above_at columns sg t X Y -> above_from columns sg t X Y.
Proof.
  intros Habove. destruct (above_at_present _ _ _ Habove) as [HX HY].
  split; [now exists t|]. split; exists t; (split; [lia|assumption]).
Qed.

Lemma above_from_acyclic (d : nat) :
  forall t, length columns <= t + d -> forall X, ~ tc (above_from columns sg t) X X.
Proof.
  induction d as [|d IH]; intros t Hlen X Hcycle.
  - assert (Hedge : exists Y, above_from columns sg t X Y).
    { inversion Hcycle; subst; eauto. }
    destruct Hedge as (Y & _ & (k & Hk & HX) & _).
    apply present_at_column in HX. lia.
  - destruct (tc_cycle_among_good (above_from columns sg t) (above_at columns sg t)
                (fun X => ~ reaches columns sg (S t) X) (reaches columns sg (S t))
                (reaches_dec (S t)) (above_from_at t) (above_at_trans t)
                (above_at_irrefl t) (above_at_from t) X Hcycle) as [Y HY].
    apply (IH (S t) ltac:(lia) Y).
    apply (tc_congruence (fun x => x) (above_from columns sg (S t))) in HY; [exact HY|].
    intros x y ((Hxy & _ & _) & Hx & Hy). now split.
Qed.

(** Whenever no two segments cross between adjacent columns, "above in
    some column" has no cycle. *)
Lemma above_acyclic (X : nat) :
  ~ tc (fun X Y => exists k, above_at columns sg k X Y) X X.
Proof.
  intros Hcycle. apply (above_from_acyclic (length columns) 0 ltac:(lia) X).
  apply (tc_congruence (fun x => x) (above_from columns sg 0)) in Hcycle; [exact Hcycle|].
  intros x y [k Hk]. destruct (above_at_present _ _ _ Hk) as [Hx Hy].
  split; [now exists k|]. split; exists k; (split; [lia|assumption]).
Qed.

End NoCrossing.

(** *** The segment graph *)

Lemma segment_edges_spec (columns : list (list nat)) (sg : Segments) :
  wf_segments columns sg ->
  exists es,
    segment_edges sg columns = Some es
    /\ forall X Y, (X, Y) ∈ es <->
         exists k c i a b, columns !! k = Some c /\ c !! i = Some a /\ c !! (S i) = Some b
                           /\ segment sg !! a = Some X /\ segment sg !! b = Some Y.
Proof.
  intros Hwf. unfold segment_edges.
  set (h := fun vw : nat * nat =>
              s ← segment sg !! vw.1; t ← segment sg !! vw.2; Some (s, t)).
  assert (Htotal : is_Some (mapM (fun col => mapM h (pairwise col)) columns)).
  { apply mapM_is_Some_2. apply Forall_forall. intros col Hcol.
    apply list_elem_of_lookup_1 in Hcol as [k Hk].
    apply mapM_is_Some_2. apply Forall_forall. intros [v w] Hvw.
    apply pairwise_lookup in Hvw as (i & Hv & Hw).
    destruct (wf_has_segment columns sg Hwf k v) as [s Hs].
    { exists col. split; [exact Hk|]. eapply list_elem_of_lookup_2; exact Hv. }
    destruct (wf_has_segment columns sg Hwf k w) as [t Ht].
    { exists col. split; [exact Hk|]. eapply list_elem_of_lookup_2; exact Hw. }
    unfold compose, h. cbn [fst snd]. rewrite Hs, Ht. cbn. eauto. }
  destruct Htotal as [ess Hess]. rewrite Hess. cbn [mbind option_bind].
  exists (concat ess). split; [reflexivity|].
  apply mapM_Some_1 in Hess. intros X Y. rewrite elem_of_concat. split.
  - intros (es0 & HXY & Hes0). apply list_elem_of_lookup_1 in Hes0 as [k Hk].
    destruct (Forall2_lookup_r _ _ _ _ _ Hess Hk) as (col & Hcol & Hmap).
    apply mapM_Some_1 in Hmap. apply list_elem_of_lookup_1 in HXY as [i Hi].
    destruct (Forall2_lookup_r _ _ _ _ _ Hmap Hi) as ([v w] & Hvw & Hh).
    assert (Hin : (v, w) ∈ pairwise col) by (eapply list_elem_of_lookup_2; exact Hvw).
    apply pairwise_lookup in Hin as (i' & Hv & Hw).
    unfold h in Hh. cbn [fst snd] in Hh.
    destruct (segment sg !! v) as [s|] eqn:Hs; [|discriminate].
    destruct (segment sg !! w) as [t|] eqn:Ht; [|discriminate].
    cbn in Hh. injection Hh as <- <-. now exists k, col, i', v, w.
  - intros (k & col & i & a & b & Hcol & Ha & Hb & HX & HY).
    destruct (Forall2_lookup_l _ _ _ _ _ Hess Hcol) as (es0 & Hes0 & Hmap).
    exists es0. split; [|eapply list_elem_of_lookup_2; exact Hes0].
    apply mapM_Some_1 in Hmap.
    assert (Hin : (a, b) ∈ pairwise col) by (apply pairwise_lookup; now exists i).
    apply list_elem_of_lookup_1 in Hin as [i' Hi'].
    destruct (Forall2_lookup_l _ _ _ _ _ Hmap Hi') as (e & He & Hh).
    unfold h in Hh. cbn [fst snd] in Hh. rewrite HX, HY in Hh. cbn in Hh.
    injection Hh as <-. eapply list_elem_of_lookup_2; exact He.
Qed.

(** The [segment] attributes after the first loop of
    [sort_linear_segments]. *)
Lemma assign_segments_lookup (segs : list (list nat)) :
  NoDup (concat segs) ->
  forall v j, segment (assign_segments segs) !! v = Some j
              <-> exists nodes, segs !! j = Some nodes /\ v ∈ nodes.
Proof.
  unfold assign_segments. cbn [segment].
  induction segs as [|nodes segs IH] using rev_ind; intros Hnd v j.
  - cbn. rewrite lookup_empty. split; [discriminate|intros (? & ? & _); discriminate].
  - rewrite concat_app in Hnd. cbn [concat] in Hnd. rewrite app_nil_r in Hnd.
    apply NoDup_app in Hnd as (Hnd & Hdisj & _).
    rewrite imap_app, foldl_app. cbn [imap foldl fst snd]. rewrite Nat.add_0_r.
    rewrite foldl_point_lookup. destruct (decide (v ∈ nodes)) as [Hin|Hnin].
    + split.
      * intros [= <-]. exists nodes. split; [|exact Hin].
        rewrite lookup_app_r by lia. now rewrite Nat.sub_diag.
      * intros (nodes' & Hj & Hv). f_equal.
        destruct (decide (j < length segs)) as [Hlt|Hge].
        -- exfalso. rewrite lookup_app_l in Hj by lia. apply (Hdisj v); [|exact Hin].
           apply elem_of_concat. exists nodes'. split; [exact Hv|].
           eapply list_elem_of_lookup_2; exact Hj.
        -- apply lookup_lt_Some in Hj. rewrite length_app in Hj. cbn in Hj. lia.
    + rewrite (IH Hnd). split.
      * intros (nodes' & Hj & Hv). exists nodes'. split; [|exact Hv].
        now apply lookup_app_l_Some.
      * intros (nodes' & Hj & Hv). exists nodes'. split; [|exact Hv].
        destruct (decide (j < length segs)) as [Hlt|Hge].
        -- now rewrite lookup_app_l in Hj by lia.
        -- exfalso. pose proof (lookup_lt_Some _ _ _ Hj) as Hjlt.
           rewrite length_app in Hjlt. cbn in Hjlt.
           assert (j = length segs) as -> by lia.
           rewrite lookup_app_r, Nat.sub_diag in Hj by lia. injection Hj as <-. contradiction.
Qed.

Lemma assign_segments_wf (columns segs : list (list nat)) :
  NoDup (concat columns) -> Permutation (concat segs) (concat columns) ->
  Forall (runs_through columns) segs ->
  wf_segments columns (assign_segments segs).
Proof.
  intros Hnd Hperm Hruns. constructor.
  - exact Hnd.
  - exact Hperm.
  - apply assign_segments_lookup. now rewrite Hperm.
  - intros j nodes Hj. cbn in Hj. rewrite Forall_forall in Hruns. apply Hruns.
    eapply list_elem_of_lookup_2; exact Hj.
Qed.

(** *** The segments of get_linear_segments are chains *)

Lemma out_degree_unique (es : list (nat * nat)) (p a b : nat) :
  out_degree es p <= 1 -> (p, a) ∈ es -> (p, b) ∈ es -> a = b.
Proof.
  unfold out_degree. intros Hdeg Ha Hb.
  assert (Ha' : (p, a) ∈ filter (fun e => e.1 = p) es) by (apply list_elem_of_filter; now split).
  assert (Hb' : (p, b) ∈ filter (fun e => e.1 = p) es) by (apply list_elem_of_filter; now split).
  destruct (filter (fun e => e.1 = p) es) as [|e [|e' l]]; cbn in Hdeg; [inversion Ha'| |lia].
  apply list_elem_of_singleton in Ha', Hb'. congruence.
Qed.

(** Consecutive nodes of a segment are joined by an edge. *)
Lemma chain_consecutive (CG : ClusterGraph) (complex : list nat) (u : nat) (order rest : list nat) :
  dfs_preorder_nodes (G_edges CG) u = Some order -> order = u :: rest ->
  out_degree (G_edges CG) u <= 1 ->
  forall t a b,
    (u :: chain_members CG complex u rest) !! t = Some a ->
    (u :: chain_members CG complex u rest) !! (S t) = Some b ->
    (a, b) ∈ G_edges CG.
Proof.
  intros Hdfs Horder Hu.
  destruct (dfs_preorder_nodes_spec _ _ _ Hdfs) as (rest' & E & Hnd & Hpred).
  rewrite Horder in E. injection E as <-.
  destruct (chain_members_prefix CG complex u rest) as [tail Htail].
  set (members := chain_members CG complex u rest) in *.
  assert (Hndn : NoDup (u :: members)).
  { rewrite Horder, Htail in Hnd. change (NoDup ((u :: members) ++ tail)) in Hnd.
    now apply NoDup_app in Hnd as (? & _ & _). }
  assert (Hdeg : forall i x, (u :: members) !! i = Some x -> out_degree (G_edges CG) x <= 1).
  { intros [|i] x Hx; cbn in Hx; [now injection Hx as <-|].
    apply (chain_members_degree CG complex u rest). eapply list_elem_of_lookup_2; exact Hx. }
  induction t as [t IH] using lt_wf_ind. intros a b Ha Hb.
  cbn in Hb. pose proof (take_drop_middle _ _ _ Hb) as Hsplit.
  destruct (Hpred (take t members) b (drop (S t) members ++ tail)) as (p & Hp & Hpb).
  { rewrite Htail at 1. rewrite <- Hsplit at 1. rewrite <- app_assoc. reflexivity. }
  change (u :: take t members) with (take (S t) (u :: members)) in Hp.
  apply list_elem_of_lookup_1 in Hp as [i Hi].
  pose proof (lookup_lt_Some _ _ _ Hi) as Hlt. rewrite length_take in Hlt.
  rewrite lookup_take_lt in Hi by lia.
  destruct (decide (i = t)) as [->|Hne]; [congruence|exfalso].
  destruct (lookup_lt_is_Some_2 (u :: members) (S i)) as [c Hc].
  { apply lookup_lt_Some in Hb. cbn [length]. lia. }
  pose proof (IH i ltac:(lia) p c Hi Hc) as Hpc.
  pose proof (out_degree_unique _ _ _ _ (Hdeg i p Hi) Hpc Hpb) as ->.
  assert (S i = S t) by (apply (NoDup_lookup _ _ _ b Hndn); [exact Hc|exact Hb]). lia.
Qed.

Lemma edges_run_through (CG : ClusterGraph) (nodes : list nat) (u : nat) :
  layered CG -> proper CG -> nodes !! 0 = Some u -> u ∈ concat (columns CG) ->
  (forall t a b, nodes !! t = Some a -> nodes !! (S t) = Some b -> (a, b) ∈ G_edges CG) ->
  runs_through (columns CG) nodes.
Proof.
  intros Hlay Hprop Hu Hin Hedges. destruct (concat_in_col _ _ Hin) as [k0 Hk0].
  exists k0. induction t as [|t IH]; intros v Hv.
  - rewrite Nat.add_0_r. congruence.
  - destruct (lookup_lt_is_Some_2 nodes t) as [a Ha].
    { apply lookup_lt_Some in Hv. lia. }
    destruct (Hprop a v (Hedges t a v Ha Hv)) as (k & Hka & Hkv).
    pose proof (in_col_unique _ _ _ _ (proj1 Hlay) Hka (IH a Ha)) as ->.
    now rewrite Nat.add_succ_r.
Qed.

Lemma segment_step_runs (CG : ClusterGraph) (complex seen seen' : list nat)
    (segments segments' : list (list nat)) (u : nat) :
  layered CG -> proper CG -> u ∈ concat (columns CG) ->
  segment_step CG complex (seen, segments) u = Some (seen', segments') ->
  Forall (runs_through (columns CG)) segments ->
  Forall (runs_through (columns CG)) segments'.
Proof.
  intros Hlay Hprop Hu Hstep Hall. unfold segment_step in Hstep.
  case_bool_decide as Hseen; [now injection Hstep as <- <-|].
  case_bool_decide as Hout.
  - injection Hstep as <- <-. apply Forall_app. split; [exact Hall|].
    constructor; [|constructor].
    apply (edges_run_through CG [u] u Hlay Hprop); [reflexivity|exact Hu|].
    intros t a b _ Hb. destruct t; discriminate.
  - destruct (dfs_preorder_nodes (G_edges CG) u) as [order|] eqn:Hdfs; [|discriminate].
    cbn [mbind option_bind] in Hstep.
    destruct (dfs_preorder_nodes_spec _ _ _ Hdfs) as (rest & E & _).
    subst order. injection Hstep as <- <-. apply Forall_app. split; [exact Hall|].
    constructor; [|constructor].
    apply (edges_run_through CG _ u Hlay Hprop); [reflexivity|exact Hu|].
    apply (chain_consecutive CG complex u (u :: rest) rest Hdfs eq_refl). lia.
Qed.

Lemma segment_loop_runs (CG : ClusterGraph) (complex : list nat) :
  layered CG -> proper CG ->
  forall us seen segments seen' segments',
    (forall u, u ∈ us -> u ∈ concat (columns CG)) ->
    segment_loop CG complex (seen, segments) us = Some (seen', segments') ->
    Forall (runs_through (columns CG)) segments ->
    Forall (runs_through (columns CG)) segments'.
Proof.
  intros Hlay Hprop. induction us as [|u us IH]; intros seen segments seen' segments' Hus Hrun Hall.
  - now injection Hrun as <- <-.
  - cbn [segment_loop] in Hrun.
    destruct (segment_step CG complex (seen, segments) u) as [[seen1 segs1]|] eqn:Hstep;
      [|discriminate].
    cbn [mbind option_bind] in Hrun.
    apply (IH seen1 segs1 seen' segments'); [|exact Hrun|].
    + intros w Hw. apply Hus. now right.
    + apply (segment_step_runs CG complex seen seen1 segments segs1 u Hlay Hprop);
        [apply Hus; left|exact Hstep|exact Hall].
Qed.

(** In a layered graph whose edges join neighbouring columns every segment
    of [get_linear_segments] runs through consecutive columns. *)
Lemma get_linear_segments_run_through (CG : ClusterGraph) (segs : list (list nat)) :
  layered CG -> proper CG -> get_linear_segments CG = Some segs ->
  Forall (runs_through (columns CG)) segs.
Proof.
  intros Hlay Hprop Hrun. unfold get_linear_segments in Hrun.
  destruct (segment_loop CG (complex_clusters CG) ([], []) (concat (columns CG)))
    as [[seen segs']|] eqn:Hloop; [|discriminate].
  cbn in Hrun. injection Hrun as <-.
  apply (segment_loop_runs CG (complex_clusters CG) Hlay Hprop (concat (columns CG)) [] [] seen segs');
    [auto|exact Hloop|constructor].
Qed.

Lemma segment_edges_acyclic (columns : list (list nat)) (sg : Segments) :
  wf_segments columns sg ->
  (forall k c1 c2, columns !! (S k) = Some c1 -> columns !! k = Some c2 ->
                   no_inversion sg c1 c2) ->
  exists es,
    segment_edges sg columns = Some es
    /\ (forall X Y, (X, Y) ∈ es <->
          exists k c i a b, columns !! k = Some c /\ c !! i = Some a /\ c !! (S i) = Some b
                            /\ segment sg !! a = Some X /\ segment sg !! b = Some Y)
    /\ forall X, ~ tc (fun s t => (s, t) ∈ es) X X.
Proof.
  intros Hwf Hno.
  destruct (segment_edges_spec columns sg Hwf) as (es & Hes & Hedges).
  exists es. split; [exact Hes|]. split; [exact Hedges|].
  intros X Hcycle. apply (above_acyclic columns sg Hwf Hno X).
  apply (tc_congruence (fun x => x) (fun X Y => exists k, above_at columns sg k X Y)) in Hcycle;
    [exact Hcycle|].
  intros s t Hst. apply Hedges in Hst as (k & c & i & a & b & Hc & Ha & Hb & Hs & Ht).
  exists k, c, a, b. split; [exact Hc|]. split; [|now split].
  exists i, (S i). split; [lia|now split].
Qed.

Lemma get_linear_segments_perm (CG : ClusterGraph) :
  layered CG ->
  exists segs,
    get_linear_segments CG = Some segs /\ Permutation (concat segs) (concat (columns CG)).
Proof.
  intros Hlay.
  destruct (segment_loop_inv CG (complex_clusters CG) (concat (columns CG)) [] [] [] Hlay)
    as (seen & segs & Hrun & I1 & I2 & I3 & _).
  { reflexivity. }
  { split; [constructor|]. repeat split; intros v Hv; inversion Hv. }
  exists segs. unfold get_linear_segments. rewrite Hrun. split; [reflexivity|].
  apply NoDup_Permutation; [exact I1|apply Hlay|].
  intros v. split; [apply I2|apply I3].
Qed.

(** From [get_linear_segments] to the segment graph: for a layered graph
    whose edges join neighbouring columns the segment graph has no cycle. *)
Lemma layered_segment_graph_acyclic (is_border : nat -> bool) (CG : ClusterGraph) :
  layered CG -> proper CG ->
  exists segs sg es,
    get_linear_segments CG = Some segs
    /\ segment_graph is_border segs (columns CG) = Some (sg, es)
    /\ forall X, ~ tc (fun s t => (s, t) ∈ es) X X.
Proof.
  intros Hlay Hprop. destruct (get_linear_segments_perm CG Hlay) as (segs & Hsegs & Hperm).
  pose proof (get_linear_segments_run_through CG segs Hlay Hprop Hsegs) as Hruns.
  pose proof (assign_segments_wf _ segs (proj1 Hlay) Hperm Hruns) as Hwf0.
  destruct (prevent_cycles_spec is_border _ _ Hwf0) as (sg & Hrun & Hwf & _ & Hno).
  destruct (segment_edges_acyclic _ sg Hwf Hno) as (es & Hes & _ & Hacyclic).
  exists segs, sg, es. split; [exact Hsegs|]. split; [|exact Hacyclic].
  unfold segment_graph. rewrite Hrun. cbn [mbind option_bind]. rewrite Hes. reflexivity.
Qed.

(** C5.  Let the columns be duplicate-free, the segments partition their
    nodes, and every segment run through consecutive columns, one node in
    each (what [get_linear_segments] produces for a layered graph whose
    edges join neighbouring columns).  Then [sort_linear_segments] gets
    through [prevent_cycles] and the construction of the segment graph [SG]
    without an error, the segments still partition the nodes, the edges of
    [SG] are exactly the pairs of segments of vertically adjacent nodes, and
    [SG] has no cycle: no segment reaches itself along one or more edges.
    Hence [nx.topological_sort], which raises only on a cycle, succeeds. *)
Theorem segment_graph_acyclic_after_prevent_cycles (is_border : nat -> bool)
    (columns segs : list (list nat)) :
  NoDup (concat columns) -> Permutation (concat segs) (concat columns) ->
  Forall (runs_through columns) segs ->
  exists sg es,
    segment_graph is_border segs columns = Some (sg, es)
    /\ Permutation (concat (linear_segments sg)) (concat columns)
    /\ (forall X Y, (X, Y) ∈ es <->
          exists k c i a b, columns !! k = Some c /\ c !! i = Some a /\ c !! (S i) = Some b
                            /\ segment sg !! a = Some X /\ segment sg !! b = Some Y)
    /\ forall X, ~ tc (fun s t => (s, t) ∈ es) X X.
Proof.
  intros Hnd Hperm Hruns.
  pose proof (assign_segments_wf columns segs Hnd Hperm Hruns) as Hwf0.
  destruct (prevent_cycles_spec is_border columns _ Hwf0) as (sg & Hrun & Hwf & _ & Hno).
  destruct (segment_edges_acyclic columns sg Hwf Hno) as (es & Hes & Hedges & Hacyclic).
  exists sg, es. split.
  { unfold segment_graph. rewrite Hrun. cbn [mbind option_bind]. rewrite Hes. reflexivity. }
  split; [exact (wf_perm _ _ Hwf)|]. split; [exact Hedges|exact Hacyclic].
Qed.

Lemma segment_graph_acyclic_after_prevent_cycles_witness :
  exists sg es,
    segment_graph (fun _ => false) crossed_segments crossed_columns = Some (sg, es)
    /\ Permutation (concat (linear_segments sg)) (concat crossed_columns)
    /\ (forall X Y, (X, Y) ∈ es <->
          exists k c i a b, crossed_columns !! k = Some c /\ c !! i = Some a
                            /\ c !! (S i) = Some b
                            /\ segment sg !! a = Some X /\ segment sg !! b = Some Y)
    /\ forall X, ~ tc (fun s t => (s, t) ∈ es) X X.
Proof.
  apply (segment_graph_acyclic_after_prevent_cycles (fun _ => false)
           crossed_columns crossed_segments).
  - apply (bool_decide_unpack (NoDup _)). vm_compute. exact I.
  - cbn. apply perm_skip. apply (Permutation_cons_append [1; 2] 3).
  - repeat constructor.
    + exists 0. intros [|[|t]] v Ht; cbn in Ht; try discriminate; injection Ht as <-.
      * exists [0; 1]. split; [reflexivity|set_solver].
      * exists [2; 3]. split; [reflexivity|set_solver].
    + exists 0. intros [|[|t]] v Ht; cbn in Ht; try discriminate; injection Ht as <-.
      * exists [0; 1]. split; [reflexivity|set_solver].
      * exists [2; 3]. split; [reflexivity|set_solver].
Defined.

(** The two crossing segments: an ordinary node splits its own segment, a
    border node splits the segment above it. *)
Example crossed_segments_split :
  (fst <$> segment_graph (fun _ => false) crossed_segments crossed_columns)
    ≫= (fun sg => Some (linear_segments sg)) = Some [[0]; [1; 2]; [3]]
  /\ (fst <$> segment_graph (fun _ => true) crossed_segments crossed_columns)
       ≫= (fun sg => Some (linear_segments sg)) = Some [[0; 3]; [1]; [2]]
  /\ snd <$> segment_graph (fun _ => false) crossed_segments crossed_columns
     = Some [(0, 1); (1, 2)]
  /\ snd <$> segment_graph (fun _ => true) crossed_segments crossed_columns
     = Some [(0, 1); (2, 0)].
Proof. repeat split; vm_compute; reflexivity. Qed.

(** *** prevent_cycles without crossings *)

(** Every cycle segment that [prevent_cycles] computes for [v] belongs to a
    node above [v] that is inverted with [v]. *)
Lemma cycle_segments_inverted (sg : Segments) (c1 c2 segments1 segments2 : list nat)
    (v sv j n X : nat) :
  Forall2 (fun v s => segment sg !! v = Some s) c1 segments1 ->
  Forall2 (fun v s => segment sg !! v = Some s) c2 segments2 ->
  segment sg !! v = Some sv -> index sv segments2 = Some j ->
  X ∈ filter (fun s => s ∈ drop (S j) segments2) (take n segments1) ->
  exists i a, i < n /\ c1 !! i = Some a /\ inverted sg c2 a v.
Proof.
  intros F1 F2 Hsv Hidx HX. apply list_elem_of_filter in HX as [Hbelow Htake].
  apply list_elem_of_lookup_1 in Htake as [i Hi].
  apply lookup_take_Some in Hi as [Hi Hlt].
  destruct (Forall2_lookup_r _ _ _ _ _ F1 Hi) as (a & Ha & Hsa).
  apply list_elem_of_lookup_1 in Hbelow as [q Hq]. rewrite lookup_drop in Hq.
  destruct (Forall2_lookup_r _ _ _ _ _ F2 Hq) as (b' & Hb' & Hsb').
  apply index_Some_lookup in Hidx.
  destruct (Forall2_lookup_r _ _ _ _ _ F2 Hidx) as (a' & Ha' & Hsa').
  exists i, a. split; [exact Hlt|]. split; [exact Ha|].
  exists a', b'. split; [|split; congruence].
  exists j, (S j + q). split; [lia|now split].
Qed.

Lemma prevent_step_unchanged (is_border : nat -> bool) (columns : list (list nat)) (k : nat)
    (c1 c2 : list nat) (n v : nat) (sg : Segments) :
  wf_segments columns sg -> columns !! (S k) = Some c1 -> columns !! k = Some c2 ->
  c1 !! n = Some v -> no_inversion sg c1 c2 ->
  prevent_step is_border c1 c2 n v sg = Some sg.
Proof.
  intros Hwf Hc1 Hc2 Hv Hno.
  destruct (wf_segments_of columns sg Hwf k c2 Hc2) as (segments2 & E2 & F2).
  destruct (wf_segments_of columns sg Hwf (S k) c1 Hc1) as (segments1 & E1 & F1).
  assert (Hkv : in_col columns (S k) v).
  { exists c1. split; [exact Hc1|]. eapply list_elem_of_lookup_2; exact Hv. }
  destruct (wf_has_segment columns sg Hwf (S k) v Hkv) as [sv Hsv].
  unfold prevent_step. rewrite E2. cbn [mbind option_bind]. rewrite Hsv.
  cbn [mbind option_bind].
  destruct (index sv segments2) as [j|] eqn:Hidx; [|reflexivity].
  rewrite E1. cbn [mbind option_bind].
  destruct (filter (fun s => s ∈ drop (S j) segments2) (take n segments1)) as [|X cyc] eqn:Ecyc;
    [reflexivity|exfalso].
  destruct (cycle_segments_inverted sg c1 c2 segments1 segments2 v sv j n X F1 F2 Hsv Hidx)
    as (i & a & Hi & Ha & Hinv).
  { rewrite Ecyc. left. }
  apply (Hno i n a v Hi); [eapply lookup_lt_Some; exact Hv|exact Ha|exact Hv|exact Hinv].
Qed.

Lemma prevent_column_unchanged (is_border : nat -> bool) (columns : list (list nat)) (k : nat)
    (c1 c2 : list nat) (sg : Segments) :
  wf_segments columns sg -> columns !! (S k) = Some c1 -> columns !! k = Some c2 ->
  no_inversion sg c1 c2 ->
  forall vs n, drop n c1 = vs -> prevent_column is_border c1 c2 n vs sg = Some sg.
Proof.
  intros Hwf Hc1 Hc2 Hno. induction vs as [|v vs IH]; intros n Hdrop; [reflexivity|].
  assert (Hv : c1 !! n = Some v).
  { rewrite <- (Nat.add_0_r n), <- lookup_drop, Hdrop. reflexivity. }
  cbn [prevent_column].
  rewrite (prevent_step_unchanged is_border columns k c1 c2 n v sg Hwf Hc1 Hc2 Hv Hno).
  cbn [mbind option_bind]. apply IH.
  rewrite (drop_S _ _ _ Hv) in Hdrop. now injection Hdrop.
Qed.

Lemma prevent_pairs_unchanged (is_border : nat -> bool) (columns : list (list nat))
    (sg : Segments) :
  wf_segments columns sg ->
  forall pairs : list (list nat * list nat),
    (forall c1 c2, (c1, c2) ∈ pairs ->
       (exists k, columns !! (S k) = Some c1 /\ columns !! k = Some c2)
       /\ no_inversion sg c1 c2) ->
    prevent_pairs is_border pairs sg = Some sg.
Proof.
  intros Hwf. induction pairs as [|[c1 c2] pairs IH]; intros Hadj; [reflexivity|].
  destruct (Hadj c1 c2) as [(k & Hc1 & Hc2) Hno]; [left|].
  cbn [prevent_pairs].
  rewrite (prevent_column_unchanged is_border columns k c1 c2 sg Hwf Hc1 Hc2 Hno c1 0 eq_refl).
  cbn [mbind option_bind]. apply IH. intros d1 d2 Hd. apply Hadj. now right.
Qed.

(** X9.  On segments that partition the nodes of the columns and run through
    consecutive columns, [prevent_cycles] leaves the segments as they are
    (no [split], no new segment) exactly when no two segments cross between
    neighbouring columns. *)
Theorem prevent_cycles_unchanged_iff_no_crossing (is_border : nat -> bool)
    (columns : list (list nat)) (sg : Segments) :
  wf_segments columns sg ->
  prevent_cycles is_border columns sg = Some sg
  <-> forall k c1 c2, columns !! (S k) = Some c1 -> columns !! k = Some c2 ->
                      no_inversion sg c1 c2.
Proof.
  intros Hwf. split.
  - intros Hrun. destruct (prevent_cycles_spec is_border columns sg Hwf)
      as (sg' & Hrun' & _ & _ & Hno).
    rewrite Hrun in Hrun'. injection Hrun' as <-. exact Hno.
  - intros Hno. unfold prevent_cycles. apply (prevent_pairs_unchanged is_border columns sg Hwf).
    intros c1 c2 Hc. apply pairwise_rev_adjacent in Hc as (k & Hc1 & Hc2).
    split; [now exists k|]. exact (Hno k c1 c2 Hc1 Hc2).
Qed.

Lemma prevent_cycles_unchanged_iff_no_crossing_witness :
  prevent_cycles (fun _ => false) parallel_columns (assign_segments parallel_segments)
    = Some (assign_segments parallel_segments)
  <-> forall k c1 c2, parallel_columns !! (S k) = Some c1 -> parallel_columns !! k = Some c2 ->
                      no_inversion (assign_segments parallel_segments) c1 c2.
Proof.
  apply (prevent_cycles_unchanged_iff_no_crossing (fun _ => false) parallel_columns).
  apply assign_segments_wf.
  - apply (bool_decide_unpack (NoDup _)). vm_compute. exact I.
  - cbn. apply perm_skip. symmetry. apply perm_swap.
  - repeat constructor.
    + exists 0. intros [|[|t]] v Ht; cbn in Ht; try discriminate; injection Ht as <-.
      * exists [0; 1]. split; [reflexivity|set_solver].
      * exists [2; 3]. split; [reflexivity|set_solver].
    + exists 0. intros [|[|t]] v Ht; cbn in Ht; try discriminate; injection Ht as <-.
      * exists [0; 1]. split; [reflexivity|set_solver].
      * exists [2; 3]. split; [reflexivity|set_solver].
Defined.

(** *** prevent_cycles leaves no empty segment *)

(** A split at a node whose segment has a node in an earlier column leaves
    something in the old segment. *)
Lemma split_segment_nonempty (columns : list (list nat)) (sg sg' : Segments)
    (k k' w s x : nat) :
  wf_segments columns sg -> Forall (fun nodes => nodes <> []) (linear_segments sg) ->
  in_col columns k w -> segment sg !! w = Some s ->
  in_col columns k' x -> k' < k -> segment sg !! x = Some s ->
  split_segment s w sg = Some sg' ->
  Forall (fun nodes => nodes <> []) (linear_segments sg').
Proof.
  intros Hwf Hne Hw Hsw Hx Hlt Hsx Hsplit.
  pose proof (wf_cols _ _ Hwf) as Hndc.
  assert (Hnd : NoDup (concat (linear_segments sg))) by now rewrite (wf_perm _ _ Hwf).
  pose proof Hsw as Hsw'. apply (wf_ptr _ _ Hwf) in Hsw' as (nodes & Hn & Hwn).
  destruct (split_segment_spec sg s nodes w Hnd Hn Hwn)
    as (sg'' & old & rest & Hsplit' & E & Esegs & _).
  rewrite Hsplit in Hsplit'. injection Hsplit' as <-.
  rewrite Esegs. apply Forall_app. split; [|repeat constructor; discriminate].
  apply Forall_insert; [exact Hne|]. intros ->. cbn [app] in E.
  destruct (wf_chain _ _ Hwf _ _ Hn) as [k0 Hk0].
  assert (Ek : k = k0 + 0).
  { apply (in_col_unique columns _ _ w Hndc Hw). apply Hk0. now rewrite E. }
  apply (wf_ptr _ _ Hwf) in Hsx as (nodes' & Hn' & Hxn).
  rewrite Hn in Hn'. injection Hn' as <-.
  apply list_elem_of_lookup_1 in Hxn as [t Ht].
  pose proof (in_col_unique columns _ _ x Hndc Hx (Hk0 t x Ht)). lia.
Qed.

Lemma split_cycle_segments_nonempty (columns : list (list nat)) (k : nat)
    (col1 segments1 : list nat) :
  columns !! (S k) = Some col1 ->
  forall (cycle_segments : list nat) (sg sg' : Segments),
    wf_segments columns sg -> Forall (fun nodes => nodes <> []) (linear_segments sg) ->
    NoDup cycle_segments ->
    (forall s, s ∈ cycle_segments ->
       exists i a x, index s segments1 = Some i /\ col1 !! i = Some a
                     /\ segment sg !! a = Some s
                     /\ in_col columns k x /\ segment sg !! x = Some s) ->
    split_cycle_segments col1 segments1 cycle_segments sg = Some sg' ->
    Forall (fun nodes => nodes <> []) (linear_segments sg').
Proof.
  intros Hcol. induction cycle_segments as [|s rest IH]; intros sg sg' Hwf Hne Hnd Hpos.
  - now intros [= <-].
  - apply NoDup_cons in Hnd as [Hs Hnd].
    destruct (Hpos s) as (i & a & x & Hi & Ha & Hsa & Hx & Hsx); [left|].
    assert (Hka : in_col columns (S k) a).
    { exists col1. split; [exact Hcol|]. eapply list_elem_of_lookup_2; exact Ha. }
    destruct (split_segment_effect columns sg (S k) a s Hwf Hka Hsa)
      as (sg1 & Hsplit & Hwf1 & _ & _ & Hsame1).
    cbn [split_cycle_segments]. rewrite Hi. cbn [mbind option_bind]. rewrite Ha.
    cbn [mbind option_bind]. rewrite Hsplit. cbn [mbind option_bind].
    apply (IH sg1 sg' Hwf1).
    + apply (split_segment_nonempty columns sg sg1 (S k) k a s x); try assumption. lia.
    + exact Hnd.
    + intros s' Hs'. destruct (Hpos s') as (i' & a' & x' & Hi' & Ha' & Hsa' & Hx' & Hsx');
        [now right|].
      assert (Hne' : Some s' <> Some s) by (intros [= ->]; contradiction).
      exists i', a', x'. split; [exact Hi'|]. split; [exact Ha'|].
      split; [|split; [exact Hx'|]].
      * rewrite Hsame1; [exact Hsa'|]. now rewrite Hsa'.
      * rewrite Hsame1; [exact Hsx'|]. now rewrite Hsx'.
Qed.

Lemma prevent_step_nonempty (is_border : nat -> bool) (columns : list (list nat)) (k : nat)
    (c1 c2 : list nat) (n v : nat) (sg sg' : Segments) :
  wf_segments columns sg -> Forall (fun nodes => nodes <> []) (linear_segments sg) ->
  columns !! (S k) = Some c1 -> columns !! k = Some c2 -> c1 !! n = Some v ->
  prevent_step is_border c1 c2 n v sg = Some sg' ->
  Forall (fun nodes => nodes <> []) (linear_segments sg').
Proof.
  intros Hwf Hne Hc1 Hc2 Hv.
  destruct (wf_segments_of columns sg Hwf k c2 Hc2) as (segments2 & E2 & F2).
  destruct (wf_segments_of columns sg Hwf (S k) c1 Hc1) as (segments1 & E1 & F1).
  assert (Hkv : in_col columns (S k) v).
  { exists c1. split; [exact Hc1|]. eapply list_elem_of_lookup_2; exact Hv. }
  destruct (wf_has_segment columns sg Hwf (S k) v Hkv) as [sv Hsv].
  unfold prevent_step. rewrite E2. cbn [mbind option_bind]. rewrite Hsv.
  cbn [mbind option_bind].
  destruct (index sv segments2) as [j|] eqn:Hidx; [|now intros [= <-]].
  rewrite E1. cbn [mbind option_bind].
  remember (filter (fun s => s ∈ drop (S j) segments2) (take n segments1)) as cyc eqn:Ecyc.
  destruct cyc as [|s0 cyc']; [now intros [= <-]|].
  assert (Hin2 : forall s, s ∈ segments2 ->
                   exists x, in_col columns k x /\ segment sg !! x = Some s).
  { intros s Hs. apply list_elem_of_lookup_1 in Hs as [q Hq].
    destruct (Forall2_lookup_r _ _ _ _ _ F2 Hq) as (x & Hx & Hsx).
    exists x. split; [|exact Hsx]. exists c2. split; [exact Hc2|].
    eapply list_elem_of_lookup_2; exact Hx. }
  destruct (is_border v).
  - apply (split_cycle_segments_nonempty columns k c1 segments1 Hc1 (s0 :: cyc') sg sg' Hwf Hne).
    + rewrite Ecyc. apply NoDup_filter. apply (sublist_NoDup (take n segments1) segments1).
      * exact (column_segments_NoDup columns sg (S k) c1 segments1 Hwf Hc1 F1).
      * apply sublist_take.
    + intros s Hs. rewrite Ecyc in Hs. apply list_elem_of_filter in Hs as [Hbelow Hs].
      apply subseteq_take in Hs. destruct (index_is_Some s segments1 Hs) as [i Hi].
      pose proof (index_Some_lookup _ _ _ Hi) as Hlook.
      destruct (Forall2_lookup_r _ _ _ _ _ F1 Hlook) as (a & Ha & Hsa).
      destruct (Hin2 s) as (x & Hx & Hsx); [eapply subseteq_drop; exact Hbelow|].
      now exists i, a, x.
  - destruct (Hin2 sv) as (x & Hx & Hsx).
    { apply index_Some_lookup in Hidx. eapply list_elem_of_lookup_2; exact Hidx. }
    apply (split_segment_nonempty columns sg sg' (S k) k v sv x); try assumption. lia.
Qed.

Lemma prevent_column_nonempty (is_border : nat -> bool) (columns : list (list nat)) (k : nat)
    (c1 c2 : list nat) :
  columns !! (S k) = Some c1 -> columns !! k = Some c2 ->
  forall (vs : list nat) (n : nat) (sg sg' : Segments),
    wf_segments columns sg -> Forall (fun nodes => nodes <> []) (linear_segments sg) ->
    drop n c1 = vs -> no_inversion_upto sg c1 c2 n ->
    prevent_column is_border c1 c2 n vs sg = Some sg' ->
    Forall (fun nodes => nodes <> []) (linear_segments sg').
Proof.
  intros Hc1 Hc2. induction vs as [|v vs IH]; intros n sg sg' Hwf Hne Hdrop Hno.
  - now intros [= <-].
  - assert (Hv : c1 !! n = Some v).
    { rewrite <- (Nat.add_0_r n), <- lookup_drop, Hdrop. reflexivity. }
    destruct (prevent_step_spec is_border columns k c1 c2 n v sg Hwf Hc1 Hc2 Hv Hno)
      as (sg1 & Hstep & Hwf1 & _ & Hno1).
    cbn [prevent_column]. rewrite Hstep. cbn [mbind option_bind].
    apply (IH (S n) sg1 sg' Hwf1).
    + exact (prevent_step_nonempty is_border columns k c1 c2 n v sg sg1 Hwf Hne Hc1 Hc2 Hv Hstep).
    + rewrite (drop_S _ _ _ Hv) in Hdrop. now injection Hdrop.
    + exact Hno1.
Qed.

Lemma prevent_pairs_nonempty (is_border : nat -> bool) (columns : list (list nat)) :
  forall (pairs : list (list nat * list nat)) (sg sg' : Segments),
    wf_segments columns sg -> Forall (fun nodes => nodes <> []) (linear_segments sg) ->
    (forall c1 c2, (c1, c2) ∈ pairs ->
       exists k, columns !! (S k) = Some c1 /\ columns !! k = Some c2) ->
    prevent_pairs is_border pairs sg = Some sg' ->
    Forall (fun nodes => nodes <> []) (linear_segments sg').
Proof.
  induction pairs as [|[c1 c2] pairs IH]; intros sg sg' Hwf Hne Hadj.
  - now intros [= <-].
  - destruct (Hadj c1 c2) as (k & Hc1 & Hc2); [left|].
    assert (Hno0 : no_inversion_upto sg c1 c2 0) by (intros i j a b Hij Hj; lia).
    destruct (prevent_column_spec is_border columns k c1 c2 Hc1 Hc2 c1 0 sg Hwf eq_refl Hno0)
      as (sg1 & Hcol & Hwf1 & _).
    cbn [prevent_pairs]. rewrite Hcol. cbn [mbind option_bind].
    apply (IH sg1 sg' Hwf1).
    + exact (prevent_column_nonempty is_border columns k c1 c2 Hc1 Hc2 c1 0 sg sg1
               Hwf Hne eq_refl Hno0 Hcol).
    + intros d1 d2 Hd. apply Hadj. now right.
Qed.

(** X10.  [prevent_cycles] never empties a segment: on segments that
    partition the nodes of the columns, run through consecutive columns and
    are not empty, it returns, and every segment of the result, old or new,
    has at least one node, and the segments still partition the nodes of
    the columns.  (A split happens at a node whose segment also has a node
    in the column before, so both parts are non-empty.) *)
Theorem prevent_cycles_leaves_no_empty_segment (is_border : nat -> bool)
    (columns : list (list nat)) (sg : Segments) :
  wf_segments columns sg -> Forall (fun nodes => nodes <> []) (linear_segments sg) ->
  exists sg',
    prevent_cycles is_border columns sg = Some sg'
    /\ Forall (fun nodes => nodes <> []) (linear_segments sg')
    /\ Permutation (concat (linear_segments sg')) (concat columns).
Proof.
  intros Hwf Hne.
  destruct (prevent_cycles_spec is_border columns sg Hwf) as (sg' & Hrun & Hwf' & Href & _).
  exists sg'. split; [exact Hrun|]. split; [|exact (wf_perm _ _ Hwf')].
  apply (prevent_pairs_nonempty is_border columns (pairwise (rev columns)) sg sg' Hwf Hne);
    [|exact Hrun].
  intros c1 c2 H. now apply pairwise_rev_adjacent.
Qed.

Lemma prevent_cycles_leaves_no_empty_segment_witness :
  exists sg',
    prevent_cycles (fun _ => true) crossed_columns (assign_segments crossed_segments) = Some sg'
    /\ Forall (fun nodes => nodes <> []) (linear_segments sg')
    /\ Permutation (concat (linear_segments sg')) (concat crossed_columns).
Proof.
  apply (prevent_cycles_leaves_no_empty_segment (fun _ => true) crossed_columns).
  - apply assign_segments_wf.
    + apply (bool_decide_unpack (NoDup _)). vm_compute. exact I.
    + cbn. apply perm_skip. apply (Permutation_cons_append [1; 2] 3).
    + repeat constructor.
      * exists 0. intros [|[|t]] v Ht; cbn in Ht; try discriminate; injection Ht as <-.
        -- exists [0; 1]. split; [reflexivity|set_solver].
        -- exists [2; 3]. split; [reflexivity|set_solver].
      * exists 0. intros [|[|t]] v Ht; cbn in Ht; try discriminate; injection Ht as <-.
        -- exists [0; 1]. split; [reflexivity|set_solver].
        -- exists [2; 3]. split; [reflexivity|set_solver].
  - repeat constructor; discriminate.
Defined.

(** *** create_unbalanced_placement *)

Lemma fmax_fold_ge (l : list Q) : forall a x, x ∈ a :: l -> (x <= foldl fmax a l)%Q.
Proof.
  induction l as [|b l IH]; intros a x Hx; cbn [foldl].
  - apply list_elem_of_singleton in Hx as ->. apply Qle_refl.
  - assert (Ha : (a <= fmax a b)%Q /\ (b <= fmax a b)%Q).
    { unfold fmax. destruct (Qle_bool b a) eqn:E.
      - split; [apply Qle_refl|now apply Qle_bool_iff].
      - split; [|apply Qle_refl]. apply Qlt_le_weak, Qnot_le_lt. intros H.
        apply Qle_bool_iff in H. congruence. }
    apply elem_of_cons in Hx as [->|Hx].
    + eapply Qle_trans; [apply Ha|]. apply IH. left.
    + apply elem_of_cons in Hx as [->|Hx].
      * eapply Qle_trans; [apply Ha|]. apply IH. left.
      * apply IH. now right.
Qed.

Lemma fmin_fold_le (l : list Q) : forall a x, x ∈ a :: l -> (foldl fmin a l <= x)%Q.
Proof.
  induction l as [|b l IH]; intros a x Hx; cbn [foldl].
  - apply list_elem_of_singleton in Hx as ->. apply Qle_refl.
  - assert (Ha : (fmin a b <= a)%Q /\ (fmin a b <= b)%Q).
    { unfold fmin. destruct (Qle_bool a b) eqn:E.
      - split; [apply Qle_refl|now apply Qle_bool_iff].
      - split; [|apply Qle_refl]. apply Qlt_le_weak, Qnot_le_lt. intros H.
        apply Qle_bool_iff in H. congruence. }
    apply elem_of_cons in Hx as [->|Hx].
    + eapply Qle_trans; [|apply Ha]. apply IH. left.
    + apply elem_of_cons in Hx as [->|Hx].
      * eapply Qle_trans; [|apply Ha]. apply IH. left.
      * apply IH. now right.
Qed.

Lemma col_of_column (columns : list (list nat)) (k : nat) (c : list nat) (v : nat) :
  NoDup (concat columns) -> columns !! k = Some c -> v ∈ c -> col_of columns v = Some c.
Proof.
  intros Hnd Hc Hv. unfold col_of.
  destruct (list_find (fun c => v ∈ c) columns) as [[i c']|] eqn:E.
  - apply list_find_Some in E as (Hi & Hv' & _). cbn. f_equal.
    assert (i = k) as ->; [|congruence].
    apply (in_col_unique columns i k v Hnd); [now exists c'|now exists c].
  - exfalso. apply list_find_None in E. rewrite Forall_forall in E.
    apply (E c); [eapply list_elem_of_lookup_2; exact Hc|exact Hv].
Qed.

Lemma foldl_insert_lookup {A : Type} (x : A) (new : list nat) :
  forall (m : gmap nat A) (w : nat),
    foldl (fun m w => <[w := x]> m) m new !! w
    = if decide (w ∈ new) then Some x else m !! w.
Proof.
  induction new as [|v new IH]; intros m w; cbn [foldl].
  - rewrite decide_False by (intros H; inversion H). reflexivity.
  - rewrite IH. destruct (decide (w ∈ new)) as [Hin|Hnin].
    + rewrite decide_True by now right. reflexivity.
    + destruct (decide (w = v)) as [->|Hne].
      * rewrite lookup_insert_eq, decide_True by left. reflexivity.
      * rewrite lookup_insert_ne by congruence.
        rewrite decide_False; [reflexivity|]. intros H.
        apply elem_of_cons in H as [?|?]; contradiction.
Qed.

Lemma before_trans (l : list nat) (x y z : nat) :
  NoDup l -> before l x y -> before l y z -> before l x z.
Proof.
  intros Hnd (i & j & Hij & Hi & Hj) (j' & k & Hjk & Hj' & Hk).
  assert (j = j') as <- by exact (NoDup_lookup _ _ _ _ Hnd Hj Hj').
  exists i, k. split; [lia|now split].
Qed.

Section UnbalancedFacts.
Variable height : nat -> Q.
Variable margin_y : Q.
Variable columns : list (list nat).
Variable sg : Segments.
Hypothesis Hwf : wf_segments columns sg.

Lemma max_height_ge (nodes : list nat) (h : Q) (v : nat) :
  max_height height nodes = Some h -> v ∈ nodes -> (height v <= h)%Q.
Proof.
  destruct nodes as [|u nodes]; [discriminate|]. intros [= <-] Hv.
  apply fmax_fold_ge. change (height u :: (height <$> nodes)) with (height <$> u :: nodes).
  apply list_elem_of_fmap. now exists v.
Qed.

Lemma lowest_y_le (vals : list Q) (x : Q) :
  x ∈ vals -> (lowest_y margin_y vals <= x - margin_y)%Q.
Proof.
  intros Hx. unfold lowest_y. destruct vals as [|a vals]; [inversion Hx|].
  apply Qplus_le_l. now apply fmin_fold_le.
Qed.

Lemma segment_heights_spec (order : list nat) :
  Forall (fun nodes => nodes <> []) (linear_segments sg) ->
  (forall s, s ∈ order -> s < length (linear_segments sg)) ->
  exists heights,
    segment_heights height sg order = Some heights
    /\ forall s nodes, s ∈ order -> linear_segments sg !! s = Some nodes ->
         exists h, heights !! s = Some h /\ forall v, v ∈ nodes -> (height v <= h)%Q.
Proof.
  intros Hne. unfold segment_heights.
  induction order as [|s order IH]; intros Hlt.
  - cbn. eexists. split; [reflexivity|]. intros s nodes Hs. inversion Hs.
  - destruct IH as (heights & Hrun & Hspec); [intros s' Hs'; apply Hlt; now right|].
    destruct (mapM _ order) as [hs|] eqn:Ehs; [|discriminate]. cbn in Hrun.
    injection Hrun as <-.
    destruct (lookup_lt_is_Some_2 (linear_segments sg) s) as [nodes Hn]; [apply Hlt; left|].
    assert (Hnn : nodes <> []).
    { rewrite Forall_forall in Hne. apply Hne. eapply list_elem_of_lookup_2; exact Hn. }
    destruct (max_height height nodes) as [h|] eqn:Eh;
      [|destruct nodes; [contradiction|discriminate]].
    cbn [mapM]. rewrite Hn. cbn [mbind option_bind]. rewrite Eh.
    cbn [mbind option_bind]. rewrite Ehs. cbn [mbind option_bind mret option_ret].
    eexists. split; [reflexivity|]. intros s' nodes' Hs' Hn'. rewrite list_to_map_cons.
    destruct (decide (s' = s)) as [->|Hneq].
    + rewrite lookup_insert_eq. exists h. split; [reflexivity|].
      rewrite Hn in Hn'. injection Hn' as <-. intros v Hv. exact (max_height_ge _ _ _ Eh Hv).
    + rewrite lookup_insert_ne by congruence.
      apply elem_of_cons in Hs' as [?|Hs']; [contradiction|]. now apply Hspec.
Qed.

End UnbalancedFacts.

Section PlaceSegments.
Variable height : nat -> Q.
Variable margin_y : Q.
Variable columns : list (list nat).
Variable sg : Segments.
Variable heights : gmap nat Q.
Hypothesis Hwf : wf_segments columns sg.
Hypothesis Hheights : forall s nodes, linear_segments sg !! s = Some nodes ->
  exists h, heights !! s = Some h /\ forall v, v ∈ nodes -> (height v <= h)%Q.

Lemma segment_in_columns (v s : nat) : segment sg !! v = Some s -> v ∈ concat columns.
Proof.
  intros Hs. apply (wf_ptr _ _ Hwf) in Hs as (nodes & Hn & Hv).
  rewrite <- (wf_perm _ _ Hwf). apply elem_of_concat. exists nodes.
  split; [exact Hv|]. eapply list_elem_of_lookup_2; exact Hn.
Qed.

Lemma values_spec (done : list nat) (y : gmap nat Q) (S : nat) (nodes : list nat) :
  placed_inv height margin_y columns sg done y ->
  linear_segments sg !! S = Some nodes ->
  exists vals,
    values heights columns sg y nodes = Some vals
    /\ forall k c a b ya, columns !! k = Some c -> b ∈ nodes -> b ∈ c -> a ∈ c ->
         y !! a = Some ya -> (lowest_y margin_y vals <= ya - height a - margin_y)%Q.
Proof.
  intros (IA & _ & _) Hn. pose proof (wf_cols _ _ Hwf) as Hndc.
  assert (Hnodes : forall v, v ∈ nodes -> exists k c, columns !! k = Some c /\ v ∈ c).
  { intros v Hv. assert (Hin : v ∈ concat columns).
    { rewrite <- (wf_perm _ _ Hwf). apply elem_of_concat. exists nodes.
      split; [exact Hv|]. eapply list_elem_of_lookup_2; exact Hn. }
    destruct (concat_in_col _ _ Hin) as (k & c & Hc & Hvc). now exists k, c. }
  destruct (mapM_is_Some_2 (col_of columns) nodes) as [cols Hcols].
  { apply Forall_forall. intros v Hv. destruct (Hnodes v Hv) as (k & c & Hc & Hvc).
    cbn. rewrite (col_of_column columns k c v Hndc Hc Hvc). eauto. }
  pose proof (mapM_Some_1 _ _ _ Hcols) as Fcols.
  assert (Hcolumn : forall w, w ∈ concat cols -> w ∈ concat columns).
  { intros w Hw. apply elem_of_concat in Hw as (c & Hwc & Hc).
    apply list_elem_of_lookup_1 in Hc as [t Ht].
    destruct (Forall2_lookup_r _ _ _ _ _ Fcols Ht) as (v & Hv & Hcv).
    destruct (Hnodes v) as (k & c' & Hc' & Hvc'); [eapply list_elem_of_lookup_2; exact Hv|].
    rewrite (col_of_column columns k c' v Hndc Hc' Hvc') in Hcv. injection Hcv as ->.
    apply elem_of_concat. exists c. split; [exact Hwc|].
    eapply list_elem_of_lookup_2; exact Hc'. }
  assert (Hvalue : forall w yw, w ∈ concat columns -> y !! w = Some yw ->
            exists h, value_of heights sg y w = Some (Some (yw - h)%Q)
                      /\ (height w <= h)%Q).
  { intros w yw Hw Hy. destruct (proj1 (IA w Hw)) as (s & _ & Hs); [rewrite Hy; eauto|].
    pose proof Hs as Hs'. apply (wf_ptr _ _ Hwf) in Hs' as (nodes' & Hn' & Hwn).
    destruct (Hheights s nodes' Hn') as (h & Hh & Hle).
    exists h. split; [|now apply Hle].
    unfold value_of. rewrite Hy, Hs. cbn [mbind option_bind]. rewrite Hh. reflexivity. }
  destruct (mapM_is_Some_2 (value_of heights sg y) (concat cols)) as [rs Hrs].
  { apply Forall_forall. intros w Hw. cbn.
    destruct (y !! w) as [yw|] eqn:Hy.
    - destruct (Hvalue w yw (Hcolumn w Hw) Hy) as (h & -> & _). eauto.
    - unfold value_of. rewrite Hy. eauto. }
  pose proof (mapM_Some_1 _ _ _ Hrs) as Frs.
  exists (omap id rs). split.
  { unfold values. rewrite Hcols. cbn [mbind option_bind]. rewrite Hrs. reflexivity. }
  intros k c a b ya Hc Hb Hbc Hac Hy.
  assert (Ha : a ∈ concat cols).
  { apply list_elem_of_lookup_1 in Hb as [t Ht].
    destruct (Forall2_lookup_l _ _ _ _ _ Fcols Ht) as (c' & Hc' & Hcb).
    rewrite (col_of_column columns k c b Hndc Hc Hbc) in Hcb. injection Hcb as <-.
    apply elem_of_concat. exists c. split; [exact Hac|].
    eapply list_elem_of_lookup_2; exact Hc'. }
  destruct (Hvalue a ya (Hcolumn a Ha) Hy) as (h & Hval & Hle).
  assert (Hin : (ya - h)%Q ∈ omap id rs).
  { apply list_elem_of_omap. exists (Some (ya - h)%Q). split; [|reflexivity].
    apply list_elem_of_lookup_1 in Ha as [t Ht].
    destruct (Forall2_lookup_l _ _ _ _ _ Frs Ht) as (r & Hr & Hra).
    rewrite Hval in Hra. injection Hra as <-. eapply list_elem_of_lookup_2; exact Hr. }
  pose proof (lowest_y_le margin_y _ _ Hin) as Hlow. lra.
Qed.

Lemma place_segment_spec (done : list nat) (y : gmap nat Q) (S : nat) :
  placed_inv height margin_y columns sg done y ->
  S < length (linear_segments sg) ->
  (forall k c a b X, columns !! k = Some c -> before c a b ->
     segment sg !! a = Some S -> segment sg !! b = Some X -> X ∉ done) ->
  exists y',
    place_segment margin_y heights columns sg y S = Some y'
    /\ placed_inv height margin_y columns sg (done ++ [S]) y'.
Proof.
  intros Hinv Hlt Htopo.
  destruct (lookup_lt_is_Some_2 _ _ Hlt) as [nodes Hn].
  destruct (values_spec done y S nodes Hinv Hn) as (vals & Hvals & Hlow).
  destruct Hinv as (IA & IB & IC).
  assert (Hmem : forall v, v ∈ nodes <-> segment sg !! v = Some S).
  { intros v. rewrite (wf_ptr _ _ Hwf). split.
    - intros Hv. now exists nodes.
    - intros (nodes' & Hn' & Hv). rewrite Hn in Hn'. now injection Hn' as <-. }
  eexists. split.
  { unfold place_segment. rewrite Hn. cbn [mbind option_bind]. rewrite Hvals. reflexivity. }
  split; [|split].
  - intros v Hv. rewrite foldl_insert_lookup. destruct (decide (v ∈ nodes)) as [Hin|Hnin].
    + split; [|eauto]. intros _. exists S. split; [|now apply Hmem].
      apply elem_of_app. right. left.
    + rewrite (IA v Hv). split.
      * intros (s & Hs & Hsv). exists s. split; [|exact Hsv]. apply elem_of_app. now left.
      * intros (s & Hs & Hsv). exists s. split; [|exact Hsv].
        apply elem_of_app in Hs as [Hs|Hs]; [exact Hs|].
        apply list_elem_of_singleton in Hs as ->. exfalso. apply Hnin. now apply Hmem.
  - intros k c a b ya yb Hc Hbef. rewrite !foldl_insert_lookup.
    pose proof Hbef as (i & j & Hij & Hi & Hj).
    assert (Hac : a ∈ c) by (eapply list_elem_of_lookup_2; exact Hi).
    assert (Hbc : b ∈ c) by (eapply list_elem_of_lookup_2; exact Hj).
    destruct (decide (b ∈ nodes)) as [Hb|Hb].
    + intros Hya [= <-]. destruct (decide (a ∈ nodes)) as [Ha|Ha].
      * exfalso. assert (a = b) as ->.
        { apply (wf_one_per_column columns sg Hwf k a b S);
            [now exists c|now exists c|now apply Hmem|now apply Hmem]. }
        pose proof (NoDup_lookup _ _ _ _ (NoDup_column _ _ _ (wf_cols _ _ Hwf) Hc) Hi Hj). lia.
      * exact (Hlow k c a b ya Hc Hb Hbc Hac Hya).
    + destruct (decide (a ∈ nodes)) as [Ha|Ha].
      * intros _ Hyb. exfalso.
        assert (Hbcol : b ∈ concat columns).
        { apply elem_of_concat. exists c. split; [exact Hbc|].
          eapply list_elem_of_lookup_2; exact Hc. }
        destruct (proj1 (IA b Hbcol)) as (s & Hs & Hsb); [rewrite Hyb; eauto|].
        apply (Htopo k c a b s Hc Hbef); [now apply Hmem|exact Hsb|exact Hs].
      * apply (IB k c a b ya yb Hc Hbef).
  - intros v w s Hv Hw. rewrite !foldl_insert_lookup.
    destruct (decide (s = S)) as [->|Hne].
    + rewrite !decide_True by now apply Hmem. reflexivity.
    + rewrite !decide_False by (rewrite Hmem; congruence). exact (IC v w s Hv Hw).
Qed.

Lemma place_segments_spec (order : list nat) :
  NoDup order -> (forall s, s ∈ order -> s < length (linear_segments sg)) ->
  (forall k c a b X Y, columns !! k = Some c -> before c a b ->
     segment sg !! a = Some X -> segment sg !! b = Some Y -> before order X Y) ->
  forall (post pre : list nat) (y : gmap nat Q),
    order = pre ++ post ->
    placed_inv height margin_y columns sg pre y ->
    exists y',
      place_segments margin_y heights columns sg post y = Some y'
      /\ placed_inv height margin_y columns sg order y'.
Proof.
  intros Hnd Hlt Htopo. induction post as [|S post IH]; intros pre y Horder Hinv.
  - rewrite app_nil_r in Horder. subst pre. exists y. split; [reflexivity|exact Hinv].
  - destruct (place_segment_spec pre y S Hinv) as (y1 & Hstep & Hinv1).
    { apply Hlt. rewrite Horder. apply elem_of_app. right. left. }
    { intros k c a b X Hc Hbef Ha Hb HX.
      destruct (Htopo k c a b S X Hc Hbef Ha Hb) as (i & j & Hij & Hi & Hj).
      assert (HS : order !! length pre = Some S) by (rewrite Horder; apply list_lookup_middle; reflexivity).
      assert (i = length pre) as -> by exact (NoDup_lookup _ _ _ _ Hnd Hi HS).
      apply list_elem_of_lookup_1 in HX as [p Hp].
      pose proof (lookup_lt_Some _ _ _ Hp) as Hplt.
      assert (Hp' : order !! p = Some X) by (rewrite Horder; now apply lookup_app_l_Some).
      pose proof (NoDup_lookup _ _ _ _ Hnd Hj Hp'). lia. }
    destruct (IH (pre ++ [S]) y1) as (y' & Hrun & Hinv').
    { rewrite Horder, <- app_assoc. reflexivity. }
    { exact Hinv1. }
    exists y'. split; [|exact Hinv'].
    cbn [place_segments]. rewrite Hstep. exact Hrun.
Qed.

End PlaceSegments.

(** The order of the segment graph extends from neighbours in a column to
    any two nodes of a column. *)
Lemma topological_order_columns (columns : list (list nat)) (sg : Segments)
    (es : list (nat * nat)) (order : list nat) :
  wf_segments columns sg -> segment_edges sg columns = Some es -> NoDup order ->
  (forall X Y, (X, Y) ∈ es -> before order X Y) ->
  forall k c a b X Y, columns !! k = Some c -> before c a b ->
    segment sg !! a = Some X -> segment sg !! b = Some Y -> before order X Y.
Proof.
  intros Hwf Hes Hnd Htopo k c a b X Y Hc (i & j & Hij & Hi & Hj).
  destruct (segment_edges_spec columns sg Hwf) as (es' & Hes' & Hedges).
  rewrite Hes in Hes'. injection Hes' as <-.
  revert b Y Hj. induction j as [|j IH]; intros b Y Hj Ha Hb; [lia|].
  destruct (lookup_lt_is_Some_2 c j) as [b' Hb']; [apply lookup_lt_Some in Hj; lia|].
  destruct (wf_has_segment columns sg Hwf k b') as [X' HX'].
  { exists c. split; [exact Hc|]. eapply list_elem_of_lookup_2; exact Hb'. }
  assert (Hadj : before order X' Y).
  { apply Htopo. apply Hedges. now exists k, c, j, b', b. }
  destruct (decide (i = j)) as [->|Hne].
  - rewrite Hi in Hb'. injection Hb' as <-. congruence.
  - apply (before_trans order X X' Y Hnd); [|exact Hadj].
    apply (IH ltac:(lia) b' X' Hb' Ha HX').
Qed.

(** X11.  Let the segments partition the nodes of the columns, run through
    consecutive columns and be non-empty (the state after [prevent_cycles]),
    let [order] list every segment once in an order that respects the
    edges of the segment graph (what [nx.topological_sort] returns), and
    let no node of the columns have a [y] yet.  Then
    [create_unbalanced_placement] raises no error, gives every node a [y],
    puts the nodes of a segment on one level, and stacks every column
    without overlap: a node is lower than any node above it in its column
    by at least that node's height plus [config.MARGIN.y]. *)
Theorem create_unbalanced_placement_stacks_columns (height : nat -> Q) (margin_y : Q)
    (columns : list (list nat)) (sg : Segments) (es : list (nat * nat)) (order : list nat)
    (y0 : gmap nat Q) :
  wf_segments columns sg ->
  Forall (fun nodes => nodes <> []) (linear_segments sg) ->
  segment_edges sg columns = Some es ->
  Permutation order (seq 0 (length (linear_segments sg))) ->
  (forall X Y, (X, Y) ∈ es -> before order X Y) ->
  (forall v, v ∈ concat columns -> y0 !! v = None) ->
  exists y,
    create_unbalanced_placement height margin_y columns sg order y0 = Some y
    /\ (forall v, v ∈ concat columns -> is_Some (y !! v))
    /\ (forall k c a b ya yb, columns !! k = Some c -> before c a b ->
          y !! a = Some ya -> y !! b = Some yb -> (yb <= ya - height a - margin_y)%Q)
    /\ (forall v w s, segment sg !! v = Some s -> segment sg !! w = Some s ->
          y !! v = y !! w).
Proof.
  intros Hwf Hne Hes Hperm Htopo Hy0.
  assert (Hnd : NoDup order) by (rewrite Hperm; apply NoDup_seq).
  assert (Hmem : forall s, s ∈ order <-> s < length (linear_segments sg)).
  { intros s. rewrite Hperm, elem_of_seq. lia. }
  destruct (segment_heights_spec height sg order Hne) as (heights & Hheights & Hh).
  { intros s Hs. now apply Hmem. }
  assert (Hinit : placed_inv height margin_y columns sg [] y0).
  { split; [|split].
    - intros v Hv. rewrite (Hy0 v Hv). split.
      + intros [x Hx]. discriminate.
      + intros (s & Hs & _). inversion Hs.
    - intros k c a b ya yb Hc (i & j & _ & Hi & _) Ha.
      rewrite Hy0 in Ha; [discriminate|]. apply elem_of_concat. exists c.
      split; eapply list_elem_of_lookup_2; eassumption.
    - intros v w s Hv Hw.
      rewrite (Hy0 v (segment_in_columns columns sg Hwf v s Hv)).
      rewrite (Hy0 w (segment_in_columns columns sg Hwf w s Hw)). reflexivity. }
  destruct (place_segments_spec height margin_y columns sg heights Hwf) with
    (order := order) (post := order) (pre := @nil nat) (y := y0)
    as (y & Hrun & HA & HB & HC).
  { intros s nodes Hn. apply Hh; [|exact Hn]. apply Hmem. eapply lookup_lt_Some; exact Hn. }
  { exact Hnd. }
  { intros s Hs. now apply Hmem. }
  { exact (topological_order_columns columns sg es order Hwf Hes Hnd Htopo). }
  { reflexivity. }
  { exact Hinit. }
  exists y. split.
  { unfold create_unbalanced_placement. rewrite Hheights. exact Hrun. }
  split; [|split; [exact HB|exact HC]].
  intros v Hv. apply HA; [exact Hv|].
  destruct (concat_in_col _ _ Hv) as (k & Hk).
  destruct (wf_has_segment columns sg Hwf k v Hk) as [s Hs].
  exists s. split; [|exact Hs]. apply Hmem. exact (wf_segment_bound columns sg Hwf v s Hs).
Qed.

Lemma create_unbalanced_placement_stacks_columns_witness :
  exists y,
    create_unbalanced_placement (fun _ => 1%Q) (1 # 2)%Q parallel_columns
      (assign_segments parallel_segments) [0; 1] ∅ = Some y
    /\ (forall v, v ∈ concat parallel_columns -> is_Some (y !! v))
    /\ (forall k c a b ya yb, parallel_columns !! k = Some c -> before c a b ->
          y !! a = Some ya -> y !! b = Some yb -> (yb <= ya - 1 - (1 # 2))%Q)
    /\ (forall v w s, segment (assign_segments parallel_segments) !! v = Some s ->
          segment (assign_segments parallel_segments) !! w = Some s -> y !! v = y !! w).
Proof.
  apply (create_unbalanced_placement_stacks_columns (fun _ => 1%Q) (1 # 2)%Q parallel_columns
           (assign_segments parallel_segments) [(0, 1); (0, 1)] [0; 1] ∅).
  - apply assign_segments_wf.
    + apply (bool_decide_unpack (NoDup _)). vm_compute. exact I.
    + cbn. apply perm_skip. symmetry. apply perm_swap.
    + repeat constructor.
      * exists 0. intros [|[|t]] v Ht; cbn in Ht; try discriminate; injection Ht as <-.
        -- exists [0; 1]. split; [reflexivity|set_solver].
        -- exists [2; 3]. split; [reflexivity|set_solver].
      * exists 0. intros [|[|t]] v Ht; cbn in Ht; try discriminate; injection Ht as <-.
        -- exists [0; 1]. split; [reflexivity|set_solver].
        -- exists [2; 3]. split; [reflexivity|set_solver].
  - repeat constructor; discriminate.
  - vm_compute. reflexivity.
  - apply Permutation_refl.
  - intros X Y HXY. exists 0, 1. split; [lia|].
    apply elem_of_cons in HXY as [[= -> ->]|HXY]; [split; reflexivity|].
    apply list_elem_of_singleton in HXY as [= -> ->]. split; reflexivity.
  - intros v _. apply lookup_empty.
Defined.

(** *** The loop of balance_placement ends *)

Section BalanceTermination.
Variable World : Type.
Variable relax : Mode -> World -> World * Q.
(** [total_deflection] is a sum of absolute values. *)
Hypothesis Hnonneg : forall m w, (0 <= (relax m w).2)%Q.

Lemma balance_loop_step (fuel : nat) (c : Ctl) (w w' : World) (iters k : nat) (total : Q) :
  relax (mode c) w = (w', total) -> exits (advance total c) = false ->
  balance_loop World relax (S fuel) c w iters k
  = balance_loop World relax fuel (advance total c) w' (S iters)
      (match mode c with
       | RUBBER => if ready (advance total c) then S k else k
       | _ => k
       end).
Proof. intros Hr Hex. cbn [balance_loop]. rewrite Hr, Hex. reflexivity. Qed.

Lemma balance_loop_exit (fuel : nat) (c : Ctl) (w w' : World) (iters k : nat) (total : Q) :
  relax (mode c) w = (w', total) -> exits (advance total c) = true ->
  exists k', balance_loop World relax (S fuel) c w iters k
             = Some (advance total c, w', S iters, k').
Proof. intros Hr Hex. cbn [balance_loop]. rewrite Hr, Hex. eauto. Qed.

(** In rubber mode the total deflection has to fall by [_THRESH_FAC / _ITERS]
    for the loop to go on, and it cannot fall below zero. *)
Lemma rubber_terminates :
  forall (n : nat) (c : Ctl) (w : World) (iters k : nat) (p : Q),
    mode c = RUBBER -> final_iters c = _FINAL_ITERS -> prev_total_deflection c = Fin p ->
    (p < inject_Z (Z.of_nat n))%Q ->
    exists fuel c' w' n' k',
      balance_loop World relax fuel c w iters k = Some (c', w', n', k')
      /\ iters + 1 <= n' /\ mode c' = RUBBER.
Proof.
  induction n as [|n IH]; intros c w iters k p Hm Hf Hp Hlt;
    destruct (relax (mode c) w) as [w' total] eqn:Hr;
    pose proof (Hnonneg (mode c) w) as Htot; rewrite Hr in Htot; cbn [snd] in Htot;
    (destruct (exits (advance total c)) eqn:Hex;
     [destruct (balance_loop_exit 0 c w w' iters k total Hr Hex) as [k' Hk'];
      exists 1, (advance total c), w', (S iters), k';
      split; [exact Hk'|]; split; [lia|]; unfold advance; rewrite Hm; reflexivity|]).
  all: assert (Hadv : advance total c
                      = mkCtl (pendulum_iters c) (final_iters c) false RUBBER (Fin total)
                        /\ (p - total >= 2)%Q).
  1, 3: unfold exits, advance in Hex; unfold advance; rewrite Hm, Hp in *;
        cbn [ge_prev below_thresh ready final_iters] in *;
        destruct (Qle_bool p total) eqn:E1;
        [rewrite Hf in Hex; cbn in Hex; discriminate|];
        destruct (Qle_bool (inject_Z _THRESH_FAC / inject_Z _ITERS) (p - total)) eqn:E2;
        [|rewrite Hf in Hex; cbn in Hex; discriminate];
        split; [reflexivity|];
        apply Qle_bool_iff in E2;
        assert (E : (inject_Z _THRESH_FAC / inject_Z _ITERS == 2)%Q) by reflexivity;
        rewrite E in E2; exact E2.
  - exfalso. destruct Hadv as [_ Hge]. change (inject_Z (Z.of_nat 0)) with 0%Q in Hlt. lra.
  - destruct Hadv as [Hadv Hge].
    destruct (IH (advance total c) w' (S iters)
                 (match mode c with
                  | RUBBER => if ready (advance total c) then S k else k
                  | _ => k
                  end) total)
      as (fuel & c' & w'' & n' & k' & Hrun & Hn' & Hm').
    + rewrite Hadv. reflexivity.
    + rewrite Hadv. exact Hf.
    + rewrite Hadv. reflexivity.
    + rewrite Nat2Z.inj_succ in Hlt. unfold Z.succ in Hlt. rewrite inject_Z_plus in Hlt.
      change (inject_Z 1) with 1%Q in Hlt. lra.
    + exists (S fuel), c', w'', n', k'. split; [|split; [lia|exact Hm']].
      rewrite (balance_loop_step fuel c w w' iters k total Hr Hex). exact Hrun.
Qed.

(** The first rubber iteration compares with [inf] and never confirms. *)
Lemma rubber_first_terminates (c : Ctl) (w : World) (iters k : nat) :
  mode c = RUBBER -> final_iters c = _FINAL_ITERS -> prev_total_deflection c = Inf ->
  exists fuel c' w' n' k',
    balance_loop World relax fuel c w iters k = Some (c', w', n', k')
    /\ iters + 2 <= n' /\ mode c' = RUBBER.
Proof.
  intros Hm Hf Hp. destruct (relax (mode c) w) as [w' total] eqn:Hr.
  pose proof (Hnonneg (mode c) w) as Htot. rewrite Hr in Htot. cbn [snd] in Htot.
  assert (Hadv : advance total c
                 = mkCtl (pendulum_iters c) (final_iters c) false RUBBER (Fin total)).
  { unfold advance. rewrite Hm, Hp. reflexivity. }
  assert (Hex : exits (advance total c) = false) by (rewrite Hadv; reflexivity).
  assert (Hfloor : (0 <= Qfloor total)%Z).
  { change 0%Z with (Qfloor 0). now apply Qfloor_resp_le. }
  destruct (rubber_terminates (Z.to_nat (Qfloor total + 1)) (advance total c) w' (S iters)
              (match mode c with
               | RUBBER => if ready (advance total c) then S k else k
               | _ => k
               end) total)
    as (fuel & c' & w'' & n' & k' & Hrun & Hn' & Hm').
  - rewrite Hadv. reflexivity.
  - rewrite Hadv. exact Hf.
  - rewrite Hadv. reflexivity.
  - rewrite Z2Nat.id by lia. apply Qlt_floor.
  - exists (S fuel), c', w'', n', k'. split; [|split; [lia|exact Hm']].
    rewrite (balance_loop_step fuel c w w' iters k total Hr Hex). exact Hrun.
Qed.

(** The pendulum phase does not confirm, lasts until [pendulum_iters] is
    used up and ends at the latest when [-pendulum_iters] exceeds [_ITERS]. *)
Lemma pendulum_terminates :
  forall (n : nat) (c : Ctl) (w : World) (iters k : nat),
    mode c <> RUBBER -> final_iters c = _FINAL_ITERS -> ready c = false ->
    (-10 <= pendulum_iters c)%Z -> (pendulum_iters c + 10 <= Z.of_nat n)%Z ->
    exists fuel c' w' n' k',
      balance_loop World relax fuel c w iters k = Some (c', w', n', k')
      /\ iters + Z.to_nat (Z.max (pendulum_iters c) 1) + 2 <= n' /\ mode c' = RUBBER.
Proof.
  induction n as [|n IH]; intros c w iters k Hm Hf Hrd Hlow Hn;
    destruct (relax (mode c) w) as [w' total] eqn:Hr.
  all: set (p := (pendulum_iters c - 1)%Z).
  all: set (cond := (p <=? 0)%Z && (lt_prev total (prev_total_deflection c) || (_ITERS <? - p)%Z)).
  all: assert (Hadv : advance total c
                      = if cond then mkCtl p (final_iters c) (ready c) RUBBER Inf
                        else mkCtl p (final_iters c) (ready c)
                               (match mode c with
                                | FORW_PENDULUM => BACKW_PENDULUM
                                | _ => FORW_PENDULUM
                                end) (Fin total))
    by (unfold advance; destruct (mode c); [reflexivity|reflexivity|contradiction]).
  all: assert (Hex : exits (advance total c) = false)
    by (rewrite Hadv; unfold exits; destruct cond; cbn [ready]; rewrite Hrd; reflexivity).
  all: assert (Hk : match mode c with
                    | RUBBER => if ready (advance total c) then S k else k
                    | _ => k
                    end = k)
    by (destruct (mode c); [reflexivity|reflexivity|contradiction]).
  all: destruct cond eqn:Hcond.
  1, 3: apply andb_true_iff in Hcond as [Hp0 _]; apply Z.leb_le in Hp0;
        destruct (rubber_first_terminates (advance total c) w' (S iters) k)
          as (fuel & c' & w'' & n' & k' & Hrun & Hn' & Hm');
        [rewrite Hadv; reflexivity|rewrite Hadv; exact Hf|rewrite Hadv; reflexivity|];
        exists (S fuel), c', w'', n', k'; split; [|split; [unfold p in Hp0; lia|exact Hm']];
        rewrite (balance_loop_step fuel c w w' iters k total Hr Hex), Hk; exact Hrun.
  - exfalso. unfold cond, p in Hcond. assert (pendulum_iters c = (-10)%Z) as Ep by lia.
    rewrite Ep in Hcond. cbn in Hcond. rewrite orb_true_r in Hcond. discriminate.
  - assert (Hp : (-10 <= p)%Z).
    { destruct (Z_le_gt_dec (-10) p) as [H|H]; [exact H|exfalso].
      assert (E1 : (p <=? 0)%Z = true) by (apply Z.leb_le; lia).
      assert (E2 : (_ITERS <? - p)%Z = true) by (apply Z.ltb_lt; unfold _ITERS; lia).
      unfold cond in Hcond. rewrite E1, E2, orb_true_r in Hcond. discriminate. }
    destruct (IH (advance total c) w' (S iters) k)
      as (fuel & c' & w'' & n' & k' & Hrun & Hn' & Hm').
    + rewrite Hadv. cbn [mode]. destruct (mode c); discriminate.
    + rewrite Hadv. exact Hf.
    + rewrite Hadv. exact Hrd.
    + rewrite Hadv. exact Hp.
    + rewrite Hadv. cbn [pendulum_iters]. unfold p. lia.
    + exists (S fuel), c', w'', n', k'. split; [|split; [|exact Hm']].
      * rewrite (balance_loop_step fuel c w w' iters k total Hr Hex), Hk. exact Hrun.
      * rewrite Hadv in Hn'. cbn [pendulum_iters] in Hn'. unfold p in Hn'. lia.
Qed.

End BalanceTermination.

(** X12.  The [while True] loop of [balance_placement] ends for every
    placement: as the total deflection of an iteration is never negative
    (it is a sum of absolute values), the loop reaches its [break], in
    rubber mode, after at least six iterations (four or more pendulum
    iterations and two or more rubber iterations). *)
Theorem balance_placement_terminates (World : Type) (relax : Mode -> World -> World * Q)
    (w : World) :
  (forall m w, (0 <= (relax m w).2)%Q) ->
  exists fuel c' w' n k,
    balance_placement World relax fuel w = Some (c', w', n, k)
    /\ 6 <= n /\ mode c' = RUBBER.
Proof.
  intros Hnonneg.
  destruct (pendulum_terminates World relax Hnonneg 14 ctl_init w 0 0)
    as (fuel & c' & w' & n & k & Hrun & Hn & Hm).
  - discriminate.
  - reflexivity.
  - reflexivity.
  - change (pendulum_iters ctl_init) with 4%Z. lia.
  - change (pendulum_iters ctl_init) with 4%Z. lia.
  - exists fuel, c', w', n, k. split; [exact Hrun|]. split; [|exact Hm].
    change (pendulum_iters ctl_init) with 4%Z in Hn. lia.
Qed.

Lemma balance_placement_terminates_witness :
  exists fuel c' w' n k,
    balance_placement nat (replay [3; 1]%Q) fuel 0 = Some (c', w', n, k)
    /\ 6 <= n /\ mode c' = RUBBER.
Proof.
  apply (balance_placement_terminates nat (replay [3; 1]%Q) 0).
  intros m [|[|[|i]]]; unfold Qle; cbn; lia.
Defined.

(** *** The segments of get_linear_segments are chains *)

Lemma segment_step_chain (CG : ClusterGraph) (complex seen seen' : list nat)
    (segments segments' : list (list nat)) (u : nat) :
  segment_step CG complex (seen, segments) u = Some (seen', segments') ->
  Forall (is_chain CG) segments -> Forall (is_chain CG) segments'.
Proof.
  intros Hstep Hall. unfold segment_step in Hstep.
  case_bool_decide as Hseen; [now injection Hstep as <- <-|].
  case_bool_decide as Hout.
  - injection Hstep as <- <-. apply Forall_app. split; [exact Hall|].
    constructor; [|constructor]. split; [discriminate|]. split.
    + apply NoDup_singleton.
    + intros [|t] a b Ha Hb; discriminate.
  - destruct (dfs_preorder_nodes (G_edges CG) u) as [order|] eqn:Hdfs; [|discriminate].
    cbn [mbind option_bind] in Hstep.
    destruct (dfs_preorder_nodes_spec _ _ _ Hdfs) as (rest & E & Hnd & _).
    subst order. injection Hstep as <- <-. apply Forall_app. split; [exact Hall|].
    constructor; [|constructor]. split; [discriminate|]. split.
    + destruct (chain_members_prefix CG complex u rest) as [tail Htail].
      rewrite Htail in Hnd. change (NoDup ((u :: chain_members CG complex u rest) ++ tail)) in Hnd.
      now apply NoDup_app in Hnd as (? & _ & _).
    + intros t a b Ha Hb.
      split; [exact (chain_consecutive CG complex u (u :: rest) rest Hdfs eq_refl
                       ltac:(lia) t a b Ha Hb)|].
      assert (Hb' : in_degree (G_edges CG) b <= 1 /\ out_degree (G_edges CG) b <= 1).
      { apply (chain_members_degree CG complex u rest). cbn in Hb.
        eapply list_elem_of_lookup_2; exact Hb. }
      split; [|exact Hb']. destruct t as [|t]; cbn in Ha.
      * injection Ha as <-. lia.
      * apply (chain_members_degree CG complex u rest a).
        eapply list_elem_of_lookup_2; exact Ha.
Qed.

Lemma segment_loop_chain (CG : ClusterGraph) (complex : list nat) :
  forall us seen segments seen' segments',
    segment_loop CG complex (seen, segments) us = Some (seen', segments') ->
    Forall (is_chain CG) segments -> Forall (is_chain CG) segments'.
Proof.
  induction us as [|u us IH]; intros seen segments seen' segments' Hrun Hall.
  - now injection Hrun as <- <-.
  - cbn [segment_loop] in Hrun.
    destruct (segment_step CG complex (seen, segments) u) as [[seen1 segs1]|] eqn:Hstep;
      [|discriminate].
    cbn [mbind option_bind] in Hrun.
    apply (IH seen1 segs1 seen' segments' Hrun).
    exact (segment_step_chain CG complex seen seen1 segments segs1 u Hstep Hall).
Qed.

(** X13.  For every cluster graph [get_linear_segments] returns, and every
    segment it returns is a chain of [G]: it is not empty, its nodes are
    distinct, each node is joined to the next by an edge of [G], a node
    with a successor in the segment has no second outgoing edge, and a
    node with a predecessor in the segment has no second incoming or
    outgoing edge. *)
Theorem linear_segments_are_chains (CG : ClusterGraph) :
  exists segs, get_linear_segments CG = Some segs /\ Forall (is_chain CG) segs.
Proof.
  unfold get_linear_segments.
  destruct (segment_loop_total CG (complex_clusters CG) (concat (columns CG)) ([], []))
    as [[seen segs] Hloop].
  rewrite Hloop. exists segs. split; [reflexivity|].
  exact (segment_loop_chain CG (complex_clusters CG) _ [] [] seen segs Hloop (Forall_nil_2 _)).
Qed.

(** *** linear_segments_assign_y_coords without balancing *)

Lemma is_chain_nonempty (CG : ClusterGraph) (segs : list (list nat)) :
  Forall (is_chain CG) segs -> Forall (fun nodes => nodes <> []) segs.
Proof. intros H. eapply Forall_impl; [exact H|]. intros nodes [Hne _]. exact Hne. Qed.

Lemma get_linear_segments_chains (CG : ClusterGraph) (segs : list (list nat)) :
  get_linear_segments CG = Some segs -> Forall (is_chain CG) segs.
Proof.
  unfold get_linear_segments.
  destruct (segment_loop CG (complex_clusters CG) ([], []) (concat (columns CG)))
    as [[seen segs']|] eqn:Hloop; [|discriminate].
  cbn. intros [= <-].
  exact (segment_loop_chain CG (complex_clusters CG) _ [] [] seen segs' Hloop (Forall_nil_2 _)).
Qed.

(** X16.  The steps of [linear_segments_assign_y_coords] fit together.  For
    a cluster graph whose columns are duplicate-free and whose edges all
    lead from a column to the next one, [get_linear_segments] and
    [sort_linear_segments] run without error up to a segment graph [SG]
    that has no cycle, and for every order of the segments that respects
    the edges of [SG] (the contract of [nx.topological_sort])
    [create_unbalanced_placement] gives every node a [y] such that in each
    column a node lies below every node above it, by that node's height
    and the margin. *)
Theorem linear_segments_layout_stacks_columns (is_border : nat -> bool) (height : nat -> Q)
    (margin_y : Q) (CG : ClusterGraph) (y0 : gmap nat Q) :
  layered CG -> proper CG ->
  (forall v, v ∈ concat (columns CG) -> y0 !! v = None) ->
  exists segs sg es,
    get_linear_segments CG = Some segs
    /\ segment_graph is_border segs (columns CG) = Some (sg, es)
    /\ (forall X, ~ tc (fun s t => (s, t) ∈ es) X X)
    /\ forall order,
         Permutation order (seq 0 (length (linear_segments sg))) ->
         (forall X Y, (X, Y) ∈ es -> before order X Y) ->
         exists y,
           create_unbalanced_placement height margin_y (columns CG) sg order y0 = Some y
           /\ (forall v, v ∈ concat (columns CG) -> is_Some (y !! v))
           /\ forall k c a b ya yb, columns CG !! k = Some c -> before c a b ->
                y !! a = Some ya -> y !! b = Some yb ->
                (yb <= ya - height a - margin_y)%Q.
Proof.
  intros Hlay Hprop Hy0.
  destruct (get_linear_segments_perm CG Hlay) as (segs & Hsegs & Hperm).
  pose proof (get_linear_segments_run_through CG segs Hlay Hprop Hsegs) as Hruns.
  pose proof (is_chain_nonempty CG segs (get_linear_segments_chains CG segs Hsegs)) as Hne0.
  pose proof (assign_segments_wf _ segs (proj1 Hlay) Hperm Hruns) as Hwf0.
  destruct (prevent_cycles_spec is_border _ _ Hwf0) as (sg & Hrun & Hwf & _ & Hno).
  assert (Hne : Forall (fun nodes => nodes <> []) (linear_segments sg)).
  { apply (prevent_pairs_nonempty is_border (columns CG) (pairwise (rev (columns CG)))
             (assign_segments segs) sg Hwf0 Hne0); [|exact Hrun].
    intros c1 c2 H. now apply pairwise_rev_adjacent. }
  destruct (segment_edges_acyclic _ sg Hwf Hno) as (es & Hes & _ & Hacyclic).
  exists segs, sg, es. split; [exact Hsegs|]. split.
  { unfold segment_graph. rewrite Hrun. cbn [mbind option_bind]. rewrite Hes. reflexivity. }
  split; [exact Hacyclic|]. intros order Horder Htopo.
  assert (Hnd : NoDup order) by (rewrite Horder; apply NoDup_seq).
  assert (Hmem : forall s, s ∈ order <-> s < length (linear_segments sg)).
  { intros s. rewrite Horder, elem_of_seq. lia. }
  destruct (segment_heights_spec height sg order Hne) as (heights & Hheights & Hh).
  { intros s Hs. now apply Hmem. }
  destruct (place_segments_spec height margin_y (columns CG) sg heights Hwf) with
    (order := order) (post := order) (pre := @nil nat) (y := y0)
    as (y & Hplace & HA & HB & _).
  { intros s nodes Hn. apply Hh; [|exact Hn]. apply Hmem. eapply lookup_lt_Some; exact Hn. }
  { exact Hnd. }
  { intros s Hs. now apply Hmem. }
  { exact (topological_order_columns (columns CG) sg es order Hwf Hes Hnd Htopo). }
  { reflexivity. }
  { split; [|split].
    - intros v Hv. rewrite (Hy0 v Hv). split.
      + intros [x Hx]. discriminate.
      + intros (s & Hs & _). inversion Hs.
    - intros k c a b ya yb Hc (i & j & _ & Hi & _) Ha.
      rewrite Hy0 in Ha; [discriminate|]. apply elem_of_concat. exists c.
      split; eapply list_elem_of_lookup_2; eassumption.
    - intros v w s Hv Hw.
      rewrite (Hy0 v (segment_in_columns (columns CG) sg Hwf v s Hv)).
      rewrite (Hy0 w (segment_in_columns (columns CG) sg Hwf w s Hw)). reflexivity. }
  exists y. split.
  { unfold create_unbalanced_placement. rewrite Hheights. exact Hplace. }
  split; [|exact HB].
  intros v Hv. apply HA; [exact Hv|].
  destruct (concat_in_col _ _ Hv) as (k & Hk).
  destruct (wf_has_segment (columns CG) sg Hwf k v Hk) as [s Hs].
  exists s. split; [|exact Hs]. apply Hmem. exact (wf_segment_bound (columns CG) sg Hwf v s Hs).
Qed.

Lemma linear_segments_layout_stacks_columns_witness :
  exists segs sg es,
    get_linear_segments path_CG = Some segs
    /\ segment_graph (fun _ => false) segs (columns path_CG) = Some (sg, es)
    /\ (forall X, ~ tc (fun s t => (s, t) ∈ es) X X)
    /\ forall order,
         Permutation order (seq 0 (length (linear_segments sg))) ->
         (forall X Y, (X, Y) ∈ es -> before order X Y) ->
         exists y,
           create_unbalanced_placement (fun _ => 1%Q) (1 # 2)%Q (columns path_CG) sg order ∅
             = Some y
           /\ (forall v, v ∈ concat (columns path_CG) -> is_Some (y !! v))
           /\ forall k c a b ya yb, columns path_CG !! k = Some c -> before c a b ->
                y !! a = Some ya -> y !! b = Some yb ->
                (yb <= ya - 1 - (1 # 2))%Q.
Proof.
  apply (linear_segments_layout_stacks_columns (fun _ => false) (fun _ => 1%Q) (1 # 2)%Q
           path_CG ∅).
  - split; [|split].
    + apply (bool_decide_unpack (NoDup _)). vm_compute. exact I.
    + intros a b Hab. cbn in Hab |- *.
      repeat (apply elem_of_cons in Hab as [[= -> ->]|Hab]); [..|inversion Hab]; set_solver.
    + intros l1 x l2 E a Ha. cbn in E, Ha.
      repeat (destruct l1 as [|? l1]; cbn in E;
              [injection E as <- <-|injection E as <- E]);
        try (destruct l1; discriminate);
        repeat (apply elem_of_cons in Ha as [[= ->]|Ha]); try inversion Ha; set_solver.
  - intros a b Hab. cbn in Hab.
    repeat (apply elem_of_cons in Hab as [[= -> ->]|Hab]); [..|inversion Hab].
    + exists 0. split; [exists [0; 3]|exists [1; 4]]; (split; [reflexivity|set_solver]).
    + exists 1. split; [exists [1; 4]|exists [2]]; (split; [reflexivity|set_solver]).
    + exists 0. split; [exists [0; 3]|exists [1; 4]]; (split; [reflexivity|set_solver]).
    + exists 0. split; [exists [0; 3]|exists [1; 4]]; (split; [reflexivity|set_solver]).
  - intros v _. apply lookup_empty.
Defined.

(** *** Segment.region and merge_regions *)

Lemma region_total (n : nat) (ref : gmap nat nat) (rk : nat -> nat) :
  (forall s t, ref !! s = Some t -> s < n /\ t < n /\ rk s < rk t) ->
  (forall s, rk s <= size ref) ->
  forall fuel s, size ref < fuel + rk s -> s < n ->
    exists r, region fuel ref s = Some r /\ ref !! r = None /\ r < n.
Proof.
  intros Hrk Hbound. induction fuel as [|fuel IH]; intros s Hfuel Hs.
  - pose proof (Hbound s). lia.
  - cbn [region]. destruct (ref !! s) as [t|] eqn:Hst.
    + destruct (Hrk s t Hst) as (_ & Ht & Hlt). apply IH; [lia|exact Ht].
    + exists s. auto.
Qed.

Lemma forest_size (n : nat) (ref : gmap nat nat) : forest n ref -> size ref <= n.
Proof.
  intros (rk & Hrk & _).
  assert (E : size (dom ref : gset nat) = size ref) by apply size_dom.
  rewrite <- E. transitivity (size (set_seq 0 n : gset nat)); [|now rewrite size_set_seq].
  apply subseteq_size. intros s Hs. apply elem_of_dom in Hs as [t Ht].
  apply elem_of_set_seq. destruct (Hrk s t Ht). lia.
Qed.

(** Pointing one root to another keeps the forest. *)
Lemma forest_merge (n : nat) (ref : gmap nat nat) (r1 r2 : nat) :
  forest n ref -> ref !! r1 = None -> ref !! r2 = None -> r1 <> r2 -> r1 < n -> r2 < n ->
  forest n (<[r1 := r2]> ref) /\ size (<[r1 := r2]> ref) = S (size ref).
Proof.
  intros (rk & Hrk & Hbound) H1 H2 Hne Hn1 Hn2.
  assert (Hsize : size (<[r1 := r2]> ref) = S (size ref)) by now apply map_size_insert_None.
  split; [|exact Hsize].
  exists (fun s => if decide (s = r2) then Nat.max (rk r2) (S (rk r1)) else rk s). split.
  - intros s t Hst. destruct (decide (s = r1)) as [->|Hs].
    + rewrite lookup_insert_eq in Hst. injection Hst as <-.
      rewrite decide_False by exact Hne. rewrite decide_True by reflexivity.
      split; [exact Hn1|]. split; [exact Hn2|lia].
    + rewrite lookup_insert_ne in Hst by congruence.
      destruct (Hrk s t Hst) as (Hsn & Htn & Hlt).
      split; [exact Hsn|]. split; [exact Htn|].
      rewrite (decide_False (P := s = r2)) by (intros ->; congruence).
      cbn beta. destruct (decide (t = r2)) as [->|_]; lia.
  - intros s. rewrite Hsize. pose proof (Hbound s). pose proof (Hbound r1). pose proof (Hbound r2).
    destruct (decide (s = r2)); lia.
Qed.

Section MergeRegionsFacts.
Variable y : nat -> Q.
Variable height : nat -> Q.
Variable cluster : nat -> nat.
Variable cluster_has_node : nat -> bool.
Variable margin_y : Q.
Variable seg : gmap nat nat.
Variable n : nat.

Local Abbreviation region_of' := (region_of seg).
Local Abbreviation merge_pair' := (merge_pair y height cluster cluster_has_node margin_y seg).
Local Abbreviation merge_pairs' := (merge_pairs y height cluster cluster_has_node margin_y seg).
Local Abbreviation merge_column' := (merge_column y height cluster cluster_has_node margin_y seg).
Local Abbreviation merge_columns' :=
  (merge_columns y height cluster cluster_has_node margin_y seg).
Local Abbreviation settled' := (settled y height cluster cluster_has_node margin_y seg).

Lemma region_of_total (st : Regions) (v s : nat) :
  forest n (ref_segment st) -> seg !! v = Some s -> s < n ->
  exists r, region_of' st v = Some r /\ ref_segment st !! r = None /\ r < n.
Proof.
  intros (rk & Hrk & Hbound) Hv Hs. unfold region_of. rewrite Hv. cbn [mbind option_bind].
  apply (region_total n _ rk Hrk Hbound); [lia|exact Hs].
Qed.

(** One pair of neighbours: either nothing changes, and the pair has been
    found settled, or the region of the upper node now points to the
    region of the lower one. *)
Lemma merge_pair_cases (prev : nat) (ch : bool) (st : Regions) (v w p1 : nat) (ch1 : bool)
    (st1 : Regions) :
  merge_pair' (prev, ch, st) (v, w) = Some (p1, ch1, st1) ->
  region_of' st w = Some p1
  /\ ((ch1 = ch /\ st1 = st
       /\ (prev = p1
           \/ (weight_of st prev + weight_of st p1 = 0)%Z
           \/ ((cluster_has_node v = false \/ cluster v <> cluster w)
               /\ (y w + deflection_of st p1
                   <= y v + deflection_of st prev - height v - margin_y)%Q)))
      \/ (ch1 = true /\ prev <> p1
          /\ ref_segment st1 = <[prev := p1]> (ref_segment st))).
Proof.
  unfold merge_pair. destruct (region_of' st w) as [r2|] eqn:Hr2; [|discriminate].
  cbn [mbind option_bind].
  destruct (bool_decide (weight_of st prev + weight_of st r2 = 0)%Z) eqn:Ew.
  { cbn [orb]. intros [= <- <- <-]. split; [reflexivity|]. left.
    split; [reflexivity|]. split; [reflexivity|]. right. left.
    now apply bool_decide_eq_true in Ew. }
  destruct (bool_decide (prev = r2)) eqn:Er.
  { cbn [orb]. intros [= <- <- <-]. split; [reflexivity|]. left.
    split; [reflexivity|]. split; [reflexivity|]. left. now apply bool_decide_eq_true in Er. }
  cbn [orb]. apply bool_decide_eq_false in Er.
  destruct ((negb (cluster_has_node v) || negb (bool_decide (cluster v = cluster w)))
            && Qle_bool (y w + deflection_of st r2)
                        (y v + deflection_of st prev - height v - margin_y)) eqn:Ec.
  - intros [= <- <- <-]. split; [reflexivity|]. left.
    split; [reflexivity|]. split; [reflexivity|]. right. right.
    apply andb_true_iff in Ec as [Ec1 Ec2]. split; [|now apply Qle_bool_iff].
    apply orb_true_iff in Ec1 as [Ec1|Ec1].
    + left. now apply negb_true_iff in Ec1.
    + right. apply negb_true_iff in Ec1. now apply bool_decide_eq_false in Ec1.
  - intros [= <- <- <-]. split; [reflexivity|]. right.
    split; [reflexivity|]. split; [exact Er|reflexivity].
Qed.

Lemma merge_pair_spec (prev : nat) (ch : bool) (st : Regions) (v w s : nat) :
  forest n (ref_segment st) -> ref_segment st !! prev = None -> prev < n ->
  seg !! w = Some s -> s < n ->
  exists prev' ch' st',
    merge_pair' (prev, ch, st) (v, w) = Some (prev', ch', st')
    /\ forest n (ref_segment st') /\ ref_segment st' !! prev' = None /\ prev' < n
    /\ ((ch' = ch /\ st' = st)
        \/ (ch' = true /\ size (ref_segment st) < size (ref_segment st'))).
Proof.
  intros Hf Hprev Hpn Hw Hs.
  destruct (region_of_total st w s Hf Hw Hs) as (r2 & Hr2 & Hroot2 & Hn2).
  destruct (merge_pair' (prev, ch, st) (v, w)) as [[[p1 ch1] st1]|] eqn:Hrun.
  - destruct (merge_pair_cases _ _ _ _ _ _ _ _ Hrun) as [Hp1 Hcases].
    rewrite Hr2 in Hp1. injection Hp1 as <-.
    exists r2, ch1, st1. split; [reflexivity|].
    destruct Hcases as [(-> & -> & _)|(-> & Hne & Href)].
    + split; [exact Hf|]. split; [exact Hroot2|]. split; [exact Hn2|]. now left.
    + destruct (forest_merge n _ prev r2 Hf Hprev Hroot2 Hne Hpn Hn2) as [Hf' Hsize].
      rewrite Href. split; [exact Hf'|]. split.
      * rewrite lookup_insert_ne by exact Hne. exact Hroot2.
      * split; [exact Hn2|]. right. split; [reflexivity|]. rewrite Hsize. lia.
  - exfalso. unfold merge_pair in Hrun. rewrite Hr2 in Hrun. cbn [mbind option_bind] in Hrun.
    destruct (_ || _); [discriminate|]. destruct (_ && _); discriminate.
Qed.

Lemma merge_pairs_spec :
  forall (pairs : list (nat * nat)) (prev : nat) (ch : bool) (st : Regions),
    forest n (ref_segment st) -> ref_segment st !! prev = None -> prev < n ->
    (forall v w, (v, w) ∈ pairs -> exists s, seg !! w = Some s /\ s < n) ->
    exists prev' ch' st',
      merge_pairs' (prev, ch, st) pairs = Some (prev', ch', st')
      /\ forest n (ref_segment st')
      /\ ((ch' = ch /\ st' = st)
          \/ (ch' = true /\ size (ref_segment st) < size (ref_segment st'))).
Proof.
  induction pairs as [|[v w] pairs IH]; intros prev ch st Hf Hprev Hpn Hpairs.
  - exists prev, ch, st. split; [reflexivity|]. split; [exact Hf|]. now left.
  - destruct (Hpairs v w) as (s & Hw & Hs); [left|].
    destruct (merge_pair_spec prev ch st v w s Hf Hprev Hpn Hw Hs)
      as (p1 & ch1 & st1 & Hstep & Hf1 & Hroot1 & Hn1 & Hcase1).
    destruct (IH p1 ch1 st1 Hf1 Hroot1 Hn1) as (p2 & ch2 & st2 & Hrun & Hf2 & Hcase2).
    { intros a b Hab. apply (Hpairs a b). now right. }
    exists p2, ch2, st2. split.
    { cbn [merge_pairs]. rewrite Hstep. exact Hrun. }
    split; [exact Hf2|].
    destruct Hcase1 as [[-> ->]|[-> Hlt1]], Hcase2 as [[-> ->]|[-> Hlt2]].
    + now left.
    + right. now split.
    + right. now split.
    + right. split; [reflexivity|lia].
Qed.

Lemma merge_column_spec (ch : bool) (st : Regions) (col : list nat) :
  forest n (ref_segment st) -> col <> [] ->
  (forall v, v ∈ col -> exists s, seg !! v = Some s /\ s < n) ->
  exists ch' st',
    merge_column' ch st col = Some (ch', st')
    /\ forest n (ref_segment st')
    /\ ((ch' = ch /\ st' = st)
        \/ (ch' = true /\ size (ref_segment st) < size (ref_segment st'))).
Proof.
  intros Hf Hne Hcol. destruct col as [|v0 col]; [contradiction|].
  destruct (Hcol v0) as (s0 & Hv0 & Hs0); [left|].
  destruct (region_of_total st v0 s0 Hf Hv0 Hs0) as (r0 & Hr0 & Hroot0 & Hn0).
  destruct (merge_pairs_spec (pairwise (v0 :: col)) r0 ch st Hf Hroot0 Hn0)
    as (p & ch' & st' & Hrun & Hf' & Hcase).
  { intros a b Hab. apply pairwise_lookup in Hab as (i & _ & Hb).
    apply Hcol. eapply list_elem_of_lookup_2; exact Hb. }
  exists ch', st'. split; [|split; [exact Hf'|exact Hcase]].
  unfold merge_column. cbn [head mbind option_bind]. rewrite Hr0. cbn [mbind option_bind].
  rewrite Hrun. reflexivity.
Qed.

Lemma merge_columns_spec :
  forall (columns : list (list nat)) (ch : bool) (st : Regions),
    forest n (ref_segment st) -> Forall (fun col => col <> []) columns ->
    (forall col v, col ∈ columns -> v ∈ col -> exists s, seg !! v = Some s /\ s < n) ->
    exists ch' st',
      merge_columns' ch st columns = Some (ch', st')
      /\ forest n (ref_segment st')
      /\ ((ch' = ch /\ st' = st)
          \/ (ch' = true /\ size (ref_segment st) < size (ref_segment st'))).
Proof.
  intros columns. induction columns as [|col columns IH]; intros ch st Hf Hne Hseg.
  - exists ch, st. split; [reflexivity|]. split; [exact Hf|]. now left.
  - apply Forall_cons in Hne as [Hcol Hne].
    destruct (merge_column_spec ch st col Hf Hcol) as (ch1 & st1 & Hstep & Hf1 & Hcase1).
    { intros v Hv. apply (Hseg col v); [left|exact Hv]. }
    destruct (IH ch1 st1 Hf1 Hne) as (ch2 & st2 & Hrun & Hf2 & Hcase2).
    { intros c v Hc Hv. apply (Hseg c v); [now right|exact Hv]. }
    exists ch2, st2. split.
    { cbn [merge_columns]. rewrite Hstep. exact Hrun. }
    split; [exact Hf2|].
    destruct Hcase1 as [[-> ->]|[-> Hlt1]], Hcase2 as [[-> ->]|[-> Hlt2]].
    + now left.
    + right. now split.
    + right. now split.
    + right. split; [reflexivity|lia].
Qed.

(** A round that reports no change has found every pair of neighbours
    settled. *)
Lemma merge_pairs_settled :
  forall (col : list nat) (v prev : nat) (ch : bool) (st : Regions) (prev' : nat)
         (st' : Regions),
    region_of' st v = Some prev ->
    merge_pairs' (prev, ch, st) (pairwise (v :: col)) = Some (prev', false, st') ->
    ch = false /\ st' = st
    /\ forall i a b, (v :: col) !! i = Some a -> (v :: col) !! S i = Some b -> settled' st a b.
Proof.
  assert (Hmono : forall pairs p st p' ch' st',
            merge_pairs' (p, true, st) pairs = Some (p', ch', st') -> ch' = true).
  { induction pairs as [|[a b] pairs IH]; intros p st p' ch' st'; cbn [merge_pairs].
    - now intros [= <- <- <-].
    - destruct (merge_pair' (p, true, st) (a, b)) as [[[p1 ch1] st1]|] eqn:Hstep;
        [|discriminate].
      cbn [mbind option_bind].
      destruct (merge_pair_cases _ _ _ _ _ _ _ _ Hstep) as [_ [(-> & _)|(-> & _)]];
        apply IH. }
  induction col as [|w col IH]; intros v prev ch st prev' st' Hv.
  - cbn. intros [= <- <- <-]. split; [reflexivity|]. split; [reflexivity|].
    intros [|i] a b Ha Hb; discriminate.
  - change (pairwise (v :: w :: col)) with ((v, w) :: pairwise (w :: col)).
    cbn [merge_pairs].
    destruct (merge_pair' (prev, ch, st) (v, w)) as [[[p1 ch1] st1]|] eqn:Hstep;
      [|discriminate].
    cbn [mbind option_bind]. intros Hrun.
    destruct (merge_pair_cases _ _ _ _ _ _ _ _ Hstep) as [Hw [(-> & -> & Hset)|(-> & _)]].
    + destruct (IH w p1 ch st prev' st' Hw Hrun) as (Hch & Hst & Hrest).
      split; [exact Hch|]. split; [exact Hst|].
      intros [|i] a b Ha Hb.
      * cbn in Ha, Hb. injection Ha as <-. injection Hb as <-.
        exists prev, p1. split; [exact Hv|]. split; [exact Hw|exact Hset].
      * apply (Hrest i a b Ha Hb).
    + apply Hmono in Hrun. discriminate.
Qed.

Lemma merge_column_settled (ch : bool) (st st' : Regions) (col : list nat) :
  merge_column' ch st col = Some (false, st') ->
  ch = false /\ st' = st
  /\ forall i a b, col !! i = Some a -> col !! S i = Some b -> settled' st a b.
Proof.
  unfold merge_column. destruct col as [|v col]; [discriminate|].
  cbn [head mbind option_bind].
  destruct (region_of' st v) as [prev|] eqn:Hv; [|discriminate].
  cbn [mbind option_bind].
  destruct (merge_pairs' (prev, ch, st) (pairwise (v :: col))) as [[[p ch'] st1]|] eqn:Hrun;
    [|discriminate].
  cbn [mbind option_bind]. intros [= -> ->].
  exact (merge_pairs_settled col v prev ch st p st' Hv Hrun).
Qed.

Lemma merge_columns_settled :
  forall (columns : list (list nat)) (ch : bool) (st st' : Regions),
    merge_columns' ch st columns = Some (false, st') ->
    ch = false /\ st' = st
    /\ forall col i a b, col ∈ columns -> col !! i = Some a -> col !! S i = Some b ->
         settled' st a b.
Proof.
  intros columns. induction columns as [|col columns IH]; intros ch st st'; cbn [merge_columns].
  - intros [= -> ->]. split; [reflexivity|]. split; [reflexivity|].
    intros col i a b Hcol. inversion Hcol.
  - destruct (merge_column' ch st col) as [[ch1 st1]|] eqn:Hstep; [|discriminate].
    cbn [mbind option_bind]. intros Hrun.
    destruct (IH ch1 st1 st' Hrun) as (-> & -> & Hrest).
    destruct (merge_column_settled ch st st1 col Hstep) as (-> & -> & Hcol).
    split; [reflexivity|]. split; [reflexivity|].
    intros c i a b Hc Ha Hb. apply elem_of_cons in Hc as [->|Hc].
    + exact (Hcol i a b Ha Hb).
    + exact (Hrest c i a b Hc Ha Hb).
Qed.

Lemma merge_regions_total (columns : list (list nat)) :
  Forall (fun col => col <> []) columns ->
  (forall col v, col ∈ columns -> v ∈ col -> exists s, seg !! v = Some s /\ s < n) ->
  forall fuel st,
    forest n (ref_segment st) -> n < fuel + size (ref_segment st) ->
    exists st',
      merge_regions y height cluster cluster_has_node margin_y seg fuel st columns = Some st'
      /\ forest n (ref_segment st')
      /\ merge_columns' false st' columns = Some (false, st').
Proof.
  intros Hne Hseg. induction fuel as [|fuel IH]; intros st Hf Hfuel.
  - pose proof (forest_size n _ Hf). lia.
  - destruct (merge_columns_spec columns false st Hf Hne Hseg)
      as (ch & st1 & Hrun & Hf1 & Hcase).
    cbn [merge_regions]. rewrite Hrun.
    destruct Hcase as [[-> ->]|[-> Hlt]].
    + exists st. split; [reflexivity|]. split; [exact Hf|exact Hrun].
    + apply (IH st1 Hf1). lia.
Qed.

End MergeRegionsFacts.

(** X17.  [merge_regions] ends and leaves the regions settled.  Let no
    column be empty, let every node of the columns belong to one of [n]
    segments and let no segment have a [ref_segment] (as
    [balance_placement] resets them).  Then the [while True] loop ends
    within [n + 1] rounds, the [ref_segment] pointers never form a cycle,
    so that [region()] ends at a segment without pointer, and for any two
    neighbours of a column the regions are the same, or have no weight, or
    the nodes are not in one frame and stay apart by the upper node's
    height and the margin once their regions' deflections are added. *)
Theorem merge_regions_terminates_settled (y height : nat -> Q) (cluster : nat -> nat)
    (cluster_has_node : nat -> bool) (margin_y : Q) (seg : gmap nat nat) (n : nat)
    (columns : list (list nat)) (st : Regions) :
  Forall (fun col => col <> []) columns ->
  (forall col v, col ∈ columns -> v ∈ col -> exists s, seg !! v = Some s /\ s < n) ->
  ref_segment st = ∅ ->
  exists st',
    merge_regions y height cluster cluster_has_node margin_y seg (S n) st columns = Some st'
    /\ (forall v s, seg !! v = Some s -> s < n ->
          exists r, region_of seg st' v = Some r /\ ref_segment st' !! r = None)
    /\ forall col i a b, col ∈ columns -> col !! i = Some a -> col !! S i = Some b ->
         settled y height cluster cluster_has_node margin_y seg st' a b.
Proof.
  intros Hne Hseg Href.
  assert (Hf : forest n (ref_segment st)).
  { rewrite Href. exists (fun _ => 0). split; [|intros s; lia].
    intros s t Hst. rewrite lookup_empty in Hst. discriminate. }
  destruct (merge_regions_total y height cluster cluster_has_node margin_y seg n columns
              Hne Hseg (S n) st Hf ltac:(lia)) as (st' & Hrun & Hf' & Hfix).
  exists st'. split; [exact Hrun|]. split.
  - intros v s Hv Hs. destruct (region_of_total seg n st' v s Hf' Hv Hs) as (r & Hr & Hroot & _).
    now exists r.
  - destruct (merge_columns_settled y height cluster cluster_has_node margin_y seg
                columns false st' st' Hfix) as (_ & _ & Hset).
    exact Hset.
Qed.

Lemma merge_regions_terminates_settled_witness :
  exists st',
    merge_regions (fun v => if (v =? 0)%nat then 0%Q else (-2)%Q) (fun _ => 1%Q) (fun _ => 9)
      (fun _ => false) (1 # 2)%Q facing_segments 3 facing_regions [[0; 1]] = Some st'
    /\ (forall v s, facing_segments !! v = Some s -> s < 2 ->
          exists r, region_of facing_segments st' v = Some r /\ ref_segment st' !! r = None)
    /\ forall col i a b, col ∈ [[0; 1]] -> col !! i = Some a -> col !! S i = Some b ->
         settled (fun v => if (v =? 0)%nat then 0%Q else (-2)%Q) (fun _ => 1%Q) (fun _ => 9)
           (fun _ => false) (1 # 2)%Q facing_segments st' a b.
Proof.
  apply (merge_regions_terminates_settled (fun v => if (v =? 0)%nat then 0%Q else (-2)%Q)
           (fun _ => 1%Q) (fun _ => 9) (fun _ => false) (1 # 2)%Q facing_segments 2
           [[0; 1]] facing_regions).
  - repeat constructor; discriminate.
  - intros col v Hcol Hv. apply list_elem_of_singleton in Hcol as ->.
    apply elem_of_cons in Hv as [->|Hv]; [exists 0; split; [reflexivity|lia]|].
    apply list_elem_of_singleton in Hv as ->. exists 1. split; [reflexivity|lia].
  - reflexivity.
Defined.

(** The two facing segments are merged into one region that carries the
    mean deflection. *)
Example facing_segments_merge :
  merge_regions (fun v => if (v =? 0)%nat then 0%Q else (-2)%Q) (fun _ => 1%Q) (fun _ => 9)
    (fun _ => false) (1 # 2)%Q facing_segments 3 facing_regions [[0; 1]]
  = Some (mkRegions (<[1 := (0 # 2)%Q]> (<[0 := (-3)%Q]> (<[1 := 3%Q]> ∅)))
                    (<[1 := 2%Z]> (<[0 := 1%Z]> (<[1 := 1%Z]> ∅)))
                    (<[0 := 1]> ∅)).
Proof. vm_compute. reflexivity. Qed.

(** *** calc_deflection *)

Lemma Qabs_step (a t M : Q) (k : Z) :
  (Qabs a <= M * inject_Z k)%Q -> (Qabs t <= M)%Q ->
  (Qabs (a + t) <= M * inject_Z (k + 1))%Q.
Proof.
  intros Ha Ht. rewrite inject_Z_plus. change (inject_Z 1) with 1%Q.
  rewrite Qmult_plus_distr_r, Qmult_1_r.
  eapply Qle_trans; [apply Qabs_triangle|]. now apply Qplus_le_compat.
Qed.

Lemma Qabs_div_bound (a M : Q) (k : Z) :
  (0 < k)%Z -> (Qabs a <= M * inject_Z k)%Q -> (Qabs (a / inject_Z k) <= M)%Q.
Proof.
  intros Hk Ha.
  assert (Hpos : (0 < inject_Z k)%Q) by (change 0%Q with (inject_Z 0); now rewrite <- Zlt_Qlt).
  unfold Qdiv. rewrite Qabs_Qmult.
  rewrite (Qabs_pos (/ inject_Z k)) by (apply Qinv_le_0_compat; now apply Qlt_le_weak).
  change (Qabs a * / inject_Z k)%Q with (Qabs a / inject_Z k)%Q.
  now apply Qle_shift_div_r.
Qed.

Section DeflectionFacts.
Variable y : nat -> Q.
Variable socket_y : Ordering.Socket -> Q.
Variable G : list Ordering.GEdge.
Variable seg : gmap nat nat.
Variable M : Q.

Lemma add_terms_bound (term : Ordering.Socket * Ordering.Socket -> Q)
    (ps : list (Ordering.Socket * Ordering.Socket)) :
  (forall p, p ∈ ps -> (Qabs (term p) <= M)%Q) ->
  forall acc : Q * Z,
    (0 <= acc.2)%Z -> (Qabs acc.1 <= M * inject_Z acc.2)%Q ->
    (0 <= (add_terms term acc ps).2)%Z
    /\ (Qabs (add_terms term acc ps).1 <= M * inject_Z (add_terms term acc ps).2)%Q.
Proof.
  unfold add_terms. induction ps as [|p ps IH]; intros Hps acc Hk Ha; cbn [foldl]; [now split|].
  apply IH; cbn [fst snd].
  - intros q Hq. apply Hps. now right.
  - lia.
  - apply Qabs_step; [exact Ha|]. apply Hps. left.
Qed.

Lemma node_deflection_bound (mode : Mode) (v : nat) :
  (forall t, t ∈ counted_terms y socket_y G seg mode v -> (Qabs t <= M)%Q) ->
  (0 <= (node_deflection y socket_y G seg mode v).2)%Z
  /\ (Qabs (node_deflection y socket_y G seg mode v).1
      <= M * inject_Z (node_deflection y socket_y G seg mode v).2)%Q.
Proof.
  intros Hterms.
  assert (H0 : (0 <= (0%Q, 0%Z).2)%Z /\ (Qabs (0%Q, 0%Z).1 <= M * inject_Z (0%Q, 0%Z).2)%Q).
  { cbn. split; [lia|]. rewrite Qmult_0_r. apply Qle_refl. }
  assert (Hout : mode <> FORW_PENDULUM ->
            forall p, p ∈ get_out_edges G seg v -> (Qabs (out_term y socket_y v p) <= M)%Q).
  { intros Hm p Hp. apply Hterms. unfold counted_terms. apply elem_of_app. left.
    destruct mode; [contradiction| |]; apply list_elem_of_fmap; now exists p. }
  assert (Hin : mode <> BACKW_PENDULUM ->
            forall p, p ∈ get_in_edges G seg v -> (Qabs (in_term y socket_y v p) <= M)%Q).
  { intros Hm p Hp. apply Hterms. unfold counted_terms. apply elem_of_app. right.
    destruct mode; [|contradiction|]; apply list_elem_of_fmap; now exists p. }
  unfold node_deflection. destruct mode.
  - apply add_terms_bound; [apply Hin; discriminate|apply H0..].
  - apply add_terms_bound; [apply Hout; discriminate|apply H0..].
  - destruct (add_terms_bound (out_term y socket_y v) (get_out_edges G seg v)
                (Hout ltac:(discriminate)) (0%Q, 0%Z) (proj1 H0) (proj2 H0)) as [H1 H2].
    apply add_terms_bound; [apply Hin; discriminate|exact H1|exact H2].
Qed.

Lemma segment_deflection_bound (mode : Mode) (nodes : list nat) :
  (forall v t, v ∈ nodes -> t ∈ counted_terms y socket_y G seg mode v -> (Qabs t <= M)%Q) ->
  (0 <= (segment_deflection y socket_y G seg mode nodes).2 <= Z.of_nat (length nodes))%Z
  /\ (Qabs (segment_deflection y socket_y G seg mode nodes).1
      <= M * inject_Z (segment_deflection y socket_y G seg mode nodes).2)%Q.
Proof.
  unfold segment_deflection.
  assert (Hgen : forall acc : Q * Z,
            (forall v t, v ∈ nodes -> t ∈ counted_terms y socket_y G seg mode v ->
                         (Qabs t <= M)%Q) ->
            (0 <= acc.2)%Z -> (Qabs acc.1 <= M * inject_Z acc.2)%Q ->
            let r := foldl (fun acc v =>
                              let nd := node_deflection y socket_y G seg mode v in
                              if (0 <? nd.2)%Z
                              then ((acc.1 + nd.1 / inject_Z nd.2)%Q, (acc.2 + 1)%Z)
                              else acc) acc nodes in
            (acc.2 <= r.2 <= acc.2 + Z.of_nat (length nodes))%Z
            /\ (Qabs r.1 <= M * inject_Z r.2)%Q).
  { induction nodes as [|v nodes IH]; intros acc Hterms Hk Ha; cbn [foldl length].
    - split; [lia|exact Ha].
    - destruct (node_deflection_bound mode v) as [Hn1 Hn2].
      { intros t Ht. apply (Hterms v t); [left|exact Ht]. }
      set (nd := node_deflection y socket_y G seg mode v) in *.
      assert (Hrest : forall w t, w ∈ nodes -> t ∈ counted_terms y socket_y G seg mode w ->
                                  (Qabs t <= M)%Q).
      { intros w t Hw. apply Hterms. now right. }
      destruct (0 <? nd.2)%Z eqn:Epos.
      + apply Z.ltb_lt in Epos.
        destruct (IH ((acc.1 + nd.1 / inject_Z nd.2)%Q, (acc.2 + 1)%Z) Hrest) as [H1 H2];
          cbn [fst snd].
        * lia.
        * apply Qabs_step; [exact Ha|]. now apply Qabs_div_bound.
        * cbn [fst snd] in H1. split; [lia|exact H2].
      + destruct (IH acc Hrest Hk Ha) as [H1 H2]. cbv zeta in H1 |- *.
        split; [lia|exact H2]. }
  intros Hterms. destruct (Hgen (0%Q, 0%Z) Hterms) as [H1 H2]; cbn [fst snd].
  - lia.
  - rewrite Qmult_0_r. apply Qle_refl.
  - cbn [fst snd] in H1. split; [lia|exact H2].
Qed.

End DeflectionFacts.

(** X19.  The deflection that [calc_deflection] gives a segment is damped:
    if every term it adds up for the nodes of the segment in the given mode
    (the vertical offset of an edge to another segment) is at most [M] in
    absolute value, the new deflection is at most [M / 10] in absolute
    value; the weight is the number of nodes with such an edge, between 0
    and the length of the segment; a segment of weight 0 has deflection 0;
    nothing else is changed.  In particular a segment whose edges are all
    straight is not moved. *)
Theorem calc_deflection_damped (y : nat -> Q) (socket_y : Ordering.Socket -> Q)
    (G : list Ordering.GEdge) (seg : gmap nat nat) (mode : Mode) (s : nat)
    (nodes : list nat) (st : Regions) (M : Q) :
  (0 <= M)%Q ->
  (forall v t, v ∈ nodes -> t ∈ counted_terms y socket_y G seg mode v -> (Qabs t <= M)%Q) ->
  (Qabs (deflection_of (calc_deflection y socket_y G seg mode s nodes st) s)
   <= _DEFLECTION_DAMPENING * M)%Q
  /\ (0 <= weight_of (calc_deflection y socket_y G seg mode s nodes st) s
      <= Z.of_nat (length nodes))%Z
  /\ (weight_of (calc_deflection y socket_y G seg mode s nodes st) s = 0%Z ->
      deflection_of (calc_deflection y socket_y G seg mode s nodes st) s = 0%Q)
  /\ ref_segment (calc_deflection y socket_y G seg mode s nodes st) = ref_segment st
  /\ forall s', s' <> s ->
       deflection_of (calc_deflection y socket_y G seg mode s nodes st) s'
       = deflection_of st s'
       /\ weight_of (calc_deflection y socket_y G seg mode s nodes st) s' = weight_of st s'.
Proof.
  intros HM Hterms.
  destruct (segment_deflection_bound y socket_y G seg M mode nodes Hterms) as [Hw Hd].
  unfold calc_deflection, deflection_of, weight_of. cbn [deflection weight ref_segment].
  set (sd := segment_deflection y socket_y G seg mode nodes) in *.
  rewrite !lookup_insert_eq. cbn [default].
  split; [|split; [exact Hw|split; [|split; [reflexivity|]]]].
  - destruct (0 <? sd.2)%Z eqn:Epos.
    + apply Z.ltb_lt in Epos. apply Qabs_div_bound; [exact Epos|].
      rewrite Qabs_Qmult. rewrite (Qabs_pos _DEFLECTION_DAMPENING) by (unfold _DEFLECTION_DAMPENING; lra).
      rewrite <- Qmult_assoc. apply Qmult_le_l; [unfold _DEFLECTION_DAMPENING; lra|exact Hd].
    + change (Qabs 0) with 0%Q. apply Qmult_le_0_compat; [unfold _DEFLECTION_DAMPENING; lra|exact HM].
  - intros E. change (sd.2 = 0%Z) in E. rewrite E. reflexivity.
  - intros s' Hne. rewrite !lookup_insert_ne by congruence. split; reflexivity.
Qed.

Lemma calc_deflection_damped_witness :
  (Qabs (deflection_of (calc_deflection slanted_y (fun _ => 0%Q) slanted_edge facing_segments
                          RUBBER 0%nat [0%nat] facing_regions) 0)
   <= _DEFLECTION_DAMPENING * 5)%Q
  /\ (0 <= weight_of (calc_deflection slanted_y (fun _ => 0%Q) slanted_edge facing_segments
                        RUBBER 0%nat [0%nat] facing_regions) 0
      <= Z.of_nat (length [0]))%Z
  /\ (weight_of (calc_deflection slanted_y (fun _ => 0%Q) slanted_edge facing_segments
                   RUBBER 0%nat [0%nat] facing_regions) 0 = 0%Z ->
      deflection_of (calc_deflection slanted_y (fun _ => 0%Q) slanted_edge facing_segments
                       RUBBER 0%nat [0%nat] facing_regions) 0 = 0%Q)
  /\ ref_segment (calc_deflection slanted_y (fun _ => 0%Q) slanted_edge facing_segments
                    RUBBER 0%nat [0%nat] facing_regions) = ref_segment facing_regions
  /\ forall s', s' <> 0 ->
       deflection_of (calc_deflection slanted_y (fun _ => 0%Q) slanted_edge facing_segments
                        RUBBER 0%nat [0%nat] facing_regions) s'
       = deflection_of facing_regions s'
       /\ weight_of (calc_deflection slanted_y (fun _ => 0%Q) slanted_edge facing_segments
                       RUBBER 0%nat [0%nat] facing_regions) s' = weight_of facing_regions s'.
Proof.
  apply (calc_deflection_damped slanted_y (fun _ => 0%Q) slanted_edge facing_segments
           RUBBER 0%nat [0%nat] facing_regions 5%Q).
  - unfold Qle. cbn. lia.
  - intros v t Hv Ht. apply list_elem_of_singleton in Hv as ->.
    vm_compute in Ht. apply list_elem_of_singleton in Ht as ->. unfold Qle. cbn. lia.
Defined.

(** The segment of node 0 is pulled half a unit towards node 1. *)
Example slanted_edge_deflection :
  deflection (calc_deflection slanted_y (fun _ => 0%Q) slanted_edge facing_segments
                RUBBER 0%nat [0%nat] facing_regions) !! 0 = Some (-5 # 10)%Q.
Proof. vm_compute. reflexivity. Qed.

End PlacementFacts.

(** ** ordering.py *)


Module OrderingFacts.
Import Py PyFacts Ordering.

Lemma Q_of_nat_S (n : nat) : (Q_of_nat (S n) == Q_of_nat n + 1)%Q.
Proof.
  unfold Q_of_nat. rewrite Nat2Z.inj_succ, <- Z.add_1_r, inject_Z_plus. reflexivity.
Qed.

Lemma Q_of_nat_pos (n : nat) : (0 < n)%nat -> (0 < Q_of_nat n)%Q.
Proof.
  intros Hn. unfold Q_of_nat. change 0%Q with (inject_Z 0).
  rewrite <- Zlt_Qlt. lia.
Qed.

Lemma Q_of_nat_lt (n m : nat) : (n < m)%nat -> (Q_of_nat n < Q_of_nat m)%Q.
Proof. intros Hn. unfold Q_of_nat. rewrite <- Zlt_Qlt. lia. Qed.

Lemma Q_of_nat_plus (n m : nat) : (Q_of_nat (n + m) == Q_of_nat n + Q_of_nat m)%Q.
Proof. unfold Q_of_nat. rewrite Nat2Z.inj_add, inject_Z_plus. reflexivity. Qed.

(** *** calc_socket_ranks *)

Lemma assign_socket_ranks_other (v : nat) (incr rank : Q) (sockets : list Socket)
    (sr : gmap (nat * Socket) Q) (key : nat * Socket) :
  (key.1 <> v \/ key.2 ∉ sockets) ->
  assign_socket_ranks v incr rank sockets sr !! key = sr !! key.
Proof.
  revert rank sr. induction sockets as [|s rest IH]; intros rank sr Hk; cbn; [reflexivity|].
  rewrite IH.
  - apply lookup_insert_ne. destruct key as [w t]; cbn in Hk.
    intros [= -> ->]. destruct Hk as [Hk|Hk]; [congruence|]. apply Hk. left.
  - destruct Hk as [Hk|Hk]; [now left|right]. intros Hin. apply Hk. now right.
Qed.

Lemma assign_socket_ranks_lookup (v : nat) (incr : Q) (sockets : list Socket) :
  NoDup sockets ->
  forall (rank : Q) (sr : gmap (nat * Socket) Q) (k : nat) (s : Socket),
    sockets !! k = Some s ->
    exists r, assign_socket_ranks v incr rank sockets sr !! (v, s) = Some r
              /\ (r == rank + Q_of_nat (k + 1) * incr)%Q.
Proof.
  induction 1 as [|s0 rest Hnotin Hnd IH]; intros rank sr k s Hk; [discriminate|].
  destruct k as [|k]; cbn in Hk.
  - injection Hk as ->. cbn [assign_socket_ranks].
    rewrite assign_socket_ranks_other by (right; exact Hnotin).
    rewrite lookup_insert_eq. eexists; split; [reflexivity|].
    unfold Q_of_nat. cbn. ring.
  - cbn [assign_socket_ranks].
    destruct (IH (rank + incr)%Q (<[(v, s0) := (rank + incr)%Q]> sr) k s Hk) as (r & Hr & Hreq).
    exists r. split; [exact Hr|].
    rewrite Hreq. change (S k + 1)%nat with (S (k + 1)). rewrite Q_of_nat_S. ring.
Qed.

Lemma col_index_set_socket_ranks (sr : gmap (nat * Socket) Q) (st : Store) (v : nat) :
  col_index (set_socket_ranks sr st) v = col_index st v.
Proof. reflexivity. Qed.

Lemma calc_socket_ranks_items_other (forwards : bool) (items : list (nat * list Socket)) :
  forall (st st' : Store) (key : nat * Socket),
    key.1 ∉ items.*1 ->
    calc_socket_ranks_items items forwards st = Some st' ->
    socket_ranks st' !! key = socket_ranks st !! key.
Proof.
  induction items as [|[v sockets] items IH]; intros st st' key Hk; cbn.
  - now intros [= <-].
  - destruct (col_index st v) as [i|]; cbn; [|discriminate].
    intros Hrun. erewrite IH; [| |exact Hrun].
    + cbn. apply assign_socket_ranks_other. left. intros E. apply Hk. rewrite E. left.
    + intros Hin. apply Hk. now right.
Qed.

Lemma calc_socket_ranks_items_columns (forwards : bool) (items : list (nat * list Socket)) :
  forall (st st' : Store),
    calc_socket_ranks_items items forwards st = Some st' ->
    columns st' = columns st /\ barycenter st' = barycenter st.
Proof.
  induction items as [|[v sockets] items IH]; intros st st'; cbn.
  - now intros [= <-].
  - destruct (col_index st v) as [i|]; cbn; [|discriminate].
    intros Hrun. apply IH in Hrun. exact Hrun.
Qed.

Lemma calc_socket_ranks_items_total (forwards : bool) (items : list (nat * list Socket)) :
  forall st : Store,
    (forall v, v ∈ items.*1 -> is_Some (col_index st v)) ->
    is_Some (calc_socket_ranks_items items forwards st).
Proof.
  induction items as [|[v sockets] items IH]; intros st Hcol; cbn; [eauto|].
  destruct (Hcol v) as [i Hi]; [left|]. rewrite Hi. cbn.
  apply IH. intros w Hw. rewrite col_index_set_socket_ranks. apply Hcol. now right.
Qed.

Lemma calc_socket_ranks_items_lookup (forwards : bool) (items : list (nat * list Socket)) :
  forall (st st' : Store) (v : nat) (sockets : list Socket) (i k : nat) (s : Socket),
    NoDup items.*1 ->
    NoDup sockets ->
    (v, sockets) ∈ items ->
    col_index st v = Some i ->
    sockets !! k = Some s ->
    calc_socket_ranks_items items forwards st = Some st' ->
    exists r, socket_ranks st' !! (v, s) = Some r
              /\ (r == Q_of_nat (i + 1) + Q_of_nat (k + 1) * socket_incr forwards sockets)%Q.
Proof.
  induction items as [|[v0 sockets0] items IH];
    intros st st' v sockets i k s Hnd Hnds Hin Hi Hk; cbn; [inversion Hin|].
  cbn in Hnd. apply NoDup_cons in Hnd as [Hv0 Hnd].
  apply elem_of_cons in Hin as [[= <- <-]|Hin].
  - rewrite Hi. cbn. intros Hrun.
    erewrite (calc_socket_ranks_items_other forwards items _ st' (v, s)); [|exact Hv0|exact Hrun].
    cbn. now apply assign_socket_ranks_lookup.
  - destruct (col_index st v0) as [i0|]; cbn; [|discriminate].
    intros Hrun.
    exact (IH (set_socket_ranks _ st) st' v sockets i k s Hnd Hnds Hin Hi Hk Hrun).
Qed.

Lemma socket_step_bounds (n k : nat) :
  (k < n)%nat ->
  (0 < Q_of_nat (k + 1) * (1 / Q_of_nat (n + 1)) < 1)%Q.
Proof.
  intros Hk.
  assert (Hn : (0 < Q_of_nat (n + 1))%Q) by (apply Q_of_nat_pos; lia).
  assert (Hk1 : (0 < Q_of_nat (k + 1))%Q) by (apply Q_of_nat_pos; lia).
  assert (Hlt : (Q_of_nat (k + 1) < Q_of_nat (n + 1))%Q) by (apply Q_of_nat_lt; lia).
  assert (E : (Q_of_nat (k + 1) * (1 / Q_of_nat (n + 1)) == Q_of_nat (k + 1) / Q_of_nat (n + 1))%Q)
    by (field; lra).
  rewrite E. split.
  - apply Qlt_shift_div_l; lra.
  - apply Qlt_shift_div_r; lra.
Qed.

(** C7 as stated fails in forward passes: the only socket of the first node
    of a column (position 1) gets rank 1/2, which is not in (1, 2). *)
Lemma socket_rank_forward_below_position :
  exists st' r,
    calc_socket_ranks one_node_H true one_node_store = Some st'
    /\ socket_ranks st' !! (0%nat, one_socket) = Some r
    /\ (r == 1 # 2)%Q
    /\ ~ (1 < r /\ r < 2)%Q.
Proof.
  eexists. exists (1 # 2)%Q. split; [vm_compute; reflexivity|].
  split; [vm_compute; reflexivity|].
  split; [reflexivity|].
  intros [H _]. vm_compute in H. discriminate.
Qed.

(** C7 (amended).  For every fixed node [v] stored in [H.fixed_sockets] with
    its sockets, [calc_socket_ranks] succeeds and gives the [k]-th socket
    (counted from 0, of [n]) the rank [position - (k+1)/(n+1)] in a forward
    pass and [position + (k+1)/(n+1)] in a backward pass, where [position] is
    the 1-based index of [v] in its column: the ranks are evenly spaced by
    [1/(n+1)], descend along the stored sockets inside
    [(position - 1, position)] in forward passes and ascend along them inside
    [(position, position + 1)] in backward passes. *)
Theorem calc_socket_ranks_evenly_spaced
    (H : ClusterCrossingsData) (forwards : bool) (st : Store)
    (v : nat) (sockets : list Socket) (i k : nat) (s : Socket) :
  NoDup (fixed_sockets H).*1 ->
  (forall u, u ∈ (fixed_sockets H).*1 -> is_Some (col_index st u)) ->
  (v, sockets) ∈ fixed_sockets H ->
  NoDup sockets ->
  col_index st v = Some i ->
  sockets !! k = Some s ->
  exists st' r,
    calc_socket_ranks H forwards st = Some st'
    /\ socket_ranks st' !! (v, s) = Some r
    /\ let position := Q_of_nat (i + 1) in
       let step := (Q_of_nat (k + 1) / Q_of_nat (length sockets + 1))%Q in
       if forwards
       then (r == position - step /\ position - 1 < r /\ r < position)%Q
       else (r == position + step /\ position < r /\ r < position + 1)%Q.
Proof.
  intros Hnd Hcols Hin Hnds Hi Hk.
  destruct (calc_socket_ranks_items_total forwards _ st Hcols) as [st' Hrun].
  destruct (calc_socket_ranks_items_lookup forwards _ st st' v sockets i k s
              Hnd Hnds Hin Hi Hk Hrun) as (r & Hr & Hreq).
  exists st', r. split; [exact Hrun|]. split; [exact Hr|].
  assert (Hlen : (k < length sockets)%nat) by (eapply lookup_lt_Some; eauto).
  pose proof (socket_step_bounds (length sockets) k Hlen) as [Hlo Hhi].
  assert (Hn : (0 < Q_of_nat (length sockets + 1))%Q) by (apply Q_of_nat_pos; lia).
  assert (E : (Q_of_nat (k + 1) * (1 / Q_of_nat (length sockets + 1))
               == Q_of_nat (k + 1) / Q_of_nat (length sockets + 1))%Q) by (field; lra).
  cbv zeta. unfold socket_incr in Hreq.
  destruct forwards.
  - assert (Hr' : (r == Q_of_nat (i + 1) - Q_of_nat (k + 1) * (1 / Q_of_nat (length sockets + 1)))%Q)
      by (rewrite Hreq; ring).
    rewrite <- E. split; [exact Hr'|]. rewrite Hr'. split; lra.
  - rewrite <- E. split; [exact Hreq|]. rewrite Hreq. split; lra.
Qed.

Lemma calc_socket_ranks_evenly_spaced_witness :
  exists st' r,
    calc_socket_ranks one_node_H false one_node_store = Some st'
    /\ socket_ranks st' !! (0%nat, one_socket) = Some r
    /\ (r == 1 + (1 / 2) /\ 1 < r /\ r < 1 + 1)%Q.
Proof.
  refine (calc_socket_ranks_evenly_spaced one_node_H false one_node_store
            0%nat [one_socket] 0%nat 0%nat one_socket _ _ _ _ _ _).
  - apply NoDup_singleton.
  - intros u Hu. apply list_elem_of_singleton in Hu as ->. vm_compute. eauto.
  - left.
  - apply NoDup_singleton.
  - reflexivity.
  - reflexivity.
Defined.

(** *** calc_barycenters *)

Section Barycenters.
Context {R : RandomSource}.

Lemma sum_socket_ranks_ext (st st' : Store) (sockets : list Socket) :
  socket_ranks st' = socket_ranks st ->
  sum_socket_ranks st' sockets = sum_socket_ranks st sockets.
Proof.
  intros E. induction sockets as [|s rest IH]; cbn; [reflexivity|].
  rewrite E, IH. reflexivity.
Qed.

Lemma sum_socket_ranks_total (st : Store) (sockets : list Socket) :
  (forall s, s ∈ sockets -> is_Some (socket_ranks st !! (owner s, s))) ->
  is_Some (sum_socket_ranks st sockets).
Proof.
  induction sockets as [|s rest IH]; intros Hs; cbn; [eauto|].
  destruct (Hs s) as [r ->]; [left|]. cbn.
  destruct IH as [t ->]; [|cbn; eauto].
  intros s' Hs'. apply Hs. now right.
Qed.

Lemma calc_barycenters_col_spec (fs : list (nat * list Socket)) (st0 : Store) (col : list nat) :
  (forall w, w ∈ col -> exists sockets, dict_get w fs = Some sockets
       /\ forall s, s ∈ sockets -> is_Some (socket_ranks st0 !! (owner s, s))) ->
  forall (st : Store) (g : rng),
    socket_ranks st = socket_ranks st0 ->
    exists st' g',
      calc_barycenters_col fs col st g = Some (st', g')
      /\ socket_ranks st' = socket_ranks st0
      /\ columns st' = columns st
      /\ forall w,
           (w ∈ col -> has_sockets fs w -> assigned_from fs st0 st' w)
           /\ (assigned_from fs st0 st' w
               \/ barycenter st' !! w = barycenter st !! w
               \/ (w ∈ col /\ has_sockets fs w)) 
           /\ (~ (w ∈ col /\ has_sockets fs w) -> barycenter st' !! w = barycenter st !! w).
Proof.
  induction col as [|w0 col IH]; intros Hwf st g Hsr; cbn.
  - exists st, g. repeat split; auto.
    intros Hin; inversion Hin.
  - destruct (Hwf w0) as (sockets & Hget & Hranks); [left|].
    rewrite Hget. cbn.
    assert (Hwf' : forall w, w ∈ col -> exists sockets, dict_get w fs = Some sockets
       /\ forall s, s ∈ sockets -> is_Some (socket_ranks st0 !! (owner s, s))).
    { intros w Hw. apply Hwf. now right. }
    destruct sockets as [|s sockets].
    + destruct (IH Hwf' st g Hsr) as (st' & g' & Hrun & Hsr' & Hcols & Hspec).
      exists st', g'. split; [exact Hrun|]. split; [exact Hsr'|]. split; [exact Hcols|].
      intros w. destruct (Hspec w) as (Ha & Hb & Hc). split; [|split].
      * intros Hin Hhas. apply elem_of_cons in Hin as [->|Hin]; [|auto].
        destruct Hhas as (s & ss & Hs). congruence.
      * destruct Hb as [Hb|[Hb|[Hb1 Hb2]]];
          [now left|right; now left|right; right; split; [now right|assumption]].
      * intros Hn. apply Hc. intros [Hin Hhas]. apply Hn. split; [now right|assumption].
    + destruct (sum_socket_ranks_total st0 (s :: sockets) Hranks) as [weight Hweight].
      rewrite (sum_socket_ranks_ext st0 st _ Hsr), Hweight. cbn.
      pose proof (uniform01_range g) as Hu.
      destruct (uniform01 g) as [u g1]. cbn in Hu.
      set (b := (perturbed weight u / Q_of_nat (length (s :: sockets)))%Q).
      destruct (IH Hwf' (set_barycenter w0 b st) g1 Hsr) as (st' & g' & Hrun & Hsr' & Hcols & Hspec).
      exists st', g'. split; [exact Hrun|]. split; [exact Hsr'|]. split; [exact Hcols|].
      assert (Hw0 : assigned_from fs st0 st' w0).
      { destruct (Hspec w0) as (Ha & Hb & Hc).
        destruct Hb as [Hb|[Hb|[Hb1 Hb2]]]; [assumption| |auto].
        exists (s :: sockets), weight, u. repeat split; try assumption; try apply Hu.
        - discriminate.
        - rewrite Hb. cbn. apply lookup_insert_eq. }
      intros w. destruct (Hspec w) as (Ha & Hb & Hc). split; [|split].
      * intros Hin Hhas. apply elem_of_cons in Hin as [->|Hin]; auto.
      * destruct (decide (w = w0)) as [->|Hne]; [now left|].
        destruct Hb as [Hb|[Hb|[Hb1 Hb2]]]; [now left| |].
        -- right; left. rewrite Hb. cbn. now apply lookup_insert_ne.
        -- right; right. split; [now right|assumption].
      * intros Hn. rewrite Hc.
        -- cbn. apply lookup_insert_ne. intros ->. apply Hn. split; [left|].
           exists s, sockets. exact Hget.
        -- intros [Hin Hhas]. apply Hn. split; [now right|assumption].
Qed.

(** The draws of [calc_barycenters]: the entries with a socket take the
    successive values of the generator, in column order. *)
Lemma calc_barycenters_col_draws (fs : list (nat * list Socket)) (st0 : Store) (col : list nat) :
  (forall w, w ∈ col -> exists sockets, dict_get w fs = Some sockets
       /\ forall s, s ∈ sockets -> is_Some (socket_ranks st0 !! (owner s, s))) ->
  forall (st : Store) (g : rng),
    socket_ranks st = socket_ranks st0 ->
    exists st' g',
      calc_barycenters_col fs col st g = Some (st', g')
      /\ g' = after_draws (length (drawing_elements fs col)) g
      /\ (forall i w,
            drawing_elements fs col !! i = Some w ->
            (forall j, (i < j)%nat -> drawing_elements fs col !! j <> Some w) ->
            exists sockets weight,
              dict_get w fs = Some sockets
              /\ sum_socket_ranks st0 sockets = Some weight
              /\ barycenter st' !! w
                 = Some (perturbed weight (drawn g i) / Q_of_nat (length sockets))%Q)
      /\ (forall w, w ∉ drawing_elements fs col -> barycenter st' !! w = barycenter st !! w).
Proof.
  induction col as [|w0 col IH]; intros Hwf st g Hsr.
  - exists st, g. split; [reflexivity|]. split; [reflexivity|]. split; [|reflexivity].
    intros i w Hi. inversion Hi.
  - destruct (Hwf w0) as (sockets & Hget & Hranks); [left|].
    assert (Hwf' : forall w, w ∈ col -> exists sockets, dict_get w fs = Some sockets
       /\ forall s, s ∈ sockets -> is_Some (socket_ranks st0 !! (owner s, s))).
    { intros w Hw. apply Hwf. now right. }
    cbn [calc_barycenters_col]. rewrite Hget. cbn [mbind option_bind].
    destruct sockets as [|s sockets].
    + assert (Hde : drawing_elements fs (w0 :: col) = drawing_elements fs col).
      { unfold drawing_elements. rewrite filter_cons_False; [reflexivity|].
        unfold has_socketsb. rewrite Hget. discriminate. }
      rewrite Hde. exact (IH Hwf' st g Hsr).
    + assert (Hde : drawing_elements fs (w0 :: col) = w0 :: drawing_elements fs col).
      { unfold drawing_elements. rewrite filter_cons_True; [reflexivity|].
        unfold has_socketsb. rewrite Hget. reflexivity. }
      rewrite Hde.
      destruct (sum_socket_ranks_total st0 (s :: sockets) Hranks) as [weight Hweight].
      rewrite (sum_socket_ranks_ext st0 st _ Hsr), Hweight. cbn [mbind option_bind].
      assert (Hu : drawn g 0 = (uniform01 g).1) by reflexivity.
      assert (Hg : forall n, after_draws (Datatypes.S n) g = after_draws n (uniform01 g).2)
        by reflexivity.
      assert (Hd : forall i, drawn g (Datatypes.S i) = drawn (uniform01 g).2 i) by reflexivity.
      destruct (uniform01 g) as [u g1]. cbn [fst snd] in Hu, Hg, Hd.
      set (b := (perturbed weight u / Q_of_nat (length (s :: sockets)))%Q).
      destruct (IH Hwf' (set_barycenter w0 b st) g1 Hsr) as (st' & g' & Hrun & Hg' & Hat & Hout).
      exists st', g'. split; [exact Hrun|]. split; [|split].
      * cbn [length]. rewrite Hg. exact Hg'.
      * intros [|i] w Hi Hlast.
        -- injection Hi as <-. exists (s :: sockets), weight.
           split; [exact Hget|]. split; [exact Hweight|].
           rewrite Hout.
           ++ rewrite Hu. cbn [set_barycenter barycenter]. apply lookup_insert_eq.
           ++ intros Hin. apply list_elem_of_lookup_1 in Hin as [j Hj].
              apply (Hlast (Datatypes.S j)); [lia|exact Hj].
        -- rewrite Hd. apply Hat; [exact Hi|].
           intros j Hij. apply (Hlast (Datatypes.S j)). lia.
      * intros w Hw. rewrite Hout.
        -- cbn [set_barycenter barycenter]. apply lookup_insert_ne.
           intros ->. apply Hw. left.
        -- intros Hin. apply Hw. now right.
Qed.

Lemma perturbed_bound (weight u : Q) (n : nat) :
  (0 < n)%nat -> (0 <= u <= 1)%Q ->
  (Qabs (perturbed weight u / Q_of_nat n - weight / Q_of_nat n)
   <= (_RANDOM_AMOUNT / 2) / Q_of_nat n)%Q.
Proof.
  intros Hn [Hu0 Hu1].
  assert (Hpos : (0 < Q_of_nat n)%Q) by now apply Q_of_nat_pos.
  assert (E : (perturbed weight u / Q_of_nat n - weight / Q_of_nat n
               == (u * _RANDOM_AMOUNT - _RANDOM_AMOUNT / 2) / Q_of_nat n)%Q).
  { unfold perturbed. field. intros E0. rewrite E0 in Hpos. revert Hpos. apply Qlt_irrefl. }
  rewrite E. unfold Qdiv at 1 3. rewrite Qabs_Qmult.
  rewrite (Qabs_pos (/ Q_of_nat n)) by (apply Qlt_le_weak, Qinv_lt_0_compat, Hpos).
  apply Qmult_le_compat_r; [|apply Qlt_le_weak, Qinv_lt_0_compat, Hpos].
  apply Qabs_Qle_condition. unfold _RANDOM_AMOUNT. clear E Hpos Hn.
  assert (X : ((7 # 100) / 2 == 7 # 200)%Q) by reflexivity.
  rewrite !X. split; lra.
Qed.

(** *** fill_in_unknown_barycenters *)

Lemma fill_random_defines (max_b : Q) (col : list nat) :
  forall (st : Store) (g : rng) (v : nat),
    (v ∈ col \/ is_Some (barycenter st !! v)) ->
    is_Some (barycenter (fill_random max_b col st g).1 !! v).
Proof.
  induction col as [|v0 col IH]; intros st g v Hv; cbn.
  - destruct Hv as [Hv|Hv]; [inversion Hv|exact Hv].
  - destruct (barycenter st !! v0) as [b0|] eqn:E0.
    + apply IH. destruct Hv as [Hv|Hv]; [|now right].
      apply elem_of_cons in Hv as [->|Hv]; [right; rewrite E0; eauto|now left].
    + destruct (uniform01 g) as [u g']. apply IH.
      destruct Hv as [Hv|Hv].
      * apply elem_of_cons in Hv as [->|Hv]; [right|now left].
        cbn. rewrite lookup_insert_eq. eauto.
      * right. cbn. destruct (decide (v = v0)) as [->|Hne].
        -- rewrite lookup_insert_eq. eauto.
        -- now rewrite lookup_insert_ne.
Qed.

Lemma fill_between_defines (col : list nat) :
  forall (prev : option nat) (st : Store),
    (forall p, prev = Some p -> is_Some (barycenter st !! p)) ->
    exists st',
      fill_between prev col st = Some st'
      /\ forall v, (v ∈ col \/ is_Some (barycenter st !! v)) -> is_Some (barycenter st' !! v).
Proof.
  induction col as [|v0 col IH]; intros prev st Hprev; cbn.
  - exists st. split; [reflexivity|]. intros v [Hv|Hv]; [inversion Hv|exact Hv].
  - destruct (barycenter st !! v0) as [b0|] eqn:E0.
    + destruct (IH (Some v0) st) as (st' & Hrun & Hdef).
      { intros p [= <-]. rewrite E0. eauto. }
      exists st'. split; [exact Hrun|]. intros v Hv. apply Hdef.
      destruct Hv as [Hv|Hv]; [|now right].
      apply elem_of_cons in Hv as [->|Hv]; [right; rewrite E0; eauto|now left].
    + assert (Hp : exists prev_b, match prev with
                                  | None => Some 0%Q
                                  | Some p => barycenter st !! p
                                  end = Some prev_b).
      { destruct prev as [p|]; [|eauto]. destruct (Hprev p eq_refl) as [b Hb]. eauto. }
      destruct Hp as [prev_b ->]. cbn.
      match goal with |- context [set_barycenter v0 ?b st] => set (b0 := b) end.
      destruct (IH (Some v0) (set_barycenter v0 b0 st)) as (st' & Hrun & Hdef).
      { intros p [= <-]. cbn. rewrite lookup_insert_eq. eauto. }
      exists st'. split; [exact Hrun|]. intros v Hv. apply Hdef.
      destruct (decide (v = v0)) as [->|Hne].
      * right. cbn. rewrite lookup_insert_eq. eauto.
      * destruct Hv as [Hv|Hv].
        -- apply elem_of_cons in Hv as [->|Hv]; [congruence|now left].
        -- right. cbn. now rewrite lookup_insert_ne.
Qed.

Lemma fill_in_unknown_barycenters_defines (col : list nat) (is_first_iter : bool)
    (st : Store) (g : rng) :
  exists st' g',
    fill_in_unknown_barycenters col is_first_iter st g = Some (st', g')
    /\ forall v, v ∈ col -> is_Some (barycenter st' !! v).
Proof.
  unfold fill_in_unknown_barycenters. destruct is_first_iter.
  - set (max_b := (_ + 2)%Q).
    pose proof (fill_random_defines max_b col st g) as Hdef.
    destruct (fill_random max_b col st g) as [st' g']. exists st', g'.
    split; [reflexivity|]. intros v Hv. apply Hdef. now left.
  - destruct (fill_between_defines col None st) as (st' & Hrun & Hdef); [discriminate|].
    exists st', g. rewrite Hrun. split; [reflexivity|]. intros v Hv. apply Hdef. now left.
Qed.

End Barycenters.

(** C8 as stated fails for an element with more than one socket: with ranks
    1 and 2 (mean 3/2) and the draw [u = 1], the barycenter is
    [(3 + 0.035) / 2 = 1.5175], not [3/2 + 0.035]. *)
Lemma barycenter_shift_is_divided_by_degree :
  exists st' g' b,
    calc_barycenters (R := harmonic_source) two_socket_H two_socket_store 0%nat = Some (st', g')
    /\ fst (uniform01 (RandomSource := harmonic_source) 0%nat) = 1%Q
    /\ barycenter st' !! 2%nat = Some b
    /\ (b == 15175 # 10000)%Q
    /\ ~ (b == (3 # 2) + (1 * _RANDOM_AMOUNT - _RANDOM_AMOUNT / 2))%Q.
Proof.
  eexists. eexists. eexists.
  split; [vm_compute; reflexivity|].
  split; [reflexivity|].
  split; [vm_compute; reflexivity|].
  split; [reflexivity|].
  intros H. vm_compute in H. discriminate.
Qed.

(** C8 (amended).  When every element of the free column has an entry in
    [H.free_sockets] and every such socket has a rank, [calc_barycenters]
    raises no exception and makes one draw for every element that has a
    socket, in column order, leaving the generator after these draws.  The
    element at place [i] among them, with [n >= 1] sockets, gets
    [(sum of the ranks + (u * 0.07 - 0.035)) / n] where [u] is the draw
    number [i] of [uniform(0, 1)] (when an element is listed more than once
    the last assignment stays): the mean of the ranks plus a shift of at
    most [0.035 / n] in absolute value (the shift is added to the sum before
    the division, so its width is 0.07 only for [n = 1]).  An element
    without sockets keeps the barycenter it had (none after a reset), and
    [fill_in_unknown_barycenters] then defines it, in the first and in the
    later iterations. *)
Theorem calc_barycenters_mean_plus_scaled_shift
    {R : RandomSource} (H : ClusterCrossingsData) (st : Store) (g : rng) :
  (forall w, w ∈ free_col H ->
     exists sockets, dict_get w (free_sockets H) = Some sockets
       /\ forall s, s ∈ sockets -> is_Some (socket_ranks st !! (owner s, s))) ->
  exists st' g',
    calc_barycenters H st g = Some (st', g')
    /\ g' = after_draws (length (drawing_elements (free_sockets H) (free_col H))) g
    /\ (forall i w sockets,
          drawing_elements (free_sockets H) (free_col H) !! i = Some w ->
          (forall j, (i < j)%nat ->
             drawing_elements (free_sockets H) (free_col H) !! j <> Some w) ->
          dict_get w (free_sockets H) = Some sockets ->
          exists weight b,
            sum_socket_ranks st sockets = Some weight
            /\ (0 <= drawn g i <= 1)%Q
            /\ barycenter st' !! w = Some b
            /\ b = ((weight + (drawn g i * _RANDOM_AMOUNT - _RANDOM_AMOUNT / 2))
                    / Q_of_nat (length sockets))%Q
            /\ (Qabs (b - weight / Q_of_nat (length sockets))
                <= (_RANDOM_AMOUNT / 2) / Q_of_nat (length sockets))%Q)
    /\ (forall w, w ∈ free_col H -> dict_get w (free_sockets H) = Some [] ->
          barycenter st' !! w = barycenter st !! w)
    /\ forall is_first_iter,
         exists st'' g'',
           fill_in_unknown_barycenters (free_col H) is_first_iter st' g' = Some (st'', g'')
           /\ forall w, w ∈ free_col H -> is_Some (barycenter st'' !! w).
Proof.
  intros Hwf.
  destruct (calc_barycenters_col_draws (free_sockets H) st (free_col H) Hwf st g eq_refl)
    as (st' & g' & Hrun & Hg' & Hat & Hout).
  exists st', g'. split; [exact Hrun|]. split; [exact Hg'|]. split; [|split].
  - intros i w sockets Hi Hlast Hget.
    destruct (Hat i w Hi Hlast) as (sockets' & weight & Hget' & Hsum & Hb).
    rewrite Hget in Hget'. injection Hget' as <-.
    assert (Hn : (0 < length sockets)%nat).
    { apply list_elem_of_lookup_2, list_elem_of_filter in Hi as [Hhas _].
      unfold has_socketsb in Hhas. rewrite Hget in Hhas.
      destruct sockets; [discriminate|cbn; lia]. }
    pose proof (uniform01_range (after_draws i g)) as Hu.
    exists weight, (perturbed weight (drawn g i) / Q_of_nat (length sockets))%Q.
    split; [exact Hsum|]. split; [exact Hu|]. split; [exact Hb|].
    split; [reflexivity|].
    apply perturbed_bound; [exact Hn|exact Hu].
  - intros w _ Hget. apply Hout.
    intros Hin. apply list_elem_of_filter in Hin as [Hhas _].
    unfold has_socketsb in Hhas. rewrite Hget in Hhas. discriminate.
  - intros is_first_iter.
    apply fill_in_unknown_barycenters_defines.
Qed.

Lemma calc_barycenters_mean_plus_scaled_shift_witness :
  exists st' g',
    calc_barycenters (R := harmonic_source) two_socket_H two_socket_store 0%nat = Some (st', g')
    /\ g' = after_draws (R := harmonic_source)
              (length (drawing_elements (free_sockets two_socket_H) (free_col two_socket_H)))
              0%nat
    /\ (forall i w sockets,
          drawing_elements (free_sockets two_socket_H) (free_col two_socket_H) !! i = Some w ->
          (forall j, (i < j)%nat ->
             drawing_elements (free_sockets two_socket_H) (free_col two_socket_H) !! j
             <> Some w) ->
          dict_get w (free_sockets two_socket_H) = Some sockets ->
          exists weight b,
            sum_socket_ranks two_socket_store sockets = Some weight
            /\ (0 <= drawn (R := harmonic_source) 0%nat i <= 1)%Q
            /\ barycenter st' !! w = Some b
            /\ b = ((weight + (drawn (R := harmonic_source) 0%nat i * _RANDOM_AMOUNT
                               - _RANDOM_AMOUNT / 2))
                    / Q_of_nat (length sockets))%Q
            /\ (Qabs (b - weight / Q_of_nat (length sockets))
                <= (_RANDOM_AMOUNT / 2) / Q_of_nat (length sockets))%Q)
    /\ (forall w, w ∈ free_col two_socket_H ->
          dict_get w (free_sockets two_socket_H) = Some [] ->
          barycenter st' !! w = barycenter two_socket_store !! w)
    /\ forall is_first_iter,
         exists st'' g'',
           fill_in_unknown_barycenters (R := harmonic_source)
             (free_col two_socket_H) is_first_iter st' g' = Some (st'', g'')
           /\ forall w, w ∈ free_col two_socket_H -> is_Some (barycenter st'' !! w).
Proof.
  apply (calc_barycenters_mean_plus_scaled_shift (R := harmonic_source)
           two_socket_H two_socket_store 0%nat).
  intros w Hw. cbn in Hw.
  apply elem_of_cons in Hw as [->|Hw].
  - exists [socket_a; socket_b]. split; [reflexivity|].
    intros s Hs. apply elem_of_cons in Hs as [->|Hs]; [vm_compute; eauto|].
    apply list_elem_of_singleton in Hs as ->. vm_compute; eauto.
  - apply list_elem_of_singleton in Hw as ->.
    exists []. split; [reflexivity|]. intros s Hs. inversion Hs.
Defined.

(** *** The constraint graph *)

Lemma elem_of_succs (G : DiGraph) (v t : nat) : t ∈ succs G v <-> (v, t) ∈ edges G.
Proof.
  unfold succs. rewrite list_elem_of_fmap. split.
  - intros ([a b] & -> & Hin). apply list_elem_of_filter in Hin as [E Hin].
    cbn in E. now subst a.
  - intros Hin. exists (v, t). split; [reflexivity|].
    apply list_elem_of_filter. now split.
Qed.

Lemma elem_of_preds (G : DiGraph) (v u : nat) : u ∈ preds G v <-> (u, v) ∈ edges G.
Proof.
  unfold preds. rewrite list_elem_of_fmap. split.
  - intros ([a b] & -> & Hin). apply list_elem_of_filter in Hin as [E Hin].
    cbn in E. now subst b.
  - intros Hin. exists (u, v). split; [reflexivity|].
    apply list_elem_of_filter. now split.
Qed.

Lemma add_node_nodes (v : nat) (G : DiGraph) (w : nat) :
  w ∈ nodes (add_node v G) <-> w = v \/ w ∈ nodes G.
Proof.
  unfold add_node. case_bool_decide as Hv; cbn.
  - split; [now right|]. intros [->|Hw]; assumption.
  - rewrite elem_of_app, list_elem_of_singleton. tauto.
Qed.

Lemma add_node_edges (v : nat) (G : DiGraph) : edges (add_node v G) = edges G.
Proof. unfold add_node. case_bool_decide; reflexivity. Qed.

Lemma add_node_NoDup (v : nat) (G : DiGraph) : NoDup (nodes G) -> NoDup (nodes (add_node v G)).
Proof.
  intros Hnd. unfold add_node. case_bool_decide as Hv; cbn; [assumption|].
  apply NoDup_app. split; [assumption|]. split; [|apply NoDup_singleton].
  intros w Hw Hw'. apply list_elem_of_singleton in Hw' as ->. contradiction.
Qed.

Lemma add_edge_nodes (u v : nat) (G : DiGraph) (w : nat) :
  w ∈ nodes (add_edge u v G) <-> w = u \/ w = v \/ w ∈ nodes G.
Proof.
  unfold add_edge. cbv zeta.
  assert (E : forall G', nodes (if bool_decide ((u, v) ∈ edges G') then G'
                                else mkG (nodes G') (edges G' ++ [(u, v)])) = nodes G').
  { intros G'. case_bool_decide; reflexivity. }
  rewrite E, !add_node_nodes. tauto.
Qed.

Lemma add_edge_edges (u v : nat) (G : DiGraph) (e : nat * nat) :
  e ∈ edges (add_edge u v G) <-> e = (u, v) \/ e ∈ edges G.
Proof.
  unfold add_edge. cbv zeta. case_bool_decide as He; cbn.
  - rewrite !add_node_edges in *. split; [now right|]. intros [->|H]; assumption.
  - rewrite elem_of_app, list_elem_of_singleton, !add_node_edges. tauto.
Qed.

Lemma add_edge_wf (u v : nat) (G : DiGraph) : wf_graph G -> wf_graph (add_edge u v G).
Proof.
  intros [Hnd He]. split.
  - unfold add_edge. cbv zeta.
    assert (Hn : NoDup (nodes (add_node v (add_node u G)))) by now do 2 apply add_node_NoDup.
    case_bool_decide; exact Hn.
  - intros a b Hab. rewrite !add_edge_nodes.
    apply add_edge_edges in Hab as [[= -> ->]|Hab]; [tauto|].
    apply He in Hab. tauto.
Qed.

Lemma add_edge_same_nodes (u v : nat) (G : DiGraph) :
  u ∈ nodes G -> v ∈ nodes G -> nodes (add_edge u v G) = nodes G.
Proof.
  intros Hu Hv. unfold add_edge, add_node. cbv zeta.
  rewrite (bool_decide_eq_true_2 _ Hu), (bool_decide_eq_true_2 _ Hv).
  case_bool_decide; reflexivity.
Qed.

Lemma add_edge_new_target (u v : nat) (G : DiGraph) :
  u ∈ nodes G -> v ∉ nodes G -> nodes (add_edge u v G) = nodes G ++ [v].
Proof.
  intros Hu Hv. unfold add_edge, add_node. cbv zeta.
  rewrite (bool_decide_eq_true_2 _ Hu), (bool_decide_eq_false_2 _ Hv).
  case_bool_decide; reflexivity.
Qed.

Lemma add_edges_from_wf (l : list (nat * nat)) :
  forall G, wf_graph G -> wf_graph (add_edges_from l G).
Proof.
  unfold add_edges_from. induction l as [|e l IH]; intros G HG; cbn; [assumption|].
  apply IH. now apply add_edge_wf.
Qed.

Lemma empty_graph_wf : wf_graph empty_graph.
Proof. split; [constructor|]. intros u v H. inversion H. Qed.

(** Rewiring the predecessors of [s] and [t] to a new node adds exactly that
    node. *)
Lemma rewire_nodes (v_c : nat) (us : list nat) :
  forall G, us <> [] -> (forall u, u ∈ us -> u ∈ nodes G) -> v_c ∉ nodes G ->
    nodes (foldl (fun G u => add_edge u v_c G) G us) = nodes G ++ [v_c].
Proof.
  assert (Hsame : forall us G, (forall u, u ∈ us -> u ∈ nodes G) -> v_c ∈ nodes G ->
            nodes (foldl (fun G u => add_edge u v_c G) G us) = nodes G).
  { clear us. induction us as [|u us IH]; intros G Hus Hv; cbn; [reflexivity|].
    assert (E : nodes (add_edge u v_c G) = nodes G).
    { apply add_edge_same_nodes; [apply Hus; left|assumption]. }
    rewrite IH; [exact E|rewrite E; intros w Hw; apply Hus; now right|now rewrite E]. }
  intros G Hne Hus Hv. destruct us as [|u us]; [congruence|]. cbn.
  assert (E : nodes (add_edge u v_c G) = nodes G ++ [v_c]).
  { apply add_edge_new_target; [apply Hus; left|assumption]. }
  rewrite Hsame; [exact E| |].
  - rewrite E. intros w Hw. apply elem_of_app. left. apply Hus. now right.
  - rewrite E. apply elem_of_app. right. left.
Qed.

Lemma rewire_wf (v_c : nat) (us : list nat) :
  forall G, wf_graph G -> wf_graph (foldl (fun G u => add_edge u v_c G) G us).
Proof.
  induction us as [|u us IH]; intros G HG; cbn; [assumption|].
  apply IH. now apply add_edge_wf.
Qed.

Lemma remove_node_wf (v : nat) (G : DiGraph) : wf_graph G -> wf_graph (remove_node v G).
Proof.
  intros [Hnd He]. split; cbn.
  - now apply NoDup_filter.
  - intros a b Hab. apply list_elem_of_filter in Hab as [[Ha Hb] Hab]. cbn in Ha, Hb.
    apply He in Hab as [Ha' Hb']. rewrite !list_elem_of_filter. tauto.
Qed.

Lemma length_filter_remove (v : nat) (l : list nat) :
  NoDup l -> v ∈ l -> Datatypes.S (length (filter (fun w => w <> v) l)) = length l.
Proof.
  induction 1 as [|x l Hx Hnd IH]; intros Hv; [inversion Hv|].
  destruct (decide (x = v)) as [->|Hne].
  - rewrite filter_cons_False by tauto. cbn. f_equal.
    clear IH Hv. induction l as [|y l IH]; [reflexivity|].
    apply not_elem_of_cons in Hx as [Hy Hx]. apply NoDup_cons in Hnd as [_ Hnd].
    rewrite filter_cons_True by congruence. cbn. f_equal. now apply IH.
  - rewrite filter_cons_True by assumption. cbn. f_equal. apply IH.
    apply elem_of_cons in Hv as [->|Hv]; [congruence|assumption].
Qed.

(** *** find_violated_constraint *)

Lemma incoming_of_insert (inc : gmap nat (list (nat * nat))) (t t' : nat) (cs : list (nat * nat)) :
  incoming_of (<[t := cs]> inc) t' = if decide (t = t') then cs else incoming_of inc t'.
Proof.
  unfold incoming_of. destruct (decide (t = t')) as [->|Hne].
  - now rewrite lookup_insert_eq.
  - now rewrite lookup_insert_ne.
Qed.

Lemma first_violated_spec (b : gmap nat Q) (v : nat) (cs : list (nat * nat)) :
  is_Some (b !! v) -> (forall c, c ∈ cs -> is_Some (b !! c.1)) ->
  exists r, first_violated b v cs = Some r /\ forall c, r = Some c -> c ∈ cs.
Proof.
  intros [bv Hbv]. induction cs as [|c cs IH]; intros Hcs; cbn.
  - exists None. split; [reflexivity|discriminate].
  - destruct (Hcs c) as [bs Hbs]; [left|]. rewrite Hbs, Hbv. cbn.
    destruct (Qle_bool bv bs).
    + exists (Some c). split; [reflexivity|]. intros c' [= <-]. left.
    + destruct IH as (r & Hr & Hin); [intros c' Hc'; apply Hcs; now right|].
      exists r. split; [exact Hr|]. intros c' Hc'. right. now apply Hin.
Qed.

Lemma push_constraints_inv (G : DiGraph) (v : nat) (done : list nat) :
  wf_graph G -> v ∈ done ->
  forall ts active inc,
    (forall t, t ∈ ts -> (v, t) ∈ edges G) ->
    worklist_inv G done active inc ->
    worklist_inv G done (push_constraints G v ts active inc).1
                        (push_constraints G v ts active inc).2.
Proof.
  intros [_ Hedges] Hv.
  induction ts as [|t ts IH]; intros active inc Hts Hinv; cbn [push_constraints]; [assumption|].
  apply IH; [intros t' Ht'; apply Hts; now right|].
  destruct Hinv as (Hnd & Hnodes & Hdeg & Hinc).
  set (cs := (v, t) :: incoming_of inc t).
  assert (Hvt : (v, t) ∈ edges G) by (apply Hts; left).
  assert (Hinc' : forall t' c, c ∈ incoming_of (<[t := cs]> inc) t' ->
                    c.2 = t' /\ c.1 ∈ done /\ c ∈ edges G).
  { intros t' c. rewrite incoming_of_insert. destruct (decide (t = t')) as [<-|Hne]; [|apply Hinc].
    unfold cs. intros Hc. apply elem_of_cons in Hc as [->|Hc]; [cbn; auto|now apply Hinc]. }
  assert (Hlen : forall t', (length (incoming_of inc t')
                             <= length (incoming_of (<[t := cs]> inc) t'))%nat).
  { intros t'. rewrite incoming_of_insert. destruct (decide (t = t')) as [<-|Hne]; [|lia].
    unfold cs. cbn. lia. }
  destruct (decide (length cs = in_degree G t)) as [Heq|Hneq].
  - assert (Hnew : t ∉ active ++ done).
    { intros Hin. apply Hdeg in Hin. unfold cs in Heq. cbn in Heq. lia. }
    split; [|split; [|split]].
    + rewrite <- app_assoc. cbn.
      rewrite <- (Permutation_middle active done t).
      apply NoDup_cons. split; assumption.
    + intros w Hw. rewrite <- app_assoc in Hw. cbn in Hw.
      apply elem_of_app in Hw as [Hw|Hw].
      * apply Hnodes. apply elem_of_app. now left.
      * apply elem_of_cons in Hw as [->|Hw]; [apply (Hedges v t Hvt)|].
        apply Hnodes. apply elem_of_app. now right.
    + intros w Hw. rewrite <- app_assoc in Hw. cbn in Hw.
      destruct (decide (w = t)) as [->|Hne].
      * rewrite incoming_of_insert, decide_True by reflexivity. lia.
      * etransitivity; [|apply Hlen]. apply Hdeg.
        apply elem_of_app in Hw as [Hw|Hw]; [apply elem_of_app; now left|].
        apply elem_of_cons in Hw as [->|Hw]; [congruence|apply elem_of_app; now right].
    + exact Hinc'.
  - split; [assumption|]. split; [assumption|]. split; [|exact Hinc'].
    intros w Hw. etransitivity; [|apply Hlen]. now apply Hdeg.
Qed.

Lemma find_violated_loop_total (G : DiGraph) (b : gmap nat Q) :
  wf_graph G -> (forall v, v ∈ nodes G -> is_Some (b !! v)) ->
  forall fuel active inc done,
    worklist_inv G done active inc ->
    (length (nodes G) <= fuel + length done)%nat ->
    exists r, find_violated_loop fuel G b active inc = Some r
              /\ forall c, r = Some c -> c ∈ edges G /\ c.1 <> c.2.
Proof.
  intros HG Hb. induction fuel as [|fuel IH]; intros active inc done Hinv Hfuel.
  - destruct active as [|v active]; cbn.
    + exists None. split; [reflexivity|discriminate].
    + exfalso. destruct Hinv as (Hnd & Hnodes & _).
      assert (Hle : (length ((v :: active) ++ done) <= length (nodes G))%nat).
      { apply NoDup_incl_length.
        - apply NoDup_ListNoDup. exact Hnd.
        - intros w Hw. apply list_elem_of_In. apply Hnodes. now apply list_elem_of_In. }
      rewrite length_app in Hle. cbn in Hle, Hfuel. lia.
  - destruct active as [|v active]; cbn.
    + exists None. split; [reflexivity|discriminate].
    + pose proof Hinv as (Hnd & Hnodes & Hdeg & Hinc).
      assert (Hvn : v ∈ nodes G) by (apply Hnodes; left).
      assert (Hvd : v ∉ done).
      { cbn in Hnd. apply NoDup_cons in Hnd as [Hv _]. intros Hin. apply Hv.
        apply elem_of_app. now right. }
      destruct (first_violated_spec b v (incoming_of inc v)) as (r & Hr & Hrin).
      { now apply Hb. }
      { intros c Hc. apply Hb. destruct (Hinc v c Hc) as (_ & Hc1 & _).
        apply Hnodes. apply elem_of_app. now right. }
      rewrite Hr. cbn. destruct r as [c|].
      * exists (Some c). split; [reflexivity|]. intros c' [= <-].
        destruct (Hinc v c (Hrin c eq_refl)) as (Hc2 & Hc1 & Hce).
        split; [exact Hce|]. rewrite Hc2. intros E. rewrite E in Hc1. contradiction.
      * assert (Hinv' : worklist_inv G (v :: done) active inc).
        { split; [|split; [|split]].
          - rewrite <- (Permutation_middle active done v). exact Hnd.
          - intros w Hw. apply Hnodes. cbn.
            apply elem_of_app in Hw as [Hw|Hw].
            + right. apply elem_of_app. now left.
            + apply elem_of_cons in Hw as [->|Hw]; [left|right; apply elem_of_app; now right].
          - intros w Hw. apply Hdeg. cbn.
            apply elem_of_app in Hw as [Hw|Hw].
            + right. apply elem_of_app. now left.
            + apply elem_of_cons in Hw as [->|Hw]; [left|right; apply elem_of_app; now right].
          - intros t c Hc. destruct (Hinc t c Hc) as (H1 & H2 & H3).
            split; [exact H1|]. split; [now right|exact H3]. }
        pose proof (push_constraints_inv G v (v :: done) HG ltac:(left)
                      (succs G v) active inc
                      (fun t Ht => proj1 (elem_of_succs G v t) Ht) Hinv') as Hpush.
        destruct (push_constraints G v (succs G v) active inc) as [active' inc'].
        apply (IH active' inc' (v :: done) Hpush). cbn. lia.
Qed.

Lemma find_violated_constraint_total (G : DiGraph) (b : gmap nat Q) :
  wf_graph G -> (forall v, v ∈ nodes G -> is_Some (b !! v)) ->
  exists r, find_violated_constraint G b = Some r
            /\ forall c, r = Some c -> c ∈ edges G /\ c.1 <> c.2.
Proof.
  intros HG Hb. unfold find_violated_constraint.
  apply (find_violated_loop_total G b HG Hb _ _ _ []); [|cbn; lia].
  unfold worklist_inv. rewrite app_nil_r. split; [|split; [|split]].
  - apply NoDup_filter. apply HG.
  - intros v Hv. now apply list_elem_of_filter in Hv as [_ Hv].
  - intros t Ht. apply list_elem_of_filter in Ht as [[_ Hp] _].
    unfold in_degree. rewrite Hp. cbn. lia.
  - intros t c Hc. unfold incoming_of in Hc. rewrite lookup_empty in Hc. inversion Hc.
Qed.

(** *** The loop of handle_constraints *)

Lemma two_le_length (l : list nat) (s t : nat) :
  NoDup l -> s ∈ l -> t ∈ l -> s <> t -> (2 <= length l)%nat.
Proof.
  intros Hnd Hs Ht Hne.
  pose proof (length_filter_remove s l Hnd Hs) as E.
  assert (Ht' : t ∈ filter (fun w => w <> s) l) by (apply list_elem_of_filter; split; congruence).
  destruct (filter (fun w => w <> s) l); [inversion Ht'|]. cbn in E. lia.
Qed.

Lemma merge_constraint_spec (c : nat * nat) (r : Resolution) :
  wf_resolution r -> c ∈ edges (GC r) -> c.1 <> c.2 ->
  exists r1, merge_constraint c r = Some r1
             /\ wf_resolution r1
             /\ Datatypes.S (length (nodes (GC r1))) = length (nodes (GC r)).
Proof.
  intros (HG & Hdef & Hfresh) Hc Hne. destruct c as [s t]. cbn in Hne.
  pose proof HG as [Hnd Hedges].
  destruct (Hedges s t Hc) as [Hs Ht].
  destruct (Hdef s Hs) as ([bs Hbs] & [ds Hds] & [ls Hls]).
  destruct (Hdef t Ht) as ([bt Hbt] & [dt Hdt] & [lt Hlt]).
  unfold merge_constraint. rewrite Hds, Hdt, Hbs, Hbt, Hls, Hlt. cbn.
  set (v_c := fresh r).
  set (G1 := foldl (fun G u => add_edge u v_c G) (GC r) (preds (GC r) s ++ preds (GC r) t)).
  set (G2 := remove_nodes_from [s; t] G1).
  set (G3 := if bool_decide ((v_c, v_c) ∈ edges G2) then remove_edge v_c v_c G2 else G2).
  assert (Hvc : v_c ∉ nodes (GC r)).
  { intros Hin. apply Hfresh in Hin. unfold v_c in Hin. lia. }
  assert (HG1n : nodes G1 = nodes (GC r) ++ [v_c]).
  { apply rewire_nodes; [| |exact Hvc].
    - assert (Hin : s ∈ preds (GC r) s ++ preds (GC r) t).
      { apply elem_of_app. right. now apply elem_of_preds. }
      intros E. rewrite E in Hin. inversion Hin.
    - intros u Hu. apply elem_of_app in Hu as [Hu|Hu];
        apply elem_of_preds in Hu; now apply Hedges in Hu. }
  assert (HG1 : wf_graph G1) by now apply rewire_wf.
  assert (HG2 : wf_graph G2) by (cbn; now do 2 apply remove_node_wf).
  assert (HG2n : nodes G2 = filter (fun w => w <> t) (filter (fun w => w <> s) (nodes G1)))
    by reflexivity.
  assert (HG3n : nodes G3 = nodes G2) by (unfold G3; case_bool_decide; reflexivity).
  assert (HG3 : wf_graph G3).
  { unfold G3. case_bool_decide; [|exact HG2]. destruct HG2 as [Hnd2 He2].
    split; [exact Hnd2|]. intros a b Hab. cbn in Hab.
    apply list_elem_of_filter in Hab as [_ Hab]. now apply He2. }
  assert (Hsub : forall v, v ∈ nodes G3 -> v = v_c \/ v ∈ nodes (GC r)).
  { intros v. rewrite HG3n, HG2n, !list_elem_of_filter, HG1n, elem_of_app, list_elem_of_singleton.
    tauto. }
  exists (mkRes G3
            (if bool_decide (v_c ∈ nodes G3) then unconstrained r else unconstrained r ++ [v_c])
            (<[v_c := ls ++ lt]> (L r)) (<[v_c := (ds + dt)%nat]> (deg r))
            (<[v_c := if decide (0 < ds + dt)%nat
                      then ((bs * Q_of_nat ds + bt * Q_of_nat dt) / Q_of_nat (ds + dt))%Q
                      else ((bs + bt) / 2)%Q]> (bary r))
            (Datatypes.S v_c)).
  split; [reflexivity|]. split; [split; [|split]|]; cbn [GC bary deg L fresh].
  - exact HG3.
  - intros v Hv. destruct (decide (v = v_c)) as [->|Hnev].
    + rewrite !lookup_insert_eq. eauto.
    + rewrite !lookup_insert_ne by congruence. apply Hdef.
      destruct (Hsub v Hv); [contradiction|assumption].
  - intros v Hv. destruct (Hsub v Hv) as [Hin|Hin].
    + rewrite Hin. apply Nat.lt_succ_diag_r.
    + apply Hfresh in Hin. apply Nat.lt_lt_succ_r. exact Hin.
  - rewrite HG3n, HG2n.
    assert (Hs1 : s ∈ nodes G1) by (rewrite HG1n; apply elem_of_app; now left).
    assert (Ht1 : t ∈ filter (fun w => w <> s) (nodes G1)).
    { apply list_elem_of_filter. split; [congruence|]. rewrite HG1n. apply elem_of_app; now left. }
    pose proof (length_filter_remove s (nodes G1) (proj1 HG1) Hs1) as E1.
    pose proof (length_filter_remove t _ (NoDup_filter _ _ (proj1 HG1)) Ht1) as E2.
    assert (E0 : length (nodes G1) = Datatypes.S (length (nodes (GC r))))
      by (rewrite HG1n, length_app; cbn; lia).
    lia.
Qed.

Lemma resolve_constraints_total :
  forall fuel r,
    wf_resolution r -> (length (nodes (GC r)) <= Datatypes.S fuel)%nat ->
    exists r' n,
      resolve_constraints fuel r = Some (r', n)
      /\ (n <= length (nodes (GC r)) - 1)%nat
      /\ wf_resolution r'
      /\ find_violated_constraint (GC r') (bary r') = Some None.
Proof.
  induction fuel as [|fuel IH]; intros r Hwf Hfuel.
  - pose proof Hwf as (HG & Hdef & _).
    destruct (find_violated_constraint_total (GC r) (bary r) HG) as (c & Hfind & Hc).
    { intros v Hv. now apply Hdef. }
    cbn. rewrite Hfind. cbn. destruct c as [c|].
    + exfalso. destruct (Hc c eq_refl) as [Hin Hne]. destruct c as [s t].
      destruct (proj2 HG s t Hin) as [Hs Ht].
      pose proof (two_le_length _ s t (proj1 HG) Hs Ht Hne). lia.
    + exists r, O. split; [reflexivity|]. split; [lia|]. split; [exact Hwf|exact Hfind].
  - pose proof Hwf as (HG & Hdef & _).
    destruct (find_violated_constraint_total (GC r) (bary r) HG) as (c & Hfind & Hc).
    { intros v Hv. now apply Hdef. }
    cbn [resolve_constraints]. rewrite Hfind. cbn. destruct c as [c|].
    + destruct (Hc c eq_refl) as [Hin Hne].
      destruct (merge_constraint_spec c r Hwf Hin Hne) as (r1 & Hmerge & Hwf1 & Hlen).
      rewrite Hmerge. cbn.
      destruct (IH r1 Hwf1) as (r' & n & Hrun & Hn & Hwf' & Hdone); [lia|].
      rewrite Hrun. cbn. exists r', (Datatypes.S n).
      split; [reflexivity|]. split; [|split; assumption].
      destruct c as [s t]. destruct (proj2 HG s t Hin) as [Hs Ht].
      pose proof (two_le_length _ s t (proj1 HG) Hs Ht Hne). lia.
    + exists r, O. split; [reflexivity|]. split; [lia|]. split; [exact Hwf|exact Hfind].
Qed.

Lemma list_max_nat_ge (l : list nat) (v : nat) : v ∈ l -> (v <= list_max_nat l)%nat.
Proof.
  induction l as [|x l IH]; intros Hv; [inversion Hv|].
  change (list_max_nat (x :: l)) with (Nat.max x (list_max_nat l)).
  apply elem_of_cons in Hv as [->|Hv]; [lia|]. apply IH in Hv. lia.
Qed.

Lemma elem_of_pairwise {A : Type} (l : list A) (x y : A) :
  (x, y) ∈ pairwise l -> x ∈ l /\ y ∈ l.
Proof.
  induction l as [|a l IH]; cbn; [intros H; inversion H|].
  destruct l as [|b l]; [intros H; inversion H|].
  intros H. apply elem_of_cons in H as [[= -> ->]|H].
  - split; [left|right; left].
  - apply IH in H as [Hx Hy]. split; now right.
Qed.

Lemma add_edges_from_nodes (l : list (nat * nat)) :
  forall G v, v ∈ nodes (add_edges_from l G) ->
    v ∈ nodes G \/ exists e, e ∈ l /\ (v = e.1 \/ v = e.2).
Proof.
  unfold add_edges_from. induction l as [|e l IH]; intros G v Hv; cbn in Hv; [now left|].
  apply IH in Hv as [Hv|(e' & He' & Hv)].
  - apply add_edge_nodes in Hv as [->|[->|Hv]].
    + right. exists e. split; [left|now left].
    + right. exists e. split; [left|now right].
    + now left.
  - right. exists e'. split; [now right|exact Hv].
Qed.

(** The state in which [handle_constraints] enters its loop is well formed
    when the constrained clusters are free elements with a barycenter. *)
Lemma resolution_init_wf (H : ClusterCrossingsData) (st : Store) :
  (forall v, v ∈ constrained_clusters H -> v ∈ free_col H) ->
  (forall v, v ∈ free_col H -> is_Some (barycenter st !! v)) ->
  wf_resolution (resolution_init H st).
Proof.
  intros Hcc Hb.
  set (G0 := add_edges_from (pairwise (constrained_clusters H)) empty_graph).
  assert (HG0 : wf_graph G0) by apply add_edges_from_wf, empty_graph_wf.
  assert (Hn : forall v, v ∈ nodes G0 -> v ∈ free_col H).
  { intros v Hv. apply add_edges_from_nodes in Hv as [Hv|([a b] & He & Hv)]; [inversion Hv|].
    apply elem_of_pairwise in He as [Ha Hb']. cbn in Hv. destruct Hv as [-> | ->]; now apply Hcc. }
  split; [exact HG0|]. split; cbn [resolution_init GC bary deg L fresh]; fold G0.
  - intros v Hv. split; [apply Hb, Hn, Hv|]. split.
    + destruct (list_to_map ((fun v => (v, degree (graph H) v)) <$> nodes G0) !! v) eqn:E; [eauto|].
      exfalso. apply not_elem_of_list_to_map in E. apply E.
      rewrite <- list_fmap_compose. apply list_elem_of_fmap. exists v. split; [reflexivity|exact Hv].
    + destruct (list_to_map ((fun v => (v, [v])) <$> free_col H) !! v) eqn:E; [eauto|].
      exfalso. apply (not_elem_of_list_to_map (M := gmap nat)) in E. apply E.
      rewrite <- list_fmap_compose. apply list_elem_of_fmap. exists v. split; [reflexivity|].
      apply Hn, Hv.
  - intros v Hv. apply Nat.lt_succ_r. apply list_max_nat_ge. apply elem_of_app. now right.
Qed.

(** C4.  In every well-formed state of the loop of [handle_constraints] (any
    finite constraint graph whose nodes carry a barycenter), a violated
    constraint is merged into a state that is well formed again and has
    strictly fewer constraint-graph nodes; hence the loop ends, returning no
    violated constraint, after at most (node count - 1) merges. *)
Theorem constraint_loop_terminates (r : Resolution) :
  wf_resolution r ->
  (forall c, find_violated_constraint (GC r) (bary r) = Some (Some c) ->
     exists r1, merge_constraint c r = Some r1 /\ wf_resolution r1
                /\ (length (nodes (GC r1)) < length (nodes (GC r)))%nat)
  /\ forall fuel, (length (nodes (GC r)) - 1 <= fuel)%nat ->
       exists r' n, resolve_constraints fuel r = Some (r', n)
         /\ (n <= length (nodes (GC r)) - 1)%nat
         /\ find_violated_constraint (GC r') (bary r') = Some None.
Proof.
  intros Hwf. split.
  - intros c Hfind. pose proof Hwf as (HG & Hdef & _).
    destruct (find_violated_constraint_total (GC r) (bary r) HG) as (c' & Hfind' & Hc).
    { intros v Hv. now apply Hdef. }
    rewrite Hfind in Hfind'. injection Hfind' as <-.
    destruct (Hc c eq_refl) as [Hin Hne].
    destruct (merge_constraint_spec c r Hwf Hin Hne) as (r1 & Hmerge & Hwf1 & Hlen).
    exists r1. split; [exact Hmerge|]. split; [exact Hwf1|lia].
  - intros fuel Hfuel.
    destruct (resolve_constraints_total fuel r Hwf) as (r' & n & Hrun & Hn & _ & Hdone); [lia|].
    exists r', n. auto.
Qed.

Lemma constraint_loop_terminates_witness :
  (forall c, find_violated_constraint (GC (resolution_init abc_H abc_store))
                                      (bary (resolution_init abc_H abc_store)) = Some (Some c) ->
     exists r1, merge_constraint c (resolution_init abc_H abc_store) = Some r1 /\ wf_resolution r1
                /\ (length (nodes (GC r1))
                    < length (nodes (GC (resolution_init abc_H abc_store))))%nat)
  /\ forall fuel, (length (nodes (GC (resolution_init abc_H abc_store))) - 1 <= fuel)%nat ->
       exists r' n, resolve_constraints fuel (resolution_init abc_H abc_store) = Some (r', n)
         /\ (n <= length (nodes (GC (resolution_init abc_H abc_store))) - 1)%nat
         /\ find_violated_constraint (GC r') (bary r') = Some None.
Proof.
  apply (constraint_loop_terminates (resolution_init abc_H abc_store)).
  apply resolution_init_wf.
  - intros v Hv. exact Hv.
  - intros v Hv. cbn in Hv.
    apply elem_of_cons in Hv as [->|Hv]; [vm_compute; eauto|].
    apply elem_of_cons in Hv as [->|Hv]; [vm_compute; eauto|].
    apply list_elem_of_singleton in Hv as ->. vm_compute; eauto.
Defined.

(** C2 (evaluation of the code at the failing input).  For the forced order
    A < B < C with barycenters 3, 2, 1, [handle_constraints] merges A and B,
    loses the constraint B < C with the removal of B, and ranks C first:
    rank(C) = 0, rank(A) = 1, rank(B) = 2.  The ranks are dense, but
    rank(B) < rank(C) fails. *)
Theorem handle_constraints_loses_successor_constraint :
  exists st',
    handle_constraints abc_H abc_store = Some st'
    /\ barycenter st' !! 0%nat = Some 1%Q
    /\ barycenter st' !! 1%nat = Some 2%Q
    /\ barycenter st' !! 2%nat = Some 0%Q
    /\ (resolve_constraints 3 (resolution_init abc_H abc_store)
        ≫= fun p => Some (nodes (GC p.1), edges (GC p.1), p.2))
       = Some ([2%nat; 3%nat], [], 1%nat).
Proof.
  eexists. split; [vm_compute; reflexivity|].
  repeat split; vm_compute; reflexivity.
Qed.

(** *** The accumulator tree of get_cross_count *)

Lemma leaf_weight_cons (k : nat) (e : nat * Z) (l : list (nat * Z)) (a b : nat) :
  leaf_weight k (e :: l) a b
  = ((if decide (a <= e.1 + 2 ^ k < b)%nat then e.2 else 0) + leaf_weight k l a b)%Z.
Proof. unfold leaf_weight. cbn [foldr]. destruct (decide _); lia. Qed.

Lemma leaf_weight_split (k : nat) (l : list (nat * Z)) (a b c : nat) :
  (a <= b)%nat -> (b <= c)%nat ->
  leaf_weight k l a c = (leaf_weight k l a b + leaf_weight k l b c)%Z.
Proof.
  intros Hab Hbc. induction l as [|e l IH]; [reflexivity|].
  rewrite !leaf_weight_cons, IH.
  repeat destruct (decide _); lia.
Qed.

Lemma leaf_weight_empty (k : nat) (l : list (nat * Z)) (a b : nat) :
  (b <= a)%nat -> leaf_weight k l a b = 0%Z.
Proof.
  intros Hba. induction l as [|e l IH]; [reflexivity|].
  rewrite leaf_weight_cons, IH. destruct (decide _); lia.
Qed.

Lemma pow2_pos (n : nat) : (0 < 2 ^ n)%nat.
Proof. apply Nat.neq_0_lt_0, Nat.pow_nonzero. discriminate. Qed.

Lemma pow2_succ_sub (k d : nat) : (d < k)%nat -> (2 ^ (k - d) = 2 * 2 ^ (k - Datatypes.S d))%nat.
Proof.
  intros Hd. replace (k - d)%nat with (Datatypes.S (k - Datatypes.S d)) by lia.
  apply Nat.pow_succ_r'.
Qed.

(** A node number determines its depth. *)
Lemma is_node_depth (d d' m : nat) : is_node d m -> is_node d' m -> d = d'.
Proof.
  unfold is_node. intros [H1 H2] [H3 H4].
  destruct (Nat.lt_trichotomy d d') as [Hlt|[->|Hlt]]; [exfalso|reflexivity|exfalso].
  - assert (2 ^ (d + 1) <= 2 ^ d')%nat by (apply Nat.pow_le_mono_r; lia). lia.
  - assert (2 ^ (d' + 1) <= 2 ^ d)%nat by (apply Nat.pow_le_mono_r; lia). lia.
Qed.

Lemma is_node_parent (d m : nat) : is_node (Datatypes.S d) m -> is_node d (m / 2).
Proof.
  unfold is_node. replace (Datatypes.S d + 1)%nat with (Datatypes.S (d + 1)) by lia.
  rewrite !Nat.pow_succ_r'. replace (d + 1)%nat with (Datatypes.S d) by lia.
  rewrite Nat.pow_succ_r'. intros [H1 H2]. split.
  - apply Nat.div_le_lower_bound; lia.
  - apply Nat.Div0.div_lt_upper_bound. lia.
Qed.

Lemma is_node_sibling (d m : nat) :
  is_node (Datatypes.S d) m -> (m mod 2 = 0)%nat -> is_node (Datatypes.S d) (m + 1).
Proof.
  unfold is_node. replace (Datatypes.S d + 1)%nat with (Datatypes.S (d + 1)) by lia.
  rewrite !Nat.pow_succ_r'. intros [H1 H2] Hev. split; [lia|].
  pose proof (Nat.div_mod_eq m 2). lia.
Qed.

(** The leaves below a node and below its parent. *)
Lemma node_range_parent (k d m : nat) :
  (Datatypes.S d <= k)%nat ->
  node_lo k d (m / 2) = (node_lo k (Datatypes.S d) m - (m mod 2) * 2 ^ (k - Datatypes.S d))%nat
  /\ node_hi k d (m / 2)
     = (node_hi k (Datatypes.S d) m + (1 - m mod 2) * 2 ^ (k - Datatypes.S d))%nat
  /\ node_hi k (Datatypes.S d) m = (node_lo k (Datatypes.S d) m + 2 ^ (k - Datatypes.S d))%nat.
Proof.
  intros Hd. unfold node_lo, node_hi. rewrite (pow2_succ_sub k d) by lia.
  set (P := (2 ^ (k - Datatypes.S d))%nat).
  pose proof (Nat.div_mod_eq m 2) as E.
  assert (Hm : (m mod 2 < 2)%nat) by (apply Nat.mod_upper_bound; discriminate).
  set (q := (m / 2)%nat) in *. set (r := (m mod 2)%nat) in *.
  assert (Hr : r = O \/ r = 1%nat) by lia.
  destruct Hr as [-> | ->]; rewrite E; split; [|split| |split]; nia.
Qed.

Lemma node_range_same_depth (k d m m' p : nat) :
  (node_lo k d m <= p < node_hi k d m)%nat ->
  (node_lo k d m' <= p < node_hi k d m')%nat -> m = m'.
Proof.
  unfold node_lo, node_hi. set (P := (2 ^ (k - d))%nat).
  assert (HP : (0 < P)%nat) by apply pow2_pos.
  intros [H1 H2] [H3 H4].
  destruct (Nat.lt_trichotomy m m') as [Hlt|[->|Hlt]]; [exfalso|reflexivity|exfalso]; nia.
Qed.

Lemma climb_spec (k : nat) (l : list (nat * Z)) (e : nat * Z) :
  (e.1 < 2 ^ k)%nat ->
  forall d0 fuel m0 tree ws,
    (d0 <= k)%nat -> is_node d0 m0 ->
    (node_lo k d0 m0 <= e.1 + 2 ^ k < node_hi k d0 m0)%nat ->
    climb_inv k l e d0 tree ->
    (m0 - 1 <= fuel)%nat ->
    exists tree',
      climb fuel e.2 (m0 - 1) tree ws
      = Some (tree', (ws + leaf_weight k l (node_hi k d0 m0) (2 * 2 ^ k))%Z)
      /\ tree_inv k (e :: l) tree'.
Proof.
  intros He. induction d0 as [|d0 IH]; intros fuel m0 tree ws Hd0 Hnode Hrange Hinv Hfuel.
  - assert (Hm0 : m0 = 1%nat) by (unfold is_node in Hnode; cbn in Hnode; lia).
    subst m0. exists tree. split.
    + destruct fuel; cbn; rewrite leaf_weight_empty;
        try (f_equal; f_equal; lia);
        unfold node_hi; rewrite Nat.sub_0_r; lia.
    + intros d m Hd Hm. rewrite (Hinv d m Hd Hm). rewrite decide_True by lia. reflexivity.
  - assert (Hm2 : (2 <= m0)%nat).
    { destruct Hnode as [H1 _]. rewrite Nat.pow_succ_r' in H1. pose proof (pow2_pos d0). lia. }
    destruct fuel as [|fuel]; [lia|].
    destruct (node_range_parent k d0 m0 Hd0) as (Elo & Ehi & Ewd).
    pose proof (is_node_parent d0 m0 Hnode) as Hparent.
    pose proof (pow2_pos (k - Datatypes.S d0)) as HP.
    set (P := (2 ^ (k - Datatypes.S d0))%nat) in *.
    pose proof (Nat.div_mod_eq m0 2) as Ediv.
    assert (Hmod : (m0 mod 2 < 2)%nat) by (apply Nat.mod_upper_bound; discriminate).
    cbn [climb]. rewrite decide_False by lia.
    assert (Eidx : ((m0 - 1 - 1) / 2 = m0 / 2 - 1)%nat).
    { pose proof (Nat.div_mod_eq (m0 - 1 - 1) 2) as E'.
      assert ((m0 - 1 - 1) mod 2 < 2)%nat by (apply Nat.mod_upper_bound; discriminate).
      lia. }
    rewrite Eidx.
    assert (Hpar : tree !! (m0 / 2 - 1)%nat
                   = Some (leaf_weight k l (node_lo k d0 (m0 / 2)) (node_hi k d0 (m0 / 2)))).
    { rewrite (Hinv d0 (m0 / 2)) by (lia || assumption). rewrite decide_False by lia. reflexivity. }
    assert (Hin_par : (node_lo k d0 (m0 / 2) <= e.1 + 2 ^ k < node_hi k d0 (m0 / 2))%nat).
    { rewrite Elo, Ehi. lia. }
    set (tree1 := <[(m0 / 2 - 1)%nat :=
                    (leaf_weight k l (node_lo k d0 (m0 / 2)) (node_hi k d0 (m0 / 2)) + e.2)%Z]> tree).
    assert (Hinv1 : climb_inv k l e d0 tree1).
    { intros d m Hd Hm. unfold tree1.
      destruct (decide (m = m0 / 2)%nat) as [->|Hne].
      - assert (d = d0) by (eapply is_node_depth; eassumption). subst d.
        rewrite list_lookup_insert_eq by (eapply lookup_lt_Some; exact Hpar).
        rewrite decide_True by lia. rewrite leaf_weight_cons, decide_True by exact Hin_par.
        f_equal. lia.
      - rewrite list_lookup_insert_ne.
        2:{ destruct Hm as [Hm1 _]. pose proof (pow2_pos d).
            destruct Hparent as [Hp1 _]. pose proof (pow2_pos d0). lia. }
        rewrite (Hinv d m Hd Hm).
        destruct (decide (Datatypes.S d0 <= d)%nat) as [Hge|Hlt].
        + rewrite decide_True by lia. reflexivity.
        + destruct (decide (d0 <= d)%nat) as [Hge'|Hlt']; [|reflexivity].
          assert (d = d0) by lia. subst d.
          rewrite leaf_weight_cons, decide_False; [f_equal; lia|].
          intros Hin. apply Hne. eapply node_range_same_depth; eassumption. }
    destruct (decide ((m0 - 1) mod 2 = 1)%nat) as [Hodd|Heven].
    + assert (Hev : (m0 mod 2 = 0)%nat).
      { pose proof (Nat.div_mod_eq (m0 - 1) 2). lia. }
      pose proof (is_node_sibling d0 m0 Hnode Hev) as Hsib.
      replace (m0 - 1 + 1)%nat with (m0 + 1 - 1)%nat by lia.
      rewrite (Hinv (Datatypes.S d0) (m0 + 1)%nat Hd0 Hsib).
      rewrite decide_True by lia. cbn [mbind option_bind].
      rewrite Hpar. cbn [mbind option_bind].
      rewrite leaf_weight_cons, decide_False.
      2:{ unfold node_lo, node_hi in *. fold P in Hrange |- *. nia. }
      destruct (IH fuel (m0 / 2)%nat tree1
                  (ws + (0 + leaf_weight k l (node_lo k (Datatypes.S d0) (m0 + 1))
                                         (node_hi k (Datatypes.S d0) (m0 + 1))))%Z)
        as (tree' & Hrun & Htree'); [lia|exact Hparent|exact Hin_par|exact Hinv1|lia|].
      exists tree'. split; [|exact Htree'].
      fold tree1. rewrite Hrun. f_equal. f_equal.
      assert (E1 : node_lo k (Datatypes.S d0) (m0 + 1) = node_hi k (Datatypes.S d0) m0)
        by reflexivity.
      assert (E2 : node_hi k (Datatypes.S d0) (m0 + 1) = node_hi k d0 (m0 / 2)).
      { rewrite Ehi, Hev. unfold node_hi. fold P. nia. }
      assert (E3 : (node_hi k d0 (m0 / 2) <= 2 * 2 ^ k)%nat).
      { unfold node_hi. destruct Hparent as [_ Hp2].
        replace (2 * 2 ^ k)%nat with (2 ^ (d0 + 1) * 2 ^ (k - d0))%nat.
        - apply Nat.mul_le_mono_r. lia.
        - rewrite <- Nat.pow_add_r, <- Nat.pow_succ_r'. f_equal. lia. }
      rewrite E1, E2.
      rewrite (leaf_weight_split k l (node_hi k (Datatypes.S d0) m0)
                 (node_hi k d0 (m0 / 2)) (2 * 2 ^ k)); [lia| |exact E3].
      rewrite Ehi. lia.
    + assert (Hod : (m0 mod 2 = 1)%nat).
      { pose proof (Nat.div_mod_eq (m0 - 1) 2).
        assert ((m0 - 1) mod 2 < 2)%nat by (apply Nat.mod_upper_bound; discriminate). lia. }
      cbn [mbind option_bind]. rewrite Hpar. cbn [mbind option_bind].
      destruct (IH fuel (m0 / 2)%nat tree1 ws)
        as (tree' & Hrun & Htree'); [lia|exact Hparent|exact Hin_par|exact Hinv1|lia|].
      exists tree'. split; [|exact Htree'].
      fold tree1. rewrite Hrun. f_equal. f_equal.
      rewrite Ehi, Hod. f_equal. f_equal. lia.
Qed.

Lemma sumZ_cons {A : Type} (f : A -> Z) (x : A) (l : list A) :
  sumZ f (x :: l) = (f x + sumZ f l)%Z.
Proof. reflexivity. Qed.

Lemma sumZ_plus {A : Type} (f g : A -> Z) (l : list A) :
  sumZ (fun x => (f x + g x)%Z) l = (sumZ f l + sumZ g l)%Z.
Proof. induction l as [|x l IH]; [reflexivity|]. rewrite !sumZ_cons, IH. lia. Qed.

Lemma sumZ_ext {A : Type} (f g : A -> Z) (l : list A) :
  (forall x, x ∈ l -> f x = g x) -> sumZ f l = sumZ g l.
Proof.
  induction l as [|x l IH]; intros Hfg; [reflexivity|].
  rewrite !sumZ_cons, Hfg by left. rewrite IH; [reflexivity|].
  intros y Hy. apply Hfg. now right.
Qed.

Lemma sumZ_fmap {A B : Type} (h : A -> B) (f : B -> Z) (l : list A) :
  sumZ f (h <$> l) = sumZ (fun x => f (h x)) l.
Proof. induction l as [|x l IH]; [reflexivity|]. cbn [fmap list_fmap]. now rewrite !sumZ_cons, IH. Qed.

Lemma sumZ_perm {A : Type} (f : A -> Z) (l l' : list A) :
  Permutation l l' -> sumZ f l = sumZ f l'.
Proof. induction 1; rewrite ?sumZ_cons; lia. Qed.

Lemma sumZ_scale {A : Type} (c : Z) (f : A -> Z) (l : list A) :
  (c * sumZ f l)%Z = sumZ (fun x => (c * f x)%Z) l.
Proof. induction l as [|x l IH]; [cbn; lia|]. rewrite !sumZ_cons, <- IH. lia. Qed.

Lemma sum_pairs_fmap {A B : Type} (h : A -> B) (g : B -> B -> Z) (l : list A) :
  sum_pairs g (h <$> l) = sum_pairs (fun a b => g (h a) (h b)) l.
Proof.
  induction l as [|x l IH]; [reflexivity|].
  cbn [fmap list_fmap sum_pairs]. fold (fmap (M := list) h l). now rewrite IH, sumZ_fmap.
Qed.

Lemma sum_pairs_sorted_ext {A : Type} (R : A -> A -> Prop) (g1 g2 : A -> A -> Z) (l : list A) :
  StronglySorted R l -> (forall a b, R a b -> g1 a b = g2 a b) ->
  sum_pairs g1 l = sum_pairs g2 l.
Proof.
  intros Hs Hg. induction Hs as [|a l Hs IH Ha]; [reflexivity|]. cbn [sum_pairs].
  rewrite IH. f_equal. apply sumZ_ext. intros b Hb. apply Hg.
  rewrite Forall_forall in Ha. apply Ha. exact Hb.
Qed.

Lemma sum_pairs_perm {A : Type} (g : A -> A -> Z) (l l' : list A) :
  (forall a b, g a b = g b a) -> Permutation l l' -> sum_pairs g l = sum_pairs g l'.
Proof.
  intros Hsym. induction 1 as [|x l l' Hp IH|x y l|l l' l'' Hp1 IH1 Hp2 IH2]; cbn [sum_pairs].
  - reflexivity.
  - rewrite IH, (sumZ_perm _ _ _ Hp). reflexivity.
  - rewrite !sumZ_cons, (Hsym y x). lia.
  - congruence.
Qed.

Lemma cross_from_sum_pairs (bs : list (nat * Z)) :
  forall l, cross_from l bs
            = (sumZ (fun b => sumZ (fun a => passes a b) l) bs + sum_pairs passes bs)%Z.
Proof.
  induction bs as [|b bs IH]; intros l; cbn [cross_from sum_pairs]; [reflexivity|].
  rewrite IH, sumZ_cons.
  rewrite (sumZ_ext (fun b0 => sumZ (fun a => passes a b0) (b :: l))
                    (fun b0 => (passes b b0 + sumZ (fun a => passes a b0) l)%Z))
    by (intros x _; exact (sumZ_cons (fun a => passes a x) b l)).
  rewrite sumZ_plus. lia.
Qed.

(** The weight right of a leaf is the weight of the edges with a larger
    south index. *)
Lemma leaf_weight_right (k : nat) (l : list (nat * Z)) (i : nat) :
  (forall a, a ∈ l -> (a.1 < 2 ^ k)%nat) ->
  leaf_weight k l (i + 2 ^ k + 1) (2 * 2 ^ k)
  = sumZ (fun a => if decide (i < a.1)%nat then a.2 else 0%Z) l.
Proof.
  induction l as [|a l IH]; intros Hl; [reflexivity|].
  rewrite leaf_weight_cons, IH by (intros b Hb; apply Hl; now right).
  rewrite sumZ_cons. pose proof (Hl a ltac:(left)).
  repeat destruct (decide _); lia.
Qed.

Lemma sweep_step_spec (south : gmap Socket nat) (k : nat) (l : list (nat * Z))
    (tree : list Z) (cw : Z) (e : Socket * Socket * Z) (i : nat) :
  tree_inv k l tree ->
  (forall a, a ∈ l -> (a.1 < 2 ^ k)%nat) ->
  south !! e.1.2 = Some i -> (i < 2 ^ k)%nat ->
  exists tree',
    sweep_step south (2 ^ k - 1) (tree, cw) e
    = Some (tree', (cw + sumZ (fun a => passes a (i, e.2)) l)%Z)
    /\ tree_inv k ((i, e.2) :: l) tree'.
Proof.
  intros Hinv Hl Hi Hik. destruct e as [[n v] w]. cbn [fst snd] in *.
  unfold sweep_step. rewrite Hi. cbn [mbind option_bind].
  pose proof (pow2_pos k) as Hk.
  set (m0 := (i + 2 ^ k)%nat).
  assert (Eidx : (i + (2 ^ k - 1) = m0 - 1)%nat) by (unfold m0; lia). rewrite Eidx.
  assert (Hnode : is_node k m0).
  { unfold is_node, m0. replace (k + 1)%nat with (Datatypes.S k) by lia.
    rewrite Nat.pow_succ_r'. lia. }
  assert (Elo : node_lo k k m0 = m0) by (unfold node_lo; rewrite Nat.sub_diag; cbn; lia).
  assert (Ehi : node_hi k k m0 = (m0 + 1)%nat) by (unfold node_hi; rewrite Nat.sub_diag; cbn; lia).
  pose proof (Hinv k m0 (le_n k) Hnode) as Hleaf. rewrite Elo, Ehi in Hleaf.
  rewrite Hleaf. cbn [mbind option_bind].
  set (tree1 := <[(m0 - 1)%nat := (leaf_weight k l m0 (m0 + 1) + w)%Z]> tree).
  assert (Hinv1 : climb_inv k l (i, w) k tree1).
  { intros d m Hd Hm. unfold tree1.
    destruct (decide (m = m0)) as [->|Hne].
    - assert (d = k) by (eapply is_node_depth; eassumption). subst d.
      rewrite list_lookup_insert_eq by (eapply lookup_lt_Some; exact Hleaf).
      rewrite decide_True by lia. rewrite Elo, Ehi, leaf_weight_cons, decide_True.
      + f_equal. cbn. lia.
      + cbn. fold m0. lia.
    - rewrite list_lookup_insert_ne.
      2:{ destruct Hm as [Hm1 _]. pose proof (pow2_pos d). lia. }
      rewrite (Hinv d m Hd Hm).
      destruct (decide (k <= d)%nat) as [Hge|Hlt]; [|reflexivity].
      assert (d = k) by lia. subst d.
      rewrite leaf_weight_cons, decide_False; [f_equal; lia|].
      cbn [fst]. fold m0. intros Hin. apply Hne.
      eapply (node_range_same_depth k k m m0 m0); [exact Hin|]. rewrite Elo, Ehi. lia. }
  destruct (climb_spec k l (i, w) Hik k (m0 - 1)%nat m0 tree1 0%Z (le_n k) Hnode)
    as (tree' & Hrun & Htree'); [cbn [fst]; fold m0; rewrite Elo, Ehi; lia|exact Hinv1|lia|].
  cbn [snd] in Hrun. fold tree1. rewrite Hrun. cbn [mbind option_bind].
  exists tree'. split; [|exact Htree'].
  f_equal. f_equal. f_equal.
  rewrite Ehi. unfold m0. rewrite leaf_weight_right by exact Hl.
  rewrite Z.add_0_l, sumZ_scale. apply sumZ_ext. intros a _.
  unfold passes. cbn [fst snd]. destruct (decide _); lia.
Qed.

Lemma sweep_spec (south : gmap Socket nat) (k : nat) (es : list (Socket * Socket * Z)) :
  forall l tree cw,
    tree_inv k l tree ->
    (forall a, a ∈ l -> (a.1 < 2 ^ k)%nat) ->
    (forall e, e ∈ es -> exists i, south !! e.1.2 = Some i /\ (i < 2 ^ k)%nat) ->
    exists tree',
      sweep south (2 ^ k - 1) (tree, cw) es
      = Some (tree', (cw + cross_from l (south_entry south <$> es))%Z).
Proof.
  induction es as [|e es IH]; intros l tree cw Hinv Hl Hes.
  - exists tree. cbn. f_equal. f_equal. lia.
  - destruct (Hes e) as (i & Hi & Hik); [left|].
    destruct (sweep_step_spec south k l tree cw e i Hinv Hl Hi Hik) as (tree1 & Hstep & Hinv1).
    cbn [sweep]. rewrite Hstep. cbn [mbind option_bind].
    destruct (IH ((i, e.2) :: l) tree1 (cw + sumZ (fun a => passes a (i, e.2)) l)%Z Hinv1)
      as (tree' & Hrun).
    + intros a Ha. apply elem_of_cons in Ha as [->|Ha]; [exact Hik|now apply Hl].
    + intros e' He'. apply Hes. now right.
    + exists tree'. rewrite Hrun.
      f_equal. f_equal. rewrite fmap_cons. cbn [cross_from].
      assert (E : south_entry south e = (i, e.2))
        by (unfold south_entry; rewrite Hi; reflexivity).
      rewrite E. lia.
Qed.

Lemma grow_first_idx_spec :
  forall fuel j n, (n <= 2 ^ j * 2 ^ fuel)%nat ->
    exists k, grow_first_idx fuel (2 ^ j) n = (2 ^ k)%nat /\ (n <= 2 ^ k)%nat.
Proof.
  induction fuel as [|fuel IH]; intros j n Hn; cbn [grow_first_idx].
  - exists j. split; [reflexivity|]. cbn in Hn. lia.
  - destruct (2 ^ j <? n)%nat eqn:E.
    + rewrite <- Nat.pow_succ_r'. apply IH.
      rewrite Nat.pow_succ_r'. rewrite Nat.pow_succ_r' in Hn. lia.
    + exists j. split; [reflexivity|]. apply Nat.ltb_ge in E. exact E.
Qed.

Lemma tree_inv_init (k : nat) : tree_inv k [] (replicate (2 * 2 ^ k - 1) 0%Z).
Proof.
  intros d m Hd [Hm1 Hm2]. cbn. apply lookup_replicate_2.
  assert (2 ^ (d + 1) <= 2 ^ (k + 1))%nat by (apply Nat.pow_le_mono_r; lia).
  replace (k + 1)%nat with (Datatypes.S k) in * by lia.
  rewrite Nat.pow_succ_r' in *. pose proof (pow2_pos d). lia.
Qed.

(** The dictionaries of positions. *)
Lemma index_map_from_bound (l : list Socket) :
  forall n m k i,
    index_map_from n l m !! k = Some i ->
    m !! k = Some i \/ (n <= i < n + length l)%nat.
Proof.
  induction l as [|x l IH]; intros n m k i; cbn; [now left|].
  intros H. apply IH in H as [H|H]; [|right; lia].
  destruct (decide (x = k)) as [->|Hne].
  - rewrite lookup_insert_eq in H. injection H as <-. right. lia.
  - rewrite lookup_insert_ne in H by assumption. now left.
Qed.

Lemma index_map_from_is_Some (l : list Socket) :
  forall n m k, k ∈ l \/ is_Some (m !! k) -> is_Some (index_map_from n l m !! k).
Proof.
  induction l as [|x l IH]; intros n m k Hk; cbn.
  - destruct Hk as [Hk|Hk]; [inversion Hk|exact Hk].
  - apply IH. destruct (decide (x = k)) as [->|Hne].
    + right. rewrite lookup_insert_eq. eauto.
    + destruct Hk as [Hk|Hk].
      * apply elem_of_cons in Hk as [->|Hk]; [congruence|now left].
      * right. now rewrite lookup_insert_ne.
Qed.

Lemma index_map_elem (l : list Socket) (k : Socket) :
  k ∈ l -> exists i, index_map l !! k = Some i /\ (i < length l)%nat.
Proof.
  intros Hk. destruct (index_map_from_is_Some l O ∅ k) as [i Hi]; [now left|].
  exists i. split; [exact Hi|].
  apply index_map_from_bound in Hi as [Hi|Hi]; [rewrite lookup_empty in Hi; discriminate|lia].
Qed.

Lemma sort_key_Some {A K : Type} (leb : K -> K -> bool) (key : A -> option K) (f : A -> K)
    (l : list A) :
  (forall x, x ∈ l -> key x = Some (f x)) ->
  sort_key leb key l = Some (sort_by (fun a b => leb (f a) (f b)) l).
Proof.
  intros Hkey. unfold sort_key.
  assert (E : mapM (fun x => k ← key x; Some (x, k)) l = Some ((fun x => (x, f x)) <$> l)).
  { apply mapM_Some_2. induction l as [|x l IH]; [constructor|].
    rewrite fmap_cons. constructor.
    - rewrite Hkey by left. reflexivity.
    - apply IH. intros y Hy. apply Hkey. now right. }
  rewrite E. cbn [mbind option_bind]. f_equal.
  rewrite (PyFacts.sort_by_fmap (fun x => (x, f x)) (fun a b => leb (f a) (f b))
             (fun a b => leb a.2 b.2)) by reflexivity.
  rewrite <- list_fmap_compose. apply list_fmap_id.
Qed.

Lemma crossing_weight_sym (north south : Socket -> nat) (a b : Socket * Socket * Z) :
  crossing_weight north south a b = crossing_weight north south b a.
Proof.
  unfold crossing_weight, crossing.
  rewrite (orb_comm (_ && _)). destruct (_ || _); lia.
Qed.

Lemma passes_crossing (north south : Socket -> nat) (a b : Socket * Socket * Z) :
  Py.lex (fun e => north e.1.1) (fun x y => (south x.1.2 <= south y.1.2)%nat) a b ->
  passes (south a.1.2, a.2) (south b.1.2, b.2) = crossing_weight north south a b.
Proof.
  unfold Py.lex, passes, crossing_weight, crossing. cbn [fst snd].
  intros Hlex.
  destruct (decide (south b.1.2 < south a.1.2)%nat) as [Hlt|Hge].
  - assert (Hn : (north a.1.1 < north b.1.1)%nat) by (destruct Hlex as [?|[? ?]]; lia).
    apply Nat.ltb_lt in Hn, Hlt. rewrite Hn, Hlt. reflexivity.
  - assert (E1 : (south b.1.2 <? south a.1.2)%nat = false) by (apply Nat.ltb_ge; lia).
    assert (E2 : (north b.1.1 <? north a.1.1)%nat = false)
      by (apply Nat.ltb_ge; destruct Hlex as [?|[? ?]]; lia).
    rewrite E1, E2, andb_false_r. reflexivity.
Qed.

Lemma Qle_bool_total (x y : Q) : Qle_bool x y = true \/ Qle_bool y x = true.
Proof.
  rewrite !Qle_bool_iff. destruct (Qlt_le_dec x y) as [H|H]; [left|right]; lra.
Qed.

Lemma Qle_bool_trans (x y z : Q) : Qle_bool x y = true -> Qle_bool y z = true -> Qle_bool x z = true.
Proof. rewrite !Qle_bool_iff. lra. Qed.

Lemma sort_key_pos (H : ClusterCrossingsData) (st : Store) (l : list Socket) :
  (forall w, w ∈ l -> is_Some (pos H st w)) ->
  exists l', sort_key Qle_bool (pos H st) l = Some l' /\ Permutation l' l /\ sorted_by_pos H st l'.
Proof.
  intros Hpos. set (f := fun w => default 0%Q (pos H st w)).
  exists (sort_by (fun a b => Qle_bool (f a) (f b)) l). split; [|split].
  - apply sort_key_Some. intros w Hw. destruct (Hpos w Hw) as [p Hp]. unfold f. now rewrite Hp.
  - apply sort_by_perm.
  - eapply PyFacts.StronglySorted_weaken; [|apply sort_by_sorted].
    + intros a b Hab pa pb Ha Hb. cbn in Hab. unfold f in Hab. rewrite Ha, Hb in Hab.
      now apply Qle_bool_iff.
    + intros x y. apply Qle_bool_total.
    + intros x y z. apply Qle_bool_trans.
Qed.

Lemma sumZ_zero {A : Type} (l : list A) : sumZ (fun _ => 0%Z) l = 0%Z.
Proof. induction l as [|x l IH]; [reflexivity|]. rewrite sumZ_cons, IH. reflexivity. Qed.

Lemma sort_key_index (side : list Socket) (proj : Socket * Socket * Z -> Socket)
    (es : list (Socket * Socket * Z)) :
  (forall e, e ∈ es -> proj e ∈ side) ->
  sort_key Nat.leb (fun e => index_map side !! proj e) es
  = Some (sort_by (fun a b => (index_in side (proj a) <=? index_in side (proj b))%nat) es).
Proof.
  intros Hes. apply (sort_key_Some Nat.leb _ (fun e => index_in side (proj e))).
  intros e He. destruct (index_map_elem side (proj e) (Hes e He)) as (i & Hi & _).
  unfold index_in. now rewrite Hi.
Qed.

(** The sweep over the accumulator tree counts exactly the crossing pairs. *)
Lemma get_cross_count_spec (H : ClusterCrossingsData) (st : Store) :
  wf_crossings H st ->
  exists c H',
    get_cross_count H st = Some (c, H')
    /\ Permutation (H_N H') (H_N H)
    /\ Permutation (H_S H') (H_S H)
    /\ Permutation (bipartite_edges H') (bipartite_edges H)
    /\ (bipartite_edges H <> [] -> sorted_by_pos H st (H_N H') /\ sorted_by_pos H st (H_S H'))
    /\ c = brute_force_cross_count (index_in (H_N H')) (index_in (H_S H')) (bipartite_edges H).
Proof.
  intros [Hpos Hedges].
  destruct (decide (bipartite_edges H = [])) as [Ee|Hne].
  - exists 0%Z, H. unfold get_cross_count. rewrite Ee.
    split; [reflexivity|]. split; [reflexivity|]. split; [reflexivity|].
    split; [reflexivity|]. split; [intros Hne; contradiction|reflexivity].
  - assert (Eg : get_cross_count H st = cross_count_sweep H st).
    { unfold get_cross_count. destruct (bipartite_edges H); [contradiction|reflexivity]. }
    rewrite Eg. unfold cross_count_sweep.
    destruct (sort_key_pos H st (H_N H)) as (N' & HN & HNp & HNs).
    { intros w Hw. apply Hpos. apply elem_of_app. now left. }
    destruct (sort_key_pos H st (H_S H)) as (S' & HS & HSp & HSs).
    { intros w Hw. apply Hpos. apply elem_of_app. now right. }
    rewrite HN, HS. cbn [mbind option_bind].
    set (fS := fun e : Socket * Socket * Z => index_in S' e.1.2).
    set (fN := fun e : Socket * Socket * Z => index_in N' e.1.1).
    set (es1 := sort_by (fun a b => (fS a <=? fS b)%nat) (bipartite_edges H)).
    set (es2 := sort_by (fun a b => (fN a <=? fN b)%nat) es1).
    assert (Hp1 : Permutation es1 (bipartite_edges H)) by apply sort_by_perm.
    assert (Hp2 : Permutation es2 (bipartite_edges H)).
    { etransitivity; [apply sort_by_perm|exact Hp1]. }
    assert (HinS : forall e, e ∈ bipartite_edges H -> e.1.2 ∈ S').
    { intros e He. rewrite HSp. now apply Hedges. }
    assert (HinN : forall e, e ∈ bipartite_edges H -> e.1.1 ∈ N').
    { intros e He. rewrite HNp. now apply Hedges. }
    assert (E1 : sort_key Nat.leb (fun e => index_map S' !! e.1.2) (bipartite_edges H) = Some es1)
      by exact (sort_key_index S' (fun e => e.1.2) (bipartite_edges H) HinS).
    assert (E2 : sort_key Nat.leb (fun e => index_map N' !! e.1.1) es1 = Some es2).
    { apply (sort_key_index N' (fun e => e.1.1) es1).
      intros e He. apply HinN. now rewrite <- Hp1. }
    rewrite E1. cbn [mbind option_bind]. rewrite E2. cbn [mbind option_bind].
    destruct (grow_first_idx_spec (length S') 0 (length S')) as (k & Hk & Hlen).
    { cbn [Nat.pow]. pose proof (Nat.pow_gt_lin_r 2 (length S')). lia. }
    change (2 ^ 0)%nat with 1%nat in Hk. rewrite Hk.
    destruct (sweep_spec (index_map S') k es2 [] (replicate (2 * 2 ^ k - 1) 0%Z) 0%Z)
      as (tree' & Hrun).
    { apply tree_inv_init. }
    { intros a Ha. inversion Ha. }
    { intros e He. rewrite Hp2 in He.
      destruct (index_map_elem S' e.1.2 (HinS e He)) as (i & Hi & Hlt).
      exists i. split; [exact Hi|lia]. }
    rewrite Hrun. cbn [mbind option_bind].
    eexists. eexists. split; [reflexivity|]. cbn [H_N H_S bipartite_edges].
    split; [exact HNp|]. split; [exact HSp|]. split; [exact Hp2|].
    split; [intros _; split; assumption|].
    rewrite Z.add_0_l, cross_from_sum_pairs.
    rewrite (sumZ_ext _ (fun _ => 0%Z)) by reflexivity. rewrite sumZ_zero, Z.add_0_l.
    rewrite sum_pairs_fmap.
    unfold brute_force_cross_count.
    rewrite <- (sum_pairs_perm (crossing_weight (index_in N') (index_in S')) es2
                  (bipartite_edges H)); [|apply crossing_weight_sym|exact Hp2].
    apply (sum_pairs_sorted_ext
             (Py.lex fN (fun x y => (fS x <= fS y)%nat))).
    + apply PyFacts.sort_by_lex. apply PyFacts.sort_by_nat_sorted.
    + intros a b Hab. apply (passes_crossing (index_in N') (index_in S') a b Hab).
Qed.

(** *** The contracted graph *)

Lemma dict_get_set_eq {K V : Type} `{EqDecision K} (k : K) (v : V) (d : list (K * V)) :
  dict_get k (dict_set k v d) = Some v.
Proof.
  induction d as [|[k' v'] d IH]; cbn.
  - now rewrite decide_True.
  - destruct (decide (k = k')) as [->|Hne]; cbn.
    + now rewrite decide_True.
    + now rewrite decide_False.
Qed.

Lemma dict_get_set_ne {K V : Type} `{EqDecision K} (k k' : K) (v : V) (d : list (K * V)) :
  k <> k' -> dict_get k' (dict_set k v d) = dict_get k' d.
Proof.
  intros Hne. induction d as [|[k0 v0] d IH]; cbn.
  - rewrite decide_False by congruence. reflexivity.
  - destruct (decide (k = k0)) as [->|Hne0]; cbn.
    + rewrite !decide_False by congruence. reflexivity.
    + destruct (decide (k' = k0)); [reflexivity|exact IH].
Qed.

Lemma dict_set_keys {K V : Type} `{EqDecision K} (k k' : K) (v : V) (d : list (K * V)) :
  k' ∈ (dict_set k v d).*1 <-> k' = k \/ k' ∈ d.*1.
Proof.
  induction d as [|[k0 v0] d IH]; cbn.
  - rewrite list_elem_of_singleton. split; [now left|]. intros [?|H]; [assumption|inversion H].
  - destruct (decide (k = k0)) as [->|Hne0]; cbn.
    + rewrite !elem_of_cons. tauto.
    + rewrite !elem_of_cons, IH. tauto.
Qed.

Lemma dict_set_NoDup {K V : Type} `{EqDecision K} (k : K) (v : V) (d : list (K * V)) :
  NoDup d.*1 -> NoDup (dict_set k v d).*1.
Proof.
  induction d as [|[k0 v0] d IH]; cbn; intros Hnd.
  - apply NoDup_singleton.
  - apply NoDup_cons in Hnd as [Hk0 Hnd].
    destruct (decide (k = k0)) as [->|Hne0]; cbn.
    + apply NoDup_cons. split; assumption.
    + apply NoDup_cons. split; [|now apply IH].
      rewrite dict_set_keys. intros [?|?]; [congruence|contradiction].
Qed.

Section ContractFacts.
Variable child_of : nat -> option nat.

Lemma contracted_ext (G_h : list (nat * nat * HEdge)) (m m' : nat -> nat -> Z) :
  (forall s c, m s c = m' s c) -> contracted G_h m -> contracted G_h m'.
Proof.
  intros E [Hnd Hm]. split; [exact Hnd|]. intros s c. specialize (Hm s c).
  rewrite <- E. exact Hm.
Qed.

Lemma contract_edge_spec (G_h G_h' : list (nat * nat * HEdge)) (m : nat -> nat -> Z) (e : GEdge) :
  contracted G_h m -> contract_edge child_of G_h e = Some G_h' ->
  contracted G_h'
    (fun s c => ((if decide (e_s e = s /\ child_of (e_t e) = Some c) then 1 else 0) + m s c)%Z).
Proof.
  intros [Hnd Hm]. unfold contract_edge.
  destruct (child_of (e_t e)) as [c0|] eqn:Ec; cbn [mbind option_bind]; [|discriminate].
  pose proof (Hm (e_s e) c0) as Hkey.
  assert (Hother : forall (a : HEdge) s c, (e_s e, c0) <> (s, c) ->
            match dict_get (s, c) (dict_set (e_s e, c0) a G_h) with
            | Some a' => weight a' = (0 + m s c)%Z /\ owner (from_socket a') = s
                         /\ owner (to_socket a') = c
            | None => (0 + m s c)%Z = 0%Z
            end).
  { intros a s c Hne. rewrite dict_get_set_ne by exact Hne. specialize (Hm s c).
    destruct (dict_get (s, c) G_h); [rewrite Z.add_0_l; exact Hm|lia]. }
  destruct (dict_get (e_s e, c0) G_h) as [a|] eqn:Eget.
  - intros [= <-]. split; [now apply dict_set_NoDup|]. intros s c.
    destruct (decide (e_s e = s /\ Some c0 = Some c)) as [[<- [= <-]]|Hne].
    + rewrite dict_get_set_eq. cbn. destruct Hkey as (Hw & Hf & Ht). repeat split; [lia|assumption..].
    + apply Hother. intros [= <- <-]. apply Hne. now split.
  - destruct (decide (owner (d_from e) = e_s e)); intros [= <-];
      (split; [now apply dict_set_NoDup|]); intros s c;
      (destruct (decide (e_s e = s /\ Some c0 = Some c)) as [[<- [= <-]]|Hne];
       [rewrite dict_get_set_eq; cbn; repeat split; lia
       |apply Hother; intros [= <- <-]; apply Hne; now split]).
Qed.

Lemma contract_edges_spec (es : list GEdge) :
  forall G_h G_h' m,
    contracted G_h m -> contract_edges child_of G_h es = Some G_h' ->
    contracted G_h' (fun s c => (multiplicity child_of es s c + m s c)%Z).
Proof.
  induction es as [|e es IH]; intros G_h G_h' m HG; cbn [contract_edges].
  - intros [= <-]. eapply contracted_ext; [|exact HG]. intros s c. cbn. lia.
  - destruct (contract_edge child_of G_h e) as [G1|] eqn:E1; cbn [mbind option_bind];
      [|discriminate].
    intros Hrun. pose proof (contract_edge_spec G_h G1 m e HG E1) as HG1.
    pose proof (IH G1 G_h' _ HG1 Hrun) as HG'.
    eapply contracted_ext; [|exact HG']. intros s c. cbn beta.
    unfold multiplicity. rewrite sumZ_cons. lia.
Qed.

Lemma contracted_empty : contracted [] (fun _ _ => 0%Z).
Proof. split; [constructor|]. intros s c. reflexivity. Qed.

(** The bipartite edges of a cluster: one per contracted endpoint pair, with
    the number of original edges between the pair as weight, and both ends
    listed in [H.N] and [H.S]. *)
Lemma cluster_crossings_data_spec (children : list nat) (in_edges : list GEdge)
    (prev_clusters : list nat) (backwards : bool) (H : ClusterCrossingsData) :
  cluster_crossings_data child_of children in_edges prev_clusters backwards = Some H ->
  ((forall e, e ∈ bipartite_edges H ->
      e.2 = multiplicity child_of in_edges (owner e.1.1) (owner e.1.2))
   \/ (forall e, e ∈ bipartite_edges H ->
         e.2 = multiplicity child_of in_edges (owner e.1.2) (owner e.1.1)))
  /\ NoDup ((fun e => (owner e.1.1, owner e.1.2)) <$> bipartite_edges H)
  /\ (forall e, e ∈ bipartite_edges H -> e.1.1 ∈ H_N H /\ e.1.2 ∈ H_S H).
Proof.
  unfold cluster_crossings_data.
  destruct (contract_edges child_of [] in_edges) as [G_h|] eqn:EG; cbn [mbind option_bind];
    [|discriminate].
  pose proof (contract_edges_spec in_edges [] G_h _ contracted_empty EG) as [Hnd Hm].
  set (B := (fun x : nat * nat * HEdge => (from_socket x.2, to_socket x.2, weight x.2)) <$> G_h).
  assert (HB : forall e, e ∈ B ->
             e.2 = multiplicity child_of in_edges (owner e.1.1) (owner e.1.2)
             /\ (owner e.1.1, owner e.1.2) ∈ G_h.*1).
  { intros e He. apply list_elem_of_fmap in He as ([[s c] a] & -> & Hin). cbn [fst snd].
    pose proof (PyFacts.elem_of_dict_get (s, c) a G_h Hnd Hin) as Hget.
    specialize (Hm s c). rewrite Hget in Hm. destruct Hm as (Hw & Hf & Ht).
    rewrite Hf, Ht. split; [lia|]. apply list_elem_of_fmap. now exists (s, c, a). }
  assert (HBnd : NoDup ((fun e : Socket * Socket * Z => (owner e.1.1, owner e.1.2)) <$> B)).
  { unfold B. rewrite <- list_fmap_compose.
    rewrite (list_fmap_ext _ fst G_h); [exact Hnd|].
    intros i [[s c] a] Hi. cbn.
    apply list_elem_of_lookup_2 in Hi.
    pose proof (PyFacts.elem_of_dict_get (s, c) a G_h Hnd Hi) as Hget.
    specialize (Hm s c). rewrite Hget in Hm. destruct Hm as (_ & Hf & Ht). now rewrite Hf, Ht. }
  set (N0 := unique B.*1.*1). set (S0 := unique B.*1.*2).
  assert (HN0 : forall e, e ∈ B -> e.1.1 ∈ N0).
  { intros e He. apply elem_of_unique. do 2 apply list_elem_of_fmap_2. exact He. }
  assert (HS0 : forall e, e ∈ B -> e.1.2 ∈ S0).
  { intros e He. apply elem_of_unique.
    apply (list_elem_of_fmap_2 snd). apply (list_elem_of_fmap_2 fst). exact He. }
  intros [= <-]. cbn [bipartite_edges H_N H_S].
  destruct (length N0 <? length S0)%nat.
  - split; [right|split].
    + intros e He. apply list_elem_of_fmap in He as (e' & -> & He'). cbn [fst snd].
      apply (HB e' He').
    + rewrite <- list_fmap_compose.
      apply (NoDup_fmap_1 (fun p : nat * nat => (p.2, p.1))).
      rewrite <- list_fmap_compose.
      rewrite (list_fmap_ext _ (fun e : Socket * Socket * Z => (owner e.1.1, owner e.1.2)) B);
        [exact HBnd|].
      intros i x _. reflexivity.
    + intros e He. apply list_elem_of_fmap in He as (e' & -> & He'). cbn [fst snd].
      unfold sorted_nat. rewrite !sort_by_perm. split; [now apply HS0|now apply HN0].
  - split; [left|split].
    + intros e He. apply (HB e He).
    + exact HBnd.
    + intros e He. unfold sorted_nat. rewrite !sort_by_perm. split; [now apply HN0|now apply HS0].
Qed.

End ContractFacts.

Ltac elem_cases H :=
  repeat (apply elem_of_cons in H as [->|H]); [..|inversion H].

(** C1.  For every cluster crossing subproblem whose sockets have positions
    and whose edges end in [H.N] and [H.S], [get_cross_count] returns the
    weight counted by the brute-force reference (the sum, over the pairs of
    bipartite edges whose ends are in opposite order in the sorted sides, of
    the products of their weights).  For the data that
    [crossing_reduction_data] builds for a cluster, there is one bipartite
    edge per contracted endpoint pair and its weight is the number of
    original edges between that pair, so the counts agree on it; two
    parallel edges into one child enter as a single edge of weight 2. *)
Theorem cross_count_matches_brute_force :
  (forall H st, wf_crossings H st ->
     exists c H',
       get_cross_count H st = Some (c, H')
       /\ Permutation (H_N H') (H_N H)
       /\ Permutation (H_S H') (H_S H)
       /\ Permutation (bipartite_edges H') (bipartite_edges H)
       /\ (bipartite_edges H <> [] -> sorted_by_pos H st (H_N H') /\ sorted_by_pos H st (H_S H'))
       /\ c = brute_force_cross_count (index_in (H_N H')) (index_in (H_S H')) (bipartite_edges H))
  /\ (forall child_of children in_edges prev_clusters backwards H,
        cluster_crossings_data child_of children in_edges prev_clusters backwards = Some H ->
        ((forall e, e ∈ bipartite_edges H ->
            e.2 = multiplicity child_of in_edges (owner e.1.1) (owner e.1.2))
         \/ (forall e, e ∈ bipartite_edges H ->
               e.2 = multiplicity child_of in_edges (owner e.1.2) (owner e.1.1)))
        /\ NoDup ((fun e => (owner e.1.1, owner e.1.2)) <$> bipartite_edges H)
        /\ forall st, (forall w, w ∈ H_N H ++ H_S H -> is_Some (pos H st w)) ->
             exists c H',
               get_cross_count H st = Some (c, H')
               /\ c = brute_force_cross_count (index_in (H_N H')) (index_in (H_S H'))
                        (bipartite_edges H))
  /\ (bipartite_edges <$> cluster_crossings_data parallel_child_of [7%nat] parallel_edges [] false)
     = Some [(mkSocket 0 0 true, mkSocket 7 0 false, 2%Z)].
Proof.
  split; [exact get_cross_count_spec|]. split; [|vm_compute; reflexivity].
  intros child_of children in_edges prev_clusters backwards H HH.
  destruct (cluster_crossings_data_spec child_of children in_edges prev_clusters backwards H HH)
    as (Hw & Hnd & Hends).
  split; [exact Hw|]. split; [exact Hnd|].
  intros st Hpos.
  destruct (get_cross_count_spec H st (conj Hpos Hends)) as (c & H' & Hrun & _ & _ & _ & _ & Hc).
  exists c, H'. split; assumption.
Qed.

Lemma cross_count_matches_brute_force_witness :
  exists c H',
    get_cross_count four_edge_H four_edge_store = Some (c, H')
    /\ Permutation (H_N H') (H_N four_edge_H)
    /\ Permutation (H_S H') (H_S four_edge_H)
    /\ Permutation (bipartite_edges H') (bipartite_edges four_edge_H)
    /\ (bipartite_edges four_edge_H <> [] ->
        sorted_by_pos four_edge_H four_edge_store (H_N H')
        /\ sorted_by_pos four_edge_H four_edge_store (H_S H'))
    /\ c = brute_force_cross_count (index_in (H_N H')) (index_in (H_S H'))
             (bipartite_edges four_edge_H).
Proof.
  refine (proj1 cross_count_matches_brute_force four_edge_H four_edge_store _).
  split.
  - intros w Hw. cbn in Hw. elem_cases Hw; vm_compute; eauto.
  - intros e He. cbn in He. elem_cases He; cbn; split; set_solver.
Defined.

Example four_edge_count :
  fst <$> get_cross_count four_edge_H four_edge_store = Some 42%Z.
Proof. vm_compute. reflexivity. Qed.

(** *** minimize_crossings and the generator *)

Section Seeding.
Context {R : RandomSource}.
Variable is_cluster : nat -> bool.
Variable cluster_of : nat -> nat.
Variables nx_ancestors nx_descendants : DiGraph -> nat -> list nat.
Variable nx_topological_sort : DiGraph -> list nat.
Variables TC_succ TC_pred : DiGraph -> nat -> list nat.
Variable set_order : list nat -> list nat.

Local Abbreviation run :=
  (minimize_crossings is_cluster cluster_of nx_ancestors nx_descendants
                      nx_topological_sort TC_succ TC_pred set_order).
Local Abbreviation run_unseeded :=
  (minimize_crossings_unseeded is_cluster cluster_of nx_ancestors nx_descendants
                               nx_topological_sort TC_succ TC_pred set_order).

(** The call is the loop of restarts on the stream that [seed(0)] starts:
    the trees and the item lists are built without a draw. *)
Lemma minimize_crossings_seeds_first (fuel : nat) (G : list GEdge) (G_nodes : list nat)
    (T : DiGraph) (st : Store) (g : rng) :
  run fuel G G_nodes T st g = run_unseeded fuel G G_nodes T st (seed 0).
Proof.
  unfold minimize_crossings, minimize_crossings_unseeded.
  destruct (crossing_items is_cluster nx_ancestors nx_topological_sort TC_succ TC_pred set_order
                           G G_nodes T (columns st)) as [[fwd bwd]|]; reflexivity.
Qed.

(** A second invocation on the input of the first, started in the state in
    which the first has left the generator, repeats the first. *)
Lemma second_invocation_repeats_first (fuel : nat) (G : list GEdge) (G_nodes : list nat)
    (T : DiGraph) (st st' : Store) (g g' : rng) :
  run fuel G G_nodes T st g = Some (st', g') ->
  run fuel G G_nodes T st g' = Some (st', g').
Proof.
  intros Hfirst. rewrite minimize_crossings_seeds_first in Hfirst.
  now rewrite minimize_crossings_seeds_first.
Qed.

End Seeding.

(** C3.  [seed(0)] fixes the draws, not the result: two invocations of
    [minimize_crossings] on the same graph, columns and cluster tree end
    with different columns when the sets of nodes are iterated in different
    orders, as they are when the objects lie at other addresses.  On the
    input [framed_G] (a node [S] whose outputs 0, 1 and 2 are linked to
    [A1], [B] and [A2], with [A1] and [A2] in a frame) the closure lists the
    descendants of the root as [A1, A2] in one invocation and as [A2, A1]
    in the other; the edge from [S] into the frame then stands for the
    output 0, or for the output 2, of [S], and the second column ends as
    [A1, A2, B], or as [B, A1, A2], whatever the state in which the call
    finds the generator: with the draws of CPython after [seed(0)] and with
    two other generators. *)
Theorem minimize_crossings_depends_on_set_order :
  closure_succ (by_address [0; 1; 2; 3; 10; 11]%nat)
    (mkG [10; 11; 3; 1; 2] [(10, 11); (10, 3); (11, 1); (11, 2)])%nat 10%nat
  = [11; 3; 1; 2; 10]%nat
  /\ closure_succ (by_address [0; 2; 1; 3; 10; 11]%nat)
       (mkG [10; 11; 3; 1; 2] [(10, 11); (10, 3); (11, 1); (11, 2)])%nat 10%nat
     = [11; 3; 2; 1; 10]%nat
  /\ (forall g : @rng seed0_source,
        columns ∘ fst <$> @framed_minimize_crossings seed0_source [0; 1; 2; 3; 10; 11]%nat 5 g
        = Some [[0]; [1; 2; 3]]%nat)
  /\ (forall g : @rng seed0_source,
        columns ∘ fst <$> @framed_minimize_crossings seed0_source [0; 2; 1; 3; 10; 11]%nat 5 g
        = Some [[0]; [3; 1; 2]]%nat)
  /\ (forall g : @rng harmonic_source,
        columns ∘ fst
          <$> @framed_minimize_crossings harmonic_source [0; 1; 2; 3; 10; 11]%nat 5 g
        = Some [[0]; [1; 2; 3]]%nat)
  /\ (forall g : @rng harmonic_source,
        columns ∘ fst
          <$> @framed_minimize_crossings harmonic_source [0; 2; 1; 3; 10; 11]%nat 5 g
        = Some [[0]; [3; 1; 2]]%nat)
  /\ (forall g : @rng alternating_source,
        columns ∘ fst
          <$> @framed_minimize_crossings alternating_source [0; 1; 2; 3; 10; 11]%nat 5 g
        = Some [[0]; [1; 2; 3]]%nat)
  /\ (forall g : @rng alternating_source,
        columns ∘ fst
          <$> @framed_minimize_crossings alternating_source [0; 2; 1; 3; 10; 11]%nat 5 g
        = Some [[0]; [3; 1; 2]]%nat).
Proof.
  split; [vm_compute; reflexivity|]. split; [vm_compute; reflexivity|].
  split; [|split; [|split; [|split; [|split]]]]; intros g; unfold framed_minimize_crossings.
  1, 2: rewrite (minimize_crossings_seeds_first (R := seed0_source)); vm_compute; reflexivity.
  1, 2: rewrite (minimize_crossings_seeds_first (R := harmonic_source)); vm_compute; reflexivity.
  1, 2: rewrite (minimize_crossings_seeds_first (R := alternating_source)); vm_compute; reflexivity.
Qed.

(** *** The columns during the optimisation *)

Lemma sort_key_perm {A K : Type} (leb : K -> K -> bool) (key : A -> option K) (l l' : list A) :
  sort_key leb key l = Some l' -> Permutation l l'.
Proof.
  unfold sort_key. intros Hrun.
  destruct (mapM (fun x => k ← key x; Some (x, k)) l) as [keyed|] eqn:E; [|discriminate].
  cbn in Hrun. injection Hrun as <-. apply mapM_Some_1 in E.
  assert (Hfst : keyed.*1 = l).
  { induction E as [|x [y k] l keyed Hx E IH]; [reflexivity|].
    cbn. destruct (key x); cbn in Hx; [|discriminate]. injection Hx as -> _.
    f_equal. exact IH. }
  rewrite <- Hfst at 1. apply fmap_Permutation. symmetry. apply sort_by_perm.
Qed.

Lemma sort_key_opt_perm {A : Type} (key : A -> option Q) (l l' : list A) :
  sort_key_opt key l = Some l' -> Permutation l l'.
Proof.
  destruct l as [|x [|y l]]; cbn [sort_key_opt].
  - now intros [= <-].
  - now intros [= <-].
  - apply sort_key_perm.
Qed.

Lemma set_column_perm (k : nat) (col col' : list nat) (st : Store) :
  columns st !! k = Some col -> Permutation col col' ->
  Forall2 Permutation (columns st) (columns (set_column k col' st)).
Proof.
  intros Hk Hperm. cbn [set_column columns].
  rewrite <- (list_insert_id (columns st) k col Hk) at 1.
  apply Forall2_insert; [|exact Hperm]. apply Forall2_same_length_lookup_2; [reflexivity|].
  intros i x y Hx Hy. rewrite Hx in Hy. now injection Hy as <-.
Qed.

Lemma assign_ranks_columns (order : list nat) :
  forall (i : nat) (st : Store), columns (assign_ranks i order st) = columns st.
Proof.
  induction order as [|v order IH]; intros i st; cbn [assign_ranks]; [reflexivity|].
  now rewrite IH.
Qed.

Lemma handle_constraints_columns (H : ClusterCrossingsData) (st st' : Store) :
  handle_constraints H st = Some st' -> columns st' = columns st.
Proof.
  unfold handle_constraints. intros Hrun.
  destruct (resolve_constraints _ _) as [[r n]|]; [|discriminate]. cbn in Hrun.
  destruct (mapM _ _) as [keyed|]; [|discriminate]. cbn in Hrun.
  destruct (mapM _ _) as [order|]; [|discriminate]. cbn in Hrun.
  injection Hrun as <-. apply assign_ranks_columns.
Qed.

Lemma restore_columns_perm (best : list (list nat)) (st st' : Store) :
  restore_columns best st = Some st' -> Forall2 Permutation (columns st) (columns st').
Proof.
  unfold restore_columns. intros Hrun.
  destruct (mapM _ _) as [cols|] eqn:E; [|discriminate]. cbn in Hrun. injection Hrun as <-.
  cbn [set_columns columns]. apply mapM_Some_1 in E.
  revert best cols E. induction (columns st) as [|c cs IH]; intros best cols E.
  - inversion E; subst. constructor.
  - destruct best as [|b best]; cbn in E.
    + inversion E; subst. cbn. constructor; [reflexivity|].
      apply Forall2_same_length_lookup_2; [reflexivity|].
      intros i x y Hx Hy. rewrite Hx in Hy. now injection Hy as <-.
    + inversion E as [|? c' ? cols' Hc E']; subst. cbn [app length drop].
      constructor; [exact (sort_key_perm _ _ _ _ Hc)|]. now apply (IH best).
Qed.

Section Columns.
Context {R : RandomSource}.

Lemma calc_barycenters_col_columns (fs : list (nat * list Socket)) (col : list nat) :
  forall (st st' : Store) (g g' : rng),
    calc_barycenters_col fs col st g = Some (st', g') -> columns st' = columns st.
Proof.
  induction col as [|w col IH]; intros st st' g g'; cbn [calc_barycenters_col].
  - now intros [= <- _].
  - destruct (dict_get w fs) as [[|s sockets]|]; cbn [mbind option_bind]; [apply IH| |discriminate].
    destruct (sum_socket_ranks st (s :: sockets)) as [weight|]; cbn [mbind option_bind];
      [|discriminate].
    destruct (uniform01 g) as [u g1]. intros Hrun. now apply IH in Hrun.
Qed.

Lemma fill_random_columns (max_b : Q) (col : list nat) :
  forall (st : Store) (g : rng), columns (fill_random max_b col st g).1 = columns st.
Proof.
  induction col as [|v col IH]; intros st g; cbn [fill_random]; [reflexivity|].
  destruct (barycenter st !! v); [apply IH|].
  destruct (uniform01 g) as [u g']. now rewrite IH.
Qed.

Lemma fill_between_columns (col : list nat) :
  forall (prev : option nat) (st st' : Store),
    fill_between prev col st = Some st' -> columns st' = columns st.
Proof.
  induction col as [|v col IH]; intros prev st st'; cbn [fill_between].
  - now intros [= <-].
  - destruct (barycenter st !! v); [apply IH|].
    destruct (match prev with None => Some 0%Q | Some p => barycenter st !! p end);
      cbn [mbind option_bind]; [|discriminate].
    intros Hrun. now apply IH in Hrun.
Qed.

Lemma fill_in_unknown_barycenters_columns (col : list nat) (is_first_iter : bool)
    (st st' : Store) (g g' : rng) :
  fill_in_unknown_barycenters col is_first_iter st g = Some (st', g') ->
  columns st' = columns st.
Proof.
  unfold fill_in_unknown_barycenters. destruct is_first_iter.
  - intros [= E].
    pose proof (fill_random_columns (Qmax_list 0 (known_barycenters st col) + 2) col st g) as Hc.
    rewrite E in Hc. exact Hc.
  - destruct (fill_between None col st) as [st1|] eqn:E; [|discriminate].
    cbn. intros [= <- _]. exact (fill_between_columns _ _ _ _ E).
Qed.

End Columns.

Lemma cr_reset_columns (vs : list nat) (st : Store) :
  columns (foldl (fun st v => cr_reset v st) st vs) = columns st.
Proof.
  revert st. induction vs as [|v vs IH]; intros st; cbn [foldl]; [reflexivity|].
  now rewrite IH.
Qed.

Section ColumnsLoop.
Context {R : RandomSource}.
Variable is_cluster : nat -> bool.
Variable cluster_of : nat -> nat.
Variables nx_ancestors nx_descendants : DiGraph -> nat -> list nat.
Variable nx_topological_sort : DiGraph -> list nat.
Variables TC_succ TC_pred : DiGraph -> nat -> list nat.
Variable set_order : list nat -> list nat.

Lemma reduce_cluster_columns (key : ClusterKey) (forwards first : bool)
    (H H' : ClusterCrossingsData) (st st' : Store) (g g' : rng) (n : Z) :
  reduce_cluster key forwards first H st g = Some (n, H', st', g') ->
  columns st' = columns st.
Proof.
  unfold reduce_cluster. intros Hrun.
  destruct (sort_constrained key st (constrained_clusters H)) as [cs|]; [|discriminate].
  cbn [mbind option_bind] in Hrun.
  destruct (calc_socket_ranks _ forwards st) as [st1|] eqn:E1; [|discriminate].
  cbn [mbind option_bind] in Hrun.
  destruct (calc_barycenters _ st1 g) as [[st2 g2]|] eqn:E2; [|discriminate].
  cbn [mbind option_bind] in Hrun.
  destruct (fill_in_unknown_barycenters _ first st2 g2) as [[st3 g3]|] eqn:E3; [|discriminate].
  cbn [mbind option_bind] in Hrun.
  destruct (handle_constraints _ st3) as [st4|] eqn:E4; [|discriminate].
  cbn [mbind option_bind] in Hrun.
  destruct (get_cross_count _ st4) as [[m H2]|]; [|discriminate].
  cbn [mbind option_bind] in Hrun. injection Hrun as _ _ <- _.
  rewrite (handle_constraints_columns _ _ _ E4), (fill_in_unknown_barycenters_columns _ _ _ _ _ _ E3).
  unfold calc_barycenters in E2. rewrite (calc_barycenters_col_columns _ _ _ _ _ _ E2).
  unfold calc_socket_ranks in E1. now apply calc_socket_ranks_items_columns in E1 as [-> _].
Qed.

Lemma reduce_data_columns (key : ClusterKey) (forwards first : bool)
    (data : list ClusterCrossingsData) :
  forall (cc cc' : Z) (data' : list ClusterCrossingsData) (st st' : Store) (g g' : rng),
    reduce_data key forwards first data cc st g = Some (cc', data', st', g') ->
    columns st' = columns st.
Proof.
  induction data as [|H data IH]; intros cc cc' data' st st' g g'; cbn [reduce_data].
  - now intros [= _ _ <- _].
  - destruct (reduce_cluster key forwards first H st g) as [[[[n H'] st1] g1]|] eqn:E1;
      [|discriminate].
    cbn [mbind option_bind].
    destruct (reduce_data key forwards first data (cc + n) st1 g1) as [[[[c2 d2] st2] g2]|] eqn:E2;
      [|discriminate].
    cbn [mbind option_bind]. intros [= _ _ <- _].
    rewrite (IH _ _ _ _ _ _ _ E2). exact (reduce_cluster_columns _ _ _ _ _ _ _ _ _ _ E1).
Qed.

Lemma reduce_column_columns (j : nat) (forwards first : bool) (item item' : FreeColumn)
    (cc cc' : Z) (st st' : Store) (g g' : rng) :
  reduce_column is_cluster cluster_of nx_topological_sort j forwards first item cc st g
  = Some (cc', item', st', g') ->
  Forall2 Permutation (columns st) (columns st').
Proof.
  unfold reduce_column. intros Hrun.
  destruct (if decide (j = 0%nat) then _ else _) as [key|]; [|discriminate].
  cbn [mbind option_bind] in Hrun.
  destruct (reduce_data key forwards first (data item) cc st g) as [[[[c1 d1] st1] g1]|] eqn:E1;
    [|discriminate].
  cbn [mbind option_bind] in Hrun.
  destruct (head _) as [root|]; [|discriminate]. cbn [mbind option_bind] in Hrun.
  destruct (get_new_col_order _ _ _ _ _) as [new_order|]; [|discriminate].
  cbn [mbind option_bind] in Hrun.
  destruct (columns st1 !! base_free_col item) as [col|] eqn:Ecol; [|discriminate].
  cbn [mbind option_bind] in Hrun.
  destruct (sort_key _ _ col) as [col'|] eqn:Esort; [|discriminate].
  cbn [mbind option_bind] in Hrun. injection Hrun as _ _ <- _.
  rewrite <- (reduce_data_columns _ _ _ _ _ _ _ _ _ _ _ E1).
  apply (set_column_perm _ col); [exact Ecol|exact (sort_key_perm _ _ _ _ Esort)].
Qed.

Lemma reduce_columns_columns (forwards first : bool) (items : list FreeColumn) :
  forall (j : nat) (cc cc' : Z) (items' : list FreeColumn) (st st' : Store) (g g' : rng),
    reduce_columns is_cluster cluster_of nx_topological_sort j forwards first items cc st g
    = Some (cc', items', st', g') ->
    Forall2 Permutation (columns st) (columns st').
Proof.
  induction items as [|item items IH]; intros j cc cc' items' st st' g g'; cbn [reduce_columns].
  - intros [= _ _ <- _]. apply Forall2_same_length_lookup_2; [reflexivity|].
    intros i x y Hx Hy. rewrite Hx in Hy. now injection Hy as <-.
  - destruct (reduce_column _ _ _ j forwards first item cc st g) as [[[[c1 i1] st1] g1]|] eqn:E1;
      [|discriminate].
    cbn [mbind option_bind].
    destruct (reduce_columns _ _ _ (Datatypes.S j) forwards first items c1 st1 g1)
      as [[[[c2 i2] st2] g2]|] eqn:E2; [|discriminate].
    cbn [mbind option_bind]. intros [= _ _ <- _].
    etransitivity; [exact (reduce_column_columns _ _ _ _ _ _ _ _ _ _ _ E1)|].
    exact (IH _ _ _ _ _ _ _ _ E2).
Qed.

Lemma minimized_loop_columns (nodes_and_clusters : list nat) :
  forall (fuel i : nat) (cross_count old : count) (best : option (list (list nat)))
         (r r' : Reduction),
    minimized_loop is_cluster cluster_of nx_descendants nx_topological_sort
                   fuel nodes_and_clusters i cross_count best r = Some (old, r') ->
    Forall2 Permutation (columns (red_store r)) (columns (red_store r')).
Proof.
  induction fuel as [|fuel IH]; intros i cross_count old best r r'; cbn [minimized_loop];
    [discriminate|].
  destruct (count_is_zero cross_count).
  { intros [= _ <-]. cbn [red_store]. rewrite cr_reset_columns.
    apply Forall2_same_length_lookup_2; [reflexivity|].
    intros k x y Hx Hy. rewrite Hx in Hy. now injection Hy as <-. }
  destruct (reduce_columns _ _ _ 0%nat _ _ _ 0%Z _ (red_rng r)) as [[[[cc items'] st1] g1]|] eqn:E1;
    [|cbn [mbind option_bind]; intros Hd; discriminate Hd].
  cbn [mbind option_bind].
  apply reduce_columns_columns in E1. rewrite cr_reset_columns in E1.
  destruct (count_lt (Finite cc) cross_count).
  - destruct (sort_internal_columns _ _ st1 (if Nat.even i then items' else red_forward r))
      as [fwd'|]; [|cbn [mbind option_bind]; intros Hd; discriminate Hd].
    cbn [mbind option_bind].
    destruct (sort_internal_columns _ _ st1 (if Nat.even i then red_backward r else items'))
      as [bwd'|]; [|cbn [mbind option_bind]; intros Hd; discriminate Hd].
    cbn [mbind option_bind]. intros Hrun. apply IH in Hrun. cbn [red_store] in Hrun.
    etransitivity; [exact E1|exact Hrun].
  - destruct best as [best|]; [|cbn [mbind option_bind]; intros Hd; discriminate Hd]. cbn [mbind option_bind].
    destruct (restore_columns best st1) as [st2|] eqn:E2; [|cbn [mbind option_bind]; intros Hd; discriminate Hd].
    cbn [mbind option_bind]. intros [= _ <-]. cbn [red_store].
    etransitivity; [exact E1|exact (restore_columns_perm _ _ _ E2)].
Qed.

Lemma restarts_columns (fuel : nat) :
  forall (n : nat) (best_count : count) (best : list (list nat)) (r r' : Reduction),
    restarts is_cluster cluster_of nx_descendants nx_topological_sort n fuel best_count best r
    = Some r' ->
    Forall2 Permutation (columns (red_store r)) (columns (red_store r')).
Proof.
  induction n as [|n IH]; intros best_count best r r'; cbn [restarts].
  - intros [= <-]. apply Forall2_same_length_lookup_2; [reflexivity|].
    intros k x y Hx Hy. rewrite Hx in Hy. now injection Hy as <-.
  - destruct (minimized_cross_count _ _ _ _ fuel r) as [[cc r1]|] eqn:E1; [|cbn [mbind option_bind]; intros Hd; discriminate Hd].
    cbn [mbind option_bind]. unfold minimized_cross_count in E1.
    apply minimized_loop_columns in E1.
    destruct (count_lt cc best_count).
    + destruct (count_is_zero cc); [now intros [= <-]|].
      intros Hrun. apply IH in Hrun. etransitivity; [exact E1|exact Hrun].
    + destruct (restore_columns best (red_store r1)) as [st|] eqn:E2; [|cbn [mbind option_bind]; intros Hd; discriminate Hd].
      cbn [mbind option_bind]. intros Hrun. apply IH in Hrun. cbn [red_store] in Hrun.
      etransitivity; [exact E1|].
      etransitivity; [exact (restore_columns_perm _ _ _ E2)|exact Hrun].
Qed.

End ColumnsLoop.

(** X1.  [minimize_crossings] only reorders the nodes inside the columns:
    when the call returns, there are as many columns as before and every
    column holds the nodes it held, each as often as before.  No node is
    added, dropped or moved to another column, whatever the draws. *)
Theorem minimize_crossings_permutes_columns {R : RandomSource}
    (is_cluster : nat -> bool) (cluster_of : nat -> nat)
    (nx_ancestors nx_descendants : DiGraph -> nat -> list nat)
    (nx_topological_sort : DiGraph -> list nat) (TC_succ TC_pred : DiGraph -> nat -> list nat)
    (set_order : list nat -> list nat) (fuel : nat) (G : list GEdge) (G_nodes : list nat) (T : DiGraph)
    (st st' : Store) (g g' : rng) :
  minimize_crossings is_cluster cluster_of nx_ancestors nx_descendants nx_topological_sort
                     TC_succ TC_pred set_order fuel G G_nodes T st g = Some (st', g') ->
  Forall2 Permutation (columns st) (columns st').
Proof.
  unfold minimize_crossings. intros Hrun.
  destruct (crossing_items _ _ _ _ _ _ G G_nodes T (columns st)) as [[fwd bwd]|]; [|discriminate].
  cbn [mbind option_bind] in Hrun.
  destruct (restarts _ _ _ _ _ITERATIONS fuel Infinite (columns st) _) as [r|] eqn:E;
    [|discriminate].
  cbn [mbind option_bind] in Hrun. injection Hrun as <- _.
  exact (restarts_columns _ _ _ _ _ _ _ _ _ _ E).
Qed.

Lemma minimize_crossings_permutes_columns_witness :
  match @flat_minimize_crossings harmonic_source false 5 abcd_G 4 abcd_store 0%nat with
  | Some (st', _) => Forall2 Permutation (columns abcd_store) (columns st')
  | None => False
  end.
Proof.
  unfold flat_minimize_crossings.
  destruct (minimize_crossings (R := harmonic_source) flat_is_cluster flat_cluster_of
              flat_ancestors flat_descendants flat_topological_sort flat_TC_succ flat_TC_pred
              unique 5 abcd_G (seq 0 4) (flat_T 4) abcd_store 0%nat) as [[st' g']|] eqn:E.
  - exact (minimize_crossings_permutes_columns (R := harmonic_source) _ _ _ _ _ _ _ _ _ _ _
             _ _ _ _ _ E).
  - vm_compute in E. discriminate E.
Defined.

(** *** Reverting to the best columns *)

Lemma index_lookup_NoDup (l : list nat) (i x : nat) :
  NoDup l -> l !! i = Some x -> index x l = Some i.
Proof.
  intros Hnd Hi.
  destruct (PyFacts.index_is_Some x l) as [j Hj]; [eapply list_elem_of_lookup_2; exact Hi|].
  pose proof (PyFacts.index_Some_lookup _ _ _ Hj) as Hj'.
  now rewrite (NoDup_lookup _ _ _ _ Hnd Hi Hj').
Qed.

Lemma StronglySorted_by_lookup {A : Type} (R : A -> A -> Prop) (l : list A) :
  (forall i j x y, (i < j)%nat -> l !! i = Some x -> l !! j = Some y -> R x y) ->
  StronglySorted R l.
Proof.
  induction l as [|a l IH]; intros Hl; constructor.
  - apply IH. intros i j x y Hij Hx Hy. apply (Hl (Datatypes.S i) (Datatypes.S j)); [lia|exact Hx|exact Hy].
  - apply Forall_forall. intros y Hy. apply list_elem_of_lookup_1 in Hy as [j Hj].
    apply (Hl 0%nat (Datatypes.S j)); [lia|reflexivity|exact Hj].
Qed.

(** [col.sort(key=best_col.index)] on a rearrangement of [best_col]. *)
Lemma sort_by_index_restores (col best_col : list nat) :
  Permutation col best_col -> NoDup best_col ->
  sort_key Nat.leb (fun v => index v best_col) col = Some best_col.
Proof.
  intros Hperm Hnd. set (f := fun v => default 0%nat (index v best_col)).
  rewrite (sort_key_Some Nat.leb _ f).
  2:{ intros x Hx. rewrite Hperm in Hx. destruct (PyFacts.index_is_Some x best_col Hx) as [i Hi].
      unfold f. now rewrite Hi. }
  f_equal.
  assert (Hf : forall i x, best_col !! i = Some x -> f x = i).
  { intros i x Hi. unfold f. now rewrite (index_lookup_NoDup _ _ _ Hnd Hi). }
  apply (StronglySorted_unique_strong (fun a b => (f a <= f b)%nat)).
  - intros x1 x2 H1 H2 H12 H21. rewrite sort_by_perm, Hperm in H1.
    apply list_elem_of_lookup_1 in H1 as [i Hi].
    apply list_elem_of_lookup_1 in H2 as [j Hj].
    rewrite (Hf _ _ Hi), (Hf _ _ Hj) in H12, H21. assert (i = j) as -> by lia. congruence.
  - apply PyFacts.sort_by_nat_sorted.
  - apply StronglySorted_by_lookup. intros i j x y Hij Hx Hy.
    rewrite (Hf _ _ Hx), (Hf _ _ Hy). lia.
  - now rewrite sort_by_perm.
Qed.

(** X2.  Reverting to a snapshot restores it exactly: when every column is
    a rearrangement of its duplicate-free snapshot, the loop
    [for col, best_col in zip(columns, best_columns):
       col.sort(key=best_col.index)]
    leaves the columns equal to the snapshot and touches nothing else. *)
Theorem restore_columns_restores_snapshot (best_columns : list (list nat)) (st : Store) :
  Forall2 Permutation (columns st) best_columns -> Forall (fun c => NoDup c) best_columns ->
  restore_columns best_columns st = Some (set_columns best_columns st).
Proof.
  intros Hperm Hnd. unfold restore_columns.
  assert (E : mapM (fun cb : list nat * list nat =>
                      sort_key Nat.leb (fun v => index v cb.2) cb.1)
                   (zip (columns st) best_columns) = Some best_columns).
  { apply mapM_Some_2. induction Hperm as [|c b cs bs Hcb Hperm IH]; [constructor|].
    apply Forall_cons in Hnd as [Hb Hnd]. cbn [zip zip_with]. constructor; [|now apply IH].
    cbn [fst snd]. now apply sort_by_index_restores. }
  rewrite E. cbn [mbind option_bind]. do 2 f_equal.
  rewrite drop_ge, app_nil_r; [reflexivity|].
  now rewrite (Forall2_length _ _ _ Hperm).
Qed.

Lemma restore_columns_restores_snapshot_witness :
  restore_columns [[0; 1]; [2; 3]]%nat (mkStore [[1; 0]; [3; 2]]%nat ∅ ∅)
  = Some (set_columns [[0; 1]; [2; 3]]%nat (mkStore [[1; 0]; [3; 2]]%nat ∅ ∅)).
Proof.
  apply restore_columns_restores_snapshot.
  - cbn [columns]. repeat constructor; apply perm_swap.
  - constructor; [|constructor; [|constructor]];
      apply (bool_decide_unpack (NoDup _)); vm_compute; exact I.
Defined.

(** *** get_new_col_order *)

Section NewOrder.
Variable is_cluster : nat -> bool.
Variable st : Store.
Variable LT : DiGraph.

Local Abbreviation child := (LT_child is_cluster LT).
Local Abbreviation new_order := (get_new_col_order is_cluster).

Lemma mapM_concat_elem {A B : Type} (f : A -> option (list B)) (l : list A)
    (ks : list (list B)) (x : B) :
  mapM f l = Some ks ->
  x ∈ concat ks <-> exists a k, a ∈ l /\ f a = Some k /\ x ∈ k.
Proof.
  intros E. apply mapM_Some_1 in E. rewrite PlacementFacts.elem_of_concat. split.
  - intros (k & Hx & Hk). apply list_elem_of_lookup_1 in Hk as [i Hi].
    destruct (Forall2_lookup_r _ _ _ _ _ E Hi) as (a & Ha & Hfa).
    exists a, k. split; [eapply list_elem_of_lookup_2; exact Ha|]. now split.
  - intros (a & k & Ha & Hfa & Hx). apply list_elem_of_lookup_1 in Ha as [i Hi].
    destruct (Forall2_lookup_l _ _ _ _ _ E Hi) as (k' & Hk' & Hfa').
    exists k. split; [exact Hx|]. rewrite Hfa in Hfa'. injection Hfa' as <-.
    eapply list_elem_of_lookup_2; exact Hk'.
Qed.

(** The new order lists the nodes below [v], and nothing else. *)
Lemma get_new_col_order_leaves (fuel : nat) :
  forall (v : nat) (order : list nat),
    new_order fuel st LT v = Some order ->
    forall x, x ∈ order <-> is_cluster x = false /\ rtc child v x.
Proof.
  induction fuel as [|fuel IH]; intros v order; cbn [get_new_col_order]; [discriminate|].
  destruct (is_cluster v) eqn:Hv.
  - destruct (sort_key_opt _ (succs LT v)) as [ws|] eqn:Ews; [|discriminate].
    cbn [mbind option_bind].
    destruct (mapM (new_order fuel st LT) ws) as [orders|] eqn:Eo; [|discriminate].
    cbn [mbind option_bind]. intros [= <-] x.
    rewrite (mapM_concat_elem _ _ _ _ Eo). apply sort_key_opt_perm in Ews. split.
    + intros (w & k & Hw & Hk & Hx). apply (IH _ _ Hk) in Hx as [Hx Hwx].
      split; [exact Hx|]. apply (rtc_l _ _ w); [|exact Hwx].
      split; [exact Hv|]. now rewrite Ews.
    + intros [Hx Hvx]. apply rtc_inv in Hvx as [->|(w & [_ Hw] & Hwx)]; [congruence|].
      rewrite Ews in Hw. apply list_elem_of_lookup_1 in Hw as [i Hi].
      destruct (Forall2_lookup_l _ _ _ _ _ (mapM_Some_1 _ _ _ Eo) Hi) as (k & _ & Hk).
      exists w, k. split; [eapply list_elem_of_lookup_2; exact Hi|]. split; [exact Hk|].
      apply (IH _ _ Hk). now split.
  - intros [= <-] x. rewrite list_elem_of_singleton. split.
    + intros ->. split; [exact Hv|reflexivity].
    + intros [_ Hvx]. apply rtc_inv in Hvx as [->|(w & [Hc _] & _)]; [reflexivity|congruence].
Qed.

(** The order of a cluster below [v] is one block of the order of [v]. *)
Lemma get_new_col_order_block (fuel : nat) :
  forall (v c : nat) (order : list nat),
    new_order fuel st LT v = Some order -> rtc child v c ->
    exists fuel' l1 block l2,
      new_order fuel' st LT c = Some block /\ order = l1 ++ block ++ l2.
Proof.
  induction fuel as [|fuel IH]; intros v c order Hrun Hvc; [discriminate|].
  apply rtc_inv in Hvc as [->|(w & [Hv Hw] & Hwc)].
  { exists (Datatypes.S fuel), [], order, []. split; [exact Hrun|]. now rewrite app_nil_r. }
  cbn [get_new_col_order] in Hrun. rewrite Hv in Hrun.
  destruct (sort_key_opt _ (succs LT v)) as [ws|] eqn:Ews; [|discriminate].
  cbn [mbind option_bind] in Hrun.
  destruct (mapM (new_order fuel st LT) ws) as [orders|] eqn:Eo; [|discriminate].
  cbn [mbind option_bind] in Hrun. injection Hrun as <-.
  apply sort_key_opt_perm in Ews. rewrite Ews in Hw.
  apply list_elem_of_lookup_1 in Hw as [i Hi].
  destruct (Forall2_lookup_l _ _ _ _ _ (mapM_Some_1 _ _ _ Eo) Hi) as (k & Hk & Hrunw).
  destruct (IH _ _ _ Hrunw Hwc) as (fuel' & l1 & block & l2 & Hblock & ->).
  exists fuel', (concat (take i orders) ++ l1), block, (l2 ++ concat (drop (Datatypes.S i) orders)).
  split; [exact Hblock|].
  rewrite <- (take_drop_middle _ _ _ Hk) at 1. rewrite concat_app. cbn [concat].
  now rewrite <- !app_assoc.
Qed.

End NewOrder.

(** X3.  In the order that [get_new_col_order] returns for the root of a
    nesting tree, the nodes below any cluster [c] of the tree stand
    together: they fill one block of the order, which holds no other node.
    Clusters are never interleaved, whatever the barycenters. *)
Theorem get_new_col_order_keeps_clusters_together (is_cluster : nat -> bool) (fuel : nat)
    (st : Store) (LT : DiGraph) (root c : nat) (order : list nat) :
  get_new_col_order is_cluster fuel st LT root = Some order ->
  rtc (LT_child is_cluster LT) root c ->
  exists l1 block l2,
    order = l1 ++ block ++ l2
    /\ forall x, x ∈ block <-> is_cluster x = false /\ rtc (LT_child is_cluster LT) c x.
Proof.
  intros Hrun Hc.
  destruct (get_new_col_order_block is_cluster st LT fuel root c order Hrun Hc)
    as (fuel' & l1 & block & l2 & Hblock & E).
  exists l1, block, l2. split; [exact E|].
  exact (get_new_col_order_leaves is_cluster st LT fuel' c block Hblock).
Qed.

Lemma get_new_col_order_keeps_clusters_together_witness :
  exists l1 block l2,
    [2; 1; 0]%nat = l1 ++ block ++ l2
    /\ forall x, x ∈ block <->
         flat_is_cluster x = false /\ rtc (LT_child flat_is_cluster nested_LT) 11%nat x.
Proof.
  apply (get_new_col_order_keeps_clusters_together flat_is_cluster 3 nested_store nested_LT
           10%nat 11%nat).
  - vm_compute. reflexivity.
  - apply rtc_once. split; [reflexivity|].
    apply (bool_decide_unpack (11%nat ∈ succs nested_LT 10%nat)). vm_compute. exact I.
Defined.

(** *** handle_constraints: the final ranks *)

Lemma concat_fmap_perm {A B : Type} (f : A -> list B) (l l' : list A) :
  Permutation l l' -> Permutation (concat (f <$> l)) (concat (f <$> l')).
Proof.
  induction 1 as [|x l l' _ IH|x y l|l l' l'' _ IH1 _ IH2]; cbn.
  - reflexivity.
  - now apply Permutation_app_head.
  - rewrite !app_assoc. apply Permutation_app_tail, Permutation_app_comm.
  - now rewrite IH1.
Qed.

Lemma concat_fmap_ext {A B : Type} (f g : A -> list B) (l : list A) :
  (forall x, x ∈ l -> f x = g x) -> concat (f <$> l) = concat (g <$> l).
Proof.
  induction l as [|x l IH]; intros Hfg; cbn; [reflexivity|].
  rewrite (Hfg x) by left. f_equal. apply IH. intros y Hy. apply Hfg. now right.
Qed.

Lemma filter_remove_perm (s : nat) (l : list nat) :
  NoDup l -> s ∈ l -> Permutation l (s :: filter (fun w => w <> s) l).
Proof.
  intros Hnd Hs. apply NoDup_Permutation; [exact Hnd| |].
  - apply NoDup_cons. split; [|now apply NoDup_filter].
    rewrite list_elem_of_filter. tauto.
  - intros x. rewrite elem_of_cons, list_elem_of_filter.
    destruct (decide (x = s)) as [->|Hne]; tauto.
Qed.

Lemma assign_ranks_lookup (order : list nat) :
  forall (k : nat) (st : Store),
    NoDup order ->
    (forall i v, order !! i = Some v ->
       barycenter (assign_ranks k order st) !! v = Some (Q_of_nat (k + i)))
    /\ (forall v, v ∉ order -> barycenter (assign_ranks k order st) !! v = barycenter st !! v)
    /\ socket_ranks (assign_ranks k order st) = socket_ranks st.
Proof.
  induction order as [|w order IH]; intros k st Hnd; cbn [assign_ranks].
  - split; [intros i v Hi; discriminate|]. split; reflexivity.
  - apply NoDup_cons in Hnd as [Hw Hnd].
    destruct (IH (Datatypes.S k) (set_barycenter w (Q_of_nat k) st) Hnd) as (Hin & Hout & Hsr).
    split; [|split].
    + intros [|i] v Hi; cbn in Hi.
      * injection Hi as <-. rewrite (Hout w Hw). cbn. rewrite lookup_insert_eq.
        now rewrite Nat.add_0_r.
      * rewrite (Hin i v Hi). do 2 f_equal. lia.
    + intros v Hv. apply not_elem_of_cons in Hv as [Hne Hv]. rewrite (Hout v Hv). cbn.
      now apply lookup_insert_ne.
    + exact Hsr.
Qed.

Lemma merge_constraint_groups (free : list nat) (c : nat * nat) (r r1 : Resolution) :
  wf_resolution r -> groups_inv free r -> c ∈ edges (GC r) -> c.1 <> c.2 ->
  merge_constraint c r = Some r1 -> groups_inv free r1.
Proof.
  intros (HG & Hdef & Hfresh) (Hunc & Hperm) Hc Hne. destruct c as [s t]. cbn in Hne.
  pose proof HG as [Hnd Hedges].
  destruct (Hedges s t Hc) as [Hs Ht].
  destruct (Hdef s Hs) as ([bs Hbs] & [ds Hds] & [ls Hls]).
  destruct (Hdef t Ht) as ([bt Hbt] & [dt Hdt] & [lt Hlt]).
  set (v_c := fresh r).
  set (G1 := foldl (fun G u => add_edge u v_c G) (GC r) (preds (GC r) s ++ preds (GC r) t)).
  set (G2 := remove_nodes_from [s; t] G1).
  set (G3 := if bool_decide ((v_c, v_c) ∈ edges G2) then remove_edge v_c v_c G2 else G2).
  set (bc := if decide (0 < ds + dt)%nat
             then ((bs * Q_of_nat ds + bt * Q_of_nat dt) / Q_of_nat (ds + dt))%Q
             else ((bs + bt) / 2)%Q).
  assert (E : merge_constraint (s, t) r
              = Some (mkRes G3 (if bool_decide (v_c ∈ nodes G3) then unconstrained r
                                else unconstrained r ++ [v_c])
                            (<[v_c := ls ++ lt]> (L r)) (<[v_c := (ds + dt)%nat]> (deg r))
                            (<[v_c := bc]> (bary r)) (Datatypes.S v_c))).
  { unfold merge_constraint. rewrite Hds, Hdt, Hbs, Hbt, Hls, Hlt. reflexivity. }
  rewrite E. clear E.
  assert (Hvc : v_c ∉ nodes (GC r)).
  { intros Hin. apply Hfresh in Hin. unfold v_c in Hin. lia. }
  assert (HG1n : nodes G1 = nodes (GC r) ++ [v_c]).
  { apply rewire_nodes; [| |exact Hvc].
    - assert (Hin : s ∈ preds (GC r) s ++ preds (GC r) t).
      { apply elem_of_app. right. now apply elem_of_preds. }
      intros E. rewrite E in Hin. inversion Hin.
    - intros u Hu. apply elem_of_app in Hu as [Hu|Hu];
        apply elem_of_preds in Hu; now apply Hedges in Hu. }
  set (N2 := filter (fun w => w <> t) (filter (fun w => w <> s) (nodes (GC r)))).
  assert (HG3n : nodes G3 = N2 ++ [v_c]).
  { assert (E : nodes G3 = nodes G2) by (unfold G3; case_bool_decide; reflexivity).
    rewrite E. change (nodes G2)
      with (filter (fun w => w <> t) (filter (fun w => w <> s) (nodes G1))).
    rewrite HG1n, !filter_app. unfold N2. f_equal.
    rewrite (filter_cons_True (fun w => w <> s)) by (intros ->; contradiction).
    rewrite filter_nil, (filter_cons_True (fun w => w <> t)) by (intros ->; contradiction).
    reflexivity. }
  clearbody G3.
  rewrite (bool_decide_eq_true_2 (v_c ∈ nodes G3))
    by (rewrite HG3n; apply elem_of_app; right; left).
  intros [= <-]. split; cbn [unconstrained bary L fresh GC].
  - intros v Hv. destruct (Hunc v Hv) as (Hb & Hl & Hlt'). fold v_c in Hlt'.
    rewrite !lookup_insert_ne by lia. split; [exact Hb|]. split; [exact Hl|lia].
  - rewrite <- Hperm. unfold members. cbn [unconstrained GC].
    rewrite HG3n, !fmap_app, !concat_app. cbn [fmap list_fmap concat].
    assert (Hold : forall v, v <> v_c ->
              Lget (mkRes G3 (unconstrained r) (<[v_c := ls ++ lt]> (L r))
                          (<[v_c := (ds + dt)%nat]> (deg r)) (<[v_c := bc]> (bary r))
                          (Datatypes.S v_c)) v = Lget r v).
    { intros v Hv. unfold Lget. cbn [L]. now rewrite lookup_insert_ne by congruence. }
    rewrite (concat_fmap_ext _ (Lget r) (unconstrained r)).
    2:{ intros v Hv. apply Hold. destruct (Hunc v Hv) as (_ & _ & Hlt'). fold v_c in Hlt'. lia. }
    apply Permutation_app_head.
    rewrite (concat_fmap_ext _ (Lget r) N2).
    2:{ intros v Hv. apply Hold. intros ->. apply Hvc.
        now apply list_elem_of_filter in Hv as [_ Hv]; apply list_elem_of_filter in Hv as [_ Hv]. }
    unfold Lget at 2. cbn [L]. rewrite lookup_insert_eq. cbn [default]. rewrite app_nil_r.
    assert (HN : Permutation (nodes (GC r)) (s :: t :: N2)).
    { rewrite (filter_remove_perm s (nodes (GC r)) Hnd Hs) at 1. apply perm_skip.
      apply filter_remove_perm; [now apply NoDup_filter|].
      apply list_elem_of_filter. split; [congruence|exact Ht]. }
    rewrite (concat_fmap_perm (Lget r) _ _ HN). cbn [fmap list_fmap concat].
    assert (Es : Lget r s = ls) by (unfold Lget; now rewrite Hls).
    assert (Et : Lget r t = lt) by (unfold Lget; now rewrite Hlt).
    rewrite Es, Et, app_assoc. apply Permutation_app_comm.
Qed.

Lemma resolve_constraints_groups (free : list nat) :
  forall (fuel : nat) (r r' : Resolution) (n : nat),
    wf_resolution r -> groups_inv free r ->
    resolve_constraints fuel r = Some (r', n) ->
    wf_resolution r' /\ groups_inv free r'.
Proof.
  induction fuel as [|fuel IH]; intros r r' n Hwf Hinv Hrun;
    pose proof Hwf as (HG & Hdef & _);
    destruct (find_violated_constraint_total (GC r) (bary r) HG) as (c & Hfind & Hc);
    try (intros v Hv; now apply Hdef);
    cbn [resolve_constraints] in Hrun; rewrite Hfind in Hrun; cbn [mbind option_bind] in Hrun;
    destruct c as [c|]; try discriminate; try (injection Hrun as <- _; now split).
  destruct (Hc c eq_refl) as [Hedge Hne].
  destruct (merge_constraint_spec c r Hwf Hedge Hne) as (r1 & Hmerge & Hwf1 & _).
  rewrite Hmerge in Hrun. cbn [mbind option_bind] in Hrun.
  destruct (resolve_constraints fuel r1) as [[r2 m]|] eqn:E; [|discriminate].
  cbn [mbind option_bind] in Hrun. injection Hrun as <- _.
  apply (IH r1 r2 m Hwf1); [|exact E].
  exact (merge_constraint_groups free c r r1 Hwf Hinv Hedge Hne Hmerge).
Qed.

Lemma resolution_init_groups (H : ClusterCrossingsData) (st : Store) :
  NoDup (free_col H) ->
  (forall v, v ∈ constrained_clusters H -> v ∈ free_col H) ->
  (forall v, v ∈ free_col H -> is_Some (barycenter st !! v)) ->
  groups_inv (free_col H) (resolution_init H st).
Proof.
  intros Hnd Hcc Hb.
  set (G0 := add_edges_from (pairwise (constrained_clusters H)) empty_graph).
  assert (HG0 : wf_graph G0) by apply add_edges_from_wf, empty_graph_wf.
  assert (Hn : forall v, v ∈ nodes G0 -> v ∈ free_col H).
  { intros v Hv. apply add_edges_from_nodes in Hv as [Hv|([a b] & He & Hv)]; [inversion Hv|].
    apply elem_of_pairwise in He as [Ha Hb']. cbn in Hv. destruct Hv as [-> | ->]; now apply Hcc. }
  assert (HL : forall v, v ∈ free_col H ->
            (list_to_map ((fun v => (v, [v])) <$> free_col H) : gmap nat (list nat)) !! v
            = Some [v]).
  { intros v Hv. apply elem_of_list_to_map.
    - rewrite <- list_fmap_compose. now rewrite list_fmap_id.
    - apply list_elem_of_fmap. now exists v. }
  split; cbn [resolution_init unconstrained GC bary L fresh]; fold G0.
  - intros v Hv. apply list_elem_of_filter in Hv as [_ Hv]. split; [now apply Hb|].
    split; [rewrite (HL v Hv); eauto|].
    apply Nat.lt_succ_r, list_max_nat_ge, elem_of_app. now left.
  - unfold members. cbn [resolution_init unconstrained GC]. fold G0.
    set (U := filter (fun v => v ∉ nodes G0) (free_col H)).
    rewrite (concat_fmap_ext _ (fun v => [v]) (U ++ nodes G0)).
    2:{ intros v Hv. unfold Lget. cbn [resolution_init L]. rewrite HL; [reflexivity|].
        apply elem_of_app in Hv as [Hv|Hv]; [now apply list_elem_of_filter in Hv as [_ Hv]|].
        now apply Hn. }
    replace (concat ((fun v => [v]) <$> U ++ nodes G0)) with (U ++ nodes G0)
      by (induction (U ++ nodes G0) as [|x l IH]; cbn; [reflexivity|now rewrite <- IH]).
    apply NoDup_Permutation; [|exact Hnd|].
    + apply NoDup_app. split; [now apply NoDup_filter|]. split; [|apply HG0].
      intros v Hv. now apply list_elem_of_filter in Hv as [Hv _].
    + intros v. rewrite elem_of_app. unfold U. rewrite list_elem_of_filter. split.
      * intros [[_ Hv]|Hv]; [exact Hv|now apply Hn].
      * intros Hv. destruct (decide (v ∈ nodes G0)); [now right|now left].
Qed.

Lemma mapM_keyed_fst {A K : Type} (key : A -> option K) (l : list A) (keyed : list (A * K)) :
  mapM (fun x => k ← key x; Some (x, k)) l = Some keyed -> keyed.*1 = l.
Proof.
  intros E. apply mapM_Some_1 in E.
  induction E as [|x [y k] l keyed Hx E IH]; [reflexivity|].
  cbn. destruct (key x); cbn in Hx; [|discriminate]. injection Hx as -> _.
  f_equal. exact IH.
Qed.

Lemma mapM_lookup_default (m : gmap nat (list nat)) (l : list nat) (order : list (list nat)) :
  mapM (fun v => m !! v) l = Some order -> order = (fun v => default [] (m !! v)) <$> l.
Proof.
  intros E. apply mapM_Some_1 in E.
  induction E as [|x y l l' Hx E IH]; [reflexivity|].
  cbn. rewrite Hx. cbn [default]. f_equal. exact IH.
Qed.

(** X4.  When the free column has no duplicates, the constrained clusters
    are among its elements and every element has a barycenter (as
    [fill_in_unknown_barycenters] leaves it), [handle_constraints] raises no
    error and overwrites the barycenters with dense ranks: in some order of
    the free column the elements get the barycenters 0, 1, 2, ... ; the
    barycenters of all other nodes, the columns and the socket ranks stay as
    they are. *)
Theorem handle_constraints_assigns_dense_ranks (H : ClusterCrossingsData) (st : Store) :
  NoDup (free_col H) ->
  (forall v, v ∈ constrained_clusters H -> v ∈ free_col H) ->
  (forall v, v ∈ free_col H -> is_Some (barycenter st !! v)) ->
  exists st' order,
    handle_constraints H st = Some st'
    /\ Permutation order (free_col H)
    /\ (forall i v, order !! i = Some v -> barycenter st' !! v = Some (Q_of_nat i))
    /\ (forall v, v ∉ free_col H -> barycenter st' !! v = barycenter st !! v)
    /\ columns st' = columns st
    /\ socket_ranks st' = socket_ranks st.
Proof.
  intros Hnd Hcc Hb.
  pose proof (resolution_init_wf H st Hcc Hb) as Hwf0.
  pose proof (resolution_init_groups H st Hnd Hcc Hb) as Hinv0.
  set (r0 := resolution_init H st) in *.
  destruct (resolve_constraints_total (length (nodes (GC r0))) r0 Hwf0)
    as (r & n & Hrun & _ & _ & _); [lia|].
  destruct (resolve_constraints_groups (free_col H) _ _ _ _ Hwf0 Hinv0 Hrun)
    as [(HG & Hdef & _) (Hunc & Hperm)].
  assert (Hmem : forall v, v ∈ members r -> is_Some (bary r !! v) /\ is_Some (L r !! v)).
  { intros v Hv. apply elem_of_app in Hv as [Hv|Hv].
    - destruct (Hunc v Hv) as (? & ? & _). now split.
    - destruct (Hdef v Hv) as (? & _ & ?). now split. }
  destruct (mapM_is_Some_2 (fun v => b ← bary r !! v; Some (v, b)) (members r)) as [keyed Hkeyed].
  { apply Forall_forall. intros v Hv. destruct (Hmem v Hv) as [[b Hbv] _].
    unfold compose. rewrite Hbv. cbn. eauto. }
  pose proof (mapM_keyed_fst _ _ _ Hkeyed) as Hfst.
  set (groups := (sorted_Q snd keyed).*1).
  assert (Hgroups : Permutation groups (members r)).
  { unfold groups, sorted_Q. rewrite <- Hfst. apply fmap_Permutation, sort_by_perm. }
  destruct (mapM_is_Some_2 (fun v => L r !! v) groups) as [order Horder].
  { apply Forall_forall. intros v Hv. rewrite Hgroups in Hv. now destruct (Hmem v Hv). }
  assert (Hconcat : concat order = concat (Lget r <$> groups)).
  { f_equal. exact (mapM_lookup_default _ _ _ Horder). }
  assert (Hall : Permutation (concat order) (free_col H)).
  { rewrite Hconcat, (concat_fmap_perm _ _ _ Hgroups). exact Hperm. }
  assert (Hndo : NoDup (concat order)) by now rewrite Hall.
  destruct (assign_ranks_lookup (concat order) 0 st Hndo) as (Hin & Hout & Hsr).
  exists (assign_ranks 0 (concat order) st), (concat order).
  split; [|split; [exact Hall|split; [exact Hin|split; [|split]]]].
  - unfold handle_constraints. fold r0. rewrite Hrun. cbn [mbind option_bind].
    unfold members in Hkeyed. rewrite Hkeyed. cbn [mbind option_bind].
    fold groups. rewrite Horder. reflexivity.
  - intros v Hv. apply Hout. now rewrite Hall.
  - apply assign_ranks_columns.
  - exact Hsr.
Qed.

Lemma handle_constraints_assigns_dense_ranks_witness :
  exists st' order,
    handle_constraints abc_H abc_store = Some st'
    /\ Permutation order (free_col abc_H)
    /\ (forall i v, order !! i = Some v -> barycenter st' !! v = Some (Q_of_nat i))
    /\ (forall v, v ∉ free_col abc_H -> barycenter st' !! v = barycenter abc_store !! v)
    /\ columns st' = columns abc_store
    /\ socket_ranks st' = socket_ranks abc_store.
Proof.
  apply (handle_constraints_assigns_dense_ranks abc_H abc_store).
  - apply (bool_decide_unpack (NoDup _)). vm_compute. exact I.
  - intros v Hv. exact Hv.
  - intros v Hv. cbn in Hv.
    repeat (apply elem_of_cons in Hv as [->|Hv]); [vm_compute; eauto..|inversion Hv].
Defined.

(** *** fill_in_unknown_barycenters *)

Section Fill.
Context {R : RandomSource}.

Lemma fill_random_keeps (max_b : Q) (col : list nat) :
  forall (st : Store) (g : rng),
    (forall v b, barycenter st !! v = Some b ->
                 barycenter (fill_random max_b col st g).1 !! v = Some b)
    /\ (forall v, v ∉ col ->
                  barycenter (fill_random max_b col st g).1 !! v = barycenter st !! v)
    /\ socket_ranks (fill_random max_b col st g).1 = socket_ranks st.
Proof.
  induction col as [|w col IH]; intros st g; cbn [fill_random].
  - repeat split; auto.
  - destruct (barycenter st !! w) as [bw|] eqn:Ew.
    + destruct (IH st g) as (Hk & Ho & Hs). split; [exact Hk|]. split; [|exact Hs].
      intros v Hv. apply not_elem_of_cons in Hv as [_ Hv]. now apply Ho.
    + destruct (uniform01 g) as [u g'].
      destruct (IH (set_barycenter w (u * max_b - 1)%Q st) g') as (Hk & Ho & Hs).
      split; [|split; [|exact Hs]].
      * intros v b Hv. apply Hk. cbn. rewrite lookup_insert_ne by congruence. exact Hv.
      * intros v Hv. apply not_elem_of_cons in Hv as [Hne Hv]. rewrite (Ho v Hv). cbn.
        now apply lookup_insert_ne.
Qed.

Lemma fill_between_keeps (col : list nat) :
  forall (prev : option nat) (st st' : Store),
    fill_between prev col st = Some st' ->
    (forall v b, barycenter st !! v = Some b -> barycenter st' !! v = Some b)
    /\ (forall v, v ∉ col -> barycenter st' !! v = barycenter st !! v)
    /\ socket_ranks st' = socket_ranks st.
Proof.
  induction col as [|w col IH]; intros prev st st'; cbn [fill_between].
  - intros [= <-]. repeat split; auto.
  - destruct (barycenter st !! w) as [bw|] eqn:Ew.
    + intros Hrun. destruct (IH _ _ _ Hrun) as (Hk & Ho & Hs).
      split; [exact Hk|]. split; [|exact Hs].
      intros v Hv. apply not_elem_of_cons in Hv as [_ Hv]. now apply Ho.
    + destruct (match prev with None => Some 0%Q | Some p => barycenter st !! p end) as [pb|];
        cbn [mbind option_bind]; [|discriminate].
      intros Hrun. destruct (IH _ _ _ Hrun) as (Hk & Ho & Hs). split; [|split; [|exact Hs]].
      * intros v b Hv. apply Hk. cbn. rewrite lookup_insert_ne by congruence. exact Hv.
      * intros v Hv. apply not_elem_of_cons in Hv as [Hne Hv]. rewrite (Ho v Hv). cbn.
        now apply lookup_insert_ne.
Qed.

End Fill.

(** X5.  [fill_in_unknown_barycenters] never raises: afterwards every
    element of the column has a barycenter, every barycenter that was
    known keeps its value, nodes outside the column, the columns and the
    socket ranks are untouched, and only the first iteration draws from the
    generator. *)
Theorem fill_in_unknown_barycenters_fills {R : RandomSource} (col : list nat)
    (is_first_iter : bool) (st : Store) (g : rng) :
  exists st' g',
    fill_in_unknown_barycenters col is_first_iter st g = Some (st', g')
    /\ (forall v, v ∈ col -> is_Some (barycenter st' !! v))
    /\ (forall v b, barycenter st !! v = Some b -> barycenter st' !! v = Some b)
    /\ (forall v, v ∉ col -> barycenter st' !! v = barycenter st !! v)
    /\ columns st' = columns st
    /\ socket_ranks st' = socket_ranks st
    /\ (is_first_iter = false -> g' = g).
Proof.
  destruct (fill_in_unknown_barycenters_defines col is_first_iter st g)
    as (st' & g' & Hrun & Hdef).
  exists st', g'. split; [exact Hrun|]. split; [exact Hdef|].
  pose proof (fill_in_unknown_barycenters_columns _ _ _ _ _ _ Hrun) as Hcols.
  unfold fill_in_unknown_barycenters in Hrun. destruct is_first_iter.
  - injection Hrun as Hrun.
    destruct (fill_random_keeps (Qmax_list 0 (known_barycenters st col) + 2) col st g)
      as (Hk & Ho & Hs).
    rewrite Hrun in Hk, Ho, Hs. cbn [fst] in Hk, Ho, Hs.
    repeat split; try assumption. discriminate.
  - destruct (fill_between None col st) as [st1|] eqn:E; [|discriminate].
    cbn in Hrun. injection Hrun as <- <-.
    destruct (fill_between_keeps _ _ _ _ E) as (Hk & Ho & Hs).
    repeat split; assumption.
Qed.

Lemma known_barycenters_nil (st : Store) (col : list nat) :
  known_barycenters st col = [] -> forall w, w ∈ col -> barycenter st !! w = None.
Proof.
  unfold known_barycenters. induction col as [|v col IH]; intros E w Hw; [inversion Hw|].
  cbn in E. destruct (barycenter st !! v) eqn:Ev; [discriminate|].
  apply elem_of_cons in Hw as [->|Hw]; [exact Ev|now apply IH].
Qed.

Lemma known_barycenters_head (st : Store) (col : list nat) (b : Q) (rest : list Q) :
  known_barycenters st col = b :: rest ->
  exists i w, col !! i = Some w /\ barycenter st !! w = Some b
              /\ forall j u, (j < i)%nat -> col !! j = Some u -> barycenter st !! u = None.
Proof.
  unfold known_barycenters. induction col as [|v col IH]; intros E; [discriminate|].
  cbn in E. destruct (barycenter st !! v) as [bv|] eqn:Ev.
  - injection E as -> _. exists 0%nat, v. split; [reflexivity|]. split; [exact Ev|].
    intros j u Hj. lia.
  - destruct (IH E) as (i & w & Hi & Hw & Hbefore). exists (Datatypes.S i), w.
    split; [exact Hi|]. split; [exact Hw|].
    intros [|j] u Hj Hu; cbn in Hu; [now injection Hu as <-|]. apply (Hbefore j); [lia|exact Hu].
Qed.

Lemma midpoint_between (p n : Q) : (p <= n)%Q -> (p <= (p + n) / 2 <= n)%Q.
Proof.
  intros H. assert (E : ((p + n) / 2 == (p + n) * (1 # 2))%Q) by reflexivity.
  rewrite E. split; lra.
Qed.

Lemma sorted_in_tail (st : Store) (v : nat) (col : list nat) :
  sorted_in st (v :: col) -> sorted_in st col.
Proof.
  intros Hs i j a b x y Hij Ha Hb. apply (Hs (Datatypes.S i) (Datatypes.S j)); [lia|exact Ha|exact Hb].
Qed.

Lemma sorted_in_cons (st : Store) (v : nat) (col : list nat) (m : Q) :
  barycenter st !! v = Some m -> sorted_in st col ->
  (forall w x, w ∈ col -> barycenter st !! w = Some x -> (m <= x)%Q) ->
  sorted_in st (v :: col).
Proof.
  intros Hv Hs Hm [|i] [|j] a b x y Hij Ha Hb Hx Hy; cbn in Ha, Hb; try lia.
  - injection Ha as <-. rewrite Hv in Hx. injection Hx as <-.
    apply (Hm b); [eapply list_elem_of_lookup_2; exact Hb|exact Hy].
  - apply (Hs i j a b); [lia|assumption..].
Qed.

Lemma fill_between_order (col : list nat) :
  forall (prev : option nat) (st : Store) (P : Q),
    NoDup col ->
    match prev with None => Some 0%Q | Some p => barycenter st !! p end = Some P ->
    (forall w x, w ∈ col -> barycenter st !! w = Some x -> (P <= x)%Q) ->
    sorted_in st col ->
    exists st',
      fill_between prev col st = Some st'
      /\ sorted_in st' col
      /\ forall w, w ∈ col -> exists x, barycenter st' !! w = Some x /\ (P <= x)%Q.
Proof.
  induction col as [|v col IH]; intros prev st P Hnd Hprev Hlow Hsorted; cbn [fill_between].
  - exists st. split; [reflexivity|]. split; [exact Hsorted|]. intros w Hw. inversion Hw.
  - apply NoDup_cons in Hnd as [Hv Hnd]. destruct (barycenter st !! v) as [b|] eqn:Eb.
    + assert (HPb : (P <= b)%Q) by (apply (Hlow v); [left|exact Eb]).
      destruct (IH (Some v) st b Hnd Eb) as (st' & Hrun & Hs' & Hlow').
      { intros w x Hw Hx. apply list_elem_of_lookup_1 in Hw as [j Hj].
        apply (Hsorted 0%nat (Datatypes.S j) v w); [lia|reflexivity|exact Hj|exact Eb|exact Hx]. }
      { exact (sorted_in_tail _ _ _ Hsorted). }
      destruct (fill_between_keeps _ _ _ _ Hrun) as (Hk & _ & _).
      exists st'. split; [exact Hrun|]. split.
      * apply (sorted_in_cons _ _ _ b); [now apply Hk|exact Hs'|].
        intros w x Hw Hx. destruct (Hlow' w Hw) as (x' & Hx' & Hle). congruence.
      * intros w Hw. apply elem_of_cons in Hw as [->|Hw].
        -- exists b. split; [now apply Hk|exact HPb].
        -- destruct (Hlow' w Hw) as (x & Hx & Hle). exists x. split; [exact Hx|].
           now apply (Qle_trans _ b).
    + rewrite Hprev. cbn [mbind option_bind].
      set (next_b := match known_barycenters st col with
                     | b :: _ => b
                     | [] => (P + 1)%Q
                     end).
      assert (Hnext : (P <= next_b)%Q
                      /\ forall w x, w ∈ col -> barycenter st !! w = Some x -> (next_b <= x)%Q).
      { unfold next_b. destruct (known_barycenters st col) as [|b rest] eqn:Ek.
        - split; [lra|]. intros w x Hw Hx. rewrite (known_barycenters_nil _ _ Ek w Hw) in Hx.
          discriminate.
        - destruct (known_barycenters_head _ _ _ _ Ek) as (i & u & Hi & Hu & Hbefore). split.
          + apply (Hlow u); [right; eapply list_elem_of_lookup_2; exact Hi|exact Hu].
          + intros w x Hw Hx. apply list_elem_of_lookup_1 in Hw as [j Hj].
            destruct (lt_eq_lt_dec j i) as [[Hlt | ->] | Hgt].
            * rewrite (Hbefore j w Hlt Hj) in Hx. discriminate.
            * rewrite Hi in Hj. injection Hj as <-. rewrite Hu in Hx. injection Hx as <-.
              apply Qle_refl.
            * apply (Hsorted (Datatypes.S i) (Datatypes.S j) u w); [lia|exact Hi|exact Hj|exact Hu|exact Hx]. }
      destruct Hnext as [HPn Hnx]. destruct (midpoint_between P next_b HPn) as [Hm1 Hm2].
      set (m := ((P + next_b) / 2)%Q) in *.
      assert (Hsame : forall w, w ∈ col ->
                barycenter (set_barycenter v m st) !! w = barycenter st !! w).
      { intros w Hw. cbn. apply lookup_insert_ne. intros ->. contradiction. }
      destruct (IH (Some v) (set_barycenter v m st) m Hnd) as (st' & Hrun & Hs' & Hlow').
      { cbn. apply lookup_insert_eq. }
      { intros w x Hw Hx. rewrite (Hsame w Hw) in Hx. apply (Qle_trans _ next_b); [exact Hm2|].
        now apply (Hnx w). }
      { intros i j a b x y Hij Ha Hb Hx Hy.
        rewrite Hsame in Hx by (eapply list_elem_of_lookup_2; exact Ha).
        rewrite Hsame in Hy by (eapply list_elem_of_lookup_2; exact Hb).
        apply (Hsorted (Datatypes.S i) (Datatypes.S j) a b); [lia|assumption..]. }
      destruct (fill_between_keeps _ _ _ _ Hrun) as (Hk & _ & _).
      assert (Hvm : barycenter st' !! v = Some m) by (apply Hk; cbn; apply lookup_insert_eq).
      exists st'. split; [exact Hrun|]. split.
      * apply (sorted_in_cons _ _ _ m); [exact Hvm|exact Hs'|].
        intros w x Hw Hx. destruct (Hlow' w Hw) as (x' & Hx' & Hle). congruence.
      * intros w Hw. apply elem_of_cons in Hw as [->|Hw].
        -- exists m. split; [exact Hvm|exact Hm1].
        -- destruct (Hlow' w Hw) as (x & Hx & Hle). exists x. split; [exact Hx|].
           now apply (Qle_trans _ m).
Qed.

(** X6.  In the later iterations [fill_in_unknown_barycenters] keeps the
    order of the column: when the column has no duplicates and its known
    barycenters are non-negative and do not decrease along the column, then
    after the call every element has a non-negative barycenter and the
    barycenters do not decrease along the column.  An element without a
    barycenter is placed between its neighbours. *)
Theorem fill_in_unknown_barycenters_keeps_order {R : RandomSource} (col : list nat)
    (st : Store) (g : rng) :
  NoDup col -> sorted_in st col ->
  (forall w x, w ∈ col -> barycenter st !! w = Some x -> (0 <= x)%Q) ->
  exists st',
    fill_in_unknown_barycenters col false st g = Some (st', g)
    /\ sorted_in st' col
    /\ forall w, w ∈ col -> exists x, barycenter st' !! w = Some x /\ (0 <= x)%Q.
Proof.
  intros Hnd Hsorted Hpos.
  destruct (fill_between_order col None st 0%Q Hnd eq_refl Hpos Hsorted)
    as (st' & Hrun & Hs' & Hlow).
  exists st'. unfold fill_in_unknown_barycenters. rewrite Hrun. now split.
Qed.

Lemma fill_in_unknown_barycenters_keeps_order_witness :
  exists st',
    fill_in_unknown_barycenters (R := harmonic_source) [0; 1; 2; 3]%nat false
      (mkStore [[0; 1; 2; 3]]%nat (<[1%nat := 2%Q]> (<[3%nat := 4%Q]> ∅)) ∅) 0%nat
    = Some (st', 0%nat)
    /\ sorted_in st' [0; 1; 2; 3]%nat
    /\ forall w, w ∈ [0; 1; 2; 3]%nat -> exists x, barycenter st' !! w = Some x /\ (0 <= x)%Q.
Proof.
  apply (fill_in_unknown_barycenters_keeps_order (R := harmonic_source)).
  - apply (bool_decide_unpack (NoDup _)). vm_compute. exact I.
  - intros [|[|[|[|i]]]] [|[|[|[|j]]]] a b x y Hij Ha Hb Hx Hy; cbn in Ha, Hb; try lia;
      try discriminate; injection Ha as <-; injection Hb as <-; vm_compute in Hx, Hy;
      try discriminate; injection Hx as <-; injection Hy as <-; discriminate.
  - intros w x Hw Hx. cbn in Hw.
    repeat (apply elem_of_cons in Hw as [->|Hw]); [..|inversion Hw]; vm_compute in Hx;
      try discriminate; injection Hx as <-; discriminate.
Defined.

(** *** The data of a cluster feed calc_socket_ranks and calc_barycenters *)

Lemma foldl_dict_set {V : Type} (f : nat -> V) (us : list nat) :
  forall (d : list (nat * V)),
    NoDup d.*1 ->
    NoDup (foldl (fun d u => dict_set u (f u) d) d us).*1
    /\ forall u, dict_get u (foldl (fun d u => dict_set u (f u) d) d us)
                 = if decide (u ∈ us) then Some (f u) else dict_get u d.
Proof.
  induction us as [|u0 us IH]; intros d Hnd; cbn [foldl].
  - split; [exact Hnd|]. intros u. rewrite decide_False by (intros H; inversion H). reflexivity.
  - destruct (IH (dict_set u0 (f u0) d) (dict_set_NoDup _ _ _ Hnd)) as [Hnd' Hget].
    split; [exact Hnd'|]. intros u. rewrite Hget.
    destruct (decide (u ∈ us)) as [Hin|Hnin].
    + rewrite decide_True by now right. reflexivity.
    + destruct (decide (u = u0)) as [->|Hne].
      * rewrite decide_True by left. apply dict_get_set_eq.
      * rewrite decide_False by (rewrite elem_of_cons; tauto).
        apply dict_get_set_ne. congruence.
Qed.

Lemma fixed_socket_order_elem (backwards : bool) (sockets : list Socket) (s : Socket) :
  s ∈ fixed_socket_order backwards sockets <-> s ∈ sockets.
Proof.
  unfold fixed_socket_order, sorted_nat, sorted_nat_rev.
  destruct backwards; now rewrite sort_by_perm.
Qed.

Lemma fixed_socket_order_NoDup (backwards : bool) (sockets : list Socket) :
  NoDup sockets -> NoDup (fixed_socket_order backwards sockets).
Proof.
  unfold fixed_socket_order, sorted_nat, sorted_nat_rev.
  destruct backwards; now rewrite sort_by_perm.
Qed.

(** X7.  The data that [crossing_reduction_data] builds for a cluster fit
    the two steps that read them: when every fixed node of the data is in
    a column, [calc_socket_ranks] gives a rank to every socket that
    [H.free_sockets] lists, so that [calc_socket_ranks] followed by
    [calc_barycenters] raises no [KeyError], in either direction and for
    every state of the generator. *)
Theorem crossing_data_ranks_cover_barycenters {R : RandomSource} (child_of : nat -> option nat)
    (children : list nat) (in_edges : list GEdge) (prev_clusters : list nat)
    (backwards forwards : bool) (H : ClusterCrossingsData) (st : Store) (g : rng) :
  cluster_crossings_data child_of children in_edges prev_clusters backwards = Some H ->
  (forall u, u ∈ (fixed_sockets H).*1 -> is_Some (col_index st u)) ->
  exists st1 st2 g',
    calc_socket_ranks H forwards st = Some st1
    /\ calc_barycenters H st1 g = Some (st2, g')
    /\ free_col H = children
    /\ forall w s sockets, w ∈ children -> dict_get w (free_sockets H) = Some sockets ->
         s ∈ sockets -> is_Some (socket_ranks st1 !! (owner s, s)).
Proof.
  unfold cluster_crossings_data.
  destruct (contract_edges child_of [] in_edges) as [G_h|] eqn:EG; cbn [mbind option_bind];
    [|discriminate].
  pose proof (contract_edges_spec child_of in_edges [] G_h _ contracted_empty EG) as [HndG Hm].
  set (pred_of := fun v : nat => (filter (fun x : nat * nat * HEdge => x.1.2 = v) G_h).*1.*1).
  set (out_sockets := fun u : nat =>
         from_socket <$> (filter (fun x : nat * nat * HEdge => x.1.1 = u) G_h).*2).
  set (in_sockets := fun v : nat =>
         from_socket <$> (filter (fun x : nat * nat * HEdge => x.1.2 = v) G_h).*2).
  set (f := fun u => fixed_socket_order backwards (unique (out_sockets u))).
  set (us := concat (pred_of <$> children)).
  destruct (foldl_dict_set f us [] (NoDup_nil_2)) as [Hndf Hgetf].
  destruct (foldl_dict_set in_sockets children [] (NoDup_nil_2)) as [_ Hgetfree].
  intros [= <-] Hcols. cbn [fixed_sockets free_sockets free_col] in *.
  set (fixed := foldl (fun d u => dict_set u (f u) d) [] us) in *.
  set (free := foldl (fun d v => dict_set v (in_sockets v) d) [] children) in *.
  destruct (calc_socket_ranks_items_total forwards fixed st Hcols) as [st1 Hst1].
  assert (Hranks : forall w s sockets, w ∈ children -> dict_get w free = Some sockets ->
            s ∈ sockets -> is_Some (socket_ranks st1 !! (owner s, s))).
  { intros w s sockets Hw Hget Hs. rewrite Hgetfree, decide_True in Hget by exact Hw.
    injection Hget as <-. unfold in_sockets in Hs.
    apply list_elem_of_fmap in Hs as (a & -> & Ha).
    apply list_elem_of_fmap in Ha as ([[u c] a'] & -> & Hx). cbn [snd].
    apply list_elem_of_filter in Hx as [Hc Hx]. cbn in Hc. subst c.
    assert (Howner : owner (from_socket a') = u).
    { specialize (Hm u w).
      rewrite (PyFacts.elem_of_dict_get (u, w) a' G_h HndG Hx) in Hm. apply Hm. }
    rewrite Howner.
    assert (Hu : u ∈ us).
    { unfold us. apply PlacementFacts.elem_of_concat. exists (pred_of w).
      split; [|apply list_elem_of_fmap; now exists w].
      unfold pred_of. apply list_elem_of_fmap. exists (u, w). split; [reflexivity|].
      apply list_elem_of_fmap. exists (u, w, a'). split; [reflexivity|].
      apply list_elem_of_filter. now split. }
    assert (Hfu : dict_get u fixed = Some (f u)).
    { unfold fixed. rewrite Hgetf. now rewrite decide_True. }
    assert (Hsin : from_socket a' ∈ f u).
    { unfold f. apply fixed_socket_order_elem, PyFacts.elem_of_unique. unfold out_sockets.
      apply list_elem_of_fmap. exists a'. split; [reflexivity|].
      apply list_elem_of_fmap. exists (u, w, a'). split; [reflexivity|].
      apply list_elem_of_filter. now split. }
    apply list_elem_of_lookup_1 in Hsin as [k Hk].
    destruct (Hcols u) as [i Hi].
    { apply list_elem_of_fmap. exists (u, f u). split; [reflexivity|].
      now apply PyFacts.dict_get_elem_of. }
    destruct (calc_socket_ranks_items_lookup forwards fixed st st1 u (f u) i k (from_socket a'))
      as (r & Hr & _); try assumption.
    - apply fixed_socket_order_NoDup. unfold unique. apply PyFacts.NoDup_unique_from.
    - now apply PyFacts.dict_get_elem_of.
    - rewrite Hr. eauto. }
  destruct (calc_barycenters_col_spec free st1 children) with (st := st1) (g := g)
    as (st2 & g' & Hrun & _); [|reflexivity|].
  { intros w Hw. exists (in_sockets w). split.
    - unfold free. rewrite Hgetfree. now rewrite decide_True.
    - intros s Hs. apply (Hranks w s (in_sockets w) Hw); [|exact Hs].
      unfold free. rewrite Hgetfree. now rewrite decide_True. }
  exists st1, st2, g'. split; [exact Hst1|]. split; [exact Hrun|]. split; [reflexivity|exact Hranks].
Qed.

Lemma crossing_data_ranks_cover_barycenters_witness :
  exists H st1 st2 g',
    cluster_crossings_data parallel_child_of [7%nat] parallel_edges [] false = Some H
    /\ calc_socket_ranks H true (mkStore [[0%nat]; [5%nat; 6%nat]] ∅ ∅) = Some st1
    /\ calc_barycenters (R := harmonic_source) H st1 0%nat = Some (st2, g')
    /\ free_col H = [7%nat]
    /\ forall w s sockets, w ∈ [7%nat] -> dict_get w (free_sockets H) = Some sockets ->
         s ∈ sockets -> is_Some (socket_ranks st1 !! (owner s, s)).
Proof.
  destruct (cluster_crossings_data parallel_child_of [7%nat] parallel_edges [] false)
    as [H|] eqn:E; [|vm_compute in E; discriminate E].
  exists H.
  destruct (crossing_data_ranks_cover_barycenters (R := harmonic_source) parallel_child_of
              [7%nat] parallel_edges [] false true H
              (mkStore [[0%nat]; [5%nat; 6%nat]] ∅ ∅) 0%nat E)
    as (st1 & st2 & g' & H1 & H2 & H3 & H4).
  - vm_compute in E. injection E as <-. intros u Hu. cbn in Hu.
    apply list_elem_of_singleton in Hu as ->. vm_compute. eauto.
  - exists st1, st2, g'. repeat split; assumption.
Defined.

(** *** find_violated_constraint decides *)

Lemma first_violated_result (b : gmap nat Q) (v : nat) (cs : list (nat * nat))
    (r : option (nat * nat)) :
  (forall c, c ∈ cs -> c.2 = v) ->
  first_violated b v cs = Some r ->
  match r with
  | Some c => c ∈ cs /\ violated b c
  | None => forall c, c ∈ cs -> satisfied b c
  end.
Proof.
  induction cs as [|c cs IH]; intros Hcs; cbn [first_violated].
  - intros [= <-]. intros c Hc. inversion Hc.
  - destruct (b !! c.1) as [bs|] eqn:Ebs; cbn [mbind option_bind]; [|discriminate].
    destruct (b !! v) as [bv|] eqn:Ebv; cbn [mbind option_bind]; [|discriminate].
    assert (Hc2 : c.2 = v) by (apply Hcs; left).
    destruct (Qle_bool bv bs) eqn:Ele.
    + intros [= <-]. split; [left|]. exists bs, bv. rewrite Hc2.
      split; [exact Ebs|]. split; [exact Ebv|]. now apply Qle_bool_iff.
    + intros Hrun. specialize (IH (fun c' Hc' => Hcs c' (proj2 (elem_of_cons _ _ _) (or_intror Hc'))) Hrun).
      destruct r as [c'|].
      * destruct IH as [Hin Hv]. split; [now right|exact Hv].
      * intros c' Hc'. apply elem_of_cons in Hc' as [->|Hc']; [|now apply IH].
        exists bs, bv. rewrite Hc2. split; [exact Ebs|]. split; [exact Ebv|].
        apply Qnot_le_lt. intros Hle. apply Qle_bool_iff in Hle. congruence.
Qed.

Lemma push_constraints_keeps_active (G : DiGraph) (v : nat) :
  forall ts active inc x,
    x ∈ active -> x ∈ (push_constraints G v ts active inc).1.
Proof.
  induction ts as [|t ts IH]; intros active inc x Hx; cbn [push_constraints]; [exact Hx|].
  apply IH. destruct (decide _); [apply elem_of_app; now left|exact Hx].
Qed.

Section Worklist.
Variable G : DiGraph.
Variable b : gmap nat Q.
Hypothesis HG : wf_graph G.
Hypothesis HndE : NoDup (edges G).

Lemma in_edges_NoDup (t : nat) : NoDup (filter (fun e : nat * nat => e.2 = t) (edges G)).
Proof. now apply NoDup_filter. Qed.

Lemma in_degree_filter (t : nat) :
  in_degree G t = length (filter (fun e : nat * nat => e.2 = t) (edges G)).
Proof. unfold in_degree, preds. now rewrite length_fmap. Qed.

Lemma incoming_bound (inc : gmap nat (list (nat * nat))) (t : nat) :
  NoDup (incoming_of inc t) ->
  (forall c, c ∈ incoming_of inc t -> c.2 = t /\ c ∈ edges G) ->
  (length (incoming_of inc t) <= in_degree G t)%nat.
Proof.
  intros Hnd Hin. rewrite in_degree_filter. apply submseteq_length.
  apply NoDup_submseteq; [exact Hnd|]. intros c Hc. apply list_elem_of_filter.
  destruct (Hin c Hc). now split.
Qed.

Lemma incoming_complete (inc : gmap nat (list (nat * nat))) (t s : nat) :
  NoDup (incoming_of inc t) ->
  (forall c, c ∈ incoming_of inc t -> c.2 = t /\ c ∈ edges G) ->
  (in_degree G t <= length (incoming_of inc t))%nat ->
  (s, t) ∈ edges G -> (s, t) ∈ incoming_of inc t.
Proof.
  intros Hnd Hin Hlen Hst. rewrite in_degree_filter in Hlen.
  apply list_elem_of_In.
  apply (NoDup_length_incl (l := incoming_of inc t)
           (l' := filter (fun e : nat * nat => e.2 = t) (edges G))).
  - now apply NoDup_ListNoDup.
  - exact Hlen.
  - intros c Hc. apply list_elem_of_In. apply list_elem_of_In in Hc.
    apply list_elem_of_filter. destruct (Hin c Hc). now split.
  - apply list_elem_of_In. apply list_elem_of_filter. now split.
Qed.

Lemma push_checked (v : nat) (done : list nat) :
  v ∈ done ->
  forall ts active inc,
    NoDup ts -> (forall t, t ∈ ts -> (v, t) ∈ edges G) ->
    worklist_inv G done active inc ->
    (forall t, NoDup (incoming_of inc t)) ->
    (forall t, t ∈ ts -> (v, t) ∉ incoming_of inc t) ->
    (forall p t, p ∈ done -> (p, t) ∈ edges G ->
                 (p = v /\ t ∈ ts) \/ (p, t) ∈ incoming_of inc t) ->
    (forall t, (0 < in_degree G t)%nat -> length (incoming_of inc t) = in_degree G t ->
               t ∈ active ++ done) ->
    (forall t, NoDup (incoming_of (push_constraints G v ts active inc).2 t))
    /\ (forall p t, p ∈ done -> (p, t) ∈ edges G ->
                    (p, t) ∈ incoming_of (push_constraints G v ts active inc).2 t)
    /\ (forall t, (0 < in_degree G t)%nat ->
                  length (incoming_of (push_constraints G v ts active inc).2 t) = in_degree G t ->
                  t ∈ (push_constraints G v ts active inc).1 ++ done).
Proof.
  intros Hv. induction ts as [|t ts IH]; intros active inc Hndts Hts Hinv J1 Hfresh J2 J3;
    cbn [push_constraints].
  - split; [exact J1|]. split; [|exact J3].
    intros p t Hp Hpt. destruct (J2 p t Hp Hpt) as [[_ Hin]|Hin]; [inversion Hin|exact Hin].
  - apply NoDup_cons in Hndts as [Ht Hndts].
    set (cs := (v, t) :: incoming_of inc t).
    set (active' := if decide (length cs = in_degree G t) then active ++ [t] else active).
    assert (Hinv' : worklist_inv G done active' (<[t := cs]> inc)).
    { pose proof (push_constraints_inv G v done HG Hv [t] active inc) as Hp.
      cbn [push_constraints fst snd] in Hp. apply Hp; [|exact Hinv].
      intros t' Ht'. apply list_elem_of_singleton in Ht' as ->. apply Hts. left. }
    apply (IH active' (<[t := cs]> inc) Hndts).
    + intros t' Ht'. apply Hts. now right.
    + exact Hinv'.
    + intros t'. rewrite incoming_of_insert. destruct (decide (t = t')) as [<-|Hne]; [|apply J1].
      unfold cs. apply NoDup_cons. split; [apply Hfresh; left|apply J1].
    + intros t' Ht'. rewrite incoming_of_insert.
      destruct (decide (t = t')) as [<-|Hne]; [contradiction|]. apply Hfresh. now right.
    + intros p t' Hp Hpt. rewrite incoming_of_insert.
      destruct (J2 p t' Hp Hpt) as [[-> Hin]|Hin].
      * apply elem_of_cons in Hin as [->|Hin]; [|left; now split].
        right. rewrite decide_True by reflexivity. left.
      * right. destruct (decide (t = t')) as [<-|Hne]; [now right|exact Hin].
    + intros t' Hpos. rewrite incoming_of_insert. unfold active'.
      destruct (decide (t = t')) as [<-|Hne].
      * intros Hlen. rewrite decide_True by exact Hlen.
        rewrite <- app_assoc. apply elem_of_app. right. left.
      * intros Hlen. specialize (J3 t' Hpos Hlen).
        destruct (decide (length cs = in_degree G t)); [|exact J3].
        rewrite <- app_assoc. apply elem_of_app in J3 as [H|H];
          [apply elem_of_app; now left|apply elem_of_app; right; now right].
Qed.

Lemma find_violated_loop_checked :
  forall fuel active inc done r,
    checked_inv G b done active inc ->
    find_violated_loop fuel G b active inc = Some r ->
    match r with
    | Some c => c ∈ edges G /\ violated b c
    | None => exists done' inc',
        checked_inv G b done' [] inc' /\ forall x, x ∈ active ++ done -> x ∈ done'
    end.
Proof.
  induction fuel as [|fuel IH]; intros active inc done r Hinv;
    destruct active as [|v active]; cbn [find_violated_loop]; try discriminate;
    try (intros [= <-]; exists done, inc; split; [exact Hinv|auto]).
  destruct Hinv as (Hw & J1 & J2 & J3 & J4).
  pose proof Hw as (Hnd & Hnodes & Hdeg & Hinc).
  destruct (first_violated b v (incoming_of inc v)) as [r0|] eqn:Efirst;
    cbn [mbind option_bind]; [|discriminate].
  pose proof (first_violated_result b v _ r0 (fun c Hc => proj1 (Hinc v c Hc)) Efirst) as Hr0.
  destruct r0 as [c|].
  { intros [= <-]. destruct Hr0 as [Hc Hv]. split; [apply (Hinc v c Hc)|exact Hv]. }
  assert (Hvd : v ∉ done).
  { cbn in Hnd. apply NoDup_cons in Hnd as [Hv _]. intros Hin. apply Hv.
    apply elem_of_app. now right. }
  assert (Hw' : worklist_inv G (v :: done) active inc).
  { split; [|split; [|split]].
    - rewrite <- (Permutation_middle active done v). exact Hnd.
    - intros w Hw0. apply Hnodes. cbn.
      apply elem_of_app in Hw0 as [Hw0|Hw0].
      + right. apply elem_of_app. now left.
      + apply elem_of_cons in Hw0 as [->|Hw0]; [left|right; apply elem_of_app; now right].
    - intros w Hw0. apply Hdeg. cbn.
      apply elem_of_app in Hw0 as [Hw0|Hw0].
      + right. apply elem_of_app. now left.
      + apply elem_of_cons in Hw0 as [->|Hw0]; [left|right; apply elem_of_app; now right].
    - intros t c Hc. destruct (Hinc t c Hc) as (H1 & H2 & H3).
      split; [exact H1|]. split; [now right|exact H3]. }
  assert (Hsuccs : forall t, t ∈ succs G v -> (v, t) ∈ edges G)
    by (intros t; apply elem_of_succs).
  assert (Hndsuccs : NoDup (succs G v)).
  { unfold succs. apply (NoDup_fmap_2_strong snd); [|now apply NoDup_filter].
    intros [a1 b1] [a2 b2] H1 H2 E. apply list_elem_of_filter in H1 as [E1 _].
    apply list_elem_of_filter in H2 as [E2 _]. cbn in *. congruence. }
  destruct (push_checked v (v :: done) ltac:(left) (succs G v) active inc Hndsuccs Hsuccs Hw' J1)
    as (J1' & J2' & J3').
  { intros t _ Hin. destruct (Hinc t _ Hin) as (_ & Hd & _). cbn in Hd. contradiction. }
  { intros p t Hp Hpt. apply elem_of_cons in Hp as [->|Hp].
    - left. split; [reflexivity|]. now apply elem_of_succs.
    - right. now apply J2. }
  { intros t Hpos Hlen. specialize (J3 t Hpos Hlen). cbn in J3.
    apply elem_of_cons in J3 as [->|J3].
    - apply elem_of_app. right. left.
    - apply elem_of_app in J3 as [H|H]; apply elem_of_app; [now left|right; now right]. }
  pose proof (push_constraints_inv G v (v :: done) HG ltac:(left) (succs G v) active inc
                Hsuccs Hw') as Hpush.
  pose proof (push_constraints_keeps_active G v (succs G v) active inc) as Hkeep.
  destruct (push_constraints G v (succs G v) active inc) as [active' inc'].
  cbn [fst snd] in *. intros Hrun.
  assert (Hinv' : checked_inv G b (v :: done) active' inc').
  { split; [exact Hpush|]. split; [exact J1'|]. split; [exact J2'|]. split; [exact J3'|].
    intros s t Ht Hst. apply elem_of_cons in Ht as [->|Ht]; [|now apply J4].
    apply (Hr0 (s, v)). apply incoming_complete;
      [apply J1|intros c Hc; destruct (Hinc v c Hc) as (H1 & _ & H3); now split| |exact Hst].
    apply Hdeg. left. }
  specialize (IH active' inc' (v :: done) r Hinv' Hrun). destruct r as [c|]; [exact IH|].
  destruct IH as (done' & inc'' & Hfinal & Hsub). exists done', inc''. split; [exact Hfinal|].
  intros x Hx. apply Hsub. cbn in Hx. apply elem_of_cons in Hx as [->|Hx].
  - apply elem_of_app. right. left.
  - apply elem_of_app in Hx as [Hx|Hx]; apply elem_of_app.
    + left. now apply Hkeep.
    + right. now right.
Qed.

End Worklist.

(** X8.  On an acyclic constraint graph, given by a numbering [rank] that
    increases along every constraint, [find_violated_constraint] decides
    whether a constraint is violated: it always returns; a constraint it
    returns is a constraint of the graph whose source has a barycenter at
    least that of its target; and when it returns [None] every constraint of
    the graph has the barycenter of its source strictly below that of its
    target. *)
Theorem find_violated_constraint_decides (G : DiGraph) (b : gmap nat Q) (rank : nat -> nat) :
  wf_graph G -> NoDup (edges G) ->
  (forall v, v ∈ nodes G -> is_Some (b !! v)) ->
  (forall u v, (u, v) ∈ edges G -> (rank u < rank v)%nat) ->
  match find_violated_constraint G b with
  | Some (Some c) => c ∈ edges G /\ violated b c
  | Some None => forall c, c ∈ edges G -> satisfied b c
  | None => False
  end.
Proof.
  intros HG HndE Hb Hrank.
  destruct (find_violated_constraint_total G b HG Hb) as (r & Hr & _). rewrite Hr.
  unfold find_violated_constraint in Hr.
  set (active0 := filter (fun v => succs G v <> [] /\ preds G v = []) (nodes G)) in Hr.
  assert (Hinit : checked_inv G b [] active0 ∅).
  { assert (Hempty : forall t, incoming_of (∅ : gmap nat (list (nat * nat))) t = []).
    { intros t. unfold incoming_of. now rewrite lookup_empty. }
    split; [|split; [|split; [|split]]].
    - unfold worklist_inv. rewrite app_nil_r. split; [|split; [|split]].
      + apply NoDup_filter. apply HG.
      + intros v Hv. now apply list_elem_of_filter in Hv as [_ Hv].
      + intros t Ht. apply list_elem_of_filter in Ht as [[_ Hp] _].
        unfold in_degree. rewrite Hp. cbn. lia.
      + intros t c Hc. rewrite Hempty in Hc. inversion Hc.
    - intros t. rewrite Hempty. constructor.
    - intros p t Hp. inversion Hp.
    - intros t Hpos Hlen. rewrite Hempty in Hlen. cbn in Hlen. lia.
    - intros s t Ht. inversion Ht. }
  pose proof (find_violated_loop_checked G b HG HndE _ _ _ _ r Hinit Hr) as Hres.
  destruct r as [c|]; [exact Hres|].
  destruct Hres as (done' & inc' & (Hw & J1 & J2 & J3 & J4) & Hsub).
  destruct Hw as (_ & _ & _ & Hinc).
  assert (Hall : forall n t, (rank t < n)%nat -> (0 < in_degree G t)%nat -> t ∈ done').
  { induction n as [|n IHn]; intros t Hlt Hpos; [lia|].
    specialize (J3 t Hpos). cbn in J3. apply J3. apply Nat.le_antisymm.
    - apply incoming_bound; [apply J1|].
      intros c Hc. destruct (Hinc t c Hc) as (H1 & _ & H3). now split.
    - rewrite in_degree_filter. apply submseteq_length.
      apply NoDup_submseteq; [now apply in_edges_NoDup|].
      intros [p t'] Hc. apply list_elem_of_filter in Hc as [E Hc]. cbn in E. subst t'.
      apply J2; [|exact Hc].
      destruct (Nat.eq_dec (in_degree G p) 0) as [Hz|Hnz].
      + apply Hsub. rewrite app_nil_r. apply list_elem_of_filter. split.
        * split.
          -- intros Hs. apply (elem_of_succs G p t) in Hc. rewrite Hs in Hc. inversion Hc.
          -- unfold in_degree in Hz. now apply length_zero_iff_nil.
        * apply (proj2 HG p t Hc).
      + apply IHn; [|lia]. pose proof (Hrank p t Hc). lia. }
  intros [s t] Hc. apply J4; [|exact Hc].
  apply (Hall (S (rank t))); [lia|].
  apply (elem_of_preds G t s) in Hc. unfold in_degree.
  destruct (preds G t); [inversion Hc|cbn; lia].
Qed.

Lemma find_violated_constraint_decides_witness :
  match find_violated_constraint diamond_GC diamond_barycenters with
  | Some (Some c) => c ∈ edges diamond_GC /\ violated diamond_barycenters c
  | Some None => forall c, c ∈ edges diamond_GC -> satisfied diamond_barycenters c
  | None => False
  end.
Proof.
  apply (find_violated_constraint_decides diamond_GC diamond_barycenters (fun v => v)).
  - split.
    + apply (bool_decide_unpack (NoDup _)). vm_compute. exact I.
    + intros u v Huv. cbn in Huv.
      apply elem_of_cons in Huv as [[= -> ->]|Huv]; [split; set_solver|].
      apply elem_of_cons in Huv as [[= -> ->]|Huv]; [split; set_solver|].
      apply list_elem_of_singleton in Huv as [= -> ->]. split; set_solver.
  - apply (bool_decide_unpack (NoDup _)). vm_compute. exact I.
  - intros v Hv. cbn in Hv.
    apply elem_of_cons in Hv as [->|Hv]; [vm_compute; eauto|].
    apply elem_of_cons in Hv as [->|Hv]; [vm_compute; eauto|].
    apply list_elem_of_singleton in Hv as ->. vm_compute; eauto.
  - intros u v Huv. cbn in Huv.
    apply elem_of_cons in Huv as [[= -> ->]|Huv]; [lia|].
    apply elem_of_cons in Huv as [[= -> ->]|Huv]; [lia|].
    apply list_elem_of_singleton in Huv as [= -> ->]. lia.
Defined.

End OrderingFacts.

(** ** sugiyama.py *)

Module SugiyamaFacts.
Import Py PyFacts Ordering OrderingFacts Sugiyama.

(** *** The nesting forest of ClusterGraph *)

Lemma get_nesting_relations_spec (cluster_of : nat -> option nat) (level : nat -> nat) :
  (forall v c, cluster_of v = Some c -> level c < level v) ->
  forall budget v, level v < budget ->
    exists rel,
      get_nesting_relations budget cluster_of v = Some rel
      /\ forall c w, (c, w) ∈ rel <-> cluster_of w = Some c /\ rtc (nests cluster_of) v w.
Proof.
  intros Hlevel. induction budget as [|budget IH]; intros v Hv; [lia|].
  cbn [get_nesting_relations]. destruct (cluster_of v) as [c0|] eqn:Hc0.
  - destruct (IH c0) as (rest & Hrest & Hspec); [specialize (Hlevel v c0 Hc0); lia|].
    rewrite Hrest. cbn [mbind option_bind]. eexists. split; [reflexivity|].
    intros c w. rewrite elem_of_cons, Hspec. split.
    + intros [[= -> ->]|[Hw Hreach]].
      * split; [exact Hc0|apply rtc_refl].
      * split; [exact Hw|]. eapply rtc_l; [exact Hc0|exact Hreach].
    + intros [Hw Hreach]. apply rtc_inv in Hreach as [<-|(y & Hy & Hreach)].
      * left. congruence.
      * right. unfold nests in Hy. assert (y = c0) as -> by congruence. now split.
  - exists []. split; [reflexivity|]. intros c w. split; [intros H; inversion H|].
    intros [Hw Hreach]. apply rtc_inv in Hreach as [<-|(y & Hy & _)].
    + congruence.
    + unfold nests in Hy. congruence.
Qed.

Lemma add_edges_from_edges (l : list (nat * nat)) :
  forall G e, e ∈ edges (add_edges_from l G) <-> e ∈ l \/ e ∈ edges G.
Proof.
  unfold add_edges_from. induction l as [|[u v] l IH]; intros G e; cbn [foldl].
  - split; [now right|]. intros [H|H]; [inversion H|exact H].
  - rewrite IH, add_edge_edges, elem_of_cons. cbn. tauto.
Qed.

Lemma add_edges_from_NoDup (l : list (nat * nat)) :
  forall G, NoDup (edges G) -> NoDup (edges (add_edges_from l G)).
Proof.
  unfold add_edges_from. induction l as [|[u v] l IH]; intros G Hnd; cbn [foldl]; [exact Hnd|].
  apply IH. unfold add_edge. cbv zeta. case_bool_decide as He; cbn.
  - now rewrite !add_node_edges.
  - rewrite !add_node_edges in *. apply NoDup_app. split; [exact Hnd|].
    split; [|apply NoDup_singleton].
    intros e He1 He2. apply list_elem_of_singleton in He2 as ->. contradiction.
Qed.

(** X14.  When the [cluster] attributes form a forest ([level] falls along
    them) that is less deep than the recursion allows,
    [ClusterGraph.__init__] builds the nesting forest: the edges of [T] are
    exactly the pairs [(w.cluster, w)] for the nodes of [G] and the clusters
    above them, no edge is repeated, every node of [T] has at most one
    parent, every edge joins nodes of [T], and [S] holds exactly the
    clusters among the nodes of [T]. *)
Theorem cluster_graph_is_nesting_forest (budget : nat) (cluster_of : nat -> option nat)
    (is_cluster : nat -> bool) (G_nodes : list nat) (level : nat -> nat) :
  (forall v c, cluster_of v = Some c -> level c < level v) ->
  (forall v, v ∈ G_nodes -> level v < budget) ->
  exists T S,
    cluster_graph_init budget cluster_of is_cluster G_nodes = Some (T, S)
    /\ (forall c w, (c, w) ∈ edges T
          <-> cluster_of w = Some c /\ exists g, g ∈ G_nodes /\ rtc (nests cluster_of) g w)
    /\ wf_graph T /\ NoDup (edges T)
    /\ (forall w, in_degree T w <= 1)
    /\ (forall s, s ∈ S <-> s ∈ nodes T /\ is_cluster s = true).
Proof.
  intros Hlevel Hbudget. unfold cluster_graph_init.
  destruct (mapM_is_Some_2 (get_nesting_relations budget cluster_of) G_nodes)
    as [relations Hrel].
  { apply Forall_forall. intros v Hv. cbn.
    destruct (get_nesting_relations_spec cluster_of level Hlevel budget v (Hbudget v Hv))
      as (rel & -> & _). eauto. }
  rewrite Hrel. cbn [mbind option_bind]. eexists. eexists. split; [reflexivity|].
  pose proof (mapM_Some_1 _ _ _ Hrel) as Frel.
  set (T := add_edges_from (concat relations) empty_graph).
  assert (Hedges : forall c w, (c, w) ∈ edges T
            <-> cluster_of w = Some c /\ exists g, g ∈ G_nodes /\ rtc (nests cluster_of) g w).
  { intros c w. unfold T. rewrite add_edges_from_edges. cbn [edges empty_graph]. split.
    - intros [Hin|Hin]; [|inversion Hin].
      apply PlacementFacts.elem_of_concat in Hin as (rel & Hin & Hr).
      apply list_elem_of_lookup_1 in Hr as [i Hi].
      destruct (Forall2_lookup_r _ _ _ _ _ Frel Hi) as (g & Hg & Hrun).
      destruct (get_nesting_relations_spec cluster_of level Hlevel budget g) as (rel' & E & Hspec).
      { apply Hbudget. eapply list_elem_of_lookup_2; exact Hg. }
      rewrite Hrun in E. injection E as <-. apply Hspec in Hin as [Hw Hreach].
      split; [exact Hw|]. exists g. split; [eapply list_elem_of_lookup_2; exact Hg|exact Hreach].
    - intros (Hw & g & Hg & Hreach). left.
      apply list_elem_of_lookup_1 in Hg as [i Hi].
      destruct (Forall2_lookup_l _ _ _ _ _ Frel Hi) as (rel & Hr & Hrun).
      destruct (get_nesting_relations_spec cluster_of level Hlevel budget g) as (rel' & E & Hspec).
      { apply Hbudget. eapply list_elem_of_lookup_2; exact Hi. }
      rewrite Hrun in E. injection E as <-.
      apply PlacementFacts.elem_of_concat. exists rel. split; [|eapply list_elem_of_lookup_2; exact Hr].
      apply Hspec. now split. }
  assert (HndE : NoDup (edges T)) by (apply add_edges_from_NoDup; constructor).
  split; [exact Hedges|]. split; [apply add_edges_from_wf, empty_graph_wf|].
  split; [exact HndE|]. split.
  - intros w. unfold in_degree, preds. rewrite length_fmap.
    assert (Hsame : forall e1 e2, e1 ∈ filter (fun e : nat * nat => e.2 = w) (edges T) ->
                      e2 ∈ filter (fun e : nat * nat => e.2 = w) (edges T) -> e1 = e2).
    { intros [c1 w1] [c2 w2] H1 H2.
      apply list_elem_of_filter in H1 as [E1 H1]. apply list_elem_of_filter in H2 as [E2 H2].
      cbn in E1, E2. subst w1 w2. apply Hedges in H1 as [H1 _]. apply Hedges in H2 as [H2 _].
      congruence. }
    pose proof (NoDup_filter (fun e : nat * nat => e.2 = w) _ HndE) as Hnd.
    destruct (filter (fun e : nat * nat => e.2 = w) (edges T)) as [|e1 [|e2 l]]; cbn; try lia.
    exfalso. apply NoDup_cons in Hnd as [Hnot _]. apply Hnot.
    rewrite (Hsame e1 e2); [left|left|right; left].
  - intros s. split.
    + intros H. apply list_elem_of_In, filter_In in H as [H1 H2].
      split; [now apply list_elem_of_In|exact H2].
    + intros [H1 H2]. apply list_elem_of_In, filter_In. split; [now apply list_elem_of_In|exact H2].
Qed.

Lemma cluster_graph_is_nesting_forest_witness :
  exists T S,
    cluster_graph_init 5 framed_cluster_of (fun v => 10 <=? v) [0; 1] = Some (T, S)
    /\ (forall c w, (c, w) ∈ edges T
          <-> framed_cluster_of w = Some c
              /\ exists g, g ∈ [0; 1] /\ rtc (nests framed_cluster_of) g w)
    /\ wf_graph T /\ NoDup (edges T)
    /\ (forall w, in_degree T w <= 1)
    /\ (forall s, s ∈ S <-> s ∈ nodes T /\ (10 <=? s) = true).
Proof.
  apply (cluster_graph_is_nesting_forest 5 framed_cluster_of (fun v => 10 <=? v) [0; 1]
           framed_level).
  - intros v c. unfold framed_cluster_of.
    destruct (Nat.eqb_spec v 0) as [->|_]; [intros [= <-]; cbn; lia|].
    destruct (Nat.eqb_spec v 1) as [->|_]; [intros [= <-]; cbn; lia|].
    destruct (Nat.eqb_spec v 11) as [->|_]; [intros [= <-]; cbn; lia|discriminate].
  - intros v Hv. apply elem_of_cons in Hv as [->|Hv]; [cbn; lia|].
    apply list_elem_of_singleton in Hv as ->. cbn. lia.
Defined.

(** *** The x coordinates of the columns *)

Lemma foldl_insert_fun_lookup {A : Type} (f : nat -> A) (col : list nat) :
  forall (m : gmap nat A) (w : nat),
    foldl (fun m v => <[v := f v]> m) m col !! w
    = if decide (w ∈ col) then Some (f w) else m !! w.
Proof.
  induction col as [|v col IH]; intros m w; cbn [foldl].
  - rewrite decide_False by (intros H; inversion H). reflexivity.
  - rewrite IH. destruct (decide (w ∈ col)) as [Hin|Hnin].
    + rewrite decide_True by now right. reflexivity.
    + destruct (decide (w = v)) as [->|Hne].
      * rewrite lookup_insert_eq, decide_True by left. reflexivity.
      * rewrite lookup_insert_ne by congruence.
        rewrite decide_False; [reflexivity|]. intros H.
        apply elem_of_cons in H as [?|?]; contradiction.
Qed.

Lemma half_eq (z : Q) : (z / 2 == z * (1 # 2))%Q.
Proof. reflexivity. Qed.

Lemma max_of_ge (l : list Q) (M x : Q) : max_of l = Some M -> x ∈ l -> (x <= M)%Q.
Proof.
  destruct l as [|a l]; [discriminate|]. intros [= <-] Hx.
  now apply PlacementFacts.fmax_fold_ge.
Qed.

Lemma max_of_default_nonneg (l : list Q) :
  (forall x, x ∈ l -> (0 <= x)%Q) -> (0 <= default 0 (max_of l))%Q.
Proof.
  intros Hl. destruct (max_of l) as [M|] eqn:E; [|apply Qle_refl]. cbn.
  destruct l as [|a l]; [discriminate|].
  eapply Qle_trans; [apply (Hl a); left|]. apply (max_of_ge _ _ _ E). left.
Qed.

Section XCoordsFacts.
Variable width : nat -> Q.
Variable cluster_of : nat -> nat.
Variable socket_y_diffs : nat -> list Q.
Variable margin_x : Q.
Hypothesis Hmargin : (0 < margin_x)%Q.

Lemma assign_x_loop_spec (esf : Q) (columns : list (list nat)) :
  (0 <= esf)%Q ->
  forall rest i x xs,
    drop i columns = rest -> Forall (fun c => c <> []) rest -> NoDup (concat rest) ->
    (forall v, v ∈ concat rest -> (0 <= width v)%Q) ->
    exists xs',
      assign_x_loop width cluster_of socket_y_diffs margin_x esf columns i rest x xs = Some xs'
      /\ (forall v, v ∉ concat rest -> xs' !! v = xs !! v)
      /\ forall p c a, rest !! p = Some c -> a ∈ c ->
           exists xa, xs' !! a = Some xa /\ (x <= xa)%Q
             /\ (forall q c' b xb, p < q -> rest !! q = Some c' -> b ∈ c' ->
                   xs' !! b = Some xb -> (xa + width a + margin_x <= xb)%Q)
             /\ (forall b xb, b ∈ c -> xs' !! b = Some xb ->
                   (xa + width a / 2 == xb + width b / 2)%Q).
Proof.
  intros Hesf. induction rest as [|col rest IH]; intros i x xs Hdrop Hne Hnd Hwidth.
  - exists xs. split; [reflexivity|]. split; [reflexivity|]. intros p c a Hp. discriminate.
  - apply Forall_cons in Hne as [Hcol Hne]. cbn [concat] in Hnd.
    apply NoDup_app in Hnd as (Hndc & Hdisj & Hndr).
    destruct (max_of (width <$> col)) as [M|] eqn:EM;
      [|destruct col; [contradiction|discriminate]].
    assert (HM : forall v, v ∈ col -> (width v <= M)%Q).
    { intros v Hv. apply (max_of_ge _ _ _ EM). apply list_elem_of_fmap. now exists v. }
    set (xs1 := foldl (fun m v => <[v := (x - (width v - M) / 2)%Q]> m) xs col).
    set (maxd := default 0%Q (max_of (concat ((fun v => Qabs <$> socket_y_diffs v) <$> col)))).
    set (x1 := (x + (M + _COL_SPACE_FAC * esf * maxd + margin_x))%Q).
    assert (Hmaxd : (0 <= maxd)%Q).
    { apply max_of_default_nonneg. intros y Hy.
      apply PlacementFacts.elem_of_concat in Hy as (l & Hy & Hl).
      apply list_elem_of_fmap in Hl as (v & -> & _).
      apply list_elem_of_fmap in Hy as (d & -> & _). apply Qabs_nonneg. }
    assert (HM0 : (0 <= M)%Q).
    { destruct col as [|v col]; [contradiction|].
      eapply Qle_trans; [apply (Hwidth v); left|]. apply HM. left. }
    assert (Hx1 : (x + M + margin_x <= x1)%Q).
    { assert (H0 : (0 <= _COL_SPACE_FAC * esf * maxd)%Q).
      { apply Qmult_le_0_compat; [|exact Hmaxd].
        apply Qmult_le_0_compat; [|exact Hesf]. unfold _COL_SPACE_FAC. lra. }
      unfold x1. lra. }
    assert (Hcoli : columns !! i = Some col).
    { rewrite <- (Nat.add_0_r i), <- lookup_drop, Hdrop. reflexivity. }
    assert (Hdrop' : drop (S i) columns = rest).
    { rewrite (drop_S _ _ _ Hcoli) in Hdrop. now injection Hdrop. }
    destruct (last columns) as [last_col|] eqn:Elast;
      [|apply last_None in Elast; rewrite Elast in Hcoli; discriminate].
    assert (Hstep : exists X, (x1 <= X)%Q
              /\ assign_x_loop width cluster_of socket_y_diffs margin_x esf columns i
                   (col :: rest) x xs
                 = assign_x_loop width cluster_of socket_y_diffs margin_x esf columns (S i)
                     rest X xs1).
    { cbn [assign_x_loop]. rewrite EM. cbn [mbind option_bind]. rewrite Elast.
      cbn [mbind option_bind]. fold xs1. fold maxd. fold x1.
      case_bool_decide as Hlast.
      - exists x1. split; [apply Qle_refl|reflexivity].
      - destruct rest as [|next rest'].
        + exfalso. apply Hlast. rewrite last_lookup in Elast.
          assert (length columns = S i) as Elen.
          { apply lookup_lt_Some in Hcoli. apply drop_nil_inv in Hdrop'. lia. }
          rewrite Elen in Elast. cbn in Elast. congruence.
        + assert (Hnext : columns !! S i = Some next).
          { rewrite <- (Nat.add_0_r (S i)), <- lookup_drop, Hdrop'. reflexivity. }
          rewrite Hnext. cbn [mbind option_bind].
          destruct (sets_differ (cluster_of <$> col) (cluster_of <$> next)).
          * exists (x1 + _FRAME_PADDING)%Q. split; [unfold _FRAME_PADDING; lra|reflexivity].
          * exists x1. split; [apply Qle_refl|reflexivity]. }
    destruct Hstep as (X & HX & Hstep).
    destruct (IH (S i) X xs1 Hdrop' Hne Hndr) as (xs' & Hrun & Hout & Hin).
    { intros v Hv. apply Hwidth. cbn [concat]. apply elem_of_app. now right. }
    exists xs'. split; [rewrite Hstep; exact Hrun|]. split.
    + intros v Hv. rewrite Hout by (intros H; apply Hv; apply elem_of_app; now right).
      unfold xs1. rewrite foldl_insert_fun_lookup, decide_False; [reflexivity|].
      intros H. apply Hv. apply elem_of_app. now left.
    + assert (Hcolx : forall a, a ∈ col -> xs' !! a = Some (x - (width a - M) / 2)%Q).
      { intros a Ha. rewrite Hout by (intros H; exact (Hdisj a Ha H)).
        unfold xs1. rewrite foldl_insert_fun_lookup, decide_True by exact Ha. reflexivity. }
      intros [|p] c a Hp Ha.
      * cbn in Hp. injection Hp as <-. exists (x - (width a - M) / 2)%Q.
        pose proof (HM a Ha) as Hwa.
        split; [exact (Hcolx a Ha)|]. split; [rewrite ?half_eq; lra|]. split.
        -- intros [|q] c' b xb Hq Hc' Hb Hxb; [lia|]. cbn in Hc'.
           destruct (Hin q c' b Hc' Hb) as (xb' & Hxb' & HXb & _).
           rewrite Hxb in Hxb'. injection Hxb' as <-. rewrite ?half_eq. lra.
        -- intros b xb Hb Hxb. rewrite (Hcolx b Hb) in Hxb. injection Hxb as <-.
           rewrite ?half_eq. lra.
      * cbn in Hp. destruct (Hin p c a Hp Ha) as (xa & Hxa & HXa & Hsep & Hcen).
        exists xa. split; [exact Hxa|]. split; [lra|]. split; [|exact Hcen].
        intros [|q] c' b xb Hq Hc' Hb Hxb; [lia|]. cbn in Hc'.
        apply (Hsep q c' b xb); [lia|exact Hc'|exact Hb|exact Hxb].
Qed.

End XCoordsFacts.

(** X15.  With a positive [config.MARGIN.x], non-empty columns, no node in
    two columns and no negative width, the loop of [assign_x_coords_and_route_edges] raises no
    error and lays the columns out from left to right without overlap:
    every node gets a non-negative [x], the nodes of a column are centred
    on one vertical axis, and a node of a later column starts at least
    [MARGIN.x] to the right of the right edge of any node of an earlier
    column.  Nodes outside the columns keep their [x]. *)
Theorem assign_x_coords_separates_columns (width : nat -> Q) (cluster_of : nat -> nat)
    (socket_y_diffs : nat -> list Q) (margin_x : Q) (columns : list (list nat))
    (xs0 : gmap nat Q) :
  (0 < margin_x)%Q -> Forall (fun c => c <> []) columns -> NoDup (concat columns) ->
  (forall v, v ∈ concat columns -> (0 <= width v)%Q) ->
  exists xs,
    assign_x_coords width cluster_of socket_y_diffs margin_x columns xs0 = Some xs
    /\ (forall v, v ∉ concat columns -> xs !! v = xs0 !! v)
    /\ forall i c a, columns !! i = Some c -> a ∈ c ->
         exists xa, xs !! a = Some xa /\ (0 <= xa)%Q
           /\ (forall j c' b xb, i < j -> columns !! j = Some c' -> b ∈ c' ->
                 xs !! b = Some xb -> (xa + width a + margin_x <= xb)%Q)
           /\ (forall b xb, b ∈ c -> xs !! b = Some xb ->
                 (xa + width a / 2 == xb + width b / 2)%Q).
Proof.
  intros Hmargin Hne Hnd Hwidth. unfold assign_x_coords, edge_space_fac.
  destruct (Qeq_bool margin_x 0) eqn:E; [apply Qeq_bool_iff in E; lra|].
  cbn [mbind option_bind].
  apply (assign_x_loop_spec width cluster_of socket_y_diffs margin_x Hmargin _ columns);
    [|reflexivity|exact Hne|exact Hnd|exact Hwidth].
  unfold Placement.fmin. destruct (Qle_bool 1 (_EDGE_SPACING / margin_x)); [lra|].
  apply Qle_shift_div_l; [exact Hmargin|]. unfold _EDGE_SPACING. lra.
Qed.

Lemma assign_x_coords_separates_columns_witness :
  exists xs,
    assign_x_coords (fun v => inject_Z (Z.of_nat (100 + v))) (fun _ => 10) (fun _ => [])
      50%Q [[0; 1]; [2]] ∅ = Some xs
    /\ (forall v, v ∉ concat [[0; 1]; [2]] -> xs !! v = (∅ : gmap nat Q) !! v)
    /\ forall i c a, [[0; 1]; [2]] !! i = Some c -> a ∈ c ->
         exists xa, xs !! a = Some xa /\ (0 <= xa)%Q
           /\ (forall j c' b xb, i < j -> [[0; 1]; [2]] !! j = Some c' -> b ∈ c' ->
                 xs !! b = Some xb
                 -> (xa + inject_Z (Z.of_nat (100 + a)) + 50 <= xb)%Q)
           /\ (forall b xb, b ∈ c -> xs !! b = Some xb ->
                 (xa + inject_Z (Z.of_nat (100 + a)) / 2
                  == xb + inject_Z (Z.of_nat (100 + b)) / 2)%Q).
Proof.
  apply (assign_x_coords_separates_columns (fun v => inject_Z (Z.of_nat (100 + v)))
           (fun _ => 10) (fun _ => []) 50%Q [[0; 1]; [2]] ∅).
  - reflexivity.
  - repeat constructor; discriminate.
  - apply (bool_decide_unpack (NoDup _)). vm_compute. exact I.
  - intros v _. change 0%Q with (inject_Z 0). rewrite <- Zle_Qle. lia.
Defined.

(** *** Dummy nodes on long edges *)

Lemma mg_add_edge_edges (u v : nat) (from to : Socket) (G : MultiGraph) (e : MEdge) :
  e ∈ mg_edges (mg_add_edge u v from to G)
  <-> e ∈ mg_edges G \/ e = mkMEdge u v (new_edge_key (mg_edges G) u v) from to.
Proof. unfold mg_add_edge. cbn [mg_edges]. now rewrite elem_of_app, list_elem_of_singleton. Qed.

Lemma dummy_edges_spec (ps : list (nat * nat)) :
  forall G,
    (forall e, e ∈ mg_edges G ->
               e ∈ mg_edges (foldl (fun G p => add_dummy_edge p.1 p.2 G) G ps))
    /\ (forall e, e ∈ mg_edges (foldl (fun G p => add_dummy_edge p.1 p.2 G) G ps) ->
                  e ∈ mg_edges G \/ exists p, p ∈ ps /\ m_s e = p.1 /\ m_t e = p.2)
    /\ (forall p, p ∈ ps ->
          exists e, e ∈ mg_edges (foldl (fun G p => add_dummy_edge p.1 p.2 G) G ps)
                    /\ m_s e = p.1 /\ m_t e = p.2).
Proof.
  induction ps as [|p ps IH]; intros G; cbn [foldl].
  - split; [auto|]. split; [auto|]. intros p Hp. inversion Hp.
  - destruct (IH (add_dummy_edge p.1 p.2 G)) as (Hkeep & Hfrom & Hnew).
    split; [|split].
    + intros e He. apply Hkeep. apply mg_add_edge_edges. now left.
    + intros e He. apply Hfrom in He as [He|(q & Hq & Hs & Ht)].
      * apply mg_add_edge_edges in He as [He | ->]; [now left|].
        right. exists p. split; [left|]. now split.
      * right. exists q. split; [now right|]. now split.
    + intros q Hq. apply elem_of_cons in Hq as [->|Hq]; [|now apply Hnew].
      eexists. split; [apply Hkeep; apply mg_add_edge_edges; right; reflexivity|].
      now split.
Qed.

Lemma length_range (a b : Z) : length (range a b) = Z.to_nat (b - a).
Proof. unfold range. now rewrite length_fmap, length_seq. Qed.

Lemma lookup_range (a b : Z) (j : nat) :
  j < Z.to_nat (b - a) -> range a b !! j = Some (a + Z.of_nat j)%Z.
Proof.
  intros Hj. unfold range. rewrite list_lookup_fmap, lookup_seq_lt by exact Hj. reflexivity.
Qed.

Lemma make_dummies_spec (c : nat) (ranks : list Z) :
  forall st ws st',
    make_dummies c ranks st = (ws, st') ->
    ws = seq (lay_fresh st) (length ranks)
    /\ lay_fresh st' = lay_fresh st + length ranks
    /\ lay_G st' = lay_G st
    /\ (forall e, e ∈ edges (lay_T st) -> e ∈ edges (lay_T st'))
    /\ (forall x, x < lay_fresh st ->
          lay_rank st' x = lay_rank st x /\ lay_cluster st' x = lay_cluster st x
          /\ lay_type st' x = lay_type st x)
    /\ forall j i, ranks !! j = Some i ->
         lay_rank st' (lay_fresh st + j) = i
         /\ lay_cluster st' (lay_fresh st + j) = c
         /\ lay_type st' (lay_fresh st + j) = DUMMY
         /\ (c, lay_fresh st + j) ∈ edges (lay_T st').
Proof.
  induction ranks as [|i ranks IH]; intros st ws st'; cbn [make_dummies].
  - intros [= <- <-]. cbn. rewrite Nat.add_0_r. repeat split; auto. all: discriminate.
  - set (st1 := mkLayering _ _ _ _ _ _).
    destruct (make_dummies c ranks st1) as [ws1 st2] eqn:Hrec. intros [= <- <-].
    destruct (IH st1 ws1 st2 Hrec) as (Hws & Hfresh & HG & HT & Hold & Hnew).
    cbn [lay_fresh lay_G lay_T lay_rank lay_cluster lay_type st1] in *.
    split; [cbn; now rewrite Hws|]. split; [cbn [length]; lia|]. split; [exact HG|].
    split; [|split].
    + intros e He. apply HT. apply add_edge_edges. now right.
    + intros x Hx. destruct (Hold x ltac:(lia)) as (H1 & H2 & H3).
      rewrite H1, H2, H3. rewrite !decide_False by lia. auto.
    + intros [|j] i' Hj.
      * cbn in Hj. injection Hj as <-. rewrite Nat.add_0_r.
        destruct (Hold (lay_fresh st) ltac:(lia)) as (H1 & H2 & H3).
        rewrite H1, H2, H3. rewrite !decide_True by reflexivity.
        split; [reflexivity|]. split; [reflexivity|]. split; [reflexivity|].
        apply HT. apply add_edge_edges. now left.
      * cbn in Hj. replace (lay_fresh st + S j) with (S (lay_fresh st) + j) by lia.
        now apply Hnew.
Qed.

Lemma insert_step_inv (lca : gmap (nat * nat) nat) (pairs : list (nat * nat))
    (st0 st : Layering) (t : nat * nat * nat) (rest : list (nat * nat * nat)) :
  dummy_inv st0 st (t :: rest) -> NoDup (t :: rest) ->
  ((t.1.1, t.1.2) ∈ pairs -> is_Some (lca !! (t.1.1, t.1.2))) ->
  exists st', insert_step lca pairs st t = Some st' /\ dummy_inv st0 st' rest.
Proof.
  intros (I1 & I2 & I3 & I4 & I5 & I6 & I7 & I8) Hnd Hlca.
  apply NoDup_cons in Hnd as [Ht Hnd].
  destruct t as [[u v] k]. cbn [fst snd] in Hlca.
  destruct (I3 (u, v, k)) as (et & Het & Etri & Hu & Hv & Hspan); [left|].
  cbn [fst snd] in Hu, Hv.
  assert (Es : m_s et = u /\ m_t et = v) by (unfold triple in Etri; now injection Etri).
  destruct Es as (Esu & Etv).
  unfold span in Hspan. rewrite Esu, Etv in Hspan.
  unfold insert_step. cbn [fst snd].
  assert (Hc : exists c, (if bool_decide ((u, v) ∈ pairs) then lca !! (u, v)
                          else Some (lay_cluster st u)) = Some c).
  { case_bool_decide as Hp; [destruct (Hlca Hp) as [c Hc]; eauto|eauto]. }
  destruct Hc as [c ->]. cbn [mbind option_bind].
  set (ru := lay_rank st u) in *. set (rv := lay_rank st v) in *.
  destruct (make_dummies c (range (ru + 1) rv) st) as [ws st1] eqn:Hmk.
  destruct (make_dummies_spec c _ st ws st1 Hmk) as (Hws & Hfresh & HG & _ & Hold & Hnew).
  rewrite length_range in Hws, Hfresh.
  set (f := lay_fresh st) in *.
  destruct (Z.to_nat (rv - (ru + 1))) as [|m'] eqn:Em; [lia|].
  assert (Hrank_new : forall j, j < S m' -> lay_rank st1 (f + j) = (ru + 1 + Z.of_nat j)%Z).
  { intros j Hj. apply Hnew. apply lookup_range. lia. }
  assert (Hrank_old : forall x, x < f -> lay_rank st1 x = lay_rank st x).
  { intros x Hx. now destruct (Hold x Hx). }
  assert (Hpair : forall a b, (a, b) ∈ pairwise ws
                              <-> exists j, S j < S m' /\ a = f + j /\ b = f + S j).
  { intros a b. rewrite PlacementFacts.pairwise_lookup, Hws. split.
    - intros (j & Ha & Hb). apply lookup_seq in Ha as [-> _]. apply lookup_seq in Hb as [-> Hb].
      exists j. auto.
    - intros (j & Hj & -> & ->). exists j. split; apply lookup_seq; split; lia || reflexivity. }
  assert (Hlast : last ws = Some (f + m')).
  { rewrite Hws, last_lookup, length_seq. cbn [pred]. apply lookup_seq. split; [reflexivity|lia]. }
  destruct ws as [|w ws']; [discriminate|].
  assert (w = f) as -> by (cbn [seq] in Hws; now injection Hws).
  unfold add_dummy_nodes_to_edge. rewrite Hlast.
  set (G1 := foldl (fun G p => add_dummy_edge p.1 p.2 G) (lay_G st1) (pairwise (f :: ws'))).
  destruct (dummy_edges_spec (pairwise (f :: ws')) (lay_G st1)) as (Hkeep & Hfrom & Hmade).
  fold G1 in Hkeep, Hfrom, Hmade. rewrite HG in Hkeep, Hfrom.
  destruct (List.find (fun e => bool_decide (triple e = (u, v, k))) (mg_edges G1)) as [d|] eqn:Hfind.
  2:{ exfalso.
      pose proof (find_none _ _ Hfind et (proj1 (list_elem_of_In _ _) (Hkeep et Het))) as Hn.
      cbn beta in Hn. rewrite bool_decide_eq_true_2 in Hn by exact Etri. discriminate. }
  cbn [mbind option_bind fst snd].
  set (e_uw := mkMEdge u f (new_edge_key (mg_edges G1) u f) (m_from d) (mkSocket f 0 false)).
  set (G2 := mg_add_edge u f (m_from d) (mkSocket f 0 false) G1).
  set (e_zv := mkMEdge (f + m') v (new_edge_key (mg_edges G2) (f + m') v)
                       (mkSocket (f + m') 0 true) (m_to d)).
  set (G3 := mg_add_edge (f + m') v (mkSocket (f + m') 0 true) (m_to d) G2).
  eexists. split; [reflexivity|].
  set (G' := mg_remove_edge (u, v, k) G3).
  assert (Hin' : forall e, e ∈ mg_edges G'
            <-> triple e <> (u, v, k) /\ (e ∈ mg_edges G1 \/ e = e_uw \/ e = e_zv)).
  { intros e. unfold G', mg_remove_edge. cbn [mg_edges]. rewrite list_elem_of_filter.
    unfold G3. rewrite mg_add_edge_edges. unfold G2. rewrite mg_add_edge_edges.
    fold G2 e_uw e_zv. tauto. }
  assert (Hf0 : lay_fresh st0 <= f) by exact I5.
  assert (Hstay : forall e, e ∈ mg_edges (lay_G st) -> triple e <> (u, v, k) ->
                            e ∈ mg_edges G').
  { intros e He Hne. apply Hin'. split; [exact Hne|]. left. now apply Hkeep. }
  assert (Hspan_old : forall e, e ∈ mg_edges (lay_G st) ->
            span (set_G G' st1) e = span st e).
  { intros e He. destruct (I1 e He) as [H1 H2]. unfold span. cbn [set_G lay_rank].
    now rewrite !Hrank_old by assumption. }
  assert (Hru : lay_rank st1 u = ru) by (apply Hrank_old; lia).
  assert (Hrv : lay_rank st1 v = rv) by (apply Hrank_old; lia).
  assert (Hclass : forall e, e ∈ mg_edges G' ->
            (e ∈ mg_edges (lay_G st) /\ triple e <> (u, v, k))
            \/ (span (set_G G' st1) e = 1%Z /\ (f <= m_s e \/ f <= m_t e)
                /\ m_s e < f + S m' /\ m_t e < f + S m')).
  { intros e He. apply Hin' in He as [Hne [He|[->| ->]]].
    - apply Hfrom in He as [He|([a b] & Hp & Hs & Hd)]; [now left|].
      right. apply Hpair in Hp as (j & Hj & -> & ->). cbn [fst snd] in Hs, Hd.
      unfold span. cbn [set_G lay_rank]. rewrite Hs, Hd.
      rewrite !Hrank_new by lia. split; [lia|]. split; [left; lia|lia].
    - right. unfold span. cbn [set_G lay_rank e_uw m_s m_t].
      rewrite Hru. replace f with (f + 0) at 1 by lia. rewrite Hrank_new by lia.
      split; [lia|]. split; [right; lia|lia].
    - right. unfold span. cbn [set_G lay_rank e_zv m_s m_t].
      rewrite Hrv, Hrank_new by lia. split; [lia|]. split; [left; lia|lia]. }
  assert (Hnew_uw : new_edge (lay_fresh st0) G' u f).
  { exists e_uw. split; [|cbn; split; [reflexivity|split; [reflexivity|right; lia]]].
    apply Hin'. split; [|right; now left]. unfold triple. cbn. intros [= ? ?]. lia. }
  assert (Hnew_zv : new_edge (lay_fresh st0) G' (f + m') v).
  { exists e_zv. split; [|cbn; split; [reflexivity|split; [reflexivity|left; lia]]].
    apply Hin'. split; [|right; now right]. unfold triple. cbn. intros [= ? ?]. lia. }
  assert (Hnew_pair : forall j, S j < S m' -> new_edge (lay_fresh st0) G' (f + j) (f + S j)).
  { intros j Hj. destruct (Hmade (f + j, f + S j)) as (e & He & Hs & Hd).
    { apply Hpair. now exists j. }
    cbn [fst snd] in Hs, Hd. exists e. split; [|split; [exact Hs|split; [exact Hd|left; lia]]].
    apply Hin'. split; [|now left]. unfold triple. rewrite Hs. intros [= ? ?]. lia. }
  split; [|split; [|split; [|split; [|split; [|split; [|split]]]]]];
    cbn [set_G lay_G lay_fresh lay_rank lay_cluster].
  - intros e He. fold G' in He. rewrite Hfresh.
    destruct (Hclass e He) as [[He0 _]|(_ & _ & H1 & H2)]; [|lia].
    destruct (I1 e He0). fold f in H, H0. lia.
  - intros e He Hlong. fold G' in He.
    destruct (Hclass e He) as [[He0 Hne]|(H1 & _)]; [|lia].
    rewrite (Hspan_old e He0) in Hlong.
    specialize (I2 e He0 Hlong). apply elem_of_cons in I2 as [?|?]; [contradiction|assumption].
  - intros t' Ht'. destruct (I3 t') as (e & He & Etri' & Hu' & Hv' & Hspan'); [now right|].
    exists e. split; [apply Hstay; [exact He|rewrite Etri'; intros ->; contradiction]|].
    split; [exact Etri'|]. split; [exact Hu'|]. split; [exact Hv'|].
    now rewrite (Hspan_old e He).
  - intros x Hx. destruct (Hold x ltac:(lia)) as (H1 & H2 & _). destruct (I4 x Hx) as [H3 H4].
    split; congruence.
  - lia.
  - intros e He0 Hshort. fold G'. apply Hstay; [now apply I6|].
    intros Etri'. unfold triple in Etri'. injection Etri' as Hs Hd _.
    unfold span in Hshort. rewrite Hs, Hd in Hshort.
    destruct (I4 u Hu) as [Hr1 _]. destruct (I4 v Hv) as [Hr2 _].
    fold ru in Hr1. fold rv in Hr2. lia.
  - intros e He. fold G' in He.
    destruct (Hclass e He) as [[He0 Hne]|(H1 & H2 & _)].
    + destruct (I7 e He0) as [?|[H1 H2]]; [now left|].
      right. split; [now rewrite (Hspan_old e He0)|exact H2].
    + right. split; [exact H1|lia].
  - intros e0 He0 Hlong Hnot. fold G'.
    destruct (decide (triple e0 = (u, v, k))) as [Etri0|Hne0].
    + unfold triple in Etri0. injection Etri0 as Hs Hd _. rewrite Hs, Hd.
      assert (Hchain : forall j, j < S m' -> tc (new_edge (lay_fresh st0) G') u (f + j)).
      { induction j as [|j IHj]; intros Hj.
        - rewrite Nat.add_0_r. now apply tc_once.
        - eapply tc_r; [apply IHj; lia|]. now apply Hnew_pair. }
      eapply tc_r; [apply (Hchain m'); lia|exact Hnew_zv].
    + assert (Hnot' : triple e0 ∉ (u, v, k) :: rest).
      { intros Hin. apply elem_of_cons in Hin as [?|?]; contradiction. }
      specialize (I8 e0 He0 Hlong Hnot').
      apply (tc_congruence (fun x => x) (new_edge (lay_fresh st0) G')) in I8; [exact I8|].
      intros a b (e & He & Hs & Hd & Hnew'). exists e.
      split; [|split; [exact Hs|split; [exact Hd|exact Hnew']]].
      apply Hstay; [exact He|]. unfold triple. rewrite Hs, Hd. intros [= -> -> _]. lia.
Qed.

Lemma insert_steps_inv (lca : gmap (nat * nat) nat) (pairs : list (nat * nat))
    (st0 : Layering) :
  forall (todo : list (nat * nat * nat)) (st : Layering),
    dummy_inv st0 st todo -> NoDup todo ->
    (forall t, t ∈ todo -> (t.1.1, t.1.2) ∈ pairs -> is_Some (lca !! (t.1.1, t.1.2))) ->
    exists st', insert_steps lca pairs st todo = Some st' /\ dummy_inv st0 st' [].
Proof.
  induction todo as [|t todo IH]; intros st Hinv Hnd Hlca.
  - exists st. split; [reflexivity|exact Hinv].
  - destruct (insert_step_inv lca pairs st0 st t todo Hinv Hnd) as (st1 & Hstep & Hinv1).
    { apply Hlca. left. }
    apply NoDup_cons in Hnd as [_ Hnd].
    destruct (IH st1 Hinv1 Hnd) as (st' & Hrun & Hinv').
    { intros t' Ht'. apply Hlca. now right. }
    exists st'. split; [|exact Hinv']. cbn [insert_steps]. rewrite Hstep. exact Hrun.
Qed.

(** X18.  The first loop of [insert_dummy_nodes] subdivides the long edges.
    Let the edges of [G] join nodes that exist, let the keys tell the long
    parallel edges apart and let [lca] have an entry for every long edge
    between two clusters.  Then the loop raises no error; afterwards no
    edge of [G] spans more than one rank; an edge of the result is an edge
    of before or joins a new dummy node over exactly one rank; the edges
    that spanned at most one rank are all kept; every long edge is gone,
    and its source still reaches its target along edges through the new
    dummy nodes; the old nodes keep their ranks and clusters. *)
Theorem insert_dummy_nodes_subdivides_long_edges (lca : gmap (nat * nat) nat)
    (st : Layering) :
  (forall e, e ∈ mg_edges (lay_G st) -> m_s e < lay_fresh st /\ m_t e < lay_fresh st) ->
  NoDup (long_edges st) ->
  (forall e, e ∈ mg_edges (lay_G st) -> (1 < span st e)%Z ->
             lay_cluster st (m_s e) <> lay_cluster st (m_t e) ->
             is_Some (lca !! (m_s e, m_t e))) ->
  exists st',
    insert_dummy_nodes lca st = Some st'
    /\ (forall e, e ∈ mg_edges (lay_G st') -> (span st' e <= 1)%Z)
    /\ (forall e, e ∈ mg_edges (lay_G st') ->
          e ∈ mg_edges (lay_G st)
          \/ (span st' e = 1%Z /\ (lay_fresh st <= m_s e \/ lay_fresh st <= m_t e)))
    /\ (forall e, e ∈ mg_edges (lay_G st) -> (span st e <= 1)%Z -> e ∈ mg_edges (lay_G st'))
    /\ (forall e, e ∈ mg_edges (lay_G st) -> (1 < span st e)%Z ->
          (e ∉ mg_edges (lay_G st'))
          /\ tc (new_edge (lay_fresh st) (lay_G st')) (m_s e) (m_t e))
    /\ (forall x, x < lay_fresh st ->
          lay_rank st' x = lay_rank st x /\ lay_cluster st' x = lay_cluster st x).
Proof.
  intros H0 Hnd Hlca.
  assert (Hlong : forall t, t ∈ long_edges st <->
            exists e, e ∈ mg_edges (lay_G st) /\ (1 < span st e)%Z /\ triple e = t).
  { intros t. unfold long_edges. rewrite list_elem_of_fmap. split.
    - intros (e & -> & He). apply list_elem_of_filter in He as [Hl He]. now exists e.
    - intros (e & He & Hl & <-). exists e. split; [reflexivity|].
      apply list_elem_of_filter. now split. }
  assert (Hinit : dummy_inv st st (long_edges st)).
  { split; [exact H0|]. split; [|split; [|split; [|split; [|split; [|split]]]]].
    - intros e He Hl. apply Hlong. now exists e.
    - intros t Ht. apply Hlong in Ht as (e & He & Hl & <-). exists e.
      destruct (H0 e He). cbn. auto.
    - auto.
    - lia.
    - auto.
    - intros e He. now left.
    - intros e He Hl Hnot. exfalso. apply Hnot. apply Hlong. now exists e. }
  destruct (insert_steps_inv lca
              ((fun e : nat * nat * nat => (e.1.1, e.1.2))
               <$> filter (fun e : nat * nat * nat =>
                             lay_cluster st e.1.1 <> lay_cluster st e.1.2) (long_edges st))
              st (long_edges st) st Hinit Hnd)
    as (st' & Hrun & I1 & I2 & I3 & I4 & I5 & I6 & I7 & I8).
  { intros t Ht Hp. apply list_elem_of_fmap in Hp as (t' & Et & Ht').
    apply list_elem_of_filter in Ht' as [Hcl Ht'].
    apply Hlong in Ht' as (e & He & Hl & <-). cbn [triple fst snd] in Et, Hcl.
    injection Et as -> ->. now apply Hlca. }
  exists st'. split; [exact Hrun|].
  assert (Hshort : forall e, e ∈ mg_edges (lay_G st') -> (span st' e <= 1)%Z).
  { intros e He. destruct (Z_le_gt_dec (span st' e) 1) as [H|H]; [exact H|].
    specialize (I2 e He ltac:(lia)). inversion I2. }
  split; [exact Hshort|]. split; [exact I7|]. split; [exact I6|]. split; [|exact I4].
  intros e He Hl. split.
  - intros He'. specialize (Hshort e He'). destruct (H0 e He) as [Hs Hd].
    destruct (I4 _ Hs) as [Hrs _]. destruct (I4 _ Hd) as [Hrd _].
    unfold span in Hshort, Hl. lia.
  - apply (I8 e He Hl). intros Hin. inversion Hin.
Qed.

Lemma insert_dummy_nodes_subdivides_long_edges_witness :
  exists st',
    insert_dummy_nodes ∅ long_edge_layering = Some st'
    /\ (forall e, e ∈ mg_edges (lay_G st') -> (span st' e <= 1)%Z)
    /\ (forall e, e ∈ mg_edges (lay_G st') ->
          e ∈ mg_edges (lay_G long_edge_layering)
          \/ (span st' e = 1%Z
              /\ (lay_fresh long_edge_layering <= m_s e
                  \/ lay_fresh long_edge_layering <= m_t e)))
    /\ (forall e, e ∈ mg_edges (lay_G long_edge_layering) ->
          (span long_edge_layering e <= 1)%Z -> e ∈ mg_edges (lay_G st'))
    /\ (forall e, e ∈ mg_edges (lay_G long_edge_layering) ->
          (1 < span long_edge_layering e)%Z ->
          (e ∉ mg_edges (lay_G st'))
          /\ tc (new_edge (lay_fresh long_edge_layering) (lay_G st')) (m_s e) (m_t e))
    /\ (forall x, x < lay_fresh long_edge_layering ->
          lay_rank st' x = lay_rank long_edge_layering x
          /\ lay_cluster st' x = lay_cluster long_edge_layering x).
Proof.
  apply (insert_dummy_nodes_subdivides_long_edges ∅ long_edge_layering).
  - intros e He. cbn in He.
    apply elem_of_cons in He as [->|He]; [cbn; lia|].
    apply list_elem_of_singleton in He as ->. cbn. lia.
  - apply (bool_decide_unpack (NoDup _)). vm_compute. exact I.
  - intros e He _ Hcl. exfalso. apply Hcl. reflexivity.
Defined.

(** The long edge 0 -> 1 over ranks 0 and 3 becomes the path
    0 -> 10 -> 11 -> 1 that keeps its sockets at both ends. *)
Example long_edge_subdivided :
  (mg_edges ∘ lay_G) <$> insert_dummy_nodes ∅ long_edge_layering
  = Some [mkMEdge 0 2 0 (mkSocket 0 1 true) (mkSocket 2 0 false);
          mkMEdge 10 11 0 (mkSocket 10 0 true) (mkSocket 11 0 false);
          mkMEdge 0 10 0 (mkSocket 0 0 true) (mkSocket 10 0 false);
          mkMEdge 11 1 0 (mkSocket 11 0 true) (mkSocket 1 0 false)].
Proof. vm_compute. reflexivity. Qed.

End SugiyamaFacts.
